(** * Verification of the update engine of the Ankama launcher

    A shallow embedding of the launcher's update engine, one module per
    source component:

    - [Sequencer]  : the action queue of [Update] (update.js)
    - [Fetcher]    : the response handler of the fetch module (fetch.js)
    - [Repository] : the repository client and its requests (repository.js)
    - [Repair]     : the Repair action (updateActionRepair.js) with the
                     promise pool it runs
    - [CtlPromise] : the ControllablePromise state machine
    - [DiffEngine] : DiffHelper (diffHelper.js) and updateHelper.js
    - [D2P]        : the D2P archive adapter (d2pAdapter.js)
    - [UpdateQueue]: the update queue (updateQueue.js) with the flags of
                     [Update] it reads and writes
    - [ArrayHelper], [FetchRetry], [UpdateSize], [SaveHashes],
      [DeleteFiles], [PromisePool]:
                     the helpers and actions around them (arrayHelper.js,
                     the retries of fetch.js, calculateUpdateSize,
                     updateActionSaveHashes.js, updateActionDeleteFiles.js,
                     promisePool.js)

    JavaScript objects used as dictionaries are finite maps ([gmap]) where
    only keyed access matters and association lists (in enumeration order)
    where the code iterates over them. Where the code tests what it reads
    under a file name for truthiness, the members that every object
    inherits from [Object.prototype] are read too ([Manifest.member]). *)

From Stdlib Require Import ZArith Lia Strings.Byte.
From stdpp Require Import base option list strings gmap fin_maps.

Local Open Scope list_scope.

(** * Part I: the model *)

(** ** Arrays compared without their order (arrayHelper.js) *)
Module ArrayHelper.

(** The test [!array2.find(...)]: [find] returns the first element that
    satisfies the predicate, [undefined] when there is none, and the
    empty string is as falsy as [undefined]. *)
Definition truthy (found : option string) : bool :=
  match found with
  | Some element => negb (String.eqb element "")
  | None => false
  end.

(** [equalsIgnoreOrder(array1, array2)] on arrays of strings, on which
    [deepEqual] is the equality of strings; [None] is [undefined] or
    [null]. *)
Definition equalsIgnoreOrder (array1 array2 : option (list string)) : bool :=
  match array1, array2 with
  | Some array1, Some array2 =>
      if negb (length array1 =? length array2)%nat then false
      else forallb (fun element1 =>
                      truthy (List.find (fun element2 =>
                                           String.eqb element1 element2)
                                array2)) array1
  | _, _ => false
  end.

End ArrayHelper.
(** ** The action queue of the sequencer (update.js) *)
Module Sequencer.

(** updateActionTypes.js: action types are plain strings. *)
Definition GET_REMOTE_HASHES := "GetRemoteHashes".
Definition GET_LOCAL_HASHES := "GetLocalHashes".
Definition REPAIR := "Repair".
Definition LOAD_CONFIGURATION := "LoadConfiguration".
Definition CREATE_DIFF := "CreateDiff".
Definition WRITE_RELEASE_INFOS := "WriteReleaseInfos".
Definition CHECK_CONFIGURATION := "CheckConfiguration".
Definition CREATE_DIRECTORIES := "CreateDirectories".
Definition DOWNLOAD_FRAGMENT := "DownloadFragment".
Definition DELETE_FILES := "DeleteFiles".
Definition CLEAR_EMPTY_DIRECTORIES := "ClearEmptyDirectories".
Definition SAVE_HASHES := "SaveHashes".

Definition CONFIGURATION_FRAGMENT := "configuration".

Inductive UpdateType := INSTALL | UPDATE | REPAIR_UPDATE | PRE_INSTALL.

Definition UpdateType_eqb (a b : UpdateType) : bool :=
  match a, b with
  | INSTALL, INSTALL | UPDATE, UPDATE
  | REPAIR_UPDATE, REPAIR_UPDATE | PRE_INSTALL, PRE_INSTALL => true
  | _, _ => false
  end.

(** The [params] object of a queued action: the fields the sequencer
    itself sets when it queues an action. *)
Record Params := mkParams {
  fragment : option string;
  fragments : option (list string);
  shouldEmitProgress : bool;
}.

Record QueuedAction := mkQueued {
  type : string;
  params : Params;
}.

Definition noParams : Params := mkParams None None false.

(** [createQueuedAction(type, additionalParams = null)] *)
Definition createQueuedAction (t : string) (p : option Params) : QueuedAction :=
  mkQueued t (default noParams p).

(** [createDiffQueuedAction(fragments)] *)
Definition createDiffQueuedAction (frs : list string) : QueuedAction :=
  let fragmentsWithConfiguration :=
    if bool_decide (CONFIGURATION_FRAGMENT ∈@{list string} frs) then frs
    else frs ++ [CONFIGURATION_FRAGMENT] in
  createQueuedAction CREATE_DIFF
    (Some (mkParams None (Some fragmentsWithConfiguration) false)).

(** [createDirectoriesQueuedAction(fragment)] *)
Definition createDirectoriesQueuedAction (fr : string) : QueuedAction :=
  createQueuedAction CREATE_DIRECTORIES (Some (mkParams (Some fr) None false)).

(** [createDownloadFragmentQueuedAction(fragment, shouldEmitProgress)] *)
Definition createDownloadFragmentQueuedAction (fr : string) (emit : bool)
  : QueuedAction :=
  createQueuedAction DOWNLOAD_FRAGMENT (Some (mkParams (Some fr) None emit)).

(** [createRepairQueuedAction()] *)
Definition createRepairQueuedAction (frs : list string) : QueuedAction :=
  createQueuedAction REPAIR
    (Some (mkParams None (Some (frs ++ [CONFIGURATION_FRAGMENT])) true)).

(** [static actionCanBeCanceledOnFragmentsChange(type)]:
    [!nonCancelableTypes.find(t => t === type)]; the four listed types are
    non-empty strings, so a found element is truthy. *)
Definition nonCancelableTypes : list string :=
  [GET_REMOTE_HASHES; LOAD_CONFIGURATION; CHECK_CONFIGURATION;
   WRITE_RELEASE_INFOS].

Definition actionCanBeCanceledOnFragmentsChange (t : string) : bool :=
  match List.find (fun nonCancelableType => String.eqb nonCancelableType t)
          nonCancelableTypes with
  | Some _ => false
  | None => true
  end.

(** [Array.prototype.splice(i, 1)] *)
Definition splice1 {A} (i : nat) (l : list A) : list A :=
  take i l ++ drop (S i) l.

(** The loop of [clearQueueOnFragmentsChange]:
    [for (let i = length - 1; i >= 0; i--)]; [n] is [i + 1]. *)
Fixpoint clearLoop (n : nat) (q : list QueuedAction) : list QueuedAction :=
  match n with
  | O => q
  | S i =>
      match q !! i with
      | Some action =>
          if actionCanBeCanceledOnFragmentsChange (type action)
          then clearLoop i (splice1 i q)
          else clearLoop i q
      | None => clearLoop i q
      end
  end.

Definition clearQueueOnFragmentsChange (q : list QueuedAction)
  : list QueuedAction :=
  clearLoop (length q) q.

(** [createDiffActions], [createFragmentDownloadActions],
    [createFinalActions]: each pushes onto the queue. *)
Definition createDiffActions (frs : list string) (q : list QueuedAction) :=
  q ++ [createDiffQueuedAction frs].

Definition createFragmentDownloadActions (frs : list string)
    (q : list QueuedAction) :=
  foldl (fun q fr =>
           (q ++ [createDirectoriesQueuedAction fr])
             ++ [createDownloadFragmentQueuedAction fr true]) q frs.

Definition createFinalActions (q : list QueuedAction) :=
  ((q ++ [createQueuedAction DELETE_FILES None])
     ++ [createQueuedAction CLEAR_EMPTY_DIRECTORIES None])
    ++ [createQueuedAction SAVE_HASHES None].

(** [createActionsOnFragmentsChange], the part acting on the queue. *)
Definition createActionsOnFragmentsChange (ty : UpdateType)
    (frs : list string) (q : list QueuedAction) : list QueuedAction :=
  if negb (UpdateType_eqb ty PRE_INSTALL) then
    createFinalActions
      (createFragmentDownloadActions frs
         (createDiffActions frs (q ++ [createQueuedAction SAVE_HASHES None])))
  else q.

(** The fields of [Update] that [setFragments] reads and writes. *)
Record Update := mkUpdate {
  updType : UpdateType;
  _fragments : option (list string);
  isRunning : bool;
  _actionsQueue : list QueuedAction;
}.

(** [setFragments(fragments = [])]: effect on the fragments and on the
    queue; [_fragments] is [undefined] at the first call, from the
    constructor. *)
Definition setFragments (frs : list string) (u : Update) : Update :=
  if ArrayHelper.equalsIgnoreOrder (Some frs) (_fragments u) then u
  else if isRunning u then
    mkUpdate (updType u) (Some frs) true
      (createActionsOnFragmentsChange (updType u) frs
         (clearQueueOnFragmentsChange (_actionsQueue u)))
  else mkUpdate (updType u) (Some frs) (isRunning u) (_actionsQueue u).

(** The actions kept by the clearing, as a filter. *)
Definition kept (a : QueuedAction) : bool :=
  negb (actionCanBeCanceledOnFragmentsChange (type a)).

(** [createInitialActions()], pushing onto the queue. *)
Definition createInitialActions (ty : UpdateType) (frs : list string)
    (q : list QueuedAction) : list QueuedAction :=
  let q := q ++ [createQueuedAction GET_REMOTE_HASHES None] in
  let q := if UpdateType_eqb ty REPAIR_UPDATE
           then q ++ [createRepairQueuedAction frs] else q in
  let q := if UpdateType_eqb ty INSTALL || UpdateType_eqb ty UPDATE
           then q ++ [createQueuedAction GET_LOCAL_HASHES None] else q in
  ((((q ++ [createDiffQueuedAction [CONFIGURATION_FRAGMENT]])
       ++ [createDownloadFragmentQueuedAction CONFIGURATION_FRAGMENT false])
      ++ [createQueuedAction LOAD_CONFIGURATION None])
     ++ [createQueuedAction CHECK_CONFIGURATION None])
    ++ [createQueuedAction WRITE_RELEASE_INFOS None].

(** [initQueue()] *)
Definition initQueue (ty : UpdateType) (frs : list string)
  : list QueuedAction :=
  let q := createInitialActions ty frs [] in
  if negb (UpdateType_eqb ty PRE_INSTALL) then
    createFinalActions
      (createFragmentDownloadActions frs (createDiffActions frs q))
  else q.

(** The queue right after [start()]: [initQueue()], then
    [launchNextAction()] shifts the first action out of the queue. *)
Definition queueAfterStart (ty : UpdateType) (frs : list string)
  : list QueuedAction :=
  tail (initQueue ty frs).

(** The claim as the specification words it: the queue is cut down to
    the actions of the five listed types. *)
Definition specKeptTypes : list string :=
  [GET_REMOTE_HASHES; GET_LOCAL_HASHES; LOAD_CONFIGURATION;
   CHECK_CONFIGURATION; WRITE_RELEASE_INFOS].

Definition specClearedQueue (q : list QueuedAction) : list QueuedAction :=
  List.filter (fun a => bool_decide (type a ∈ specKeptTypes)) q.

(** The queue a fragment change leaves behind is described by this filter. *)
Definition nonCancelable (a : QueuedAction) : bool :=
  bool_decide (type a ∈ nonCancelableTypes).

End Sequencer.

(** ** The repository client (repository.js) *)
Module Repository.

(** What an HTTP request carries, as far as the engine sets it. *)
Record Request := mkRequest {
  url : string;
  hostHeader : option string;
  rangeHeader : option N;
  timeout : N;
  useElectronNet : bool;
}.

(** The fields of [url.parse(server)] the constructor reads; [portOf] is
    the part of [host] after the colon, when there is one. *)
Record ParsedUrl := mkParsedUrl {
  protocol : string;
  hostnameOf : string;
  portOf : option string;
  pathname : string;
}.

Definition hostOf (info : ParsedUrl) : string :=
  match portOf info with
  | Some p => hostnameOf info +:+ ":" +:+ p
  | None => hostnameOf info
  end.

Record Infos := mkInfos {
  infoProtocol : string;
  infoHost : string;
  infoHostname : string;
  infoPort : string;
  infoPathname : string;
}.

Record Repository := mkRepository {
  server : string;
  cachedServers : list string;
  host : string;
  infos : Infos;
  (** delay of the pending refresh timer, in milliseconds *)
  refreshCachedServersTimeout : option N;
}.

(** [pathname.endsWith('/')] and [pathname.slice(0, -1)] *)
Fixpoint stripTrailingSlash (s : string) : string :=
  match s with
  | EmptyString => EmptyString
  | String c EmptyString => if Ascii.eqb c (Ascii.ascii_of_nat 47) then EmptyString else s
  | String c rest => String c (stripTrailingSlash rest)
  end.

(** The constructor, up to the first [refreshCachedServers()]; it throws
    when the protocol is neither http: nor https:. *)
Definition newRepository (info : ParsedUrl) : option Repository :=
  if negb (String.eqb (protocol info) "http:")
     && negb (String.eqb (protocol info) "https:")
  then None
  else
    let pathname := stripTrailingSlash (pathname info) in
    let port := match portOf info with
                | Some p => p
                | None => if String.eqb (protocol info) "https:"
                          then "443" else "80"
                end in
    let server := protocol info +:+ "//" +:+ hostOf info +:+ pathname in
    Some (mkRepository server [server] (hostOf info)
            (mkInfos (protocol info) (hostOf info) (hostnameOf info)
               port pathname)
            None).

Definition MIN_TTL : N := 30.

(** [refreshCachedServers()]: the outcome of [dns.resolve4] is the list of
    [(address, ttl)] records, or an error. *)
Definition refreshCachedServers (answer : option (list (string * N)))
    (r : Repository) : Repository :=
  match answer with
  | Some addresses =>
      let minComputedTtl :=
        foldl (fun m '(_, ttl) => if (ttl <? m)%N then ttl else m)
          (MIN_TTL * 10)%N addresses in
      mkRepository (server r)
        (map (fun '(address, _) =>
                infoProtocol (infos r) +:+ "//" +:+ address +:+ ":"
                  +:+ infoPort (infos r) +:+ infoPathname (infos r))
           addresses)
        (host r) (infos r)
        (Some (N.max MIN_TTL minComputedTtl * 1000)%N)
  | None => r
  end.

(** [streamableRequest(subPath)]: the request of the attempt numbered
    [retriesCount] (promise-retry counts from 1). *)
Definition streamableRequest (allowInsecureHttps : bool) (r : Repository)
    (subPath : string) (retriesCount : N) : Request :=
  mkRequest (server r +:+ subPath) None None (2000 * retriesCount)
    (negb allowInsecureHttps).

(** [Array.prototype.join('/')] *)
Fixpoint joinSlash (parts : list string) : string :=
  match parts with
  | [] => ""
  | [p] => p
  | p :: rest => p +:+ "/" +:+ joinSlash rest
  end.

(** [getRelease], [getReleaseMeta], [getReleaseConfig], [getGamesList]:
    all go through [fetchJSON], [fetch], [request], [streamableRequest]. *)
Definition releaseFile (gameUid release platform version ext : string)
  : string :=
  joinSlash [""; gameUid; "releases"; release; platform; version +:+ ext].

Definition getRelease allowInsecure r gameUid release platform version :=
  streamableRequest allowInsecure r
    (releaseFile gameUid release platform version ".json").

Definition getReleaseMeta allowInsecure r gameUid release platform version :=
  streamableRequest allowInsecure r
    (releaseFile gameUid release platform version ".meta").

Definition getReleaseConfig allowInsecure r gameUid release platform version :=
  streamableRequest allowInsecure r
    (releaseFile gameUid release platform version ".config").

Definition getGamesList allowInsecure r :=
  streamableRequest allowInsecure r "/cytrus.json".

(** [getHash(gameUid, hash)] and [getInformation(gameUid, hash)] *)
Definition hashFile (gameUid hash : string) : string :=
  joinSlash [""; gameUid; "hashes"; String.substring 0 2 hash; hash].

Definition getHash allowInsecure r gameUid hash :=
  streamableRequest allowInsecure r (hashFile gameUid hash).

Definition getInformation := getHash.

End Repository.

(** ** The fetch module (fetch.js) *)
Module Fetcher.
Import Repository.

Definition TIMEOUT : N := 2000.
Definition MAX_RETRY : N := 5.

(** [Math.random()] yields a double [k / 2^53], [0 <= k < 2^53]. *)
Definition randomDenominator : N := 2 ^ 53.

(** The product of two doubles is the exact product rounded to the
    nearest double, one of 53 significant bits, and to the one with an
    even last bit when two are as near. For the exact product
    [p / 2^53], [roundToDouble p / 2^53] is that double. *)
Definition roundToDouble (p : N) : N :=
  let ulp := (2 ^ (N.size p - 53))%N in
  let q := (p / ulp)%N in
  let rest := (p mod ulp)%N in
  if (2 * rest <? ulp)%N then (q * ulp)%N
  else if (ulp <? 2 * rest)%N then ((q + 1) * ulp)%N
  else if N.even q then (q * ulp)%N else ((q + 1) * ulp)%N.

(** [Math.floor(Math.random() * cachedServers.length)]; the length of
    an array is a whole number under [2^32], which is a double. *)
Definition randomIndex (k : N) (len : nat) : nat :=
  N.to_nat (roundToDouble (k * N.of_nat len) / randomDenominator).

(** [cachedServers[Math.floor(Math.random() * cachedServers.length)]
    + subpath]; an index out of the array reads [undefined]. *)
Definition pickUrl (k : N) (cachedServers : list string) (subpath : string)
  : string :=
  default "undefined" (cachedServers !! randomIndex k (length cachedServers))
    +:+ subpath.

(** What the server answered. *)
Record Response := mkResponse {
  status : Z;
  acceptRanges : option string;
}.

Inductive FetchError :=
| ErrCode (status : Z)               (* new Error(`Code: ${res.status}`) *)
| ErrPartialContentNotSupported      (* 'Partial content not supported' *)
| ErrUnlink (code : string).         (* the error thrown by unlinkSync *)

(** What a step of the fetcher does to the outside. *)
Inductive Effect :=
| SendRequest (rq : Request)
| Resolve
| Reject (e : FetchError)
| OpenWriteStream (append : bool).

(** The variables of the executor's closure, the temporary file
    ([None]: no file at [filepath], [Some n]: a file of [n] bytes) and
    the two flags of the controllable promise that [onResponse] reads. *)
Record State := mkState {
  fetchUrl : string;
  hostName : string;
  headersRange : option N;
  rs : bool;
  ws : bool;
  size : N;
  isCancellable : bool;
  shouldResume : bool;
  tmpFile : option N;
  expectedSize : N;
  cpIsSettled : bool;
  cpIsPaused : bool;
}.

Definition setResume (b : bool) (s : State) : State :=
  mkState (fetchUrl s) (hostName s) (headersRange s) (rs s) (ws s) (size s)
    (isCancellable s) b (tmpFile s) (expectedSize s) (cpIsSettled s)
    (cpIsPaused s).

(** [startElectronFetch(retryCount = 0)] *)
Definition startElectronFetch (retryCount : N) (s : State)
  : State * list Effect :=
  let exists_ := bool_decide (is_Some (tmpFile s)) in
  let size' := match tmpFile s with Some n => n | None => size s end in
  let nonEmpty := negb (size' =? 0)%N in
  let range' := if exists_ && nonEmpty then Some size' else headersRange s in
  let s' := mkState (fetchUrl s) (hostName s) range' (rs s) (ws s) size'
              (isCancellable s) (exists_ && nonEmpty) (tmpFile s)
              (expectedSize s) (cpIsSettled s) (cpIsPaused s) in
  (s', [SendRequest (mkRequest (fetchUrl s) (Some (hostName s)) range'
                       (TIMEOUT * (retryCount + 1)) false)]).

(** [cleanAndRetry()]; [unlinkError] is the code of the error that
    [fs.unlinkSync] throws on an existing file, if it throws. *)
Definition cleanAndRetry (unlinkError : option string) (s : State)
  : State * list Effect :=
  let s1 := mkState (fetchUrl s) (hostName s) None (rs s) (ws s) (size s)
              (isCancellable s) (shouldResume s) (tmpFile s)
              (expectedSize s) (cpIsSettled s) (cpIsPaused s) in
  match tmpFile s with
  | None => startElectronFetch 0 s1        (* ENOENT is swallowed *)
  | Some _ =>
      match unlinkError with
      | Some code =>
          if String.eqb code "ENOENT" then startElectronFetch 0 s1
          else (s1, [Reject (ErrUnlink code)])
      | None =>
          startElectronFetch 0
            (mkState (fetchUrl s) (hostName s) None (rs s) (ws s) (size s)
               (isCancellable s) (shouldResume s) None
               (expectedSize s) (cpIsSettled s) (cpIsPaused s))
      end
  end.

(** [onResponse(res)], up to the piping of the body into the file. *)
Definition onResponse (unlinkError : option string) (res : Response)
    (s : State) : State * list Effect :=
  if cpIsSettled s || cpIsPaused s || rs s then (s, [])
  else if shouldResume s
          && bool_decide (tmpFile s = Some (expectedSize s))
  then (s, [Resolve])
  else if (status res =? 416)%Z then cleanAndRetry unlinkError s
  else if negb (status res =? 206)%Z && negb (status res =? 200)%Z
  then (s, [Reject (ErrCode (status res))])
  else if shouldResume s
          && negb (bool_decide (acceptRanges res = Some "bytes"))
  then (s, [Reject ErrPartialContentNotSupported])
  else
    (mkState (fetchUrl s) (hostName s) (headersRange s) true true (size s)
       (isCancellable s) (shouldResume s)
       (Some (if shouldResume s then default 0%N (tmpFile s) else 0%N))
       (expectedSize s) (cpIsSettled s) (cpIsPaused s),
     [OpenWriteStream (shouldResume s)]).

(** The executor up to its first request; [k] is the random draw and
    [tmp] the temporary file found at [filepath]. *)
Definition initialState (r : Repository) (subpath : string) (k : N)
    (tmp : option N) (expected : N) : State :=
  mkState (pickUrl k (cachedServers r) subpath) (host r) None false false 0
    true (bool_decide (is_Some tmp)) tmp expected false false.

Definition fetch (r : Repository) (subpath : string) (k : N)
    (tmp : option N) (expected : N) : State * list Effect :=
  startElectronFetch 0 (initialState r subpath k tmp expected).

(** The resume handler: [shouldResume = true; startElectronFetch()]. *)
Definition onResume (s : State) : State * list Effect :=
  startElectronFetch 0 (setResume true s).

Definition rejected (effs : list Effect) : bool :=
  existsb (fun e => match e with Reject _ => true | _ => false end) effs.

Definition retried (effs : list Effect) : bool :=
  existsb (fun e => match e with SendRequest _ => true | _ => false end) effs.

End Fetcher.
(** ** The retries of the fetch module (fetch.js) *)
Module FetchRetry.
Import Repository Fetcher.

Definition RETRY_ERROR_CODES : list string :=
  ["ECONNRESET"; "EPIPE"; "ENOTFOUND"; "ENOENT"; "ENOTFOUND";
   "ECONNABORTED"; "EAI_AGAIN"].

(** An error caught by the handler of [startElectronFetch], as
    [isRetryError] reads it: [error.type], [error instanceof
    electronFetch.FetchError] and [error.code]. *)
Record RequestError := mkRequestError {
  errorType : option string;
  isFetchError : bool;
  errorCode : option string;
}.

(** [isRetryError(error)] *)
Definition isRetryError (error : RequestError) : bool :=
  bool_decide (errorType error = Some "request-timeout")
  || (isFetchError error
      && bool_decide (errorType error = Some "system")
      && match errorCode error with
         | Some code => bool_decide (code ∈ RETRY_ERROR_CODES)
         | None => false
         end).

(** The [catch] handler of the request that [startElectronFetch(retryCount)]
    sent: [startElectronFetch(retryCount + 1)], or [reject(error)]. *)
Definition onRequestError (maxRetry retryCount : N) (error : RequestError)
    (s : State) : State * list Effect + RequestError :=
  if (retryCount <? maxRetry)%N && isRetryError error
  then inl (startElectronFetch (retryCount + 1) s)
  else inr error.

(** A download whose successive requests fail with the errors of the
    list: what it does after the request numbered [retryCount], and the
    error it rejects with, if it does. *)
Fixpoint retries (maxRetry : N) (errors : list RequestError)
    (retryCount : N) (s : State) : list Effect * option RequestError :=
  match errors with
  | [] => ([], None)
  | error :: rest =>
      match onRequestError maxRetry retryCount error s with
      | inl (s', effs) =>
          let '(more, rejection) := retries maxRetry rest (retryCount + 1) s' in
          (effs ++ more, rejection)
      | inr e => ([], Some e)
      end
  end.

(** The same from the first request, [startElectronFetch()]. *)
Definition failingDownload (maxRetry : N) (errors : list RequestError)
    (s : State) : list Effect * option RequestError :=
  let '(s0, effs) := startElectronFetch 0 s in
  let '(more, rejection) := retries maxRetry errors 0 s0 in
  (effs ++ more, rejection).

End FetchRetry.

(** ** The promise pool (promisePool.js) *)
Module PromisePool.

Definition Value := nat.
Definition Error := nat.

(** The promise that [start()] returns; it is resolved with the array
    [ret], a map from indices to values. *)
Inductive Settlement :=
| Pending
| Resolved (values : gmap nat Value)
| Rejected (error : Error).

(** The variables of the closure of [start()], the promise it returns,
    and the promises taken from the iterator that are not settled yet,
    each under the index [i] that [next] gave it. *)
Record Pool := mkPool {
  ret : gmap nat Value;
  isRejected : bool;
  iterableDone : bool;
  resolvingCount : nat;
  currentIdx : nat;
  settlement : Settlement;
  inFlight : gset nat;
}.

Definition newPool : Pool := mkPool ∅ false false 0 0 Pending ∅.

(** [resolve(ret)] and [reject(error)]: a settled promise stays as it
    is. *)
Definition resolve (p : Pool) : Pool :=
  match settlement p with
  | Pending =>
      mkPool (ret p) (isRejected p) (iterableDone p) (resolvingCount p)
        (currentIdx p) (Resolved (ret p)) (inFlight p)
  | _ => p
  end.

Definition reject (error : Error) (p : Pool) : Pool :=
  match settlement p with
  | Pending =>
      mkPool (ret p) (isRejected p) (iterableDone p) (resolvingCount p)
        (currentIdx p) (Rejected error) (inFlight p)
  | _ => p
  end.

Section Iterator.
(** The iterator yields [items] promises and is done from then on; the
    number of calls of [iterator.next()] so far is [currentIdx]. *)
Variable items : nat.

(** [next()] *)
Definition next (p : Pool) : Pool :=
  if isRejected p then p
  else
    let i := currentIdx p in
    if items <=? i then
      let p := mkPool (ret p) (isRejected p) true (resolvingCount p)
                 (S i) (settlement p) (inFlight p) in
      if resolvingCount p =? 0 then resolve p else p
    else
      mkPool (ret p) (isRejected p) (iterableDone p)
        (S (resolvingCount p)) (S i) (settlement p) ({[i]} ∪ inFlight p).

(** The loop [for (let i = 0; i < concurrency; i += 1)]; [k] is the
    number of rounds left. *)
Fixpoint loop (k : nat) (p : Pool) : Pool :=
  match k with
  | O => p
  | S k' =>
      let p := next p in
      if iterableDone p then p else loop k' p
  end.

(** [PromisePool(iterator, concurrency).start()] for a whole number
    [concurrency]; [None] when the [TypeError] is thrown. *)
Definition start (concurrency : nat) : option Pool :=
  if concurrency <? 1 then None else Some (loop concurrency newPool).

(** The [then] callback of the promise of index [i]. *)
Definition onFulfilled (i : nat) (value : Value) (p : Pool) : Pool :=
  next (mkPool (<[i := value]> (ret p)) (isRejected p) (iterableDone p)
          (pred (resolvingCount p)) (currentIdx p) (settlement p)
          (inFlight p ∖ {[i]})).

(** Its [catch] callback. *)
Definition onRejected (i : nat) (error : Error) (p : Pool) : Pool :=
  reject error
    (mkPool (ret p) true (iterableDone p) (resolvingCount p)
       (currentIdx p) (settlement p) (inFlight p ∖ {[i]})).

(** What happens to a started pool: one of the promises in flight is
    fulfilled or rejected. *)
Inductive Event :=
| Fulfil (i : nat) (value : Value)
| Fail (i : nat) (error : Error).

Definition step (e : Event) (p : Pool) : option Pool :=
  match e with
  | Fulfil i value =>
      if bool_decide (i ∈ inFlight p) then Some (onFulfilled i value p)
      else None
  | Fail i error =>
      if bool_decide (i ∈ inFlight p) then Some (onRejected i error p)
      else None
  end.

Fixpoint run (trace : list Event) (p : Pool) : option Pool :=
  match trace with
  | [] => Some p
  | e :: rest =>
      match step e p with
      | Some p' => run rest p'
      | None => None
      end
  end.

(** A pool started with [concurrency], then the events of the trace. *)
Definition execution (concurrency : nat) (trace : list Event)
  : option Pool :=
  match start concurrency with
  | Some p => run trace p
  | None => None
  end.

End Iterator.

End PromisePool.

(** ** Manifests (the data model shared by the diff and the repair) *)
Module Manifest.

(** A JavaScript object used as a dictionary and iterated over: the
    association list of its own enumerable properties, in enumeration
    order. A key occurs once ([wfObj]). *)
Definition Obj (V : Type) : Type := list (string * V).

Fixpoint get {V} (k : string) (o : Obj V) : option V :=
  match o with
  | [] => None
  | (k', v) :: rest => if String.eqb k' k then Some v else get k rest
  end.

Definition keys {V} (o : Obj V) : list string := map fst o.

(** [delete o[k]] *)
Definition remove {V} (k : string) (o : Obj V) : Obj V :=
  List.filter (fun kv => negb (String.eqb (fst kv) k)) o.

Definition wfObj {V} (o : Obj V) : Prop := NoDup (keys o).

(** The properties that every plain object inherits from
    [Object.prototype]. For such a name that is not a property of the
    object itself, [o[name]] is not [undefined] but the inherited
    member, a function (for [__proto__], the prototype), which is truthy
    and has none of the properties that the engine reads. *)
Definition objectPrototype : list string :=
  ["constructor"; "__defineGetter__"; "__defineSetter__";
   "hasOwnProperty"; "__lookupGetter__"; "__lookupSetter__";
   "isPrototypeOf"; "propertyIsEnumerable"; "toString"; "valueOf";
   "__proto__"; "toLocaleString"].

Definition inherited (k : string) : bool :=
  bool_decide (k ∈ objectPrototype).

(** What [o[k]] reads. *)
Inductive Member (V : Type) : Type :=
| Own (v : V)
| Inherited.
Arguments Own {V} v.
Arguments Inherited {V}.

Definition member {V} (k : string) (o : Obj V) : option (Member V) :=
  match get k o with
  | Some v => Some (Own v)
  | None => if inherited k then Some Inherited else None
  end.

Record File := mkFile {
  hash : string;
  size : N;
  executable : bool;
}.

Record Pack := mkPack {
  packSize : N;
  packHashes : list string;
}.

(** The entry of an archive: its inner files, [(hash, size)] by path. *)
Record Archive := mkArchive {
  archiveFiles : Obj (string * N);
}.

Record Fragment := mkFragment {
  files : Obj File;
  packs : option (Obj Pack);
  archives : option (Obj Archive);
}.

Definition Manifest : Type := Obj Fragment.

Definition wfManifest (m : Manifest) : Prop :=
  wfObj m /\ Forall (fun kv => wfObj (files (snd kv))) m.

(** updateHelper.js, [verifyFragmentsList(fragments, remote)]: [true]
    when it returns, [false] when it throws. *)
Definition verifyFragmentsList (fragments : list string) (remote : Manifest)
  : bool :=
  forallb (fun fragment => bool_decide (is_Some (get fragment remote)))
    fragments.

End Manifest.

(** ** The Repair action (updateActionRepair.js) *)
Module Repair.
Import Manifest.

(** An entry of the table the action resolves with: [{hash, executable}],
    or [{hash: ''}] for a file that could not be read. *)
Record Entry := mkEntry {
  entryHash : string;
  entryExecutable : option bool;
}.

Definition broken : Entry := mkEntry "" None.

(** [this.hashes]: fragment name to [{files: {path: entry}}]. *)
Abbreviation Hashes := (gmap string (gmap string Entry)).

(** [REPAIR_CONCURRENCY] *)
Definition REPAIR_CONCURRENCY : nat := 10.

(** The value of a [then] callback that returns nothing. *)
Definition undefined : PromisePool.Value := 0.

(** What the executor of the promise of the action has called:
    [resolve(this.hashes)], [reject(error)], or neither yet. *)
Inductive Outcome :=
| Pending
| Resolved (hashes : gmap string (gmap string Entry))
| Rejected (error : PromisePool.Error).

Section Action.
(** The world the action reads: [path.join(location, filePath)],
    [fs.lstat] (the mode, or an error) and [cryptoHelper.getFileHash]
    (the hash, or an error). *)
Variable location : string.
Variable pathJoin : string -> string -> string.
Variable lstatMode : string -> option N.
Variable getFileHash : string -> option string.

(** [getFileExecutableMode(absoluteFilePath)] *)
Definition getFileExecutableMode (absoluteFilePath : string)
  : option bool :=
  match lstatMode absoluteFilePath with
  | None => None
  | Some mode => Some (negb (N.land mode 73 =? 0)%N)  (* 0o111 = 73 *)
  end.

(** [repairFile(fragmentName, filePath)]: the promise it returns always
    resolves; its effect is one write in [this.hashes]. *)
Definition repairedEntry (filePath : string) : Entry :=
  let absoluteFilePath := pathJoin location filePath in
  match getFileExecutableMode absoluteFilePath,
        getFileHash absoluteFilePath with
  | Some executable, Some hash => mkEntry hash (Some executable)
  | _, _ => broken
  end.

Definition repairFile (hashes : Hashes) (item : string * string)
  : Hashes :=
  let '(fragmentName, filePath) := item in
  match hashes !! fragmentName with
  | Some files =>
      <[fragmentName := <[filePath := repairedEntry filePath]> files]>
        hashes
  | None => hashes    (* not reached: the fragment was created before *)
  end.

(** [computeFilesToRepair()]: the initial table and the work list;
    [computeStep] is the body of its loop over the remote fragments. *)
Definition computeStep (fragments : list string)
    (acc : Hashes * list (string * string))
    (kv : string * Fragment) : Hashes * list (string * string) :=
  let '(hashes, filesToRepair) := acc in
  let '(fragmentName, fragment) := kv in
  if bool_decide (fragmentName ∈ fragments) then
    (<[fragmentName := ∅]> hashes,
     filesToRepair
       ++ map (fun filePath => (fragmentName, filePath))
            (keys (files fragment)))
  else (hashes, filesToRepair).

Definition computeFilesToRepair (fragments : list string)
    (remoteHashes : Manifest) : Hashes * list (string * string) :=
  foldl (computeStep fragments) (∅, []) remoteHashes.


(** The listeners of the promise, which [notifyProgress(progress)]
    calls with [{filesProgress, filesTotal}]: [Some error] when one of
    them throws. *)
Variable listeners : nat * nat -> option PromisePool.Error.

(** The action once its promise is created: its fields and the pool
    that its executor has started. [notified] lists the arguments of
    the calls of [progress] so far. *)
Record Action := mkAction {
  hashes : Hashes;
  filesProgress : nat;
  filesToRepair : list (string * string);
  notified : list (nat * nat);
  pool : PromisePool.Pool;
}.

(** [createPromise()]: the executor checks the fragments, computes the
    files to repair and starts a pool of [REPAIR_CONCURRENCY] over the
    generator, which yields one promise for each file to repair.
    [None] when the executor throws, which rejects the promise. *)
Definition createPromise (fragments : list string)
    (remoteHashes : Manifest) : option Action :=
  if verifyFragmentsList fragments remoteHashes then
    let '(hashes, filesToRepair) :=
      computeFilesToRepair fragments remoteHashes in
    match PromisePool.start (length filesToRepair) REPAIR_CONCURRENCY with
    | Some pool => Some (mkAction hashes 0 filesToRepair [] pool)
    | None => None
    end
  else None.

(** The promise of index [i] that the pool took from the generator is
    settled: [repairFile] has written its entry and resolved, the
    [then] callback of the generator counts the file and notifies the
    progress, and the pool sees the promise fulfilled with the value of
    that callback, or rejected with what a listener threw. [None] when
    the pool has no such promise in flight. *)
Definition complete (i : nat) (a : Action) : option Action :=
  if bool_decide (i ∈ PromisePool.inFlight (pool a)) then
    match filesToRepair a !! i with
    | Some item =>
        let filesProgress := S (filesProgress a) in
        let stats := (filesProgress, length (filesToRepair a)) in
        Some (mkAction (repairFile (hashes a) item) filesProgress
                (filesToRepair a) (notified a ++ [stats])
                match listeners stats with
                | None =>
                    PromisePool.onFulfilled (length (filesToRepair a))
                      i undefined (pool a)
                | Some error => PromisePool.onRejected i error (pool a)
                end)
    | None => None
    end
  else None.

(** The promises settle in some order. *)
Fixpoint run (order : list nat) (a : Action) : option Action :=
  match order with
  | [] => Some a
  | i :: rest =>
      match complete i a with
      | Some a' => run rest a'
      | None => None
      end
  end.

(** [pool.start().then(() => { resolve(this.hashes) }).catch(reject)]:
    what the executor has told its promise. *)
Definition outcome (a : Action) : Outcome :=
  match PromisePool.settlement (pool a) with
  | PromisePool.Pending => Pending
  | PromisePool.Resolved _ => Resolved (hashes a)
  | PromisePool.Rejected error => Rejected error
  end.

End Action.

End Repair.

(** ** The diff engine (diffHelper.js, updateHelper.js) *)
Module DiffEngine.
Import Manifest.

(** A member of a pack entry's [packFiles]. *)
Record PackFile := mkPackFile {
  pfHash : string;
  pfSize : N;
  pfExecutable : bool;
}.

(** An element of a list of [hashes[hash]]. *)
Record HashTarget := mkHashTarget {
  fileName : string;
  htSize : N;
  htExecutable : bool;
}.

(** An entry of [files] in the diff: a JavaScript object of which only
    some properties are set ([None]: the property is absent; for [hash],
    [None] also stands for [null], which only the deletion entry has). *)
Record Entry := mkEntry {
  isPack : option bool;
  download : option bool;
  updatePermissions : option bool;
  hash : option string;
  size : N;
  executable : option bool;
  packFiles : option (gmap string PackFile);
}.

(** updateHelper.js, [createDeletedFile()]: [{size: 0, hash: null}] *)
Definition createDeletedFile : Entry :=
  mkEntry None None None None 0 None None.

(** A fragment of the diff; [archives] holds what was read from the
    archives of the remote fragment under the name of a file. *)
Record FragmentDiff := mkFragmentDiff {
  files : gmap string Entry;
  hashes : gmap string (list HashTarget);
  archives : gmap string (Member Archive);
}.

Abbreviation Diff := (gmap string FragmentDiff).

Definition emptyFragment : FragmentDiff := mkFragmentDiff ∅ ∅ ∅.

(** [createEmptyFragmentIfNeeded(fragment)] *)
Definition createEmptyFragmentIfNeeded (fragment : string) (diff : Diff)
  : Diff :=
  match diff !! fragment with
  | Some _ => diff
  | None => <[fragment := emptyFragment]> diff
  end.

(** The fragment of the diff, once created. *)
Definition bucket (fragment : string) (diff : Diff) : FragmentDiff :=
  default emptyFragment (diff !! fragment).

(** [o[k] = v] on an object that is iterated over: in place when the key
    exists, appended otherwise. *)
Fixpoint set {V} (k : string) (v : V) (o : Obj V) : Obj V :=
  match o with
  | [] => [(k, v)]
  | (k', v') :: rest =>
      if String.eqb k' k then (k, v) :: rest else (k', v') :: set k v rest
  end.

(** *** First pass *)

Section Platform.
(** [process.platform === 'win32'] *)
Variable isWin32 : bool.

(** The body of the loop over the files of a remote fragment; the state
    is the fragment of the diff and the local fragment (if there is
    one), which the loop empties as it goes. *)
Definition fileStep (isFragmentIgnored : bool)
    (remoteArchives : option (Obj Archive))
    (st : FragmentDiff * option Fragment)
    (kv : string * File) : FragmentDiff * option Fragment :=
  let '(fd, localFragment) := st in
  let '(fileName, remoteFile) := kv in
  let localFile :=
    match localFragment with
    | Some lf => member fileName (Manifest.files lf)
    | None => None
    end in
  if bool_decide (is_Some localFile) && isFragmentIgnored then st
  else
    (* [localFile && remoteFile.hash === localFile.hash]: an inherited
       member has no [hash] *)
    let sameHash :=
      match localFile with
      | Some (Own lf) =>
          String.eqb (Manifest.hash remoteFile) (Manifest.hash lf)
      | Some Inherited | None => false
      end in
    (* [!!remoteFile.executable === !!localFile.executable], off
       Windows and when there is a local file *)
    let sameExecutable :=
      match localFile with
      | Some (Own lf) =>
          if negb isWin32
          then Bool.eqb (Manifest.executable remoteFile)
                 (Manifest.executable lf)
          else true
      | Some Inherited =>
          if negb isWin32
          then Bool.eqb (Manifest.executable remoteFile) false
          else true
      | None => true
      end in
    let fd' :=
      if negb sameHash || negb sameExecutable then
        let entry :=
          mkEntry (Some false) (Some (negb sameHash))
            (Some (negb sameExecutable))
            (Some (Manifest.hash remoteFile)) (Manifest.size remoteFile)
            (Some (Manifest.executable remoteFile)) None in
        let archives' :=
          match remoteArchives ≫= member fileName with
          | Some a => <[fileName := a]> (archives fd)
          | None => archives fd
          end in
        let target :=
          mkHashTarget fileName (Manifest.size remoteFile)
            (Manifest.executable remoteFile) in
        let hashes' :=
          <[Manifest.hash remoteFile :=
              default [] (hashes fd !! Manifest.hash remoteFile)
                ++ [target]]> (hashes fd) in
        mkFragmentDiff (<[fileName := entry]> (files fd)) hashes' archives'
      else fd in
    let localFragment' :=
      match localFragment with
      | Some lf =>
          Some (mkFragment (remove fileName (Manifest.files lf))
                  (Manifest.packs lf)
                  (match Manifest.archives lf with
                   | Some la => Some (remove fileName la)
                   | None => None
                   end))
      | None => None
      end in
    (fd', localFragment').

(** The body of the loop over the remote fragments. *)
Definition fragmentStep (fragments : list string)
    (st : Diff * Manifest) (kv : string * Fragment) : Diff * Manifest :=
  let '(diff, localHashes) := st in
  let '(fragmentName, remoteFragment) := kv in
  let localFragment := get fragmentName localHashes in
  let isFragmentIgnored := negb (bool_decide (fragmentName ∈ fragments)) in
  if negb (bool_decide (is_Some localFragment)) && isFragmentIgnored
  then st
  else
    let diff := createEmptyFragmentIfNeeded fragmentName diff in
    let '(fd, localFragment') :=
      foldl (fileStep isFragmentIgnored (Manifest.archives remoteFragment))
        (bucket fragmentName diff, localFragment)
        (Manifest.files remoteFragment) in
    (<[fragmentName := fd]> diff,
     match localFragment' with
     | Some lf => set fragmentName lf localHashes
     | None => localHashes
     end).

(** [findFilesToDownloadAndFragmentsToDelete()] *)
Definition findFilesToDownloadAndFragmentsToDelete
    (fragments : list string) (remoteHashes : Manifest)
    (st : Diff * Manifest) : Diff * Manifest :=
  foldl (fragmentStep fragments) st remoteHashes.

End Platform.

(** *** Pack pass *)

Definition PACK_FILE_RATIO_DEN : nat := 2.   (* PACK_FILE_RATIO = 0.5 *)

(** [getFilesInPack(pack, fragmentDiff)] *)
Definition getFilesInPack (pack : Pack) (fd : FragmentDiff)
  : gmap string PackFile :=
  foldl (fun filesInPack fileHash =>
           match hashes fd !! fileHash with
           | Some targets =>
               foldl (fun filesInPack file =>
                        <[fileName file :=
                            mkPackFile fileHash (htSize file)
                              (htExecutable file)]> filesInPack)
                 filesInPack targets
           | None => filesInPack
           end)
    ∅ (packHashes pack).

(** [mustDownloadPack(pack, filesInPack)]:
    [Object.keys(filesInPack).length > pack.hashes.length * 0.5] *)
Definition mustDownloadPack (pack : Pack)
    (filesInPack : gmap string PackFile) : bool :=
  length (packHashes pack) <? PACK_FILE_RATIO_DEN * base.size filesInPack.

Definition setDownloadFalse (e : Entry) : Entry :=
  mkEntry (isPack e) (Some false) (updatePermissions e) (hash e) (size e)
    (executable e) (packFiles e).

Definition packEntry (packHash : string) (pack : Pack)
    (filesInPack : gmap string PackFile) : Entry :=
  mkEntry (Some true) (Some true) None (Some packHash) (packSize pack) None
    (Some filesInPack).

(** [checkPack(fragmentDiff, packHash, pack)] *)
Definition checkPack (fd : FragmentDiff) (packHash : string) (pack : Pack)
  : FragmentDiff :=
  let filesInPack := getFilesInPack pack fd in
  if mustDownloadPack pack filesInPack then
    let files' :=
      foldl (fun files fileName => alter setDownloadFalse fileName files)
        (files fd) (map fst (map_to_list filesInPack)) in
    mkFragmentDiff (<[packHash := packEntry packHash pack filesInPack]> files')
      (hashes fd) (archives fd)
  else fd.

(** [checkPacksInFragment(packs, fragmentDiff)] *)
Definition checkPacksInFragment (packs : Obj Pack) (fd : FragmentDiff)
  : FragmentDiff :=
  foldl (fun fd '(packHash, pack) => checkPack fd packHash pack) fd packs.

(** [checkPacks()] *)
Definition checkPacks (remoteHashes : Manifest) (diff : Diff) : Diff :=
  foldl (fun diff (kv : string * Fragment) =>
           match Manifest.packs (snd kv), diff !! fst kv with
           | Some remotePacks, Some fragmentDiff =>
               <[fst kv := checkPacksInFragment remotePacks fragmentDiff]> diff
           | _, _ => diff
           end)
    diff remoteHashes.

(** *** Deletion pass *)

(** updateHelper.js, [isFileMarkedForDownload(fragmentsToDownload,
    fileName)]: what [files[fileName]] reads is truthy when it is an
    entry, whatever its properties, and when it is a member inherited
    from [Object.prototype]. *)
Definition isFileMarkedForDownload (fragmentsToDownload : Diff)
    (fileName : string) : bool :=
  existsb (fun kv : string * FragmentDiff =>
             bool_decide (is_Some (files (snd kv) !! fileName))
             || inherited fileName)
    (map_to_list fragmentsToDownload).

Definition markFile (fragmentName : string) (diff : Diff)
    (fileName : string) : Diff :=
  if negb (isFileMarkedForDownload diff fileName) then
    let fd := bucket fragmentName diff in
    <[fragmentName :=
        mkFragmentDiff (<[fileName := createDeletedFile]> (files fd))
          (hashes fd) (archives fd)]> diff
  else diff.

Definition markFragment (diff : Diff) (kv : string * Fragment) : Diff :=
  foldl (markFile (fst kv)) (createEmptyFragmentIfNeeded (fst kv) diff)
    (keys (Manifest.files (snd kv))).

(** [markRemainingFilesToBeDeleted()] *)
Definition markRemainingFilesToBeDeleted (localHashes : Manifest)
    (diff : Diff) : Diff :=
  foldl markFragment diff localHashes.

(** *** The whole computation *)

(** [new DiffHelper(fragments, localHashes, remoteHashes).createPromise()]:
    [None] when the promise is rejected ([verifyFragmentsList] throws).
    The constructor works on a deep copy of the local hashes, so the
    caller's objects are left alone. *)
Definition createPromise (isWin32 : bool) (fragments : list string)
    (localHashes remoteHashes : Manifest) : option Diff :=
  if verifyFragmentsList fragments remoteHashes then
    let '(diff, localHashes') :=
      findFilesToDownloadAndFragmentsToDelete isWin32 fragments remoteHashes
        (∅, localHashes) in
    let diff := checkPacks remoteHashes diff in
    Some (markRemainingFilesToBeDeleted localHashes' diff)
  else None.

(** The state between the passes. *)
Definition afterFirstPass (isWin32 : bool) (fragments : list string)
    (localHashes remoteHashes : Manifest) : Diff * Manifest :=
  findFilesToDownloadAndFragmentsToDelete isWin32 fragments remoteHashes
    (∅, localHashes).

(** The entry of a file in the diff. *)
Definition entryOf (diff : Diff) (fragment fileName : string)
  : option Entry :=
  diff !! fragment ≫= fun fd => files fd !! fileName.

(** The files of a fragment of the diff that are to be downloaded and
    whose hash is listed in the pack. *)
Definition isToDownloadInPack (pack : Pack) (e : Entry) : bool :=
  bool_decide (download e = Some true)
  && match hash e with
     | Some h => bool_decide (h ∈ packHashes pack)
     | None => false
     end.

Definition toDownloadInPack (pack : Pack) (fd : FragmentDiff)
  : gmap string Entry :=
  filter (fun kv : string * Entry => isToDownloadInPack pack (snd kv) = true)
    (files fd).

End DiffEngine.
(** ** The size of an update (updateHelper.js) *)
Module UpdateSize.
Import Manifest DiffEngine.

(** The argument of [calculateUpdateSize]: an object of fragments, of
    which the function reads the [files], an object of entries; both in
    the order in which [for ... in] enumerates them. *)
Definition GameData : Type := Obj (Obj Entry).

Record Result := mkResult {
  totalSize : N;
  fragmentsSize : list (string * N);
  totalFiles : N;
}.

(** [if (file.download)] *)
Definition isDownload (file : Entry) : bool :=
  match download file with
  | Some true => true
  | _ => false
  end.

(** The body of the loop over the files of a fragment. *)
Definition countFile (acc : N * N) (kv : string * Entry) : N * N :=
  let '(fragmentSize, totalFiles) := acc in
  if isDownload (snd kv)
  then (fragmentSize + size (snd kv), totalFiles + 1)%N
  else (fragmentSize, totalFiles).

(** The body of the loop over the fragments. *)
Definition countFragment (acc : N * list (string * N) * N)
    (kv : string * Obj Entry) : N * list (string * N) * N :=
  let '(totalSize, fragmentsSize, totalFiles) := acc in
  let '(fragmentSize, totalFiles) :=
    foldl countFile (0%N, totalFiles) (snd kv) in
  ((totalSize + fragmentSize)%N,
   fragmentsSize ++ [(fst kv, fragmentSize)],
   totalFiles).

(** [calculateUpdateSize(gameData)] *)
Definition calculateUpdateSize (gameData : GameData) : Result :=
  let '(totalSize, fragmentsSize, totalFiles) :=
    foldl countFragment (0%N, [], 0%N) gameData in
  mkResult totalSize fragmentsSize totalFiles.

End UpdateSize.

(** ** The SaveHashes action (updateActionSaveHashes.js) *)
Module SaveHashes.
Import Manifest.

(** The parameters of the action: the local hashes, which the action
    updates in place, the files downloaded ([{fragment: {files: {path:
    file}}}]), the archives downloaded ([{fragment: {name: archive}}], or
    a falsy value) and the files deleted ([{fragment: [path, ...]}]).
    A result of [None] stands for a [TypeError]: a property read on
    [undefined]. *)

(** [createEmptyFragmentIfNeeded(fragmentName)] *)
Definition createEmptyFragmentIfNeeded (fragmentName : string)
    (localHashes : Manifest) : Manifest :=
  match get fragmentName localHashes with
  | Some _ => localHashes
  | None =>
      DiffEngine.set fragmentName (mkFragment [] None (Some [])) localHashes
  end.

(** [addDownloadedFileToHashes(fragmentName, filePath, file)] *)
Definition addDownloadedFileToHashes (fragmentName filePath : string)
    (file : File) (localHashes : Manifest) : option Manifest :=
  match get fragmentName localHashes with
  | Some fragment =>
      Some (DiffEngine.set fragmentName
              (mkFragment (DiffEngine.set filePath file (files fragment))
                 (packs fragment) (archives fragment))
              localHashes)
  | None => None
  end.

(** [addDownloadedFragmentToHashes(fragmentName, fragment)] *)
Definition addDownloadedFragmentToHashes (fragmentName : string)
    (fragmentFiles : Obj File) (localHashes : Manifest) : option Manifest :=
  foldl (fun acc '(filePath, file) =>
           acc ≫= addDownloadedFileToHashes fragmentName filePath file)
    (Some (createEmptyFragmentIfNeeded fragmentName localHashes))
    fragmentFiles.

(** [addDownloadedHashes()] *)
Definition addDownloadedHashes (downloadedHashes : Obj (Obj File))
    (localHashes : Manifest) : option Manifest :=
  foldl (fun acc '(fragmentName, fragmentFiles) =>
           acc ≫= addDownloadedFragmentToHashes fragmentName fragmentFiles)
    (Some localHashes) downloadedHashes.

(** The body of the loop of [addDownloadedArchives()] over the
    fragments. *)
Definition addArchivesOfFragment (fragmentName : string)
    (fragmentArchives : Obj Archive) (localHashes : Manifest)
  : option Manifest :=
  match get fragmentName localHashes with
  | Some fragment =>
      Some (DiffEngine.set fragmentName
              (mkFragment (files fragment) (packs fragment)
                 (Some (foldl (fun acc '(archiveName, archive) =>
                                 DiffEngine.set archiveName archive acc)
                          (default [] (archives fragment))
                          fragmentArchives)))
              localHashes)
  | None => None
  end.

(** [addDownloadedArchives()] *)
Definition addDownloadedArchives
    (downloadedArchives : option (Obj (Obj Archive)))
    (localHashes : Manifest) : option Manifest :=
  match downloadedArchives with
  | None => Some localHashes
  | Some downloadedArchives =>
      foldl (fun acc '(fragmentName, fragmentArchives) =>
               acc ≫= addArchivesOfFragment fragmentName fragmentArchives)
        (Some localHashes) downloadedArchives
  end.

(** [removeDeletedFileFromHashes(fragmentName, filePath)] *)
Definition removeDeletedFileFromHashes (fragmentName filePath : string)
    (localHashes : Manifest) : option Manifest :=
  match get fragmentName localHashes with
  | Some fragment =>
      Some (DiffEngine.set fragmentName
              (mkFragment (remove filePath (files fragment))
                 (packs fragment) (archives fragment))
              localHashes)
  | None => None
  end.

(** [removeDeletedFragmentFromHashes(fragmentName, fragment)] *)
Definition removeDeletedFragmentFromHashes (fragmentName : string)
    (filePaths : list string) (localHashes : Manifest) : option Manifest :=
  foldl (fun acc filePath =>
           acc ≫= removeDeletedFileFromHashes fragmentName filePath)
    (Some localHashes) filePaths.

(** [removeDeletedFragments()] *)
Definition removeDeletedFragments (deletedFiles : Obj (list string))
    (localHashes : Manifest) : option Manifest :=
  foldl (fun acc '(fragmentName, filePaths) =>
           acc ≫= removeDeletedFragmentFromHashes fragmentName filePaths)
    (Some localHashes) deletedFiles.

(** [createPromise()], up to the writing of the file: the local hashes
    after the three passes. The object that is written, [dataToWrite],
    has the fragments and the files of the local hashes in their order,
    each file cut down to its [hash], [size] and [executable], which is
    all that [File] holds. *)
Definition dataToWrite (downloadedHashes : Obj (Obj File))
    (downloadedArchives : option (Obj (Obj Archive)))
    (deletedFiles : Obj (list string)) (localHashes : Manifest)
  : option Manifest :=
  (addDownloadedHashes downloadedHashes localHashes
     ≫= addDownloadedArchives downloadedArchives)
    ≫= removeDeletedFragments deletedFiles.

End SaveHashes.

(** ** The DeleteFiles action (updateActionDeleteFiles.js) *)
Module DeleteFiles.
Import Manifest DiffEngine.

(** [this.params.diff]: the diff, its fragments and their [files] in the
    order in which [for ... in] enumerates them. *)
Definition DiffObject : Type := Obj (Obj Entry).

(** [findFileInFragment(fragmentName, filePath)]; the fragment is one of
    the diff. *)
Definition findFileInFragment (diff : DiffObject)
    (fragmentName filePath : string) : bool :=
  match get fragmentName diff with
  | Some fragmentFiles =>
      match get filePath fragmentFiles with
      | Some fileData => (0 <? size fileData)%N
      | None => false
      end
  | None => false
  end.

(** [findFileInOtherFragments(fileFragmentName, filePath)] *)
Definition findFileInOtherFragments (diff : DiffObject)
    (fileFragmentName filePath : string) : bool :=
  existsb (fun kv : string * Obj Entry =>
             negb (String.eqb (fst kv) fileFragmentName)
             && findFileInFragment diff (fst kv) filePath)
    diff.

(** The generator [generatePromises]: the calls [unlinkFile(fragmentName,
    filePath)] that it yields, in order. *)
Definition generatePromises (diff : DiffObject) : list (string * string) :=
  flat_map (fun fragment : string * Obj Entry =>
              flat_map (fun file : string * Entry =>
                          if (size (snd file) =? 0)%N
                             && negb (findFileInOtherFragments diff
                                        (fst fragment) (fst file))
                          then [(fst fragment, fst file)] else [])
                (snd fragment))
    diff.

(** [this.getOrCreateFragmentArray(fragmentName).push(filePath)] *)
Definition recordDeleted (deletedFiles : Obj (list string))
    (file : string * string) : Obj (list string) :=
  DiffEngine.set (fst file)
    (default [] (get (fst file) deletedFiles) ++ [snd file]) deletedFiles.

(** [createPromise()]: the object the action resolves with, given the
    calls of [unlinkFile] whose [fs.unlink] succeeded, in the order in
    which they completed. *)
Definition createPromise (unlinked : list (string * string))
  : Obj (list string) :=
  foldl recordDeleted [] unlinked.

End DeleteFiles.

(** ** ControllablePromise (controllablePromise.js) *)
Module CtlPromise.

Inductive PState :=
| STATE_RESUMED | STATE_PAUSED | STATE_FULFILLED | STATE_CANCELED
| STATE_REJECTED.

Definition PState_eqb (a b : PState) : bool :=
  match a, b with
  | STATE_RESUMED, STATE_RESUMED | STATE_PAUSED, STATE_PAUSED
  | STATE_FULFILLED, STATE_FULFILLED | STATE_CANCELED, STATE_CANCELED
  | STATE_REJECTED, STATE_REJECTED => true
  | _, _ => false
  end.

(** The value a promise is resolved with, and what it is rejected with. *)
Definition Value := nat.

Inductive Reason :=
| CancelError                 (* ControllablePromiseCancelError *)
| ExecutorError (e : nat).    (* whatever the executor rejects with *)

(** The underlying JavaScript promise [this.promise]; once settled it
    ignores further calls of its resolve and reject functions. *)
Inductive Settlement :=
| Pending
| FulfilledWith (v : Value)
| RejectedWith (r : Reason).

Definition settle (p s : Settlement) : Settlement :=
  match p with Pending => s | _ => p end.

(** The [then] and [catch] continuations of the promises that [pause()],
    [resume()] and [cancel()] return; a [catch] after a precondition
    error changes nothing and is left out. *)
Inductive Microtask :=
| PauseThen | PauseCatch | ResumeThen | ResumeCatch | CancelThen
| CancelCatch.

Record CP := mkCP {
  lock : bool;
  state : PState;
  (** [typeof this.pauseFn === 'function'], and so on *)
  pauseFn : bool;
  resumeFn : bool;
  cancelFn : bool;
  (** [this.resolveMain]: [None] is the initial [() => {}], [Some v] the
      closure [fulfillMain] of a [resolve(v)] deferred while paused *)
  resolveMain : option Value;
  promise : Settlement;
  (** [this.resolvePause] / [this.rejectPause] belong to a pause promise
      that is not settled yet; the same for cancel *)
  resolvePause : bool;
  resolveCancel : bool;
  (** number of unsettled operation promises whose resolve and reject
      functions were handed to the executor's handler *)
  pauseHanded : nat;
  resumeHanded : nat;
  cancelHanded : nat;
  microtasks : list Microtask;
  (** the callbacks of [setTimeout] not run yet, each with its value *)
  timers : list Value;
}.

Definition isPaused (c : CP) : bool := PState_eqb (state c) STATE_PAUSED.
Definition isResumed (c : CP) : bool := PState_eqb (state c) STATE_RESUMED.
Definition isCanceled (c : CP) : bool := PState_eqb (state c) STATE_CANCELED.
Definition isRejected (c : CP) : bool := PState_eqb (state c) STATE_REJECTED.
Definition isFulfilled (c : CP) : bool := PState_eqb (state c) STATE_FULFILLED.
Definition isSettled (c : CP) : bool :=
  isCanceled c || isRejected c || isFulfilled c.

(** The constructor, before the executor runs. *)
Definition new : CP :=
  mkCP false STATE_RESUMED false false false None Pending false false
    0 0 0 [] [].

(** Field updates. *)
Definition setLock b c :=
  mkCP b (state c) (pauseFn c) (resumeFn c) (cancelFn c) (resolveMain c)
    (promise c) (resolvePause c) (resolveCancel c) (pauseHanded c)
    (resumeHanded c) (cancelHanded c) (microtasks c) (timers c).
Definition setState s c :=
  mkCP (lock c) s (pauseFn c) (resumeFn c) (cancelFn c) (resolveMain c)
    (promise c) (resolvePause c) (resolveCancel c) (pauseHanded c)
    (resumeHanded c) (cancelHanded c) (microtasks c) (timers c).
Definition setFns p r k c :=
  mkCP (lock c) (state c) p r k (resolveMain c)
    (promise c) (resolvePause c) (resolveCancel c) (pauseHanded c)
    (resumeHanded c) (cancelHanded c) (microtasks c) (timers c).
Definition setResolveMain o c :=
  mkCP (lock c) (state c) (pauseFn c) (resumeFn c) (cancelFn c) o
    (promise c) (resolvePause c) (resolveCancel c) (pauseHanded c)
    (resumeHanded c) (cancelHanded c) (microtasks c) (timers c).
Definition setPromise p c :=
  mkCP (lock c) (state c) (pauseFn c) (resumeFn c) (cancelFn c)
    (resolveMain c) p (resolvePause c) (resolveCancel c) (pauseHanded c)
    (resumeHanded c) (cancelHanded c) (microtasks c) (timers c).
Definition setStored p k c :=
  mkCP (lock c) (state c) (pauseFn c) (resumeFn c) (cancelFn c)
    (resolveMain c) (promise c) p k (pauseHanded c)
    (resumeHanded c) (cancelHanded c) (microtasks c) (timers c).
Definition setHanded p r k c :=
  mkCP (lock c) (state c) (pauseFn c) (resumeFn c) (cancelFn c)
    (resolveMain c) (promise c) (resolvePause c) (resolveCancel c) p r k
    (microtasks c) (timers c).
Definition setMicrotasks m c :=
  mkCP (lock c) (state c) (pauseFn c) (resumeFn c) (cancelFn c)
    (resolveMain c) (promise c) (resolvePause c) (resolveCancel c)
    (pauseHanded c) (resumeHanded c) (cancelHanded c) m (timers c).
Definition setTimers t c :=
  mkCP (lock c) (state c) (pauseFn c) (resumeFn c) (cancelFn c)
    (resolveMain c) (promise c) (resolvePause c) (resolveCancel c)
    (pauseHanded c) (resumeHanded c) (cancelHanded c) (microtasks c) t.

Definition enqueue (m : Microtask) (c : CP) : CP :=
  setMicrotasks (microtasks c ++ [m]) c.

(** [this.resolvePause()]: settles the stored pause promise if it is not
    settled; its [then] continuation becomes a microtask. *)
Definition callResolvePause (c : CP) : CP :=
  if resolvePause c
  then enqueue PauseThen (setStored false (resolveCancel c) c) else c.
Definition callRejectPause (c : CP) : CP :=
  if resolvePause c
  then enqueue PauseCatch (setStored false (resolveCancel c) c) else c.
Definition callResolveCancel (c : CP) : CP :=
  if resolveCancel c
  then enqueue CancelThen (setStored (resolvePause c) false c) else c.
Definition callRejectCancel (c : CP) : CP :=
  if resolveCancel c
  then enqueue CancelCatch (setStored (resolvePause c) false c) else c.

(** [fulfillMain] of a [resolve(value)]. *)
Definition fulfillMain (v : Value) (c : CP) : CP :=
  setPromise (settle (promise c) (FulfilledWith v))
    (setState STATE_FULFILLED c).

(** The [resolve] closure given to the executor: its synchronous part. *)
Definition resolve (v : Value) (c : CP) : CP :=
  let c := callResolveCancel (callResolvePause c) in
  setTimers (timers c ++ [v]) c.

(** The callback that [resolve(value)] passed to [setTimeout]. *)
Definition resolveTimeout (v : Value) (c : CP) : CP :=
  if isCanceled c then
    setPromise (settle (promise c) (RejectedWith CancelError)) c
  else if negb (isPaused c) then fulfillMain v c
  else setResolveMain (Some v) c.

(** The [reject] closure given to the executor. *)
Definition reject (e : nat) (c : CP) : CP :=
  let c := callRejectCancel (callRejectPause c) in
  setPromise (settle (promise c) (RejectedWith (ExecutorError e)))
    (setState STATE_REJECTED c).

(** [pause()], the body of its promise executor. *)
Definition pause (c : CP) : CP :=
  if lock c then c                       (* rejectPause('Operation in progress') *)
  else if isCanceled c then c            (* rejectPause('Promise was canceled') *)
  else if isSettled c then c             (* rejectPause('Promise was settled') *)
  else if isPaused c then enqueue PauseThen c
  else
    let c := setLock true c in
    if negb (pauseFn c) then setStored true (resolveCancel c) c
    else setHanded (S (pauseHanded c)) (resumeHanded c) (cancelHanded c) c.

(** [resume()], the body of its promise executor. *)
Definition resume (c : CP) : CP :=
  if lock c then c
  else if isCanceled c then c
  else if isSettled c then c
  else if isResumed c then enqueue ResumeThen c
  else if negb (resumeFn c) then
    let c := callResolvePause c in
    let c := enqueue ResumeThen c in
    match resolveMain c with
    | Some v => fulfillMain v c
    | None => c
    end
  else
    setHanded (pauseHanded c) (S (resumeHanded c)) (cancelHanded c)
      (setLock true c).

(** [cancel()], the body of its promise executor. *)
Definition cancel (c : CP) : CP :=
  if lock c then c
  else if isCanceled c then c
  else if isSettled c then c
  else
    let c := setLock true c in
    if negb (cancelFn c) then setStored (resolvePause c) true c
    else setHanded (pauseHanded c) (resumeHanded c) (S (cancelHanded c)) c.

(** The continuations. *)
Definition runMicrotask (m : Microtask) (c : CP) : CP :=
  match m with
  | PauseThen => setState STATE_PAUSED (setLock false c)
  | ResumeThen => setState STATE_RESUMED (setLock false c)
  | PauseCatch | ResumeCatch | CancelCatch => setLock false c
  | CancelThen =>
      let c := setLock false c in
      if cancelFn c && isSettled c then c   (* throws; the catch resets the lock *)
      else setPromise (settle (promise c) (RejectedWith CancelError))
             (setState STATE_CANCELED c)
  end.

(** What can happen to a controllable promise: calls of its methods,
    calls the executor makes, and turns of the event loop. *)
Inductive Label :=
| OnPause | OnResume | OnCancel       (* the executor registers a handler *)
| ExecResolve (v : Value) | ExecReject (e : nat)
| CallPause | CallResume | CallCancel
| PauseFnResolve | PauseFnReject      (* the pause handler answers *)
| ResumeFnResolve | ResumeFnReject
| CancelFnResolve | CancelFnReject
| RunMicrotask
| TimerFire.

(** One step; [None] when the step cannot happen. A timer callback runs
    only when no microtask is pending. *)
Definition step (l : Label) (c : CP) : option CP :=
  match l with
  | OnPause => Some (setFns true (resumeFn c) (cancelFn c) c)
  | OnResume => Some (setFns (pauseFn c) true (cancelFn c) c)
  | OnCancel => Some (setFns (pauseFn c) (resumeFn c) true c)
  | ExecResolve v => Some (resolve v c)
  | ExecReject e => Some (reject e c)
  | CallPause => Some (pause c)
  | CallResume => Some (resume c)
  | CallCancel => Some (cancel c)
  | PauseFnResolve =>
      match pauseHanded c with
      | S n => Some (enqueue PauseThen
                       (setHanded n (resumeHanded c) (cancelHanded c) c))
      | O => None
      end
  | PauseFnReject =>
      match pauseHanded c with
      | S n => Some (enqueue PauseCatch
                       (setHanded n (resumeHanded c) (cancelHanded c) c))
      | O => None
      end
  | ResumeFnResolve =>
      match resumeHanded c with
      | S n => Some (enqueue ResumeThen
                       (setHanded (pauseHanded c) n (cancelHanded c) c))
      | O => None
      end
  | ResumeFnReject =>
      match resumeHanded c with
      | S n => Some (enqueue ResumeCatch
                       (setHanded (pauseHanded c) n (cancelHanded c) c))
      | O => None
      end
  | CancelFnResolve =>
      match cancelHanded c with
      | S n => Some (enqueue CancelThen
                       (setHanded (pauseHanded c) (resumeHanded c) n c))
      | O => None
      end
  | CancelFnReject =>
      match cancelHanded c with
      | S n => Some (enqueue CancelCatch
                       (setHanded (pauseHanded c) (resumeHanded c) n c))
      | O => None
      end
  | RunMicrotask =>
      match microtasks c with
      | m :: rest => Some (runMicrotask m (setMicrotasks rest c))
      | [] => None
      end
  | TimerFire =>
      match microtasks c, timers c with
      | [], v :: rest => Some (resolveTimeout v (setTimers rest c))
      | _, _ => None
      end
  end.

Fixpoint run (trace : list Label) (c : CP) : option CP :=
  match trace with
  | [] => Some c
  | l :: rest => match step l c with
                 | Some c' => run rest c'
                 | None => None
                 end
  end.

(** Nothing is scheduled and no handler owes an answer. *)
Definition quiescent (c : CP) : bool :=
  bool_decide (microtasks c = []) && bool_decide (timers c = [])
  && (pauseHanded c =? 0) && (resumeHanded c =? 0) && (cancelHanded c =? 0).

End CtlPromise.

(** ** The D2P archive adapter (d2pAdapter.js) *)
Module D2P.

Definition Buffer : Type := list Byte.byte.

(** A JavaScript string: its UTF-16 code units. *)
Definition JsString : Type := list N.

Definition zOfByte (b : Byte.byte) : Z := Z.of_N (Byte.to_N b).

Definition byteOfZ (z : Z) : Byte.byte :=
  default Byte.x00 (Byte.of_N (Z.to_N (z mod 256))).

(** The value of [bits] bits read as a signed integer. *)
Definition signed (bits : Z) (u : Z) : Z :=
  if (u <? 2 ^ (bits - 1))%Z then u else (u - 2 ^ bits)%Z.

Definition lengthZ {A} (l : list A) : Z := Z.of_nat (length l).

(** [buffer.slice(start, end)] for [0 <= start]: the end is clamped. *)
Definition sliceTo (buffer : Buffer) (start end_ : Z) : Buffer :=
  take (Z.to_nat (Z.min end_ (lengthZ buffer) - start))
    (drop (Z.to_nat start) buffer).

(** The [n] bytes at [offset]; a SmartBuffer read out of range throws. *)
Definition bytesAt (buffer : Buffer) (offset n : Z) : option Buffer :=
  if ((0 <=? offset) && (offset + n <=? lengthZ buffer))%Z
  then Some (sliceTo buffer offset (offset + n))
  else None.

(** The setter of [readOffset] checks the offset. *)
Definition setReadOffset (buffer : Buffer) (offset : Z) : option Z :=
  if ((0 <=? offset) && (offset <=? lengthZ buffer))%Z then Some offset
  else None.

Definition bigEndian (bs : Buffer) : Z :=
  foldl (fun acc b => (acc * 256 + zOfByte b)%Z) 0%Z bs.

(** The reads return the value and the new read offset. *)
Definition readInt (width : Z) (buffer : Buffer) (offset : Z)
  : option (Z * Z) :=
  bs ← bytesAt buffer offset width;
  Some (signed (8 * width) (bigEndian bs), (offset + width)%Z).

Definition readInt8 := readInt 1.
Definition readInt16BE := readInt 2.
Definition readInt32BE := readInt 4.

(** The writes return the bytes written; a value out of range throws. *)
Definition bytesOfInt (width : nat) (v : Z) : Buffer :=
  map (fun i => byteOfZ (v / 256 ^ Z.of_nat i))
    (reverse (seq 0 width)).

Definition writeInt (width : nat) (v : Z) : option Buffer :=
  if ((- 2 ^ (8 * Z.of_nat width - 1) <=? v)
      && (v <? 2 ^ (8 * Z.of_nat width - 1)))%Z
  then Some (bytesOfInt width v) else None.

Definition writeInt8 := writeInt 1.
Definition writeInt16BE := writeInt 2.
Definition writeInt32BE := writeInt 4.

Record Property := mkProperty { key : JsString; value : JsString }.

Record Meta := mkMeta {
  properties : list Property;
  files : list JsString;
}.

Record FileInfo := mkFileInfo { fileOffset : Z; fileSize : Z }.

(** What [extract] resolves with: an object with one property per file
    name, then [meta] and [indexes] assigned over it. *)
Record Archives := mkArchives {
  fileBuffers : gmap JsString Buffer;
  meta : Meta;
  indexes : list (JsString * FileInfo);
}.

Inductive Error := WRONG_D2P_VERSION_ERROR | D2P_DOES_NOT_EXISTS_ERROR.

(** A property of that object, as [arch[file]] reads it. *)
Inductive ArchValue :=
| BufferValue (b : Buffer)
| MetaValue (m : Meta)
| IndexesValue (i : list (JsString * FileInfo))
| Undefined.

Definition str_meta : JsString := [109; 101; 116; 97]%N.
Definition str_indexes : JsString := [105; 110; 100; 101; 120; 101; 115]%N.

Definition getProperty (arch : Archives) (name : JsString) : ArchValue :=
  if bool_decide (name = str_indexes) then IndexesValue (indexes arch)
  else if bool_decide (name = str_meta) then MetaValue (meta arch)
  else match fileBuffers arch !! name with
       | Some b => BufferValue b
       | None => Undefined
       end.

(** [Map.prototype.set]: a key keeps its place, its value is replaced. *)
Fixpoint mapSet {V} (k : JsString) (v : V) (m : list (JsString * V))
  : list (JsString * V) :=
  match m with
  | [] => [(k, v)]
  | (k', v') :: rest =>
      if bool_decide (k' = k) then (k, v) :: rest
      else (k', v') :: mapSet k v rest
  end.

(** [name.replace(/\\/g, '/')] *)
Definition replaceBackslashes (s : JsString) : JsString :=
  map (fun c => if (c =? 92)%N then 47%N else c) s.

Section Codec.
(** The UTF-8 codec of Node's [Buffer]: [toString('utf8')] and
    [write(str)] / [byteLength(str)]. *)
Variable utf8Decode : Buffer -> JsString.
Variable utf8Encode : JsString -> Buffer.

(** [SmartBuffer.prototype.readUTF] *)
Definition readUTF (buffer : Buffer) (offset : Z) : option (JsString * Z) :=
  '(len, offset) ← readInt16BE buffer offset;
  let utf := utf8Decode (sliceTo buffer offset (offset + len)) in
  offset ← setReadOffset buffer (offset + len);
  Some (utf, offset).

(** [SmartBuffer.prototype.writeUTF] *)
Definition writeUTF (str : JsString) : option Buffer :=
  let bytes := utf8Encode str in
  header ← writeInt16BE (lengthZ bytes);
  Some (header ++ bytes).

(** The loop reading the properties. *)
Fixpoint readProperties (count : nat) (buffer : Buffer) (offset : Z)
  : option (list Property * Z) :=
  match count with
  | O => Some ([], offset)
  | S count =>
      '(k, offset) ← readUTF buffer offset;
      '(v, offset) ← readUTF buffer offset;
      '(rest, offset) ← readProperties count buffer offset;
      Some (mkProperty k v :: rest, offset)
  end.

(** The loop reading the index records, in order. *)
Fixpoint readIndexes (count : nat) (dataOffset : Z) (buffer : Buffer)
    (offset : Z) : option (list (JsString * FileInfo) * Z) :=
  match count with
  | O => Some ([], offset)
  | S count =>
      '(filename, offset) ← readUTF buffer offset;
      '(fileOffset, offset) ← readInt32BE buffer offset;
      '(fileSize, offset) ← readInt32BE buffer offset;
      '(rest, offset) ← readIndexes count dataOffset buffer offset;
      Some ((filename, mkFileInfo (fileOffset + dataOffset) fileSize)
              :: rest, offset)
  end.

(** The loop reading the files: [readOffset = fileOffset], then
    [readBuffer(fileSize)], which stops at the end of the buffer. *)
Fixpoint readFiles (buffer : Buffer) (indexes : list (JsString * FileInfo))
    (archives : gmap JsString Buffer) : option (gmap JsString Buffer) :=
  match indexes with
  | [] => Some archives
  | (filename, fileInfo) :: rest =>
      offset ← setReadOffset buffer (fileOffset fileInfo);
      readFiles buffer rest
        (<[filename := sliceTo buffer offset (offset + fileSize fileInfo)]>
           archives)
  end.

(** The body of [extract] after the check of the version; [None] when
    it throws. *)
Definition parse (buffer : Buffer) : option Archives :=
  offset ← setReadOffset buffer (lengthZ buffer - 24);
  '(dataOffset, offset) ← readInt32BE buffer offset;
  '(dataCount, offset) ← readInt32BE buffer offset;
  '(indexOffset, offset) ← readInt32BE buffer offset;
  '(indexCount, offset) ← readInt32BE buffer offset;
  '(propertiesOffset, offset) ← readInt32BE buffer offset;
  '(propertiesCount, offset) ← readInt32BE buffer offset;
  offset ← setReadOffset buffer propertiesOffset;
  '(properties, offset) ←
    readProperties (Z.to_nat propertiesCount) buffer offset;
  offset ← setReadOffset buffer indexOffset;
  '(records, offset) ←
    readIndexes (Z.to_nat indexCount) dataOffset buffer offset;
  let indexes := foldl (fun m '(filename, info) => mapSet filename info m)
                   [] records in
  archives ← readFiles buffer indexes ∅;
  Some (mkArchives archives (mkMeta properties (map fst records)) indexes).

(** [extract(filepath)]; [file] is the content of the file, [None] when
    it cannot be accessed or read. *)
Definition extract (file : option Buffer) : Error + Archives :=
  match file with
  | None => inl D2P_DOES_NOT_EXISTS_ERROR
  | Some buffer =>
      match readInt8 buffer 0 with
      | None => inl D2P_DOES_NOT_EXISTS_ERROR
      | Some (major, offset) =>
          match readInt8 buffer offset with
          | None => inl D2P_DOES_NOT_EXISTS_ERROR
          | Some (minor, _) =>
              if negb (major =? 2)%Z || negb (minor =? 1)%Z
              then inl WRONG_D2P_VERSION_ERROR
              else match parse buffer with
                   | Some archives => inr archives
                   | None => inl D2P_DOES_NOT_EXISTS_ERROR
                   end
          end
      end
  end.

(** The state of the [reduce] of [build]: the index written so far,
    [offset], [count] and the concatenated file bodies. *)
Definition buildStep (st : Buffer * Z * Z * Buffer)
    (current : JsString * ArchValue) : option (Buffer * Z * Z * Buffer) :=
  let '(indexesBuffer, offset, count, prev) := st in
  match snd current with
  | BufferValue buffer =>
      name ← writeUTF (replaceBackslashes (fst current));
      off ← writeInt32BE (offset - 2);
      len ← writeInt32BE (lengthZ buffer);
      Some (indexesBuffer ++ name ++ off ++ len,
            (offset + lengthZ buffer)%Z, (count + 1)%Z, prev ++ buffer)
  | _ => None    (* [current.buffer.length] is not a number *)
  end.

Definition writeProperty (p : Property) : option Buffer :=
  k ← writeUTF (key p); v ← writeUTF (value p); Some (k ++ v).

(** [build(filepath, archives, meta)]: the bytes it writes, [None] when
    it throws. *)
Definition build (archives : list (JsString * ArchValue)) (meta : Meta)
  : option Buffer :=
  version ← (a ← writeInt8 2; b ← writeInt8 1; Some (a ++ b));
  '(indexesBuffer, _, count, filesBuffer) ←
    foldl (fun st current => st ≫= fun st => buildStep st current)
      (Some ([], 2%Z, 0%Z, [])) archives;
  props ← mapM writeProperty (properties meta);
  t1 ← writeInt32BE 2;
  t2 ← writeInt32BE (lengthZ filesBuffer);
  t3 ← writeInt32BE (2 + lengthZ filesBuffer);
  t4 ← writeInt32BE count;
  t5 ← writeInt32BE (2 + lengthZ filesBuffer + lengthZ indexesBuffer);
  t6 ← writeInt32BE (lengthZ (properties meta));
  Some (version ++ filesBuffer ++ indexesBuffer ++ concat props
          ++ t1 ++ t2 ++ t3 ++ t4 ++ t5 ++ t6).

(** Extracting and building again, as the archive patching of the
    download action does for an archive without changed files: the
    entries are read off the extracted object in the order of
    [meta.files]. *)
Definition entriesOf (arch : Archives) : list (JsString * ArchValue) :=
  map (fun file => (file, getProperty arch file)) (files (meta arch)).

Definition rebuild (file : option Buffer) : option Buffer :=
  match extract file with
  | inr arch => build (entriesOf arch) (meta arch)
  | inl _ => None
  end.

End Codec.

(** *** The layout of the format *)

(** The layout as the format describes it: the header 2.1, the file
    bodies, the index records (name, offset relative to the start of the
    data, size), the property records and the trailer of six integers;
    strings have a two-byte length prefix. Names and property strings are
    given by their bytes. *)
Definition utfBytes (s : Buffer) : Buffer :=
  bytesOfInt 2 (lengthZ s) ++ s.

Fixpoint indexRecords (offset : Z) (fs : list (Buffer * Buffer)) : Buffer :=
  match fs with
  | [] => []
  | (name, body) :: rest =>
      utfBytes name ++ bytesOfInt 4 offset ++ bytesOfInt 4 (lengthZ body)
        ++ indexRecords (offset + lengthZ body) rest
  end.

Definition propertyRecords (ps : list (Buffer * Buffer)) : Buffer :=
  concat (map (fun kv => utfBytes (fst kv) ++ utfBytes (snd kv)) ps).

Definition dataOf (fs : list (Buffer * Buffer)) : Buffer :=
  concat (map snd fs).

Definition trailer (fs ps : list (Buffer * Buffer)) : Buffer :=
  bytesOfInt 4 2 ++ bytesOfInt 4 (lengthZ (dataOf fs))
    ++ bytesOfInt 4 (2 + lengthZ (dataOf fs))
    ++ bytesOfInt 4 (lengthZ fs)
    ++ bytesOfInt 4 (2 + lengthZ (dataOf fs) + lengthZ (indexRecords 0 fs))
    ++ bytesOfInt 4 (lengthZ ps).

Definition layout (fs ps : list (Buffer * Buffer)) : Buffer :=
  [Byte.x02; Byte.x01] ++ dataOf fs ++ indexRecords 0 fs
    ++ propertyRecords ps ++ trailer fs ps.

(** The codec restricted to ASCII, where UTF-8 has one byte per
    character; other bytes decode to U+FFFD. *)
Definition asciiDecode (b : Buffer) : JsString :=
  map (fun x => if (Byte.to_N x <? 128)%N then Byte.to_N x else 65533%N) b.

Definition asciiEncode (s : JsString) : Buffer :=
  map (fun c => byteOfZ (Z.of_N c)) s.

End D2P.

(** ** The update queue ([lib/updater/updateQueue.js]) and the flags of
    [Update] ([lib/updater/update.js]) *)
Module UpdateQueue.

(** [update.id], drawn from the module counter [updateId]. *)
Definition Id := nat.

(** The flags of an [Update]; [_isPausing] and [_isResuming] are
    undefined until first set, which reads as [false]. *)
Record Update := mkUpdate {
  _isRunning : bool;
  _isPaused : bool;
  _isPausedByUser : bool;
  _isStopped : bool;
  _isPausing : bool;
  _isResuming : bool;
  isQueued : bool
}.

Definition setRunning (b : bool) (u : Update) : Update :=
  mkUpdate b (_isPaused u) (_isPausedByUser u) (_isStopped u)
    (_isPausing u) (_isResuming u) (isQueued u).
Definition setPausing (b : bool) (u : Update) : Update :=
  mkUpdate (_isRunning u) (_isPaused u) (_isPausedByUser u) (_isStopped u)
    b (_isResuming u) (isQueued u).
Definition setResuming (b : bool) (u : Update) : Update :=
  mkUpdate (_isRunning u) (_isPaused u) (_isPausedByUser u) (_isStopped u)
    (_isPausing u) b (isQueued u).
Definition setQueued (b : bool) (u : Update) : Update :=
  mkUpdate (_isRunning u) (_isPaused u) (_isPausedByUser u) (_isStopped u)
    (_isPausing u) (_isResuming u) b.

(** The constructor: [_isPaused = isPausedByUser]. *)
Definition newUpdate (isPausedByUser : bool) : Update :=
  mkUpdate false isPausedByUser isPausedByUser false false false true.

(** The [then] of [pause] and of [resume]. *)
Definition paused (pausedByUser : bool) (u : Update) : Update :=
  mkUpdate (_isRunning u) true pausedByUser (_isStopped u)
    false (_isResuming u) (isQueued u).
Definition resumed (u : Update) : Update :=
  mkUpdate (_isRunning u) false false (_isStopped u)
    (_isPausing u) false (isQueued u).

(** The module state of the queue, the [Update] objects by id, and the
    counter of [update.js]. *)
Record State := mkState {
  updates : list Id;
  currentUpdate : option Id;
  isPaused : bool;
  heap : Id -> Update;
  updateId : Id
}.

Definition setUpdates (l : list Id) (s : State) : State :=
  mkState l (currentUpdate s) (isPaused s) (heap s) (updateId s).
Definition setCurrentUpdate (c : option Id) (s : State) : State :=
  mkState (updates s) c (isPaused s) (heap s) (updateId s).
Definition setIsPaused (b : bool) (s : State) : State :=
  mkState (updates s) (currentUpdate s) b (heap s) (updateId s).
Definition onUpdate (this : Id) (f : Update -> Update) (s : State) : State :=
  mkState (updates s) (currentUpdate s) (isPaused s)
    (fun v => if Nat.eqb v this then f (heap s v) else heap s v)
    (updateId s).

(** A call returns, throws (the state keeps what was written before the
    throw), or exceeds the recursion bound of the model. *)
Inductive Outcome :=
| Returned
| Thrown (message : string)
| OutOfFuel.

Definition Action := State -> State * Outcome.

Definition ret : Action := fun s => (s, Returned).
Definition throw (message : string) : Action := fun s => (s, Thrown message).
Definition modify (f : State -> State) : Action := fun s => (f s, Returned).
Definition andThen (a b : Action) : Action :=
  fun s => match a s with
           | (s', Returned) => b s'
           | r => r
           end.
Definition when (c : State -> bool) (a : Action) : Action :=
  fun s => if c s then a s else (s, Returned).
Definition ifThenElse (c : State -> bool) (a b : Action) : Action :=
  fun s => if c s then a s else b s.

Notation "a >> b" := (andThen a b) (at level 62, right associativity).

(** *** [Update]: the synchronous part of the methods *)

(** [start()]; the action queue built by [initQueue] is never empty, so
    [launchNextAction] does not throw. *)
Definition start (this : Id) : Action :=
  fun s =>
    if _isRunning (heap s this) then (s, Returned)
    else if _isStopped (heap s this)
    then (s, Thrown "update: cannot start, has been stopped")
    else (onUpdate this (setRunning true) s, Returned).

Definition getPauseForbiddenReason (u : Update) : option string :=
  if negb (_isRunning u) then Some "not running"
  else if _isPausing u then Some "already pausing"
  else if _isPaused u then Some "already paused"
  else None.

Definition isPauseAllowed (u : Update) : bool :=
  match getPauseForbiddenReason u with None => true | Some _ => false end.

(** [pause(pausedByUser)] sets [_isPausing]; the argument is used by the
    [then] of the pause of the current action, see [PauseThen]. *)
Definition pause (this : Id) (pausedByUser : bool) : Action :=
  fun s =>
    if negb (isPauseAllowed (heap s this)) then (s, Returned)
    else (onUpdate this (setPausing true) s, Returned).

Definition getResumeForbiddenReason (u : Update) : option string :=
  if negb (_isRunning u) then Some "not running"
  else if _isResuming u then Some "already resuming"
  else if negb (_isPaused u) then Some "not paused"
  else None.

Definition isResumeAllowed (u : Update) : bool :=
  match getResumeForbiddenReason u with None => true | Some _ => false end.

Definition resume (this : Id) : Action :=
  fun s =>
    if negb (isResumeAllowed (heap s this)) then (s, Returned)
    else (onUpdate this (setResuming true) s, Returned).

Definition setIsQueued (this : Id) (value : bool) : Action :=
  modify (onUpdate this (setQueued value)).

(** *** The queue *)

Fixpoint indexOf (update : Id) (l : list Id) : option nat :=
  match l with
  | [] => None
  | x :: l => if Nat.eqb x update then Some 0
              else S <$> indexOf update l
  end.

(** [l.splice(i, 1)] and [l.splice(i, 0, update)] for [i <= l.length]. *)
Definition spliceOut (i : nat) (l : list Id) : list Id :=
  take i l ++ drop (S i) l.
Definition spliceIn (i : nat) (update : Id) (l : list Id) : list Id :=
  take i l ++ update :: drop i l.

Definition contains (update : Id) (s : State) : bool :=
  bool_decide (update ∈ updates s).

Definition isCurrentUpdate (update : Id) (s : State) : bool :=
  bool_decide (currentUpdate s = Some update).

(** [this.currentUpdate.removeListener(...)]: a [TypeError] without a
    current update. *)
Definition clearCurrentUpdateCallbacks : Action :=
  fun s => match currentUpdate s with
           | None => (s, Thrown "TypeError")
           | Some _ => (s, Returned)
           end.

Definition clearCurrentUpdate (pausedByUser : bool) : Action :=
  fun s =>
    match currentUpdate s with
    | None => (s, Thrown "updaterQueue: no current update")
    | Some current =>
        (clearCurrentUpdateCallbacks >>
         setIsQueued current true >>
         when (fun s => negb (_isPaused (heap s current)))
           (pause current pausedByUser) >>
         modify (setCurrentUpdate None)) s
    end.

(** [find] of [startFirstUpdateInQueue]. *)
Definition canBeStarted (s : State) (update : Id) : bool :=
  negb (_isPausedByUser (heap s update))
  && negb (_isPausing (heap s update)).

(** [startFirstUpdateInQueue] and [setIndex] call each other; [fuel]
    bounds the depth of the calls. *)
Fixpoint startFirstUpdateInQueue (fuel : nat) (resumedByUser : bool)
    : Action :=
  match fuel with
  | 0 => fun s => (s, OutOfFuel)
  | S fuel =>
      fun s =>
        match updates s with
        | [] =>
            (* [updates[0]] is undefined: the read of its flag throws,
               or the call of [setIsQueued] after the assignment *)
            if resumedByUser
            then (setCurrentUpdate None s, Thrown "TypeError")
            else (s, Thrown "TypeError")
        | update :: _ =>
            if negb resumedByUser && _isPausedByUser (heap s update)
            then
              match find (canBeStarted s) (updates s) with
              | Some nextUpdate => setIndex fuel nextUpdate 0 false false s
              | None => (s, Returned)
              end
            else
              (modify (setCurrentUpdate (Some update)) >>
               setIsQueued update false >>
               ifThenElse
                 (fun s => _isRunning (heap s update)
                           && _isPaused (heap s update))
                 (resume update) (start update)) s
        end
  end
with setIndex (fuel : nat) (update : Id) (newIndex : Z)
    (pausedByUser resumedByUser : bool) : Action :=
  match fuel with
  | 0 => fun s => (s, OutOfFuel)
  | S fuel =>
      fun s =>
        match indexOf update (updates s) with
        | None =>
            (s, Thrown "updaterQueue: cannot setIndex, update not found")
        | Some currentIndex =>
            if ((newIndex <? 0)
                || (Z.of_nat (length (updates s)) <=? newIndex))%Z
            then
              (s, Thrown "updaterQueue: cannot setIndex, invalid newIndex")
            else
              (when (fun _ => negb (Nat.eqb currentIndex (Z.to_nat newIndex)))
                 (modify (fun s =>
                    setUpdates
                      (spliceIn (Z.to_nat newIndex) update
                         (spliceOut currentIndex (updates s))) s)) >>
               when (fun _ => (newIndex =? 0)%Z || Nat.eqb currentIndex 0)
                 (when (fun s => bool_decide (is_Some (currentUpdate s)))
                    (clearCurrentUpdate pausedByUser) >>
                  when (fun s => negb (isPaused s))
                    (startFirstUpdateInQueue fuel resumedByUser))) s
        end
  end.

(** The depth of the calls is at most four, see [exec_fuel]. *)
Definition FUEL : nat := 4.

Definition add (update : Id) : Action :=
  modify (fun s => setUpdates (updates s ++ [update]) s) >>
  when (fun s => (match currentUpdate s with
                  | None => true
                  | Some current => _isPausedByUser (heap s current)
                  end) && negb (isPaused s))
    (startFirstUpdateInQueue FUEL false).

Definition remove (update : Id) : Action :=
  fun s =>
    if isCurrentUpdate update s && _isRunning (heap s update)
    then (s, Thrown "updateQueue: cannot remove update which is running")
    else
      match indexOf update (updates s) with
      | None => (s, Thrown "updateQueue: cannot remove update, not found")
      | Some index =>
          (modify (fun s => setUpdates (spliceOut index (updates s)) s) >>
           when (isCurrentUpdate update)
             (clearCurrentUpdateCallbacks >>
              modify (setCurrentUpdate None) >>
              when (fun s => negb (isPaused s)
                             && bool_decide (0 < length (updates s)))
                (startFirstUpdateInQueue FUEL false))) s
      end.

Definition pauseQueue : Action :=
  fun s =>
    if isPaused s then (s, Returned)
    else
      (modify (setIsPaused true) >>
       fun s => match currentUpdate s with
                | Some current =>
                    when (fun s => negb (_isPaused (heap s current)))
                      (pause current false) s
                | None => (s, Returned)
                end) s.

(** [resume(gameUid, releaseName, resumedByUser)]; [target] is the result
    of [getUpdate] when both names are given (an id that is not queued
    stands for [undefined]). *)
Definition resumeQueue (target : option Id) (resumedByUser : bool) : Action :=
  fun s =>
    if negb (isPaused s) then (s, Returned)
    else
      (modify (setIsPaused false) >>
       match target with
       | Some update => setIndex FUEL update 0 false resumedByUser
       | None => ret
       end >>
       fun s => match currentUpdate s with
                | Some current =>
                    when (fun s => negb (_isPausedByUser (heap s current)))
                      (resume current) s
                | None =>
                    when (fun s => bool_decide (0 < length (updates s)))
                      (startFirstUpdateInQueue FUEL resumedByUser) s
                end) s.

Definition resumeUpdate (update : Id) (resumedByUser : bool) : Action :=
  setIndex FUEL update 0 false resumedByUser.

(** [indexOf(null)] is [-1]: without a current update [setIndex]
    throws. *)
Definition pauseCurrentUpdate (pausedByUser : bool) : Action :=
  fun s =>
    if bool_decide (1 < length (updates s))
    then match currentUpdate s with
         | Some current =>
             setIndex FUEL current (Z.of_nat (length (updates s)) - 1)
               pausedByUser false s
         | None =>
             (s, Thrown "updaterQueue: cannot setIndex, update not found")
         end
    else clearCurrentUpdate true s.

Definition onUpdateCompleted : Action :=
  fun s =>
    (clearCurrentUpdateCallbacks >>
     fun s => match currentUpdate s with
              | Some update =>
                  (modify (setCurrentUpdate None) >>
                   remove update >>
                   when (fun s => bool_decide (0 < length (updates s)))
                     (startFirstUpdateInQueue FUEL false)) s
              | None => (s, Returned)
              end) s.

Definition onUpdateSetQueueIndex (update : Id) (index : Z) : Action :=
  setIndex FUEL update index false true.

(** *** [Update]: construction, stop and end *)

(** The constructor of an update that is not a pre-install: a new id,
    the initial flags, and [updateQueue.add(this)]. *)
Definition construct (isPausedByUser : bool) : Action :=
  fun s =>
    let id := updateId s + 1 in
    add id
      (mkState (updates s) (currentUpdate s) (isPaused s)
         (fun v => if Nat.eqb v id then newUpdate isPausedByUser
                   else heap s v)
         id).

Definition stop (this : Id) : Action :=
  modify (onUpdate this (setRunning false)) >>
  when (contains this) (remove this).

(** [end(error)]; the events it emits are not part of the state. *)
Definition end_ (this : Id) : Action :=
  when (fun s => _isRunning (heap s this)) (stop this).

(** *** The events *)

(** The calls of the queue, and the events of an update: the [then] and
    the [catch] of a pause and of a resume, a stop, and the end of its
    last action ([_isRunning = false] before [end()]; the listeners of
    [completed] are called by [OnUpdateCompleted]). *)
Inductive Event :=
| NewUpdate (isPausedByUser : bool)
| Remove (update : Id)
| SetIndex (update : Id) (newIndex : Z) (pausedByUser resumedByUser : bool)
| Pause
| Resume (target : option Id) (resumedByUser : bool)
| PauseCurrentUpdate (pausedByUser : bool)
| ResumeUpdate (update : Id) (resumedByUser : bool)
| OnUpdateCompleted
| OnUpdateSetQueueIndex (update : Id) (index : Z)
| PauseThen (update : Id) (pausedByUser : bool)
| PauseCatch (update : Id)
| ResumeThen (update : Id)
| ResumeCatch (update : Id)
| Stop (update : Id)
| LastActionDone (update : Id).

Definition exec (e : Event) : Action :=
  match e with
  | NewUpdate isPausedByUser => construct isPausedByUser
  | Remove update => remove update
  | SetIndex update newIndex pausedByUser resumedByUser =>
      setIndex FUEL update newIndex pausedByUser resumedByUser
  | Pause => pauseQueue
  | Resume target resumedByUser => resumeQueue target resumedByUser
  | PauseCurrentUpdate pausedByUser => pauseCurrentUpdate pausedByUser
  | ResumeUpdate update resumedByUser => resumeUpdate update resumedByUser
  | OnUpdateCompleted => onUpdateCompleted
  | OnUpdateSetQueueIndex update index => onUpdateSetQueueIndex update index
  | PauseThen update pausedByUser =>
      modify (onUpdate update (paused pausedByUser))
  | PauseCatch update => end_ update
  | ResumeThen update => modify (onUpdate update resumed)
  | ResumeCatch update => end_ update
  | Stop update => stop update
  | LastActionDone update => modify (onUpdate update (setRunning false))
  end.

(** An event can happen: the calls of the queue can be made at any time;
    the continuation of a pause (of a resume) of an update needs a pause
    (a resume) of it in flight. *)
Definition enabled (e : Event) (s : State) : bool :=
  match e with
  | PauseThen update _ | PauseCatch update => _isPausing (heap s update)
  | ResumeThen update | ResumeCatch update => _isResuming (heap s update)
  | _ => true
  end.

Definition emptyQueue (isPaused : bool) : State :=
  mkState [] None isPaused (fun _ => newUpdate false) 0.

(** The state after the events; [None] when an event cannot happen
    or the recursion bound is exceeded. *)
Fixpoint run (events : list Event) (s : State) : option State :=
  match events with
  | [] => Some s
  | e :: events =>
      if enabled e s
      then match exec e s with
           | (_, OutOfFuel) => None
           | (s', _) => run events s'
           end
      else None
  end.

(** An update that is active, as the claim has it: running and not
    paused; and one that, besides, has no pause in flight. *)
Definition active (s : State) (u : Id) : bool :=
  _isRunning (heap s u) && negb (_isPaused (heap s u)).

Definition activeAndNotPausing (s : State) (u : Id) : bool :=
  active s u && negb (_isPausing (heap s u)).

End UpdateQueue.

(** * Part II: properties *)

Module ArrayHelperFacts.
Import ArrayHelper.

Lemma find_eqb (element1 : string) (array2 : list string) :
  List.find (fun element2 => String.eqb element1 element2) array2
  = if bool_decide (element1 ∈ array2) then Some element1 else None.
Proof.
  induction array2 as [|x xs IH]; cbn; [done|].
  destruct (String.eqb_spec element1 x) as [<-|Hne].
  - rewrite bool_decide_eq_true_2; [done|]. by left.
  - rewrite IH. destruct (bool_decide (element1 ∈ xs)) eqn:Hin.
    + apply bool_decide_eq_true in Hin.
      rewrite bool_decide_eq_true_2; [done|]. by right.
    + apply bool_decide_eq_false in Hin.
      rewrite bool_decide_eq_false_2; [done|].
      intros [?|?]%elem_of_cons; done.
Qed.

(** The arrays are equal for [equalsIgnoreOrder] when they are as long as
    each other and every element of the first is a non-empty string found
    in the second. *)
Lemma equalsIgnoreOrder_true (array1 array2 : list string) :
  equalsIgnoreOrder (Some array1) (Some array2) = true
  <-> length array1 = length array2
      /\ forall element, element ∈ array1 ->
                         element <> "" /\ element ∈ array2.
Proof.
  unfold equalsIgnoreOrder.
  destruct (Nat.eqb_spec (length array1) (length array2)) as [Hlen|Hlen];
    cbn [negb].
  - rewrite forallb_forall. split.
    + intros H. split; [done|]. intros e He.
      specialize (H e (proj1 (list_elem_of_In _ _) He)).
      rewrite find_eqb in H.
      destruct (bool_decide (e ∈ array2)) eqn:Hin; [|done].
      apply bool_decide_eq_true in Hin. split; [|done].
      cbn in H. apply negb_true_iff in H. by apply String.eqb_neq.
    + intros [_ H] e He. apply list_elem_of_In in He.
      destruct (H e He) as [Hne Hin]. rewrite find_eqb.
      rewrite (bool_decide_eq_true_2 _ Hin). cbn.
      apply negb_true_iff. by apply String.eqb_neq.
  - split; [done|]. by intros [? _].
Qed.

(** X10: for arrays of non-empty strings without repetition in the
    first, [equalsIgnoreOrder] holds exactly when the second array is a
    reordering of the first. *)
Theorem equalsIgnoreOrder_reordering (array1 array2 : list string) :
  NoDup array1 -> "" ∉ array1 ->
  equalsIgnoreOrder (Some array1) (Some array2) = true
  <-> array1 ≡ₚ array2.
Proof.
  intros Hnd Hne. rewrite equalsIgnoreOrder_true. split.
  - intros [Hlen Hall]. apply submseteq_length_Permutation; [|lia].
    apply NoDup_submseteq; [done|]. intros e He. by apply Hall.
  - intros Hperm. split; [by rewrite Hperm|].
    intros e He. split; [by intros ->|]. by rewrite <- Hperm.
Qed.

Lemma equalsIgnoreOrder_reordering_witness :
  equalsIgnoreOrder (Some ["main"; "fr"]) (Some ["fr"; "main"]) = true
  <-> ["main"; "fr"] ≡ₚ ["fr"; "main"].
Proof.
  apply (equalsIgnoreOrder_reordering ["main"; "fr"] ["fr"; "main"]).
  - apply (bool_decide_unpack _). vm_compute. exact I.
  - apply (bool_decide_unpack _). vm_compute. exact I.
Defined.

End ArrayHelperFacts.

Module SequencerFacts.
Import Sequencer.

Lemma clearLoop_filter (n : nat) (q : list QueuedAction) :
  n <= length q ->
  clearLoop n q = List.filter kept (take n q) ++ drop n q.
Proof.
  revert q. induction n as [|i IH]; intros q Hn.
  - by rewrite take_0, drop_0.
  - destruct (lookup_lt_is_Some_2 q i) as [a Ha]; [lia|].
    cbn [clearLoop]. rewrite Ha.
    rewrite (take_S_r q i a Ha), List.filter_app. cbn [List.filter].
    unfold kept at 2.
    destruct (actionCanBeCanceledOnFragmentsChange (type a)) eqn:Hc; cbn.
    + rewrite IH.
      * unfold splice1. rewrite take_app_le, drop_app_le;
          rewrite ?length_take; try lia.
        rewrite take_take, Nat.min_id.
        rewrite (drop_ge (take i q)) by (rewrite length_take; lia).
        by rewrite app_nil_r.
      * unfold splice1. rewrite length_app, length_take, length_drop. lia.
    + rewrite IH by lia.
      rewrite <- app_assoc. cbn. by rewrite (drop_S q a i Ha).
Qed.

Lemma clearQueue_filter (q : list QueuedAction) :
  clearQueueOnFragmentsChange q = List.filter kept q.
Proof.
  unfold clearQueueOnFragmentsChange.
  rewrite clearLoop_filter by lia.
  by rewrite firstn_all, drop_all, app_nil_r.
Qed.

Lemma kept_iff (a : QueuedAction) :
  kept a = true <-> type a ∈ nonCancelableTypes.
Proof.
  unfold kept, actionCanBeCanceledOnFragmentsChange, nonCancelableTypes.
  cbn [List.find].
  destruct (String.eqb_spec GET_REMOTE_HASHES (type a)) as [<-|N1];
    [cbn; split; [intros _; set_solver|done]|].
  destruct (String.eqb_spec LOAD_CONFIGURATION (type a)) as [<-|N2];
    [cbn; split; [intros _; set_solver|done]|].
  destruct (String.eqb_spec CHECK_CONFIGURATION (type a)) as [<-|N3];
    [cbn; split; [intros _; set_solver|done]|].
  destruct (String.eqb_spec WRITE_RELEASE_INFOS (type a)) as [<-|N4];
    [cbn; split; [intros _; set_solver|done]|].
  cbn. split; [done|]. intros Hin.
  rewrite !elem_of_cons in Hin. rewrite elem_of_nil in Hin.
  intuition congruence.
Qed.

Lemma kept_decide (a : QueuedAction) :
  kept a = bool_decide (type a ∈ nonCancelableTypes).
Proof.
  destruct (kept a) eqn:Hk.
  - symmetry. apply bool_decide_eq_true. by apply kept_iff.
  - symmetry. apply bool_decide_eq_false. intros Hin.
    apply kept_iff in Hin. congruence.
Qed.

Lemma createFragmentDownloadActions_concat (frs : list string)
    (q : list QueuedAction) :
  createFragmentDownloadActions frs q
  = q ++ concat (map (fun fr => [createDirectoriesQueuedAction fr;
                                 createDownloadFragmentQueuedAction fr true])
                   frs).
Proof.
  unfold createFragmentDownloadActions.
  revert q. induction frs as [|fr frs IH]; intros q; cbn.
  - by rewrite app_nil_r.
  - rewrite IH. by rewrite <- !app_assoc.
Qed.

Lemma createActionsOnFragmentsChange_app (ty : UpdateType)
    (frs : list string) (q : list QueuedAction) :
  ty <> PRE_INSTALL ->
  createActionsOnFragmentsChange ty frs q
  = q ++ createActionsOnFragmentsChange ty frs [].
Proof.
  intros Hty. unfold createActionsOnFragmentsChange.
  destruct ty; try congruence; cbn;
    unfold createFinalActions, createDiffActions;
    rewrite !createFragmentDownloadActions_concat;
    cbn; by rewrite <- !app_assoc.
Qed.

(** C4, the claim as stated fails: in an UPDATE run whose first action
    (GetRemoteHashes) is executing, a change of the fragment list removes
    the queued GetLocalHashes action, which the claim lists as preserved;
    the queue that the claim describes differs from the one the code
    leaves. *)
Lemma C4_GetLocalHashes_not_preserved :
  let u := mkUpdate UPDATE (Some ["main"]) true
             (queueAfterStart UPDATE ["main"]) in
  let getLocal := createQueuedAction GET_LOCAL_HASHES None in
  (getLocal ∈ _actionsQueue u)
  /\ (getLocal ∈ specClearedQueue (_actionsQueue u))
  /\ (getLocal ∉ clearQueueOnFragmentsChange (_actionsQueue u))
  /\ (getLocal ∉ _actionsQueue (setFragments ["main"; "fr"] u))
  /\ clearQueueOnFragmentsChange (_actionsQueue u)
     <> specClearedQueue (_actionsQueue u).
Proof.
  cbn zeta. split; [|split; [|split; [|split]]].
  - apply list_elem_of_In. vm_compute. tauto.
  - apply list_elem_of_In. vm_compute. tauto.
  - rewrite list_elem_of_In. vm_compute. intuition discriminate.
  - rewrite list_elem_of_In. vm_compute. intuition discriminate.
  - vm_compute. discriminate.
Qed.

(** C4, amended: when the fragment list changes during a running update
    that is not a PRE_INSTALL, the queue becomes the queued actions of the
    four types GetRemoteHashes, LoadConfiguration, CheckConfiguration and
    WriteReleaseInfos, all of them and in their order, followed by the
    rebuilt actions (SaveHashes, CreateDiff, the per-fragment actions and
    the final ones); every other queued action, GetLocalHashes included,
    is removed. *)
Theorem C4_setFragments_queue (u : Update) (frs : list string) :
  isRunning u = true ->
  updType u <> PRE_INSTALL ->
  ArrayHelper.equalsIgnoreOrder (Some frs) (_fragments u) = false ->
  _actionsQueue (setFragments frs u)
  = List.filter nonCancelable (_actionsQueue u)
      ++ createActionsOnFragmentsChange (updType u) frs []
  /\ clearQueueOnFragmentsChange (_actionsQueue u)
     = List.filter nonCancelable (_actionsQueue u)
  /\ (forall a, a ∈ clearQueueOnFragmentsChange (_actionsQueue u) <->
                a ∈ _actionsQueue u /\ type a ∈ nonCancelableTypes)
  /\ (forall a, type a = GET_LOCAL_HASHES ->
                ~ (a ∈ clearQueueOnFragmentsChange (_actionsQueue u))).
Proof.
  intros Hrun Hty Hneq.
  assert (Hclear : clearQueueOnFragmentsChange (_actionsQueue u)
                   = List.filter nonCancelable (_actionsQueue u)).
  { rewrite clearQueue_filter. apply List.filter_ext. intros a.
    apply kept_decide. }
  assert (Hmem : forall a,
             a ∈ clearQueueOnFragmentsChange (_actionsQueue u) <->
             a ∈ _actionsQueue u /\ type a ∈ nonCancelableTypes).
  { intros a. rewrite Hclear, (list_elem_of_In _ a), List.filter_In.
    unfold nonCancelable. rewrite bool_decide_eq_true.
    rewrite (list_elem_of_In _ a). tauto. }
  split; [|split; [|split]].
  - unfold setFragments. rewrite Hneq, Hrun. cbn.
    rewrite createActionsOnFragmentsChange_app by done.
    by rewrite Hclear.
  - done.
  - done.
  - intros a Hta Hin. apply Hmem in Hin as [_ Hin].
    rewrite Hta in Hin. apply list_elem_of_In in Hin.
    vm_compute in Hin. intuition discriminate.
Qed.

Lemma C4_setFragments_queue_witness :
  let u := mkUpdate UPDATE (Some ["main"]) true
             (queueAfterStart UPDATE ["main"]) in
  _actionsQueue (setFragments ["main"; "fr"] u)
  = List.filter nonCancelable (_actionsQueue u)
      ++ createActionsOnFragmentsChange UPDATE ["main"; "fr"] [].
Proof.
  cbn zeta.
  apply (C4_setFragments_queue
           (mkUpdate UPDATE (Some ["main"]) true
              (queueAfterStart UPDATE ["main"])) ["main"; "fr"]).
  - reflexivity.
  - discriminate.
  - reflexivity.
Defined.

(** *** Fragment lists that differ by their order only *)

(** X11: [setFragments] with a reordering of the current fragments (no
    empty name among them) changes nothing: the fragments keep their
    order and the queue of a running update is not rebuilt. *)
Theorem setFragments_reordering (u : Update) (frs current : list string) :
  _fragments u = Some current -> frs ≡ₚ current -> "" ∉ frs ->
  setFragments frs u = u.
Proof.
  intros Hcur Hperm Hne. unfold setFragments.
  rewrite Hcur.
  replace (ArrayHelper.equalsIgnoreOrder (Some frs) (Some current))
    with true; [done|].
  symmetry. apply ArrayHelperFacts.equalsIgnoreOrder_true.
  split; [by rewrite Hperm|].
  intros e He. split; [by intros ->|]. by rewrite <- Hperm.
Qed.

Lemma setFragments_reordering_witness :
  let u := mkUpdate UPDATE (Some ["main"; "fr"]) true
             (queueAfterStart UPDATE ["main"; "fr"]) in
  setFragments ["fr"; "main"] u = u.
Proof.
  cbn zeta.
  apply (setFragments_reordering _ ["fr"; "main"] ["main"; "fr"]).
  - reflexivity.
  - apply perm_swap.
  - apply (bool_decide_unpack _). vm_compute. exact I.
Defined.

(** *** The queue of a new update and the rebuilt queue *)

(** The actions that follow the initial ones. *)
Definition downloadActions (frs : list string) : list QueuedAction :=
  createDiffQueuedAction frs
  :: concat (map (fun fr => [createDirectoriesQueuedAction fr;
                             createDownloadFragmentQueuedAction fr true])
               frs)
  ++ [createQueuedAction DELETE_FILES None;
      createQueuedAction CLEAR_EMPTY_DIRECTORIES None;
      createQueuedAction SAVE_HASHES None].

(** X12: but for a PRE_INSTALL, the queue of a new update is its initial
    actions followed by the diff of the fragments, then for each fragment
    in order its CreateDirectories and its DownloadFragment, then
    DeleteFiles, ClearEmptyDirectories and SaveHashes; the actions added
    when the fragments change are a SaveHashes followed by those same
    actions for the new fragments. *)
Theorem queue_of_fragments (ty : UpdateType) (frs : list string)
    (q : list QueuedAction) :
  ty <> PRE_INSTALL ->
  initQueue ty frs = createInitialActions ty frs [] ++ downloadActions frs
  /\ createActionsOnFragmentsChange ty frs q
     = q ++ createQueuedAction SAVE_HASHES None :: downloadActions frs.
Proof.
  intros Hty. unfold initQueue, createActionsOnFragmentsChange.
  replace (negb (UpdateType_eqb ty PRE_INSTALL)) with true
    by (by destruct ty).
  unfold createFinalActions, createDiffActions, downloadActions.
  rewrite !createFragmentDownloadActions_concat.
  split; rewrite <- ?app_assoc; cbn [app]; by rewrite <- ?app_assoc.
Qed.

Lemma queue_of_fragments_witness :
  initQueue UPDATE ["main"; "fr"]
  = createInitialActions UPDATE ["main"; "fr"] []
      ++ downloadActions ["main"; "fr"]
  /\ createActionsOnFragmentsChange UPDATE ["main"; "fr"] []
     = [] ++ createQueuedAction SAVE_HASHES None
             :: downloadActions ["main"; "fr"].
Proof.
  apply (queue_of_fragments UPDATE ["main"; "fr"] []). discriminate.
Defined.

End SequencerFacts.

Module RepositoryFacts.
Import Repository.

(** The smallest TTL of a DNS answer, capped at five minutes. *)
Definition smallestTtl (addresses : list (string * N)) : N :=
  foldr (fun record m => N.min (snd record) m) (MIN_TTL * 10)%N addresses.

Lemma foldr_min (a m : N) (addresses : list (string * N)) :
  foldr (fun record m => N.min (snd record) m) (N.min a m) addresses
  = N.min a (foldr (fun record m => N.min (snd record) m) m addresses).
Proof.
  induction addresses as [|[address ttl] rest IH]; cbn; [done|].
  rewrite IH. lia.
Qed.

Lemma minComputedTtl_spec (m : N) (addresses : list (string * N)) :
  foldl (fun m '(_, ttl) => if (ttl <? m)%N then ttl else m) m addresses
  = foldr (fun record m => N.min (snd record) m) m addresses.
Proof.
  revert m. induction addresses as [|[address ttl] rest IH]; intros m;
    cbn [foldl foldr snd]; [done|].
  rewrite IH, <- foldr_min. f_equal.
  destruct (N.ltb_spec ttl m); lia.
Qed.

Lemma smallestTtl_bounds (addresses : list (string * N)) :
  (smallestTtl addresses <= MIN_TTL * 10)%N
  /\ (forall address ttl, (address, ttl) ∈ addresses ->
                          smallestTtl addresses <= ttl)%N
  /\ (smallestTtl addresses = MIN_TTL * 10
      \/ exists address, (address, smallestTtl addresses) ∈ addresses)%N.
Proof.
  unfold smallestTtl.
  induction addresses as [|[address ttl] rest (IH1 & IH2 & IH3)];
    cbn [foldr snd].
  - split; [lia|]. split; [|by left]. by intros ? ? ?%elem_of_nil.
  - split; [lia|]. split.
    + intros a t [[= -> ->]|Hin]%elem_of_cons; [lia|].
      specialize (IH2 a t Hin). lia.
    + destruct (N.min_spec ttl
                  (foldr (fun record m => N.min (snd record) m)
                     (MIN_TTL * 10)%N rest)) as [[_ ->]|[_ ->]].
      * right. exists address. by left.
      * destruct IH3 as [->|[a Ha]]; [by left|].
        right. exists a. by right.
Qed.

Lemma smallestTtl_foldr (addresses : list (string * N)) :
  smallestTtl addresses = foldr N.min 300%N (map snd addresses).
Proof.
  unfold smallestTtl. induction addresses as [|[address ttl] rest IH];
    cbn [foldr map snd]; [done|]. by rewrite IH.
Qed.

(** X16: after a DNS answer, the cached servers are the addresses of the
    answer, in its order, each with the protocol, the port and the path
    of the repository; the server URL built from the host name and the
    host are unchanged; and the next refresh is scheduled after
    [max(30, m)] seconds, where [m] is the smallest of 300 and of the
    TTLs of the answer. So the delay is between 30 s and 5 min, it is at
    most [max(30, ttl)] for every TTL of the answer, and it is 300 s or
    [max(30, ttl)] for one of them: 30 s as soon as one TTL is 30 s or
    less. An empty answer leaves no cached server. *)
Theorem refreshed_cache (addresses : list (string * N)) (r : Repository) :
  let r' := refreshCachedServers (Some addresses) r in
  let seconds := N.max 30 (foldr N.min 300%N (map snd addresses)) in
  cachedServers r'
  = map (fun record =>
           infoProtocol (infos r) +:+ "//" +:+ fst record +:+ ":"
             +:+ infoPort (infos r) +:+ infoPathname (infos r)) addresses
  /\ server r' = server r /\ host r' = host r
  /\ refreshCachedServersTimeout r' = Some (seconds * 1000)%N
  /\ (30 <= seconds <= 300)%N
  /\ (forall address ttl, (address, ttl) ∈ addresses ->
                          seconds <= N.max 30 ttl)%N
  /\ (seconds = 300
      \/ exists address ttl, (address, ttl) ∈ addresses
                             /\ seconds = N.max 30 ttl)%N
  /\ ((exists address ttl, (address, ttl) ∈ addresses /\ ttl <= 30)%N ->
      seconds = 30%N).
Proof.
  cbn zeta. unfold refreshCachedServers.
  cbn [cachedServers server host refreshCachedServersTimeout].
  rewrite minComputedTtl_spec. fold (smallestTtl addresses).
  rewrite <- smallestTtl_foldr.
  destruct (smallestTtl_bounds addresses) as (H1 & H2 & H3).
  unfold MIN_TTL in *.
  split; [|split; [done|split; [done|split; [done|]]]].
  - apply map_ext. by intros [address ttl].
  - split; [lia|]. split; [|split].
    + intros address ttl Hin. specialize (H2 address ttl Hin). lia.
    + destruct H3 as [->|[address Hin]]; [by left|].
      right. by exists address, (smallestTtl addresses).
    + intros (address & ttl & Hin & Httl).
      specialize (H2 address ttl Hin). lia.
Qed.

(** An answer of two records, one with a TTL under 30 s. *)
Lemma refreshed_cache_witness :
  let r := mkRepository "https://cytrus.example.com"
             ["https://cytrus.example.com"] "cytrus.example.com"
             (mkInfos "https:" "cytrus.example.com" "cytrus.example.com"
                "443" "") None in
  let r' := refreshCachedServers
              (Some [("10.0.0.1", 10%N); ("10.0.0.2", 100%N)]) r in
  cachedServers r' = ["https://10.0.0.1:443"; "https://10.0.0.2:443"]
  /\ refreshCachedServersTimeout r' = Some 30000%N.
Proof.
  cbn zeta.
  destruct (refreshed_cache [("10.0.0.1", 10%N); ("10.0.0.2", 100%N)]
              (mkRepository "https://cytrus.example.com"
                 ["https://cytrus.example.com"] "cytrus.example.com"
                 (mkInfos "https:" "cytrus.example.com"
                    "cytrus.example.com" "443" "") None))
    as (Hservers & _ & _ & Htimeout & _).
  split; [exact Hservers|exact Htimeout].
Defined.

End RepositoryFacts.

Module FetcherFacts.
Import Repository Fetcher.

(** *** Resuming against a server without range support *)

(** A download of 8 bytes resumed on a 3-byte temporary file: the request
    carries [Range: bytes=3-]. *)
Definition exampleRepository : Repository :=
  refreshCachedServers (Some [("10.0.0.1", 60%N); ("10.0.0.2", 45%N)])
    (default (mkRepository "" [] "" (mkInfos "" "" "" "" "") None)
       (newRepository
          (mkParsedUrl "https:" "cytrus.example.com" None "/"))).

Definition resumedState : State :=
  fst (fetch exampleRepository "/dofus/hashes/aa/aabbcc" 0 (Some 3%N) 8).

Example resumedState_sends_range :
  snd (fetch exampleRepository "/dofus/hashes/aa/aabbcc" 0 (Some 3%N) 8)
  = [SendRequest
       (mkRequest "https://10.0.0.1:443/dofus/hashes/aa/aabbcc"
          (Some "cytrus.example.com") (Some 3%N) 2000 false)].
Proof. reflexivity. Qed.

(** C7, the claim as stated fails: the resumed request carries a Range
    header, the server answers 200 without [Accept-Ranges: bytes], and the
    fetcher rejects with 'Partial content not supported'; it sends no new
    request and leaves the temporary file as it was. *)
Lemma C7_resume_without_ranges_rejects :
  let res := mkResponse 200 None in
  headersRange resumedState = Some 3%N
  /\ onResponse None res resumedState
     = (resumedState, [Reject ErrPartialContentNotSupported])
  /\ rejected (snd (onResponse None res resumedState)) = true
  /\ retried (snd (onResponse None res resumedState)) = false
  /\ tmpFile (fst (onResponse None res resumedState)) = Some 3%N.
Proof. cbn zeta. repeat split; reflexivity. Qed.

(** C7, amended: when a resumed download (non-empty temporary file, Range
    header sent) gets a response without [Accept-Ranges: bytes], the
    fetcher resolves if the temporary file already has the expected size;
    otherwise, on status 416 it removes the temporary file and the Range
    header and sends the request again from byte zero; on any other status
    it rejects (with the status code when it is neither 200 nor 206, with
    'Partial content not supported' when it is), sends nothing and leaves
    the temporary file in place. *)
Theorem C7_resume_without_accept_ranges (res : Response) (s : State)
    (n : N) :
  cpIsSettled s = false -> cpIsPaused s = false -> rs s = false ->
  shouldResume s = true ->
  tmpFile s = Some n -> n <> 0%N ->
  acceptRanges res <> Some "bytes" ->
  (n = expectedSize s -> forall ue, onResponse ue res s = (s, [Resolve]))
  /\ (n <> expectedSize s -> status res = 416%Z ->
      exists s' rq,
        onResponse None res s = (s', [SendRequest rq])
        /\ tmpFile s' = None /\ headersRange s' = None
        /\ shouldResume s' = false
        /\ rangeHeader rq = None /\ url rq = fetchUrl s
        /\ hostHeader rq = Some (hostName s))
  /\ (n <> expectedSize s -> status res <> 416%Z ->
      forall ue,
        onResponse ue res s
        = (s, [Reject (if ((status res =? 206) || (status res =? 200))%Z
                       then ErrPartialContentNotSupported
                       else ErrCode (status res))])).
Proof.
  intros Hset Hpau Hrs Hres Htmp Hn Hacc.
  unfold onResponse. rewrite Hset, Hpau, Hrs, Hres, Htmp. cbn.
  split; [|split].
  - intros -> ue. by rewrite bool_decide_eq_true_2.
  - intros Hne H416.
    rewrite bool_decide_eq_false_2 by congruence.
    rewrite H416. cbn. unfold cleanAndRetry. rewrite Htmp.
    unfold startElectronFetch. cbn. eexists _, _. repeat split.
  - intros Hne H416 ue.
    rewrite bool_decide_eq_false_2 by congruence.
    destruct (Z.eqb_spec (status res) 416) as [|_]; [done|].
    destruct (Z.eqb_spec (status res) 206) as [E206|N206];
      destruct (Z.eqb_spec (status res) 200) as [E200|N200]; cbn;
      try reflexivity;
      by rewrite bool_decide_eq_false_2.
Qed.

Lemma C7_resume_without_accept_ranges_witness :
  onResponse None (mkResponse 416 None) resumedState
  = (mkState "https://10.0.0.1:443/dofus/hashes/aa/aabbcc"
       "cytrus.example.com" None false false 3 true false None 8
       false false,
     [SendRequest
        (mkRequest "https://10.0.0.1:443/dofus/hashes/aa/aabbcc"
           (Some "cytrus.example.com") None 2000 false)])
  /\ onResponse None (mkResponse 200 None) resumedState
     = (resumedState, [Reject ErrPartialContentNotSupported]).
Proof.
  destruct (C7_resume_without_accept_ranges (mkResponse 416 None)
              resumedState 3) as (_ & H416 & _);
    try reflexivity; try discriminate.
  destruct (C7_resume_without_accept_ranges (mkResponse 200 None)
              resumedState 3) as (_ & _ & H200);
    try reflexivity; try discriminate.
  split.
  - reflexivity.
  - apply (H200 ltac:(discriminate) ltac:(discriminate) None).
Defined.

(** *** Which endpoint a request goes to *)

Definition exampleRepositoryBeforeRefresh : Repository :=
  default (mkRepository "" [] "" (mkInfos "" "" "" "" "") None)
    (newRepository (mkParsedUrl "https:" "cytrus.example.com" None "/")).

Example exampleRepository_cache :
  cachedServers exampleRepository
  = ["https://10.0.0.1:443"; "https://10.0.0.2:443"]
  /\ server exampleRepository = "https://cytrus.example.com"
  /\ refreshCachedServersTimeout exampleRepository = Some 45000%N.
Proof. repeat split; reflexivity. Qed.

(** C9, the claim as stated fails: once the DNS answers are cached, a
    manifest request (cytrus.json, a release file) and a blob request made
    through the repository ([getHash]) still go to the server URL built
    from the host name, not to one of the cached addresses, and carry no
    Host header. *)
Lemma C9_repository_requests_bypass_cache :
  let manifest := getGamesList false exampleRepository 1 in
  let release := getRelease false exampleRepository "dofus" "main"
                   "windows" "5.0_1" 1 in
  let blob := getHash false exampleRepository "dofus" "aabbcc" 1 in
  url manifest = "https://cytrus.example.com/cytrus.json"
  /\ hostHeader manifest = None
  /\ url release
     = "https://cytrus.example.com/dofus/releases/main/windows/5.0_1.json"
  /\ hostHeader release = None
  /\ url blob = "https://cytrus.example.com/dofus/hashes/aa/aabbcc"
  /\ hostHeader blob = None
  /\ (forall c, c ∈ cachedServers exampleRepository ->
               url manifest <> c +:+ "/cytrus.json")
  /\ (forall c, c ∈ cachedServers exampleRepository ->
               url blob <> c +:+ "/dofus/hashes/aa/aabbcc").
Proof.
  cbn zeta. repeat split; try reflexivity.
  - intros c Hc. apply list_elem_of_In in Hc. vm_compute in Hc.
    destruct Hc as [<-|[<-|[]]]; vm_compute; discriminate.
  - intros c Hc. apply list_elem_of_In in Hc. vm_compute in Hc.
    destruct Hc as [<-|[<-|[]]]; vm_compute; discriminate.
Qed.

(** *** The random pick *)

Local Open Scope N_scope.

Lemma size_bounds (n : N) :
  n <> 0 -> 2 ^ N.size n <= 2 * n /\ n < 2 ^ N.size n.
Proof.
  intros Hn. split; [|apply N.size_gt].
  rewrite (N.size_log2 n Hn), N.pow_succ_r'.
  pose proof (N.log2_spec n ltac:(lia)) as [Hle _]. lia.
Qed.

Lemma size_le_of_lt (p a : N) : p < 2 ^ a -> N.size p <= a.
Proof.
  intros Hp. destruct (N.eq_dec p 0) as [->|Hne];
    [change (N.size 0) with 0; clear; lia|].
  destruct (size_bounds p Hne) as [Hs _].
  assert (H : 2 ^ N.size p < 2 ^ (a + 1)).
  { rewrite N.pow_add_r. change (2 ^ 1) with 2. lia. }
  apply N.pow_lt_mono_r_iff in H; lia.
Qed.

Lemma roundToDouble_cases (p : N) :
  let ulp := 2 ^ (N.size p - 53) in
  (roundToDouble p = p / ulp * ulp \/ roundToDouble p = (p / ulp + 1) * ulp)
  /\ 2 * roundToDouble p <= 2 * p + ulp
  /\ 2 * p <= 2 * roundToDouble p + ulp.
Proof.
  cbn zeta. unfold roundToDouble.
  set (ulp := 2 ^ (N.size p - 53)).
  assert (Hu : 0 < ulp) by (apply N.neq_0_lt_0, N.pow_nonzero; lia).
  pose proof (N.Div0.div_mod p ulp) as Hdm.
  pose proof (N.mod_lt p ulp ltac:(lia)) as Hlt.
  set (q := p / ulp) in *. set (rest := p mod ulp) in *.
  destruct (N.ltb_spec (2 * rest) ulp);
    [|destruct (N.ltb_spec ulp (2 * rest)); [|destruct (N.even q)]];
    (split; [auto|]); clearbody q rest ulp; split; nia.
Qed.

(** A multiple of [2^53] below [2^106] is not jumped over. *)
Lemma roundToDouble_ge (p i : N) :
  p < 2 ^ 106 -> i * randomDenominator <= p ->
  i * randomDenominator <= roundToDouble p.
Proof.
  intros Hp Hi.
  destruct (roundToDouble_cases p) as (Hc & _ & _). cbn zeta in Hc.
  set (s := N.size p - 53) in *.
  assert (Hs : s <= 53).
  { pose proof (size_le_of_lt p 106 Hp). lia. }
  set (ulp := 2 ^ s) in *.
  assert (Hu : 0 < ulp) by (apply N.neq_0_lt_0, N.pow_nonzero; lia).
  assert (HD : randomDenominator = 2 ^ (53 - s) * ulp).
  { unfold randomDenominator, ulp. rewrite <- N.pow_add_r. f_equal. lia. }
  pose proof (N.Div0.div_mod p ulp) as Hdm.
  pose proof (N.mod_lt p ulp ltac:(lia)) as Hlt.
  set (c := i * 2 ^ (53 - s)).
  assert (Hr : i * randomDenominator = c * ulp) by (rewrite HD; unfold c; lia).
  assert (Hcq : c <= p / ulp).
  { apply N.div_le_lower_bound; lia. }
  rewrite Hr. destruct Hc as [->| ->]; nia.
Qed.

(** Rounding up to a multiple of [2^53]. *)
Lemma roundToDouble_up (p i : N) :
  p < i * randomDenominator -> i * randomDenominator <= roundToDouble p ->
  2 <= i /\ i * randomDenominator - p <= i - 1.
Proof.
  intros Hp Hi.
  destruct (roundToDouble_cases p) as (_ & Hup & _). cbn zeta in Hup.
  assert (Hpos : 0 < i) by (destruct (N.eq_dec i 0) as [->|]; lia).
  set (t := N.size (i - 1)).
  assert (Hit : i <= 2 ^ t).
  { pose proof (N.size_gt (i - 1)) as H. fold t in H. lia. }
  assert (Hsz : N.size p <= t + 53).
  { apply size_le_of_lt. rewrite N.pow_add_r.
    fold randomDenominator. nia. }
  assert (Hulp : 2 ^ (N.size p - 53) <= 2 ^ t).
  { apply N.pow_le_mono_r; lia. }
  destruct (N.eq_dec i 1) as [->|Hne].
  - assert (t = 0) by reflexivity.
    subst t. rewrite H in Hulp. change (2 ^ 0) with 1 in Hulp. lia.
  - destruct (size_bounds (i - 1) ltac:(lia)) as [Hle _]. fold t in Hle.
    split; lia.
Qed.

(** The index drawn, as a number. *)
Definition drawn (k n : N) : N := roundToDouble (k * n) / randomDenominator.

Lemma drawn_ge (k n i : N) :
  i <= drawn k n <-> i * randomDenominator <= roundToDouble (k * n).
Proof.
  unfold drawn. set (x := roundToDouble (k * n)).
  assert (HD : 0 < randomDenominator) by (by vm_compute).
  split.
  - intros Hi. pose proof (N.Div0.mul_div_le x randomDenominator). nia.
  - intros Hi. apply N.div_le_lower_bound; lia.
Qed.

Lemma drawn_lt (k n : N) :
  k < randomDenominator -> 0 < n -> drawn k n < n.
Proof.
  intros Hk Hn. apply N.lt_nge. rewrite drawn_ge. intros Hge.
  destruct (roundToDouble_up (k * n) n) as [_ Hup]; [nia|done|]. nia.
Qed.

(** The least [k] with [i * 2^53 <= k * n]. *)
Definition threshold (n i : N) : N := (i * randomDenominator + (n - 1)) / n.

Lemma threshold_spec (n i : N) :
  0 < n ->
  i * randomDenominator <= threshold n i * n
  /\ threshold n i * n < i * randomDenominator + n.
Proof.
  intros Hn. unfold threshold.
  set (x := i * randomDenominator + (n - 1)).
  pose proof (N.Div0.mul_div_le x n) as H1.
  pose proof (N.mul_succ_div_gt x n ltac:(lia)) as H2.
  set (c := x / n) in *. clearbody c. unfold x in *. clear x. lia.
Qed.

Lemma drawn_above (k n i : N) :
  k < randomDenominator -> 0 < n < 2 ^ 32 -> threshold n i <= k ->
  i <= drawn k n.
Proof.
  intros Hk Hn Hc. apply drawn_ge. destruct (threshold_spec n i) as [H1 _]; [lia|].
  apply roundToDouble_ge; [|nia].
  apply (N.lt_trans _ (randomDenominator * 2 ^ 32)); [|by vm_compute].
  assert (HD : 0 < randomDenominator) by (by vm_compute).
  set (D := randomDenominator) in *. set (m := 2 ^ 32) in *.
  clearbody D m. nia.
Qed.

Lemma drawn_below (k n i : N) :
  0 < n -> i <= n -> k + 1 < threshold n i -> drawn k n < i.
Proof.
  intros Hn Hi Hc. apply N.lt_nge. rewrite drawn_ge. intros Hge.
  destruct (threshold_spec n i Hn) as [_ H2].
  assert (Hp : k * n < i * randomDenominator) by nia.
  destruct (roundToDouble_up (k * n) i Hp Hge) as [_ Hup]. nia.
Qed.

(** The first draw that gives an index of [i] or more. *)
Definition boundary (n i : N) : N :=
  if i =? 0 then 0
  else if n <=? i then randomDenominator
  else
    let c := threshold n i in
    if i * randomDenominator <=? roundToDouble ((c - 1) * n) then c - 1 else c.

Lemma boundary_spec (k n i : N) :
  k < randomDenominator -> 0 < n < 2 ^ 32 -> i <= n ->
  i <= drawn k n <-> boundary n i <= k.
Proof.
  intros Hk Hn Hi. unfold boundary.
  destruct (N.eqb_spec i 0) as [->|Hi0]; [lia|].
  destruct (N.leb_spec n i) as [Hni|Hni].
  - pose proof (drawn_lt k n Hk ltac:(lia)). lia.
  - cbv zeta. set (c := threshold n i).
    destruct (N.leb_spec (i * randomDenominator)
                (roundToDouble ((c - 1) * n))) as [Hup|Hup].
    + split.
      * intros Hge. destruct (N.le_gt_cases (c - 1) k) as [|Hlt]; [done|].
        pose proof (drawn_below k n i ltac:(lia) Hi ltac:(lia)). lia.
      * intros Hge. destruct (N.eq_dec k (c - 1)) as [->|Hne].
        -- by apply drawn_ge.
        -- apply drawn_above; [done|lia|]. fold c. lia.
    + split.
      * intros Hge. destruct (N.le_gt_cases c k) as [|Hlt]; [done|].
        destruct (N.eq_dec k (c - 1)) as [->|Hne].
        -- apply drawn_ge in Hge. lia.
        -- pose proof (drawn_below k n i ltac:(lia) Hi ltac:(lia)). lia.
      * intros Hge. apply drawn_above; [done|lia|done].
Qed.

Lemma boundary_threshold (n i : N) :
  0 < n -> i <= n ->
  threshold n i <= boundary n i + 1 /\ boundary n i <= threshold n i.
Proof.
  intros Hn Hi. unfold boundary.
  destruct (threshold_spec n i Hn) as [H1 H2].
  destruct (N.eqb_spec i 0) as [->|Hi0]; [nia|].
  destruct (N.leb_spec n i) as [Hni|Hni].
  - assert (i = n) as -> by lia. nia.
  - cbv zeta. destruct (_ <=? _); lia.
Qed.

Lemma threshold_step (n i : N) :
  0 < n ->
  threshold n i + randomDenominator / n <= threshold n (i + 1)
  /\ threshold n (i + 1) <= threshold n i + randomDenominator / n + 1.
Proof.
  intros Hn.
  destruct (threshold_spec n i Hn) as [H1 H2].
  destruct (threshold_spec n (i + 1) Hn) as [H3 H4].
  pose proof (N.Div0.div_mod randomDenominator n) as Hdm.
  pose proof (N.mod_lt randomDenominator n ltac:(lia)) as Hlt.
  set (d := randomDenominator / n) in *.
  set (r := randomDenominator mod n) in *.
  set (D := randomDenominator) in *.
  set (c := threshold n i) in *. set (c' := threshold n (i + 1)) in *.
  clearbody d r D c c'. split; nia.
Qed.

(** The draws that pick the entry of index [i]: those from [a] up to
    [b], the latter left out. *)
Lemma randomIndex_interval (len i : nat) :
  (0 < len)%nat -> N.of_nat len < 2 ^ 32 -> (i < len)%nat ->
  let n := N.of_nat len in
  let a := boundary n (N.of_nat i) in
  let b := boundary n (N.of_nat i + 1) in
  a <= b <= randomDenominator
  /\ (forall k, k < randomDenominator -> randomIndex k len = i <-> a <= k < b)
  /\ a + randomDenominator / n <= b + 1
  /\ b <= a + randomDenominator / n + 2.
Proof.
  intros Hlen Hbound Hi. cbv zeta.
  set (n := N.of_nat len). set (j := N.of_nat i).
  assert (Hn : 0 < n < 2 ^ 32) by lia.
  assert (Hj : j + 1 <= n) by lia.
  destruct (boundary_threshold n j) as [A1 A2]; [lia|lia|].
  destruct (boundary_threshold n (j + 1)) as [B1 B2]; [lia|lia|].
  destruct (threshold_step n j) as [S1 S2]; [lia|].
  destruct (threshold_spec n (j + 1)) as [_ T2]; [lia|].
  assert (HDn : 1 <= randomDenominator / n).
  { apply N.div_le_lower_bound; [lia|].
    assert (2 ^ 32 <= randomDenominator) by (by vm_compute). lia. }
  assert (Hle : boundary n (j + 1) <= randomDenominator).
  { assert (threshold n (j + 1) <= randomDenominator); [|lia].
    set (D := randomDenominator) in *. set (c := threshold n (j + 1)) in *.
    clearbody D c. nia. }
  split; [lia|]. split; [|lia].
  intros k Hk. unfold randomIndex. fold n. fold (drawn k n).
  pose proof (boundary_spec k n j Hk Hn ltac:(lia)) as E1.
  pose proof (boundary_spec k n (j + 1) Hk Hn ltac:(lia)) as E2.
  split.
  - intros Hd. assert (drawn k n = j) by lia. split; [apply E1; lia|].
    apply N.lt_nge. intros Hb. apply E2 in Hb. lia.
  - intros [Ha Hb]. apply E1 in Ha.
    assert (~ (j + 1 <= drawn k n)) by (intros Hx%E2; lia). lia.
Qed.

Local Close Scope N_scope.

Lemma randomIndex_lt (k : N) (len : nat) :
  (k < randomDenominator)%N -> (0 < len)%nat ->
  (randomIndex k len < len)%nat.
Proof.
  intros Hk Hlen. unfold randomIndex.
  pose proof (drawn_lt k (N.of_nat len) Hk ltac:(lia)) as Hlt.
  unfold drawn in Hlt. lia.
Qed.

(** The rounding of the product matters: with three servers, the draw
    [(2^54 - 1) / 3] has the exact product [2 - 2^-53], which is no
    double and rounds to 2. *)
Example randomIndex_rounds :
  randomIndex ((2 ^ 54 - 1) / 3) 3 = 2%nat
  /\ N.to_nat ((2 ^ 54 - 1) / 3 * 3 / randomDenominator) = 1%nat.
Proof. split; vm_compute; reflexivity. Qed.

(** The repository after the DNS answers received so far ([None]: the
    resolution failed). *)
Definition refreshed (r0 : Repository)
    (answers : list (option (list (string * N)))) : Repository :=
  foldl (fun r answer => refreshCachedServers answer r) r0 answers.

Lemma refreshed_fields (r0 : Repository)
    (answers : list (option (list (string * N)))) :
  server (refreshed r0 answers) = server r0
  /\ host (refreshed r0 answers) = host r0.
Proof.
  unfold refreshed. revert r0.
  induction answers as [|answer answers IH]; intros r0; [done|].
  cbn [foldl]. destruct (IH (refreshCachedServers answer r0)) as [-> ->].
  by destruct answer.
Qed.

Lemma newRepository_fields (info : ParsedUrl) (r0 : Repository) :
  newRepository info = Some r0 ->
  server r0 = protocol info +:+ "//" +:+ hostOf info
                +:+ stripTrailingSlash (pathname info)
  /\ host r0 = hostOf info.
Proof.
  unfold newRepository. destruct (_ && _); [done|]. by intros [= <-].
Qed.

(** The requests of the repository client. *)
Inductive ClientRequest :=
| GamesList
| Release (gameUid release platform version : string)
| ReleaseMeta (gameUid release platform version : string)
| ReleaseConfig (gameUid release platform version : string)
| Hash (gameUid hash : string)
| Information (gameUid hash : string).

Definition subPathOf (c : ClientRequest) : string :=
  match c with
  | GamesList => "/cytrus.json"
  | Release gameUid release platform version =>
      releaseFile gameUid release platform version ".json"
  | ReleaseMeta gameUid release platform version =>
      releaseFile gameUid release platform version ".meta"
  | ReleaseConfig gameUid release platform version =>
      releaseFile gameUid release platform version ".config"
  | Hash gameUid hash | Information gameUid hash => hashFile gameUid hash
  end.

Definition send (allowInsecureHttps : bool) (r : Repository)
    (c : ClientRequest) (retriesCount : N) : Request :=
  match c with
  | GamesList => getGamesList allowInsecureHttps r retriesCount
  | Release gameUid release platform version =>
      getRelease allowInsecureHttps r gameUid release platform version
        retriesCount
  | ReleaseMeta gameUid release platform version =>
      getReleaseMeta allowInsecureHttps r gameUid release platform version
        retriesCount
  | ReleaseConfig gameUid release platform version =>
      getReleaseConfig allowInsecureHttps r gameUid release platform
        version retriesCount
  | Hash gameUid hash => getHash allowInsecureHttps r gameUid hash retriesCount
  | Information gameUid hash =>
      getInformation allowInsecureHttps r gameUid hash retriesCount
  end.

(** C9, amended: whatever DNS answers the repository has cached since it
    was created, a download of the fetch module sends its request, with
    the host name of the repository in the Host header, to
    [cachedServers[floor(random * length)]]: an entry of the cached list
    when there is one, the text [undefined] otherwise. Each entry is
    the pick of the draws [k / 2^53] of one interval [a <= k < b], whose
    length is that of every other entry up to three ([2^53 / length]
    less one, at least, and two more at most): the pick is uniform up to
    the rounding. A request that the repository client makes itself, for
    a manifest or for a blob, goes to the server URL that was built from
    the host name and sets no Host header. *)
Theorem C9_request_endpoints (info : ParsedUrl) (r0 : Repository)
    (answers : list (option (list (string * N)))) (subpath : string)
    (k : N) (tmp : option N) (expected : N) :
  newRepository info = Some r0 ->
  (k < randomDenominator)%N ->
  (N.of_nat (length (cachedServers (refreshed r0 answers))) < 2 ^ 32)%N ->
  let r := refreshed r0 answers in
  let len := length (cachedServers r) in
  (exists rq,
      snd (fetch r subpath k tmp expected) = [SendRequest rq]
      /\ hostHeader rq = Some (hostOf info)
      /\ url rq
         = default "undefined" (cachedServers r !! randomIndex k len)
             +:+ subpath
      /\ (len <> 0%nat -> is_Some (cachedServers r !! randomIndex k len))
      /\ (len = 0%nat -> url rq = "undefined" +:+ subpath))
  /\ (forall i c, cachedServers r !! i = Some c ->
        exists a b : N,
          (a < b <= randomDenominator)%N
          /\ (forall k', (k' < randomDenominator)%N ->
                randomIndex k' len = i <-> (a <= k' < b)%N)
          /\ (forall k', (a <= k' < b)%N ->
                pickUrl k' (cachedServers r) subpath = c +:+ subpath)
          /\ (randomDenominator / N.of_nat len <= b - a + 1)%N
          /\ (b - a <= randomDenominator / N.of_nat len + 2)%N)
  /\ (forall allowInsecureHttps c retriesCount,
        url (send allowInsecureHttps r c retriesCount)
        = (protocol info +:+ "//" +:+ hostOf info
             +:+ stripTrailingSlash (pathname info)) +:+ subPathOf c
        /\ hostHeader (send allowInsecureHttps r c retriesCount) = None).
Proof.
  intros Hnew Hk Hlen. cbv zeta.
  destruct (newRepository_fields info r0 Hnew) as [Hserver Hhost].
  destruct (refreshed_fields r0 answers) as [Hs Hh].
  set (r := refreshed r0 answers) in *.
  split; [|split].
  - eexists. split; [reflexivity|].
    cbn [hostHeader url hostName fetchUrl initialState].
    split; [by rewrite Hh, Hhost|]. split; [reflexivity|]. split.
    + intros Hne. apply lookup_lt_is_Some_2, randomIndex_lt; [done|lia].
    + intros Hz. unfold initialState, pickUrl. cbn [fetchUrl].
      rewrite Hz. destruct (cachedServers r); [done|discriminate].
  - intros i c Hic. pose proof (lookup_lt_Some _ _ _ Hic) as Hi.
    destruct (randomIndex_interval (length (cachedServers r)) i)
      as (Hab & Hpick & Hlow & Hhigh); [lia|done|done|].
    cbv zeta in Hab, Hpick, Hlow, Hhigh.
    set (n := N.of_nat (length (cachedServers r))) in *.
    set (a := boundary n (N.of_nat i)) in *.
    set (b := boundary n (N.of_nat i + 1)) in *.
    assert (Hbig : (2 <= randomDenominator / n)%N).
    { apply N.div_le_lower_bound; [lia|].
      assert (2 * 2 ^ 32 <= randomDenominator)%N by (by vm_compute). lia. }
    exists a, b. split; [lia|]. split; [exact Hpick|]. split; [|lia].
    intros k' Hk'. unfold pickUrl.
    rewrite (proj2 (Hpick k' ltac:(lia)) Hk'). by rewrite Hic.
  - intros allowInsecureHttps c retriesCount.
    rewrite <- Hserver, <- Hs.
    destruct c; split; reflexivity.
Qed.

Lemma C9_request_endpoints_witness :
  let r := exampleRepository in
  (exists rq,
      snd (fetch r "/dofus/hashes/aa/aabbcc" (2 ^ 52) (Some 3%N) 8)
      = [SendRequest rq]
      /\ hostHeader rq = Some "cytrus.example.com"
      /\ url rq = "https://10.0.0.2:443/dofus/hashes/aa/aabbcc")
  /\ (exists a b : N,
        (a < b <= randomDenominator)%N
        /\ (forall k', (k' < randomDenominator)%N ->
              randomIndex k' 2 = 1%nat <-> (a <= k' < b)%N)
        /\ (randomDenominator / 2 <= b - a + 1)%N
        /\ (b - a <= randomDenominator / 2 + 2)%N)
  /\ url (send false r GamesList 1) = "https://cytrus.example.com/cytrus.json"
  /\ hostHeader (send false r (Hash "dofus" "aabbcc") 1) = None.
Proof.
  cbv zeta.
  destruct (C9_request_endpoints
              (mkParsedUrl "https:" "cytrus.example.com" None "/")
              exampleRepositoryBeforeRefresh
              [Some [("10.0.0.1", 60%N); ("10.0.0.2", 45%N)]]
              "/dofus/hashes/aa/aabbcc" (2 ^ 52) (Some 3%N) 8)
    as (Hfetch & Hpick & Hclient).
  - reflexivity.
  - reflexivity.
  - reflexivity.
  - split; [|split; [|split]].
    + destruct Hfetch as (rq & Hrq & Hhost & Hurl & _).
      exists rq. split; [exact Hrq|]. split; [exact Hhost|exact Hurl].
    + destruct (Hpick 1%nat "https://10.0.0.2:443" eq_refl)
        as (a & b & Hab & Hiff & _ & Hlow & Hhigh).
      exists a, b. split; [exact Hab|]. split; [exact Hiff|].
      split; [exact Hlow|exact Hhigh].
    + apply (Hclient false GamesList 1%N).
    + apply (Hclient false (Hash "dofus" "aabbcc") 1%N).
Defined.

Example pick_second_server :
  pickUrl (2 ^ 52) (cachedServers exampleRepository) "/dofus/hashes/aa/aabbcc"
  = "https://10.0.0.2:443/dofus/hashes/aa/aabbcc".
Proof. reflexivity. Qed.

End FetcherFacts.

Module FetchRetryFacts.
Import Repository Fetcher FetchRetry.

(** The Range header of the requests of a download, given the temporary
    file. *)
Definition rangeOf (s : State) : option N :=
  match tmpFile s with
  | Some n => if (n =? 0)%N then headersRange s else Some n
  | None => headersRange s
  end.

Definition requestOf (s : State) (retryCount : N) : Effect :=
  SendRequest (mkRequest (fetchUrl s) (Some (hostName s)) (rangeOf s)
                 (TIMEOUT * (retryCount + 1)) false).

Lemma startElectronFetch_request (retryCount : N) (s : State) :
  snd (startElectronFetch retryCount s) = [requestOf s retryCount].
Proof.
  unfold startElectronFetch, requestOf, rangeOf. cbn [snd].
  destruct (tmpFile s) as [n|]; [|done].
  rewrite (bool_decide_eq_true_2 (is_Some (Some n))) by done.
  by destruct (n =? 0)%N.
Qed.

Lemma startElectronFetch_again (j k : N) (s : State) :
  requestOf (fst (startElectronFetch j s)) k = requestOf s k.
Proof.
  unfold startElectronFetch, requestOf, rangeOf.
  cbn [fst fetchUrl hostName tmpFile headersRange].
  destruct (tmpFile s) as [n|]; [|done].
  rewrite (bool_decide_eq_true_2 (is_Some (Some n))) by done.
  by destruct (n =? 0)%N.
Qed.

Lemma retries_spec (maxRetry : N) (pre : list RequestError)
    (error : RequestError) (post : list RequestError) (retryCount : N)
    (s : State) :
  Forall (fun e => isRetryError e = true) pre ->
  (retryCount + N.of_nat (length pre) <= maxRetry)%N ->
  (retryCount + N.of_nat (length pre) = maxRetry
   \/ isRetryError error = false)%N ->
  retries maxRetry (pre ++ error :: post) retryCount s
  = (map (fun i => requestOf s (retryCount + 1 + N.of_nat i))
       (seq 0 (length pre)),
     Some error).
Proof.
  revert retryCount s.
  induction pre as [|e pre IH]; intros retryCount s Hpre Hlen Hstop.
  - cbn [app retries length seq map]. unfold onRequestError.
    replace ((retryCount <? maxRetry)%N && isRetryError error) with false;
      [done|].
    symmetry. apply andb_false_iff. destruct Hstop as [Hstop|Hstop].
    + left. apply N.ltb_ge. cbn in Hstop. lia.
    + by right.
  - apply Forall_cons in Hpre as [He Hpre].
    cbn [length] in Hlen, Hstop.
    cbn [app retries]. unfold onRequestError.
    replace ((retryCount <? maxRetry)%N) with true
      by (symmetry; apply N.ltb_lt; lia).
    rewrite He. cbn [andb].
    destruct (startElectronFetch (retryCount + 1) s) as [s' effs] eqn:Hstart.
    rewrite (IH (retryCount + 1)%N s' Hpre)
      by (first [lia | destruct Hstop; [left; lia|by right]]).
    assert (Heffs : effs = [requestOf s (retryCount + 1)]).
    { change effs with (snd (s', effs)). rewrite <- Hstart.
      apply startElectronFetch_request. }
    assert (Hs' : forall k, requestOf s' k = requestOf s k).
    { intros k. change s' with (fst (s', effs)). rewrite <- Hstart.
      apply startElectronFetch_again. }
    rewrite Heffs. cbn [length seq map app]. f_equal. f_equal.
    + f_equal. lia.
    + rewrite <- seq_shift, map_map. apply map_ext. intros i.
      rewrite Hs'. f_equal. lia.
Qed.

(** X17: a download whose requests keep failing is retried only after a
    retry error (a request timeout, or one of the listed system errors
    of the fetch library) and at most [maxRetry] times: it is rejected
    with the first error that is not a retry error, or with the error of
    the request numbered [maxRetry]. The requests sent until then go to
    the same URL with the same Host and Range headers, and the request
    numbered [i] has a timeout of [TIMEOUT * (i + 1)]. *)
Theorem retry_policy (maxRetry : N) (pre : list RequestError)
    (error : RequestError) (post : list RequestError) (s : State) :
  Forall (fun e => isRetryError e = true) pre ->
  (N.of_nat (length pre) <= maxRetry)%N ->
  (N.of_nat (length pre) = maxRetry \/ isRetryError error = false)%N ->
  failingDownload maxRetry (pre ++ error :: post) s
  = (map (fun i => SendRequest
                     (mkRequest (fetchUrl s) (Some (hostName s)) (rangeOf s)
                        (TIMEOUT * (N.of_nat i + 1)) false))
       (seq 0 (S (length pre))),
     Some error).
Proof.
  intros Hpre Hlen Hstop. unfold failingDownload.
  destruct (startElectronFetch 0 s) as [s0 effs] eqn:Hstart.
  rewrite (retries_spec maxRetry pre error post 0 s0 Hpre)
    by (first [lia | destruct Hstop; [left; lia|by right]]).
  assert (Heffs : effs = [requestOf s 0]).
  { change effs with (snd (s0, effs)). rewrite <- Hstart.
    apply startElectronFetch_request. }
  assert (Hs0 : forall k, requestOf s0 k = requestOf s k).
  { intros k. change s0 with (fst (s0, effs)). rewrite <- Hstart.
    apply startElectronFetch_again. }
  rewrite Heffs. cbn [seq map app]. f_equal. f_equal.
  rewrite <- seq_shift, map_map. apply map_ext. intros i.
  rewrite Hs0. unfold requestOf. do 3 f_equal. lia.
Qed.

Definition timedOut : RequestError :=
  mkRequestError (Some "request-timeout") true None.

Definition connectionReset : RequestError :=
  mkRequestError (Some "system") true (Some "ECONNRESET").

Lemma retry_policy_witness :
  failingDownload MAX_RETRY
    ([timedOut; connectionReset; timedOut; timedOut; timedOut]
       ++ timedOut :: [])
    FetcherFacts.resumedState
  = (map (fun i => SendRequest
                     (mkRequest (fetchUrl FetcherFacts.resumedState)
                        (Some (hostName FetcherFacts.resumedState))
                        (rangeOf FetcherFacts.resumedState)
                        (TIMEOUT * (N.of_nat i + 1)) false))
       (seq 0 6),
     Some timedOut).
Proof.
  apply (retry_policy MAX_RETRY
           [timedOut; connectionReset; timedOut; timedOut; timedOut]
           timedOut [] FetcherFacts.resumedState).
  - repeat constructor.
  - vm_compute. discriminate.
  - left. reflexivity.
Defined.

End FetchRetryFacts.

Module PromisePoolFacts.
Import PromisePool.

(** The error of the first rejection among the events. *)
Fixpoint firstFailure (trace : list Event) : option Error :=
  match trace with
  | [] => None
  | Fail _ error :: _ => Some error
  | Fulfil _ _ :: rest => firstFailure rest
  end.

Lemma firstFailure_app (done : list Event) (e : Event) :
  firstFailure (done ++ [e])
  = match firstFailure done with
    | Some error => Some error
    | None => firstFailure [e]
    end.
Proof.
  induction done as [|[i v|i error] done IH]; cbn; [by destruct e|done|done].
Qed.

Section Iterator.
Variable items : nat.
Variable concurrency : nat.

(** What holds of the variables of a pool, given the events so far. *)
Record Inv (done : list Event) (p : Pool) : Prop := {
  inv_count : size (inFlight p) <= resolvingCount p;
  inv_count_eq :
    isRejected p = false -> resolvingCount p = size (inFlight p);
  inv_inFlight :
    forall i, i ∈ inFlight p -> i < currentIdx p /\ i < items;
  inv_ret :
    forall i v, ret p !! i = Some v ->
                i < currentIdx p /\ i < items /\ (i ∉ inFlight p)
                /\ Fulfil i v ∈ done;
  inv_pulled :
    isRejected p = false ->
    forall i, i < currentIdx p -> i < items ->
              i ∈ inFlight p \/ is_Some (ret p !! i);
  inv_done : iterableDone p = true <-> items < currentIdx p;
  inv_rejected : isRejected p = true <-> is_Some (firstFailure done);
  inv_settlement :
    match settlement p with
    | Pending => isRejected p = false
    | Resolved values =>
        values = ret p /\ isRejected p = false /\ inFlight p = ∅
        /\ items < currentIdx p
    | Rejected error => firstFailure done = Some error
    end;
}.

(** What holds besides once the loop of [start()] has run. *)
Record Started (p : Pool) : Prop := {
  st_bound : resolvingCount p <= concurrency;
  st_full :
    isRejected p = false -> iterableDone p = false ->
    resolvingCount p = concurrency;
  st_live : settlement p = Pending -> inFlight p <> ∅;
}.

Lemma Inv_new : Inv [] newPool.
Proof.
  split; cbn [newPool inFlight resolvingCount isRejected currentIdx ret
              iterableDone settlement firstFailure].
  - by rewrite size_empty.
  - intros _. by rewrite size_empty.
  - intros i Hi. set_solver.
  - intros i v Hi. by rewrite lookup_empty in Hi.
  - intros _ i Hi. lia.
  - split; [done|lia].
  - split; [done|]. by intros [? ?].
  - done.
Qed.

Lemma next_Inv (done : list Event) (p : Pool) :
  Inv done p -> Inv done (next items p).
Proof.
  intros HI. pose proof HI as [Hc Hce Hin Hret Hpul Hdone Hrej Hset].
  unfold next. destruct (isRejected p) eqn:Hr; [exact HI|]. clear HI.
  specialize (Hce eq_refl). specialize (Hpul eq_refl).
  destruct (Nat.leb_spec items (currentIdx p)) as [Hle|Hlt].
  - (* the iterator is done *)
    cbn [resolvingCount].
    destruct (Nat.eqb_spec (resolvingCount p) 0) as [Hz|Hnz].
    + assert (Hempty : inFlight p = ∅).
      { apply leibniz_equiv, size_empty_inv. lia. }
      unfold resolve. cbn [settlement].
      destruct (settlement p) as [|values|error] eqn:Hs; split; cbn;
        rewrite ?Hr; try done; try lia.
      all: try (intros i Hi; destruct (Hin i Hi); lia).
      all: try (intros i v Hi; destruct (Hret i v Hi) as (?&?&?&?);
                split_and!; try done; lia).
      all: try (intros _ i Hi Hit; apply Hpul; lia).
      all: try (split; [intros _; lia|done]).
      * split_and!; try done. lia.
      * destruct Hset as (-> & _ & _ & _). split_and!; try done. lia.
    + destruct (settlement p) as [|values|error] eqn:Hs; split; cbn;
        rewrite ?Hr, ?Hs; try done; try lia.
      all: try (intros i Hi; destruct (Hin i Hi); lia).
      all: try (intros i v Hi; destruct (Hret i v Hi) as (?&?&?&?);
                split_and!; try done; lia).
      all: try (intros _ i Hi Hit; apply Hpul; lia).
      all: try (split; [intros _; lia|done]).
      destruct Hset as (-> & _ & Hempty & _).
      rewrite Hempty, size_empty in Hce. lia.
  - (* a promise is taken from the iterator *)
    assert (Hfresh : currentIdx p ∉ inFlight p).
    { intros Hi. destruct (Hin _ Hi). lia. }
    split; cbn; rewrite ?Hr.
    + rewrite size_union by set_solver. rewrite size_singleton. lia.
    + intros _. rewrite size_union by set_solver.
      rewrite size_singleton. lia.
    + intros i [->%elem_of_singleton|Hi]%elem_of_union; [lia|].
      destruct (Hin i Hi). lia.
    + intros i v Hi. destruct (Hret i v Hi) as (H1 & H2 & H3 & H4).
      split_and!; try done; [lia|].
      intros [->%elem_of_singleton|?]%elem_of_union; [lia|done].
    + intros _ i Hi Hit.
      destruct (decide (i = currentIdx p)) as [->|Hne].
      * left. set_solver.
      * destruct (Hpul i ltac:(lia) Hit) as [?|?]; [left|by right].
        set_solver.
    + rewrite Hdone. lia.
    + done.
    + destruct (settlement p) as [|values|error]; [done| |done].
      destruct Hset as (_ & _ & _ & ?). lia.
Qed.

(** [next] takes at most one promise, and none once the iterator is
    done. *)
Lemma next_count (p : Pool) :
  isRejected p = false ->
  (iterableDone (next items p) = true
   /\ resolvingCount (next items p) = resolvingCount p)
  \/ (iterableDone (next items p) = iterableDone p
      /\ resolvingCount (next items p) = S (resolvingCount p)).
Proof.
  intros Hr. unfold next. rewrite Hr.
  destruct (items <=? currentIdx p); [left|by right].
  cbn [resolvingCount]. unfold resolve.
  destruct (resolvingCount p =? 0); [|done].
  cbn. by destruct (settlement p).
Qed.

Lemma next_rejected (p : Pool) :
  isRejected (next items p) = isRejected p.
Proof.
  unfold next. destruct (isRejected p) eqn:Hr; [done|].
  destruct (items <=? currentIdx p); [|done].
  cbn [resolvingCount]. unfold resolve.
  destruct (resolvingCount p =? 0); [|done].
  cbn. by destruct (settlement p).
Qed.

Lemma next_live (done : list Event) (p : Pool) :
  Inv done p -> isRejected p = false ->
  settlement (next items p) = Pending -> inFlight (next items p) <> ∅.
Proof.
  intros HI Hr. unfold next. rewrite Hr.
  destruct (items <=? currentIdx p).
  - cbn [resolvingCount].
    destruct (Nat.eqb_spec (resolvingCount p) 0) as [Hz|Hnz].
    + unfold resolve. cbn. by destruct (settlement p).
    + cbn. intros _ Hempty.
      pose proof (inv_count_eq _ _ HI Hr) as Hce.
      rewrite Hempty, size_empty in Hce. lia.
  - cbn. intros _. set_solver.
Qed.

Lemma loop_spec (k : nat) (p : Pool) :
  Inv [] p -> isRejected p = false -> iterableDone p = false ->
  let p' := loop items (S k) p in
  Inv [] p' /\ isRejected p' = false
  /\ resolvingCount p' <= resolvingCount p + S k
  /\ (iterableDone p' = false ->
      resolvingCount p' = resolvingCount p + S k)
  /\ (settlement p' = Pending -> inFlight p' <> ∅).
Proof.
  revert p. induction k as [|k IH]; intros p HI Hr Hd.
  - cbn [loop]. cbv zeta.
    pose proof (next_Inv [] p HI) as HI1.
    pose proof (next_live [] p HI Hr) as Hlive.
    pose proof (next_rejected p) as Hr1. rewrite Hr in Hr1.
    destruct (next_count p Hr) as [[Hd1 Hc1]|[Hd1 Hc1]].
    + rewrite Hd1. split_and!; try done; [lia|].
      rewrite Hd1. done.
    + rewrite Hd1, Hd. split_and!; try done; lia.
  - cbn [loop]. cbv zeta.
    pose proof (next_Inv [] p HI) as HI1.
    pose proof (next_live [] p HI Hr) as Hlive.
    pose proof (next_rejected p) as Hr1. rewrite Hr in Hr1.
    destruct (next_count p Hr) as [[Hd1 Hc1]|[Hd1 Hc1]].
    + rewrite Hd1. split_and!; try done; [lia|].
      rewrite Hd1. done.
    + rewrite Hd1, Hd. rewrite Hd in Hd1.
      destruct (IH (next items p) HI1 Hr1 Hd1) as (A & B & C & D & E).
      cbn [loop] in A, B, C, D, E. cbv zeta in A, B, C, D, E.
      split_and!; try done; [lia|].
      intros Hx. specialize (D Hx). lia.
Qed.

Lemma start_spec (p : Pool) :
  start items concurrency = Some p -> Inv [] p /\ Started p.
Proof.
  unfold start. destruct (Nat.ltb_spec concurrency 1) as [|Hc]; [done|].
  intros [= <-].
  replace concurrency with (S (pred concurrency)) at 1 2 by lia.
  destruct (loop_spec (pred concurrency) newPool Inv_new eq_refl eq_refl)
    as (A & B & C & D & E).
  cbv zeta in *. cbn [resolvingCount newPool] in C, D.
  split; [done|]. split; [lia| |done]. intros _ Hd. specialize (D Hd). lia.
Qed.

Lemma step_spec (done : list Event) (e : Event) (p p' : Pool) :
  Inv done p -> Started p -> step items e p = Some p' ->
  Inv (done ++ [e]) p' /\ Started p'.
Proof.
  intros HI HS. pose proof HI as [Hc Hce Hin Hret Hpul Hdone Hrej Hset].
  destruct HS as [Hb Hfull Hlive].
  destruct e as [i v|i error]; cbn [step];
    destruct (bool_decide (i ∈ inFlight p)) eqn:Hi; try done;
    apply bool_decide_eq_true in Hi; intros [= <-].
  - (* fulfilled *)
    assert (Hpos : size (inFlight p) <> 0).
    { apply size_non_empty_iff. set_solver. }
    assert (Hsize : size (inFlight p ∖ {[i]}) = pred (size (inFlight p))).
    { rewrite size_difference by set_solver. rewrite size_singleton. lia. }
    set (q := mkPool (<[i:=v]> (ret p)) (isRejected p) (iterableDone p)
                (pred (resolvingCount p)) (currentIdx p) (settlement p)
                (inFlight p ∖ {[i]})).
    assert (HIq : Inv (done ++ [Fulfil i v]) q).
    { split; cbn.
      - lia.
      - intros Hr. specialize (Hce Hr). lia.
      - intros j Hj. apply Hin. set_solver.
      - intros j w. destruct (decide (i = j)) as [<-|Hne].
        + rewrite lookup_insert_eq. intros [= <-].
          destruct (Hin i Hi). split_and!; try done; [set_solver|].
          apply elem_of_app. right. by left.
        + rewrite lookup_insert_ne by done. intros Hj.
          destruct (Hret j w Hj) as (?&?&?&?).
          split_and!; try done; [set_solver|].
          apply elem_of_app. by left.
      - intros Hr j Hj Hjt. destruct (decide (i = j)) as [<-|Hne].
        + right. rewrite lookup_insert_eq. by eexists.
        + rewrite lookup_insert_ne by done.
          destruct (Hpul Hr j Hj Hjt) as [?|?]; [left|by right].
          set_solver.
      - done.
      - rewrite firstFailure_app. rewrite Hrej.
        by destruct (firstFailure done).
      - destruct (settlement p) as [|values|error]; [done| |].
        + destruct Hset as (_ & _ & Hempty & _). set_solver.
        + rewrite firstFailure_app. by rewrite Hset. }
    change (onFulfilled items i v p) with (next items q).
    split; [by apply next_Inv|].
    assert (Hrq : isRejected q = isRejected p) by done.
    assert (Hsq : settlement q = settlement p) by done.
    assert (Hcq : resolvingCount q = pred (resolvingCount p)) by done.
    assert (Hdq : iterableDone q = iterableDone p) by done.
    destruct (isRejected p) eqn:Hr.
    + (* after a rejection [next] does nothing *)
      assert (Hq : next items q = q) by (unfold next; by rewrite Hrq).
      rewrite Hq. split.
      * rewrite Hcq. lia.
      * intros H. congruence.
      * intros Hs. rewrite Hsq in Hs. rewrite Hs in Hset. congruence.
    + pose proof (next_live _ q HIq Hrq) as Hl.
      pose proof (next_rejected q) as Hrn. rewrite Hrq in Hrn.
      specialize (Hce eq_refl).
      destruct (next_count q Hrq) as [[Hd1 Hc1]|[Hd1 Hc1]].
      * split; [lia| |done]. intros _ Hd. congruence.
      * split; [lia| |done]. intros _ Hd. rewrite Hd, Hdq in Hd1.
        symmetry in Hd1. specialize (Hfull eq_refl Hd1). lia.
  - (* rejected *)
    set (q := mkPool (ret p) true (iterableDone p) (resolvingCount p)
                (currentIdx p) (settlement p) (inFlight p ∖ {[i]})).
    change (onRejected i error p) with (reject error q).
    assert (Hsub : size (inFlight p ∖ {[i]}) <= size (inFlight p)).
    { apply subseteq_size. set_solver. }
    assert (Hff : firstFailure (done ++ [Fail i error])
                  = match firstFailure done with
                    | Some e0 => Some e0
                    | None => Some error
                    end) by apply firstFailure_app.
    unfold reject. cbn [settlement q].
    destruct (settlement p) as [|values|e0] eqn:Hs.
    + split; [split|split]; cbn; try done; try lia.
      * intros j Hj. apply Hin. set_solver.
      * intros j w Hj. destruct (Hret j w Hj) as (?&?&?&?).
        split_and!; try done; [set_solver|].
        apply elem_of_app. by left.
      * rewrite Hff. split; [intros _|done].
        by destruct (firstFailure done).
      * rewrite Hff. destruct (firstFailure done) eqn:Hf; [|done].
        assert (isRejected p = true) by (apply Hrej; by eexists).
        congruence.
    + destruct Hset as (_ & _ & Hempty & _). set_solver.
    + split; [split|split]; cbn; rewrite ?Hs; try done; try lia.
      * intros j Hj. apply Hin. set_solver.
      * intros j w Hj. destruct (Hret j w Hj) as (?&?&?&?).
        split_and!; try done; [set_solver|].
        apply elem_of_app. by left.
      * rewrite Hff. split; [intros _|done].
        by destruct (firstFailure done).
      * rewrite Hff. by rewrite Hset.
Qed.

Lemma run_spec (trace done : list Event) (p p' : Pool) :
  Inv done p -> Started p -> run items trace p = Some p' ->
  Inv (done ++ trace) p' /\ Started p'.
Proof.
  revert done p. induction trace as [|e trace IH]; intros done p HI HS.
  - intros [= <-]. by rewrite app_nil_r.
  - cbn [run]. destruct (step items e p) as [p1|] eqn:Hstep; [|done].
    intros Hrun. destruct (step_spec done e p p1 HI HS Hstep) as [HI1 HS1].
    replace (done ++ e :: trace) with ((done ++ [e]) ++ trace)
      by (by rewrite <- app_assoc).
    by apply (IH (done ++ [e]) p1).
Qed.

Lemma execution_spec (trace : list Event) (p : Pool) :
  execution items concurrency trace = Some p ->
  Inv trace p /\ Started p.
Proof.
  unfold execution.
  destruct (start items concurrency) as [p0|] eqn:Hstart; [|done].
  destruct (start_spec p0 Hstart) as [HI HS]. intros Hrun.
  apply (run_spec trace [] p0 p HI HS Hrun).
Qed.

(** *** The values kept in [ret] *)







End Iterator.


Lemma run_app (items : nat) (t1 t2 : list Event) (p : Pool) :
  run items (t1 ++ t2) p = run items t1 p ≫= run items t2.
Proof.
  revert p. induction t1 as [|e t1 IH]; intros p; [done|].
  cbn [app run]. destruct (step items e p) as [p1|]; [apply IH|done].
Qed.

Lemma step_after_rejection (items : nat) (e : Event) (p p' : Pool) :
  isRejected p = true -> step items e p = Some p' ->
  isRejected p' = true /\ currentIdx p' = currentIdx p
  /\ inFlight p' ⊆ inFlight p.
Proof.
  intros Hr. destruct e as [i v|i error]; cbn [step];
    destruct (bool_decide (i ∈ inFlight p)); try done; intros [= <-].
  - unfold onFulfilled, next. cbn [isRejected]. rewrite Hr. cbn.
    split_and!; [done|done|set_solver].
  - unfold onRejected, reject. cbn [settlement].
    destruct (settlement p); cbn; split_and!; try done; set_solver.
Qed.

Lemma run_after_rejection (items : nat) (trace : list Event) (p p' : Pool) :
  isRejected p = true -> run items trace p = Some p' ->
  isRejected p' = true /\ currentIdx p' = currentIdx p
  /\ inFlight p' ⊆ inFlight p.
Proof.
  revert p. induction trace as [|e trace IH]; intros p Hr.
  - by intros [= <-].
  - cbn [run]. destruct (step items e p) as [p1|] eqn:Hstep; [|done].
    destruct (step_after_rejection items e p p1 Hr Hstep) as (A & B & C).
    intros Hrun. destruct (IH p1 A Hrun) as (A' & B' & C').
    split_and!; [done|congruence|set_solver].
Qed.

(** Three promises, two at a time; the second is fulfilled first. *)
Definition threeFulfilled : list Event :=
  [Fulfil 1 11; Fulfil 0 10; Fulfil 2 12].

Definition secondFails : list Event := [Fulfil 0 10; Fail 1 7].

(** X18: a pool never has more than [concurrency] promises in flight,
    and as long as none was rejected and the iterator was not found done
    it has exactly [concurrency] of them. *)
Theorem pool_concurrency (items concurrency : nat) (trace : list Event)
    (p : Pool) :
  execution items concurrency trace = Some p ->
  size (inFlight p) <= concurrency
  /\ (isRejected p = false -> iterableDone p = false ->
      size (inFlight p) = concurrency).
Proof.
  intros Hexec.
  destruct (execution_spec items concurrency trace p Hexec) as [HI HS].
  pose proof (inv_count _ _ _ HI). pose proof (st_bound _ _ HS).
  split; [lia|]. intros Hr Hd.
  rewrite <- (inv_count_eq _ _ _ HI Hr). by apply (st_full _ _ HS).
Qed.

Lemma pool_concurrency_witness :
  size (inFlight (default newPool (execution 3 2 [Fulfil 1 11]))) <= 2
  /\ (isRejected (default newPool (execution 3 2 [Fulfil 1 11])) = false ->
      iterableDone (default newPool (execution 3 2 [Fulfil 1 11])) = false ->
      size (inFlight (default newPool (execution 3 2 [Fulfil 1 11]))) = 2).
Proof.
  apply (pool_concurrency 3 2 [Fulfil 1 11]). vm_compute. reflexivity.
Defined.

(** X19: how a pool settles. While it is pending no promise was rejected
    and some promise is in flight; it is resolved only when no promise
    was rejected and none is in flight, and then with the value of every
    promise of the iterator at the index of the promise in the order of
    the iterator, whatever the order in which they were fulfilled; it is
    rejected with the error of the first promise that was rejected. *)
Theorem pool_settlement (items concurrency : nat) (trace : list Event)
    (p : Pool) :
  execution items concurrency trace = Some p ->
  match settlement p with
  | Pending => firstFailure trace = None /\ inFlight p <> ∅
  | Resolved values =>
      firstFailure trace = None /\ inFlight p = ∅
      /\ forall i, match values !! i with
                   | Some value => i < items /\ Fulfil i value ∈ trace
                   | None => items <= i
                   end
  | Rejected error => firstFailure trace = Some error
  end.
Proof.
  intros Hexec.
  destruct (execution_spec items concurrency trace p Hexec) as [HI HS].
  pose proof (inv_settlement _ _ _ HI) as Hset.
  pose proof (inv_rejected _ _ _ HI) as Hrej.
  destruct (settlement p) as [|values|error] eqn:Hs; [| |done].
  - split; [|by apply (st_live _ _ HS)].
    destruct (firstFailure trace) eqn:Hf; [|done].
    assert (isRejected p = true) by (apply Hrej; by eexists). congruence.
  - destruct Hset as (-> & Hr & Hempty & Hall). split_and!; [|done|].
    + destruct (firstFailure trace) eqn:Hf; [|done].
      assert (isRejected p = true) by (apply Hrej; by eexists). congruence.
    + intros i. destruct (ret p !! i) as [value|] eqn:Hi.
      * destruct (inv_ret _ _ _ HI i value Hi) as (_ & ? & _ & ?). done.
      * destruct (Nat.le_gt_cases items i) as [|Hlt]; [done|].
        destruct (inv_pulled _ _ _ HI Hr i ltac:(lia) Hlt) as [Hin|[? ?]];
          [set_solver|congruence].
Qed.

Lemma pool_settlement_witness :
  match settlement (default newPool (execution 3 2 threeFulfilled)) with
  | Pending =>
      firstFailure threeFulfilled = None
      /\ inFlight (default newPool (execution 3 2 threeFulfilled)) <> ∅
  | Resolved values =>
      firstFailure threeFulfilled = None
      /\ inFlight (default newPool (execution 3 2 threeFulfilled)) = ∅
      /\ forall i, match values !! i with
                   | Some value => i < 3 /\ Fulfil i value ∈ threeFulfilled
                   | None => 3 <= i
                   end
  | Rejected error => firstFailure threeFulfilled = Some error
  end.
Proof.
  apply (pool_settlement 3 2 threeFulfilled). vm_compute. reflexivity.
Defined.

(** X20: once a promise of the pool has been rejected, the pool takes no
    further promise from the iterator, whatever happens to the promises
    that are still in flight. *)
Theorem pool_stops_after_rejection (items concurrency : nat)
    (before after : list Event) (p : Pool) :
  execution items concurrency (before ++ after) = Some p ->
  is_Some (firstFailure before) ->
  exists p1,
    execution items concurrency before = Some p1
    /\ currentIdx p = currentIdx p1
    /\ inFlight p ⊆ inFlight p1.
Proof.
  unfold execution.
  destruct (start items concurrency) as [p0|] eqn:Hstart; [|done].
  rewrite run_app.
  destruct (run items before p0) as [p1|] eqn:Hrun; [|done].
  cbn. intros Hafter Hfail. exists p1. split; [done|].
  assert (Hexec : execution items concurrency before = Some p1).
  { unfold execution. by rewrite Hstart. }
  destruct (execution_spec items concurrency before p1 Hexec) as [HI _].
  assert (Hr : isRejected p1 = true) by (by apply (inv_rejected _ _ _ HI)).
  destruct (run_after_rejection items after p1 p Hr Hafter) as (_ & ? & ?).
  done.
Qed.

Lemma pool_stops_after_rejection_witness :
  exists p1,
    execution 5 2 secondFails = Some p1
    /\ currentIdx (default newPool
                     (execution 5 2 (secondFails ++ [Fulfil 2 12])))
       = currentIdx p1
    /\ inFlight (default newPool
                   (execution 5 2 (secondFails ++ [Fulfil 2 12])))
       ⊆ inFlight p1.
Proof.
  apply (pool_stops_after_rejection 5 2 secondFails [Fulfil 2 12]).
  - vm_compute. reflexivity.
  - by eexists.
Defined.

End PromisePoolFacts.

Module ManifestFacts.
Import Manifest.

Lemma get_Some_In {V} (k : string) (o : Obj V) (v : V) :
  get k o = Some v -> In (k, v) o.
Proof.
  induction o as [|[k' v'] o IH]; cbn; [done|].
  destruct (String.eqb_spec k' k) as [->|Hne].
  - intros [= ->]. by left.
  - intros H. right. by apply IH.
Qed.

Lemma get_is_Some {V} (k : string) (o : Obj V) :
  is_Some (get k o) <-> In k (keys o).
Proof.
  induction o as [|[k' v'] o IH]; cbn.
  - split; [by intros [? ?]|done].
  - destruct (String.eqb_spec k' k) as [->|Hne].
    + split; [by left|by eexists].
    + rewrite IH. split; [by right|]. intros [?|?]; [done|done].
Qed.

Lemma get_In_wf {V} (k : string) (o : Obj V) (v : V) :
  wfObj o -> In (k, v) o -> get k o = Some v.
Proof.
  unfold wfObj, keys. induction o as [|[k' v'] o IH]; cbn; [done|].
  intros Hnd Hin. apply NoDup_cons in Hnd as [Hnotin Hnd].
  destruct Hin as [[= -> ->]|Hin].
  - by rewrite String.eqb_refl.
  - destruct (String.eqb_spec k' k) as [->|Hne]; [|by apply IH].
    exfalso. apply Hnotin. apply list_elem_of_In.
    apply (in_map fst) in Hin. exact Hin.
Qed.

Lemma member_Own {V} (k : string) (o : Obj V) (v : V) :
  get k o = Some v -> member k o = Some (Own v).
Proof. unfold member. by intros ->. Qed.

Lemma member_not_own {V} (k : string) (o : Obj V) :
  get k o = None ->
  member k o = if inherited k then Some Inherited else None.
Proof. unfold member. by intros ->. Qed.

Lemma member_is_Some {V} (k : string) (o : Obj V) :
  is_Some (member k o) <-> is_Some (get k o) \/ inherited k = true.
Proof.
  unfold member. destruct (get k o) as [v|].
  - split; [left; by eexists|by eexists].
  - destruct (inherited k).
    + split; [by right|by eexists].
    + split; [by intros [? ?]|]. intros [[? ?]|?]; done.
Qed.


End ManifestFacts.

Module RepairFacts.
Import Manifest ManifestFacts Repair.

Section Action.
Variable location : string.
Variable pathJoin : string -> string -> string.
Variable lstatMode : string -> option N.
Variable getFileHash : string -> option string.

Local Abbreviation repairedEntry :=
  (repairedEntry location pathJoin lstatMode getFileHash).
Local Abbreviation repairFile :=
  (repairFile location pathJoin lstatMode getFileHash).
Variable listeners : nat * nat -> option PromisePool.Error.

Local Abbreviation complete :=
  (complete location pathJoin lstatMode getFileHash listeners).
Local Abbreviation run :=
  (run location pathJoin lstatMode getFileHash listeners).









(** *** The action and its pool *)














End Action.

(** A release with one selected fragment of two files, one of which is
    missing on disk, and one fragment that is not selected. *)
Definition exampleRemote : Manifest :=
  [("main", mkFragment [("a.bin", mkFile "aa" 4 false);
                        ("run.sh", mkFile "bb" 2 true)] None None);
   ("fr", mkFragment [("fr.txt", mkFile "cc" 1 false)] None None)].

Definition exampleJoin (location filePath : string) : string :=
  location +:+ "/" +:+ filePath.

Definition exampleLstat (p : string) : option N :=
  if String.eqb p "/games/dofus/run.sh" then Some 493%N (* 0o755 *)
  else None.

Definition exampleHash (p : string) : option string :=
  if String.eqb p "/games/dofus/run.sh" then Some "bb" else None.

(** Listeners that never throw. *)
Definition quiet (stats : nat * nat) : option PromisePool.Error := None.

(** A listener that throws once every file is counted. *)
Definition throwsAtTheEnd (stats : nat * nat) : option PromisePool.Error :=
  if fst stats =? snd stats then Some 7 else None.


(** The entries of the example, the second file settling first. *)
Example repair_marks_missing_file_broken :
  let a := createPromise ["main"] exampleRemote
           ≫= run "/games/dofus" exampleJoin exampleLstat exampleHash
                quiet [1; 0] in
  match outcome <$> a with
  | Some (Resolved table) =>
      (table !! "main" ≫= (.!! "a.bin"), table !! "main" ≫= (.!! "run.sh"))
  | _ => (None, None)
  end = (Some broken, Some (mkEntry "bb" (Some true)))
  /\ (notified <$> a) = Some [(1, 2); (2, 2)].
Proof. cbn zeta. split; vm_compute; reflexivity. Qed.

(** A listener that throws rejects the promise even though every file
    has its entry. *)
Example repair_rejected_by_listener :
  let a := createPromise ["main"] exampleRemote
           ≫= run "/games/dofus" exampleJoin exampleLstat exampleHash
                throwsAtTheEnd [0; 1] in
  match a with
  | Some a =>
      match outcome a with
      | Rejected error => Some error
      | _ => None
      end
  | None => None
  end = Some 7.
Proof. cbn zeta. vm_compute. reflexivity. Qed.

(** Twelve files: ten [repairFile] run at first, the eleventh starts when
    one of them has completed, and the promise is resolved once the
    twelve have. *)
Definition twelveFiles : Manifest :=
  [("main",
    mkFragment
      (map (fun n => (String (Ascii.ascii_of_nat (97 + n)) "",
                      mkFile "h" 1 false)) (seq 0 12))
      None None)].

Example repair_ten_at_a_time :
  let go := run "/games/dofus" exampleJoin exampleLstat exampleHash
              quiet in
  let a0 := createPromise ["main"] twelveFiles in
  let running (a : Action) :=
    List.filter (fun i => bool_decide (i ∈ PromisePool.inFlight (pool a)))
      (seq 0 12) in
  (running <$> a0) = Some (seq 0 10)
  /\ a0 ≫= go [10] = None
  /\ (running <$> (a0 ≫= go [3])) = Some [0; 1; 2; 4; 5; 6; 7; 8; 9; 10]
  /\ (outcome <$> (a0 ≫= go [3; 10; 0; 1; 2; 4; 5; 6; 7; 8; 9]))
     = Some Pending
  /\ match outcome <$> (a0 ≫= go [3; 10; 0; 1; 2; 4; 5; 6; 7; 8; 9; 11]) with
     | Some (Resolved table) =>
         (fun files' : gmap string Entry => base.size files')
           <$> table !! "main"
     | _ => None
     end = Some 12.
Proof. cbn zeta. split_and!; vm_compute; reflexivity. Qed.

End RepairFacts.

Module DiffEngineFacts.
Import Manifest ManifestFacts DiffEngine.

(** *** Entries of the diff *)

Lemma entryOf_createEmpty (F : string) (diff : Diff) (G g : string) :
  entryOf (createEmptyFragmentIfNeeded F diff) G g = entryOf diff G g.
Proof.
  unfold entryOf, createEmptyFragmentIfNeeded.
  destruct (diff !! F) eqn:HF; [done|].
  destruct (decide (F = G)) as [->|Hne].
  - rewrite lookup_insert_eq, HF. done.
  - by rewrite lookup_insert_ne.
Qed.

Lemma isFileMarkedForDownload_true (diff : Diff) (f : string) :
  isFileMarkedForDownload diff f = true
  <-> (exists G, is_Some (entryOf diff G f))
      \/ (inherited f = true /\ diff <> ∅).
Proof.
  unfold isFileMarkedForDownload, entryOf. rewrite existsb_exists. split.
  - intros [[G fd] [Hin Hf]].
    apply list_elem_of_In, elem_of_map_to_list in Hin.
    apply orb_true_iff in Hf as [Hf|Hf].
    + apply bool_decide_eq_true in Hf. left. exists G. by rewrite Hin.
    + right. split; [done|]. intros ->. by rewrite lookup_empty in Hin.
  - intros [[G HG]|[Hi Hne]].
    + destruct (diff !! G) as [fd|] eqn:Hfd.
      * exists (G, fd). split.
        -- by apply list_elem_of_In, elem_of_map_to_list.
        -- apply orb_true_iff. left. by apply bool_decide_eq_true.
      * cbn in HG. by destruct HG.
    + destruct (map_choose diff Hne) as (G & fd & Hfd).
      exists (G, fd). split.
      * by apply list_elem_of_In, elem_of_map_to_list.
      * by rewrite Hi, orb_true_r.
Qed.

Lemma isFileMarkedForDownload_false (diff : Diff) (f : string) :
  isFileMarkedForDownload diff f = false ->
  forall G, entryOf diff G f = None.
Proof.
  rewrite <- not_true_iff_false, isFileMarkedForDownload_true.
  intros H G. destruct (entryOf diff G f) eqn:He; [|done].
  destruct H. left. exists G. by rewrite He.
Qed.

(** For a name that no object inherits, the file is marked exactly when
    a fragment of the diff has an entry for it. *)
Lemma isFileMarkedForDownload_own (diff : Diff) (f : string) :
  inherited f = false ->
  isFileMarkedForDownload diff f = false
  <-> forall G, entryOf diff G f = None.
Proof.
  intros Hf. split; [apply isFileMarkedForDownload_false|].
  intros H. apply not_true_iff_false.
  intros [[G [e He]]|[Hi _]]%isFileMarkedForDownload_true.
  - by rewrite H in He.
  - congruence.
Qed.

Lemma isFileMarkedForDownload_entry (diff : Diff) (G f : string) :
  is_Some (entryOf diff G f) -> isFileMarkedForDownload diff f = true.
Proof. intros H. apply isFileMarkedForDownload_true. left. by exists G. Qed.

(** An inherited name is marked as soon as the diff has a fragment. *)
Lemma isFileMarkedForDownload_inherited (diff : Diff) (F f : string) :
  inherited f = true -> is_Some (diff !! F) ->
  isFileMarkedForDownload diff f = true.
Proof.
  intros Hf [fd HF]. apply isFileMarkedForDownload_true. right.
  split; [done|]. intros ->. by rewrite lookup_empty in HF.
Qed.

Lemma marked_createEmpty (F : string) (diff : Diff) (g : string) :
  isFileMarkedForDownload (createEmptyFragmentIfNeeded F diff) g
  = isFileMarkedForDownload diff g || inherited g.
Proof.
  assert (HF : is_Some (createEmptyFragmentIfNeeded F diff !! F)).
  { unfold createEmptyFragmentIfNeeded.
    destruct (diff !! F) eqn:E; [by rewrite E|by rewrite lookup_insert_eq]. }
  apply eq_true_iff_eq.
  rewrite orb_true_iff, !isFileMarkedForDownload_true.
  setoid_rewrite entryOf_createEmpty. split.
  - intros [H|[Hi _]]; [left; by left|by right].
  - intros [[H|[Hi Hne]]|Hi]; [by left| |].
    + right. split; [done|]. intros E. rewrite E in HF.
      rewrite lookup_empty in HF. by destruct HF.
    + right. split; [done|]. intros E. rewrite E in HF.
      rewrite lookup_empty in HF. by destruct HF.
Qed.

(** *** The deletion pass *)

Lemma entryOf_markFile (F f : string) (diff : Diff) (G g : string) :
  entryOf (markFile F diff f) G g
  = if bool_decide (G = F /\ g = f)
       && negb (isFileMarkedForDownload diff f)
    then Some createDeletedFile else entryOf diff G g.
Proof.
  unfold markFile.
  destruct (isFileMarkedForDownload diff f) eqn:Hm; cbn.
  - by rewrite andb_false_r.
  - rewrite andb_true_r. unfold entryOf.
    destruct (decide (G = F)) as [->|HG].
    + rewrite lookup_insert_eq. cbn.
      destruct (decide (g = f)) as [->|Hg].
      * rewrite lookup_insert_eq.
        by rewrite bool_decide_eq_true_2.
      * rewrite lookup_insert_ne by done.
        rewrite bool_decide_eq_false_2 by tauto.
        unfold bucket. by destruct (diff !! F).
    + rewrite lookup_insert_ne by done.
      by rewrite bool_decide_eq_false_2 by tauto.
Qed.

Lemma is_Some_markFile (F f : string) (diff : Diff) (G : string) :
  is_Some (diff !! G) -> is_Some (markFile F diff f !! G).
Proof.
  intros HG. unfold markFile. destruct (negb _); [|done].
  destruct (decide (F = G)) as [->|Hne].
  - by rewrite lookup_insert_eq.
  - by rewrite lookup_insert_ne.
Qed.

Lemma marked_markFile (F f : string) (diff : Diff) (g : string) :
  is_Some (diff !! F) ->
  isFileMarkedForDownload (markFile F diff f) g
  = isFileMarkedForDownload diff g || bool_decide (g = f).
Proof.
  intros HF. pose proof (is_Some_markFile F f diff F HF) as HF'.
  apply eq_true_iff_eq.
  rewrite orb_true_iff, bool_decide_eq_true,
    !isFileMarkedForDownload_true.
  split.
  - intros [[G [e He]]|[Hi _]].
    + rewrite entryOf_markFile in He.
      destruct (bool_decide (G = F /\ g = f)) eqn:Hb; cbn in He.
      * apply bool_decide_eq_true in Hb as [_ ->]. by right.
      * left. left. exists G. by rewrite He.
    + left. right. split; [done|]. intros E. rewrite E in HF.
      rewrite lookup_empty in HF. by destruct HF.
  - assert (Hne : markFile F diff f <> ∅).
    { intros E. rewrite E in HF'. rewrite lookup_empty in HF'.
      by destruct HF'. }
    intros [[[G HG]|[Hi _]]| ->].
    + left. exists G. rewrite entryOf_markFile.
      by destruct (_ && _).
    + by right.
    + destruct (isFileMarkedForDownload diff f) eqn:Hm.
      * apply isFileMarkedForDownload_true in Hm as [[G HG]|[Hi _]].
        -- left. exists G. rewrite entryOf_markFile.
           by destruct (_ && _).
        -- by right.
      * left. exists F. rewrite entryOf_markFile, Hm.
        by rewrite bool_decide_eq_true_2.
Qed.

Lemma entryOf_markFiles (F : string) (fs : list string) (diff : Diff)
    (G g : string) :
  is_Some (diff !! F) ->
  entryOf (foldl (markFile F) diff fs) G g
  = if bool_decide (G = F /\ g ∈ fs)
       && negb (isFileMarkedForDownload diff g)
    then Some createDeletedFile else entryOf diff G g.
Proof.
  revert diff. induction fs as [|f fs IH]; intros diff HF.
  - cbn. rewrite bool_decide_eq_false_2; [done|].
    intros [_ H]. by apply elem_of_nil in H.
  - cbn [foldl]. rewrite IH by (by apply is_Some_markFile).
    rewrite marked_markFile by done. rewrite entryOf_markFile.
    destruct (decide (g = f)) as [->|Hg].
    + destruct (isFileMarkedForDownload diff f) eqn:Hm;
        repeat case_bool_decide; cbn; rewrite ?elem_of_cons in *;
        try done; exfalso; intuition congruence.
    + destruct (isFileMarkedForDownload diff f) eqn:Hm;
        destruct (isFileMarkedForDownload diff g) eqn:Hm';
        repeat case_bool_decide; cbn; rewrite ?elem_of_cons in *;
        try done; exfalso; intuition congruence.
Qed.

Lemma marked_markFiles (F : string) (fs : list string) (diff : Diff)
    (g : string) :
  is_Some (diff !! F) ->
  isFileMarkedForDownload (foldl (markFile F) diff fs) g
  = isFileMarkedForDownload diff g || bool_decide (g ∈ fs).
Proof.
  revert diff. induction fs as [|f fs IH]; intros diff HF.
  - cbn. rewrite bool_decide_eq_false_2 by apply not_elem_of_nil.
    by rewrite orb_false_r.
  - cbn [foldl]. rewrite IH by (by apply is_Some_markFile).
    rewrite marked_markFile by done.
    destruct (isFileMarkedForDownload diff g); [done|]. cbn.
    apply eq_true_iff_eq. rewrite orb_true_iff, !bool_decide_eq_true.
    rewrite elem_of_cons. tauto.
Qed.

Lemma is_Some_createEmpty (F : string) (diff : Diff) :
  is_Some (createEmptyFragmentIfNeeded F diff !! F).
Proof.
  unfold createEmptyFragmentIfNeeded.
  destruct (diff !! F) eqn:E; [by rewrite E|by rewrite lookup_insert_eq].
Qed.

(** A fragment of the local hashes: a file of it gets a deletion entry
    when no fragment of the diff has an entry under its name and the
    name is not one that objects inherit. *)
Lemma entryOf_markFragment (diff : Diff) (kv : string * Fragment)
    (G g : string) :
  entryOf (markFragment diff kv) G g
  = if bool_decide (G = fst kv /\ g ∈ keys (Manifest.files (snd kv)))
       && negb (isFileMarkedForDownload diff g || inherited g)
    then Some createDeletedFile else entryOf diff G g.
Proof.
  unfold markFragment.
  rewrite entryOf_markFiles by apply is_Some_createEmpty.
  by rewrite entryOf_createEmpty, marked_createEmpty.
Qed.

Lemma marked_markFragment (diff : Diff) (kv : string * Fragment)
    (g : string) :
  isFileMarkedForDownload (markFragment diff kv) g
  = isFileMarkedForDownload diff g || inherited g
    || bool_decide (g ∈ keys (Manifest.files (snd kv))).
Proof.
  unfold markFragment.
  rewrite marked_markFiles by apply is_Some_createEmpty.
  by rewrite marked_createEmpty.
Qed.

(** A file that has an entry somewhere keeps all its entries. *)
Lemma markRemaining_marked (localHashes : Manifest) (diff : Diff)
    (g : string) :
  isFileMarkedForDownload diff g = true ->
  forall G, entryOf (markRemainingFilesToBeDeleted localHashes diff) G g
            = entryOf diff G g.
Proof.
  unfold markRemainingFilesToBeDeleted.
  revert diff. induction localHashes as [|kv l IH]; intros diff Hm G; [done|].
  cbn [foldl]. rewrite IH.
  - rewrite entryOf_markFragment, Hm. by rewrite andb_false_r.
  - by rewrite marked_markFragment, Hm.
Qed.

(** So does a file whose name every object inherits: the deletion pass
    writes no entry for it. *)
Lemma markRemaining_inherited (localHashes : Manifest) (diff : Diff)
    (g : string) :
  inherited g = true ->
  forall G, entryOf (markRemainingFilesToBeDeleted localHashes diff) G g
            = entryOf diff G g.
Proof.
  unfold markRemainingFilesToBeDeleted.
  revert diff. induction localHashes as [|kv l IH]; intros diff Hi G; [done|].
  cbn [foldl]. rewrite IH by done.
  rewrite entryOf_markFragment, Hi.
  by rewrite orb_true_r, andb_false_r.
Qed.

(** A file without any entry, of a name that is not inherited, gets its
    deletion entry in the first fragment of the local hashes that holds
    it, and only there. *)
Lemma markRemaining_unmarked (l1 l2 : Manifest) (F : string)
    (lf : Fragment) (diff : Diff) (g : string) :
  isFileMarkedForDownload diff g = false ->
  inherited g = false ->
  Forall (fun kv : string * Fragment =>
            g ∉ keys (Manifest.files (snd kv))) l1 ->
  g ∈ keys (Manifest.files lf) ->
  forall G,
    entryOf (markRemainingFilesToBeDeleted (l1 ++ (F, lf) :: l2) diff) G g
    = if bool_decide (G = F) then Some createDeletedFile else None.
Proof.
  unfold markRemainingFilesToBeDeleted.
  revert diff. induction l1 as [|kv l1 IH]; intros diff Hm Hi Hl1 Hg G.
  - cbn [app foldl].
    fold (markRemainingFilesToBeDeleted l2 (markFragment diff (F, lf))).
    rewrite markRemaining_marked.
    + rewrite entryOf_markFragment, Hm, Hi. cbn [fst snd orb negb].
      rewrite andb_true_r.
      case_bool_decide as H1; case_bool_decide as H2; try tauto.
      by apply isFileMarkedForDownload_false.
    + rewrite marked_markFragment. cbn [snd].
      by rewrite (bool_decide_eq_true_2 _ Hg), orb_true_r.
  - cbn [app foldl]. apply Forall_cons in Hl1 as [Hkv Hl1].
    apply IH; [|done|done|done].
    rewrite marked_markFragment, Hm, Hi.
    by rewrite bool_decide_eq_false_2.
Qed.

(** Every entry after the deletion pass was there before it or is a
    deletion entry of a file of the local hashes. *)
Lemma markRemaining_cases (localHashes : Manifest) (diff : Diff)
    (G g : string) :
  entryOf (markRemainingFilesToBeDeleted localHashes diff) G g
  = entryOf diff G g
  \/ (entryOf (markRemainingFilesToBeDeleted localHashes diff) G g
      = Some createDeletedFile
      /\ entryOf diff G g = None
      /\ exists lg, In (G, lg) localHashes
                    /\ g ∈ keys (Manifest.files lg)).
Proof.
  unfold markRemainingFilesToBeDeleted.
  revert diff. induction localHashes as [|[F lf] l IH]; intros diff.
  - by left.
  - cbn [foldl].
    destruct (IH (markFragment diff (F, lf))) as [->|(-> & Hnone & lg & Hin & Hg)].
    + rewrite entryOf_markFragment. cbn [fst snd].
      destruct (bool_decide (G = F /\ _)) eqn:Hb; cbn; [|by left].
      destruct (isFileMarkedForDownload diff g) eqn:Hm; cbn; [by left|].
      destruct (inherited g); cbn; [by left|].
      apply bool_decide_eq_true in Hb as [-> Hg].
      right. split; [done|]. split.
      * by apply isFileMarkedForDownload_false.
      * exists lf. split; [by left|done].
    + right. split; [done|]. split.
      * rewrite entryOf_markFragment in Hnone.
        by destruct (_ && _).
      * exists lg. split; [by right|done].
Qed.

(** *** Objects *)




(** *** Buckets *)





(** *** The first pass when the local hashes are the remote ones *)

Section SameManifest.
Variable isWin32 : bool.







End SameManifest.

(** *** The pack pass on empty fragments *)







(** *** The deletion pass inside the whole computation *)

Lemma first_holder (l : Manifest) (F : string) (lf : Fragment) (f : string) :
  In (F, lf) l -> f ∈ keys (Manifest.files lf) ->
  exists l1 G lg l2,
    l = l1 ++ (G, lg) :: l2
    /\ Forall (fun kv : string * Fragment =>
                 f ∉ keys (Manifest.files (snd kv))) l1
    /\ f ∈ keys (Manifest.files lg).
Proof.
  induction l as [|[H lh] l IH]; [done|].
  intros Hin Hf.
  destruct (decide (f ∈ keys (Manifest.files lh))) as [Hh|Hh].
  - exists [], H, lh, l. by repeat split.
  - destruct Hin as [[= -> ->]|Hin]; [done|].
    destruct (IH Hin Hf) as (l1 & G & lg & l2 & -> & Hl1 & Hg).
    exists ((H, lh) :: l1), G, lg, l2. repeat split; [|done].
    by constructor.
Qed.

(** Two language fragments that share a file, both installed and both
    left out of the selection. *)
Definition sharedFileManifest : Manifest :=
  [("main", mkFragment [("a.bin", mkFile "aa" 4 false)] None None);
   ("en", mkFragment [("common.txt", mkFile "cc" 1 false);
                      ("en.txt", mkFile "ee" 1 false)] None None);
   ("fr", mkFragment [("common.txt", mkFile "cc" 1 false);
                      ("fr.txt", mkFile "ff" 1 false)] None None)].

(** An installed fragment, left out of the selection, with a file whose
    name is that of a member of [Object.prototype]. *)
Definition inheritedNameManifest : Manifest :=
  [("main", mkFragment [("a.bin", mkFile "aa" 4 false)] None None);
   ("docs", mkFragment [("valueOf", mkFile "vv" 1 false);
                        ("readme.txt", mkFile "rr" 1 false)] None None)].

(** C5, the deletion pass at two inputs. In the first, [common.txt]
    remains in the local fragments [en] and [fr] after the first pass and
    no fragment of the diff has any entry for it, let alone one to
    download; the deletion pass records it in the bucket of [en] and,
    finding that entry, records nothing in the bucket of [fr], where only
    [fr.txt] is recorded. In the second, the file [valueOf] remains in
    the local fragment [docs] and no fragment of the diff has an entry
    for it; the test of [isFileMarkedForDownload] reads the inherited
    [valueOf] of the files object, and the file is not recorded, while
    [readme.txt] is. *)
Lemma C5_remaining_file_not_recorded :
  (let L := sharedFileManifest in
   let L1 := snd (afterFirstPass false ["main"] L L) in
   let D2 := checkPacks L (fst (afterFirstPass false ["main"] L L)) in
   let final := default ∅ (createPromise false ["main"] L L) in
   (get "fr" L1 ≫= fun lf => get "common.txt" (Manifest.files lf))
   = Some (mkFile "cc" 1 false)
   /\ (forall G, G ∈ ["main"; "en"; "fr"] ->
                 entryOf D2 G "common.txt" = None)
   /\ createPromise false ["main"] L L
      = Some (markRemainingFilesToBeDeleted L1 D2)
   /\ entryOf final "en" "common.txt" = Some createDeletedFile
   /\ entryOf final "fr" "fr.txt" = Some createDeletedFile
   /\ entryOf final "fr" "common.txt" = None)
  /\ (let L := inheritedNameManifest in
      let L1 := snd (afterFirstPass false ["main"] L L) in
      let D2 := checkPacks L (fst (afterFirstPass false ["main"] L L)) in
      let final := default ∅ (createPromise false ["main"] L L) in
      (get "docs" L1 ≫= fun lf => get "valueOf" (Manifest.files lf))
      = Some (mkFile "vv" 1 false)
      /\ (forall G, G ∈ ["main"; "docs"] -> entryOf D2 G "valueOf" = None)
      /\ createPromise false ["main"] L L
         = Some (markRemainingFilesToBeDeleted L1 D2)
      /\ entryOf final "docs" "readme.txt" = Some createDeletedFile
      /\ entryOf final "docs" "valueOf" = None
      /\ entryOf final "main" "valueOf" = None).
Proof.
  cbn zeta. split.
  - split; [vm_compute; reflexivity|]. split.
    + intros G HG. apply list_elem_of_In in HG.
      destruct HG as [<-|[<-|[<-|[]]]]; vm_compute; reflexivity.
    + repeat split; vm_compute; reflexivity.
  - split; [vm_compute; reflexivity|]. split.
    + intros G HG. apply list_elem_of_In in HG.
      destruct HG as [<-|[<-|[]]]; vm_compute; reflexivity.
    + repeat split; vm_compute; reflexivity.
Qed.

(** X28: what the deletion pass does with a file that remains in the
    local hashes after the first pass. When no fragment of the diff has
    an entry of any kind under its name and the name is not one that
    every object inherits, the file is recorded as [{size: 0, hash:
    null}] in the bucket of the first remaining local fragment that
    lists it and in no other bucket, so in its own bucket when no other
    fragment lists it. When some fragment of the diff has an entry under
    its name, whether to download or not, or when the name is inherited,
    nothing is written for it: all its entries are those of the diff
    before the pass. *)
Theorem deletion_pass (isWin32 : bool) (fragments : list string)
    (localHashes remoteHashes : Manifest) (diff : Diff)
    (F : string) (lf : Fragment) (f : string) :
  let L1 := snd (afterFirstPass isWin32 fragments localHashes remoteHashes) in
  let D2 := checkPacks remoteHashes
              (fst (afterFirstPass isWin32 fragments localHashes
                      remoteHashes)) in
  createPromise isWin32 fragments localHashes remoteHashes = Some diff ->
  In (F, lf) L1 -> f ∈ keys (Manifest.files lf) ->
  ((forall G, entryOf D2 G f = None) -> inherited f = false ->
     (exists l1 G lg l2,
         L1 = l1 ++ (G, lg) :: l2
         /\ Forall (fun kv : string * Fragment =>
                      f ∉ keys (Manifest.files (snd kv))) l1
         /\ f ∈ keys (Manifest.files lg)
         /\ entryOf diff G f = Some createDeletedFile
         /\ forall G', G' <> G -> entryOf diff G' f = None)
     /\ ((forall G lg, In (G, lg) L1 -> f ∈ keys (Manifest.files lg) ->
                       G = F) ->
         entryOf diff F f = Some createDeletedFile))
  /\ ((exists G, is_Some (entryOf D2 G f)) \/ inherited f = true ->
      forall G, entryOf diff G f = entryOf D2 G f).
Proof.
  intros L1 D2 Hdiff Hin Hf.
  assert (Hfinal : diff = markRemainingFilesToBeDeleted L1 D2).
  { unfold createPromise in Hdiff.
    destruct (verifyFragmentsList fragments remoteHashes); [|done].
    unfold L1, D2, afterFirstPass.
    destruct (findFilesToDownloadAndFragmentsToDelete _ _ _ _) as [d l].
    cbn [fst snd]. congruence. }
  split.
  - intros Hnone Hown.
    assert (Hm : isFileMarkedForDownload D2 f = false)
      by (by apply isFileMarkedForDownload_own).
    destruct (first_holder L1 F lf f Hin Hf) as (l1 & G & lg & l2 & HL & Hl1 & Hg).
    assert (Hent : forall G', entryOf diff G' f
                              = if bool_decide (G' = G)
                                then Some createDeletedFile else None).
    { intros G'. rewrite Hfinal, HL.
      by apply markRemaining_unmarked. }
    split.
    + exists l1, G, lg, l2. split; [done|]. split; [done|]. split; [done|].
      split.
      * by rewrite Hent, bool_decide_eq_true_2.
      * intros G' HG'. by rewrite Hent, bool_decide_eq_false_2.
    + intros Honly.
      assert (G = F) as <-.
      { apply (Honly G lg); [|done]. rewrite HL. apply in_elt. }
      by rewrite Hent, bool_decide_eq_true_2.
  - intros [[G HG]|Hi] G'; rewrite Hfinal.
    + apply markRemaining_marked.
      by apply (isFileMarkedForDownload_entry D2 G f).
    + by apply markRemaining_inherited.
Qed.

Definition frFragment : Fragment :=
  mkFragment [("common.txt", mkFile "cc" 1 false);
              ("fr.txt", mkFile "ff" 1 false)] None None.

Lemma deletion_pass_witness :
  let L := sharedFileManifest in
  let diff := default ∅ (createPromise false ["main"] L L) in
  let L1 := snd (afterFirstPass false ["main"] L L) in
  let D2 := checkPacks L (fst (afterFirstPass false ["main"] L L)) in
  exists l1 G lg l2,
    L1 = l1 ++ (G, lg) :: l2
    /\ Forall (fun kv : string * Fragment =>
                 "fr.txt" ∉ keys (Manifest.files (snd kv))) l1
    /\ "fr.txt" ∈ keys (Manifest.files lg)
    /\ entryOf diff G "fr.txt" = Some createDeletedFile
    /\ forall G', G' <> G -> entryOf diff G' "fr.txt" = None.
Proof.
  cbn zeta.
  destruct (deletion_pass false ["main"] sharedFileManifest
              sharedFileManifest
              (default ∅ (createPromise false ["main"] sharedFileManifest
                            sharedFileManifest))
              "fr" frFragment "fr.txt") as [Hrecorded _].
  - vm_compute. reflexivity.
  - vm_compute. tauto.
  - cbn. right. by left.
  - apply Hrecorded.
    + intros G. unfold entryOf.
      destruct (decide (G = "main")) as [->|Hmain]; [vm_compute; reflexivity|].
      destruct (decide (G = "en")) as [->|Hen]; [vm_compute; reflexivity|].
      destruct (decide (G = "fr")) as [->|Hfr]; [vm_compute; reflexivity|].
      replace (checkPacks sharedFileManifest
                 (afterFirstPass false ["main"] sharedFileManifest
                    sharedFileManifest).1)
        with (<["main" := emptyFragment]>
                (<["en" := emptyFragment]>
                   (<["fr" := emptyFragment]> (∅ : Diff))))
        by (vm_compute; reflexivity).
      by rewrite !lookup_insert_ne, lookup_empty by done.
    + vm_compute. reflexivity.
Defined.

(** *** Invariants of the first pass *)

(** A fragment of the diff built by the first pass: its entries are file
    entries, each indexed under its hash, and all names in it are names of
    files of the remote fragment ([ks]). *)
Record firstPassBucket (ks : list string) (fd : FragmentDiff) : Prop := {
  fpb_entry : forall f e, files fd !! f = Some e ->
                isPack e = Some false
                /\ exists h, hash e = Some h
                   /\ exists ts t, hashes fd !! h = Some ts /\ t ∈ ts
                                   /\ fileName t = f;
  fpb_files : forall f, is_Some (files fd !! f) -> f ∈ ks;
  fpb_hashes : forall h ts t, hashes fd !! h = Some ts -> t ∈ ts ->
                 fileName t ∈ ks;
}.

Lemma firstPassBucket_empty (ks : list string) :
  firstPassBucket ks emptyFragment.
Proof.
  split; cbn.
  - intros f e. by rewrite lookup_empty.
  - intros f [e He]. by rewrite lookup_empty in He.
  - intros h ts t. by rewrite lookup_empty.
Qed.

Lemma firstPassBucket_fileStep (isWin32 ignored : bool)
    (ra : option (Obj Archive)) (ks : list string)
    (st : FragmentDiff * option Fragment) (kv : string * File) :
  fst kv ∈ ks -> firstPassBucket ks (fst st) ->
  firstPassBucket ks (fst (fileStep isWin32 ignored ra st kv)).
Proof.
  destruct st as [fd lf], kv as [f rfile]. cbn [fst].
  intros Hf [He Hfs Hhs]. unfold fileStep.
  destruct (bool_decide _ && ignored); [by split|].
  destruct (negb _ || negb _); [|by split].
  cbn [fst]. split; cbn [files hashes].
  - intros g e. destruct (decide (f = g)) as [->|Hne].
    + rewrite lookup_insert_eq. intros [= <-]. cbn. split; [done|].
      eexists. split; [done|]. eexists _, _.
      rewrite lookup_insert_eq. split; [done|].
      split; [apply elem_of_app; right; by left|done].
    + rewrite lookup_insert_ne by done. intros Hg.
      destruct (He g e Hg) as [Hp (h & Hh & ts & t & Hts & Ht & Hname)].
      split; [done|]. exists h. split; [done|].
      destruct (decide (Manifest.hash rfile = h)) as [->|Hhne].
      * eexists _, t. rewrite lookup_insert_eq. split; [done|].
        rewrite Hts. cbn. split; [|done]. apply elem_of_app. by left.
      * exists ts, t. by rewrite lookup_insert_ne.
  - intros g. destruct (decide (f = g)) as [->|Hne]; [done|].
    rewrite lookup_insert_ne by done. apply Hfs.
  - intros h ts t. destruct (decide (Manifest.hash rfile = h)) as [Heq|Hhne].
    + subst h. rewrite lookup_insert_eq. intros [= <-].
      rewrite elem_of_app. intros [Ht|Ht].
      * destruct (hashes fd !! Manifest.hash rfile) as [ts0|] eqn:Hts.
        -- by apply (Hhs _ ts0 t Hts).
        -- by apply elem_of_nil in Ht.
      * apply list_elem_of_singleton in Ht as ->. done.
    + rewrite lookup_insert_ne by done. apply Hhs.
Qed.

Lemma firstPassBucket_files (isWin32 ignored : bool)
    (ra : option (Obj Archive)) (ks : list string) (rs : Obj File)
    (st : FragmentDiff * option Fragment) :
  (forall f, f ∈ keys rs -> f ∈ ks) -> firstPassBucket ks (fst st) ->
  firstPassBucket ks (fst (foldl (fileStep isWin32 ignored ra) st rs)).
Proof.
  revert st. induction rs as [|kv rs IH]; intros st Hks Hst; [done|].
  cbn [foldl]. apply IH.
  - intros f Hf. apply Hks. by right.
  - apply firstPassBucket_fileStep; [|done]. apply Hks. by left.
Qed.

(** The names of the files of a fragment of the remote hashes. *)
Definition remoteNames (remoteHashes : Manifest) (F : string) : list string :=
  match get F remoteHashes with
  | Some rf => keys (Manifest.files rf)
  | None => []
  end.

Definition firstPassDiff (remoteHashes : Manifest) (diff : Diff) : Prop :=
  forall F fd, diff !! F = Some fd ->
               firstPassBucket (remoteNames remoteHashes F) fd.

Lemma firstPassDiff_fragmentStep (isWin32 : bool) (fragments : list string)
    (remoteHashes : Manifest) (st : Diff * Manifest)
    (kv : string * Fragment) :
  get (fst kv) remoteHashes = Some (snd kv) ->
  firstPassDiff remoteHashes (fst st) ->
  firstPassDiff remoteHashes (fst (fragmentStep isWin32 fragments st kv)).
Proof.
  destruct st as [diff loc], kv as [F rf]. cbn [fst snd].
  intros Hget Hinv. unfold fragmentStep.
  destruct (negb _ && negb _); [done|].
  destruct (foldl _ _ _) as [fd lf'] eqn:Hfold. cbn [fst].
  intros G gd. destruct (decide (F = G)) as [<-|Hne].
  - rewrite lookup_insert_eq. intros [= <-].
    change fd with (fst (fd, lf')). rewrite <- Hfold.
    apply firstPassBucket_files.
    + intros f Hf. unfold remoteNames. by rewrite Hget.
    + cbn [fst]. unfold bucket, createEmptyFragmentIfNeeded.
      destruct (diff !! F) as [fd0|] eqn:HF.
      * rewrite HF. cbn. by apply Hinv.
      * rewrite lookup_insert_eq. cbn. apply firstPassBucket_empty.
  - rewrite lookup_insert_ne by done.
    unfold createEmptyFragmentIfNeeded.
    destruct (diff !! F) eqn:HF; [apply Hinv|].
    rewrite lookup_insert_ne by done. apply Hinv.
Qed.

Lemma firstPassDiff_afterFirstPass (isWin32 : bool)
    (fragments : list string) (localHashes remoteHashes : Manifest) :
  wfObj remoteHashes ->
  firstPassDiff remoteHashes
    (fst (afterFirstPass isWin32 fragments localHashes remoteHashes)).
Proof.
  intros Hwf. unfold afterFirstPass, findFilesToDownloadAndFragmentsToDelete.
  assert (Hgen : forall rs st,
             (forall kv, In kv rs -> get (fst kv) remoteHashes = Some (snd kv)) ->
             firstPassDiff remoteHashes (fst st) ->
             firstPassDiff remoteHashes
               (fst (foldl (fragmentStep isWin32 fragments) st rs))).
  { induction rs as [|kv rs IH]; intros st Hrs Hst; [done|].
    cbn [foldl]. apply IH.
    - intros kv' Hkv'. apply Hrs. by right.
    - apply firstPassDiff_fragmentStep; [|done]. apply Hrs. by left. }
  apply Hgen.
  - intros [F rf] Hin. by apply get_In_wf.
  - intros F fd. cbn. by rewrite lookup_empty.
Qed.

(** *** The pack pass *)

(** [getFilesInPack] reads the fragment of the diff through its index of
    hashes only. *)
Definition filesInPackOf (pack : Pack)
    (hs : gmap string (list HashTarget)) : gmap string PackFile :=
  getFilesInPack pack (mkFragmentDiff ∅ hs ∅).

Lemma getFilesInPack_hashes (pack : Pack) (fd : FragmentDiff) :
  getFilesInPack pack fd = filesInPackOf pack (hashes fd).
Proof. reflexivity. Qed.

Lemma is_Some_targets (fileHash : string) (ts : list HashTarget)
    (acc : gmap string PackFile) (f : string) :
  is_Some (foldl (fun filesInPack file =>
                    <[fileName file :=
                        mkPackFile fileHash (htSize file)
                          (htExecutable file)]> filesInPack) acc ts !! f)
  <-> is_Some (acc !! f) \/ exists t, t ∈ ts /\ fileName t = f.
Proof.
  revert acc. induction ts as [|t ts IH]; intros acc.
  - cbn. split; [by left|]. intros [H|(t & Ht & _)]; [done|].
    by apply elem_of_nil in Ht.
  - cbn [foldl]. rewrite IH. split.
    + intros [H|(t' & Ht' & Hn)].
      * destruct (decide (fileName t = f)) as [Heq|Hne].
        -- right. exists t. split; [by left|done].
        -- left. by rewrite lookup_insert_ne in H.
      * right. exists t'. split; [by right|done].
    + intros [H|(t' & Ht' & Hn)].
      * left. destruct (decide (fileName t = f)) as [Heq|Hne].
        -- rewrite Heq, lookup_insert_eq. done.
        -- by rewrite lookup_insert_ne.
      * apply elem_of_cons in Ht' as [->|Ht'].
        -- left. rewrite Hn, lookup_insert_eq. done.
        -- right. by exists t'.
Qed.

Lemma is_Some_filesInPackOf (pack : Pack)
    (hs : gmap string (list HashTarget)) (f : string) :
  is_Some (filesInPackOf pack hs !! f)
  <-> exists h ts t, h ∈ packHashes pack /\ hs !! h = Some ts
                     /\ t ∈ ts /\ fileName t = f.
Proof.
  unfold filesInPackOf, getFilesInPack. cbn [hashes].
  assert (Hgen : forall hl (acc : gmap string PackFile),
    is_Some (foldl (fun filesInPack fileHash =>
               match hs !! fileHash with
               | Some targets =>
                   foldl (fun filesInPack file =>
                            <[fileName file :=
                                mkPackFile fileHash (htSize file)
                                  (htExecutable file)]> filesInPack)
                     filesInPack targets
               | None => filesInPack
               end) acc hl !! f)
    <-> is_Some (acc !! f)
        \/ exists h ts t, h ∈ hl /\ hs !! h = Some ts
                          /\ t ∈ ts /\ fileName t = f).
  { induction hl as [|h hl IH]; intros acc.
    - cbn. split; [by left|]. intros [H|(h & ts & t & Hh & _)]; [done|].
      by apply elem_of_nil in Hh.
    - cbn [foldl]. rewrite IH. destruct (hs !! h) as [ts|] eqn:Hts.
      + rewrite is_Some_targets. split.
        * intros [[H|(t & Ht & Hn)]|(h' & ts' & t & Hh & Hts' & Ht & Hn)].
          -- by left.
          -- right. exists h, ts, t. split; [by left|done].
          -- right. exists h', ts', t. split; [by right|done].
        * intros [H|(h' & ts' & t & Hh & Hts' & Ht & Hn)]; [by left; left|].
          apply elem_of_cons in Hh as [->|Hh].
          -- left. right. exists t. split; [congruence|done].
          -- right. by exists h', ts', t.
      + split.
        * intros [H|(h' & ts' & t & Hh & Hts' & Ht & Hn)]; [by left|].
          right. exists h', ts', t. split; [by right|done].
        * intros [H|(h' & ts' & t & Hh & Hts' & Ht & Hn)]; [by left|].
          apply elem_of_cons in Hh as [->|Hh]; [congruence|].
          right. by exists h', ts', t. }
  rewrite Hgen. split.
  - intros [H|H]; [|done]. rewrite lookup_empty in H. by destruct H.
  - intros H. by right.
Qed.

Lemma setDownloadFalse_idemp (e : Entry) :
  setDownloadFalse (setDownloadFalse e) = setDownloadFalse e.
Proof. reflexivity. Qed.

Lemma lookup_alter_all (ks : list string) (fs : gmap string Entry)
    (k : string) :
  foldl (fun files fileName => alter setDownloadFalse fileName files) fs ks
    !! k
  = if bool_decide (k ∈ ks) then setDownloadFalse <$> fs !! k else fs !! k.
Proof.
  revert fs. induction ks as [|k0 ks IH]; intros fs.
  - cbn. rewrite bool_decide_eq_false_2; [done|apply not_elem_of_nil].
  - cbn [foldl]. rewrite IH, lookup_alter.
    destruct (decide (k0 = k)) as [->|Hne].
    + rewrite (bool_decide_eq_true_2 (k ∈ k :: ks)) by (by left).
      case_bool_decide; [|done].
      destruct (fs !! k); [|done]. cbn. by rewrite setDownloadFalse_idemp.
    + apply (f_equal (fun b : bool =>
                        if b then setDownloadFalse <$> fs !! k else fs !! k)).
      apply bool_decide_ext. rewrite elem_of_cons. intuition congruence.
Qed.

Lemma elem_of_map_keys {V} (m : gmap string V) (k : string) :
  k ∈ map fst (map_to_list m) <-> is_Some (m !! k).
Proof.
  change (map fst (map_to_list m)) with (fst <$> map_to_list m).
  rewrite list_elem_of_fmap. split.
  - intros [[k' v] [-> Hin]]. apply elem_of_map_to_list in Hin.
    cbn. by rewrite Hin.
  - intros [v Hv]. exists (k, v). split; [done|].
    by apply elem_of_map_to_list.
Qed.

Definition packTaken (hs : gmap string (list HashTarget)) (pack : Pack)
  : bool :=
  mustDownloadPack pack (filesInPackOf pack hs).

Lemma checkPack_hashes (fd : FragmentDiff) (P : string) (pack : Pack) :
  hashes (checkPack fd P pack) = hashes fd.
Proof. unfold checkPack. by destruct (mustDownloadPack _ _). Qed.

Lemma checkPack_files (fd : FragmentDiff) (P : string) (pack : Pack)
    (k : string) :
  files (checkPack fd P pack) !! k
  = if packTaken (hashes fd) pack then
      if bool_decide (k = P)
      then Some (packEntry P pack (filesInPackOf pack (hashes fd)))
      else if bool_decide (is_Some (filesInPackOf pack (hashes fd) !! k))
           then setDownloadFalse <$> files fd !! k
           else files fd !! k
    else files fd !! k.
Proof.
  unfold checkPack, packTaken. rewrite getFilesInPack_hashes.
  destruct (mustDownloadPack _ _); [|done]. cbn [files].
  case_bool_decide as HP.
  - subst k. by rewrite lookup_insert_eq.
  - rewrite lookup_insert_ne by done. rewrite lookup_alter_all.
    apply (f_equal (fun b : bool =>
                      if b then setDownloadFalse <$> files fd !! k
                      else files fd !! k)).
    apply bool_decide_ext. apply elem_of_map_keys.
Qed.

(** Some pack of the list is taken and has [k] among its files. *)
Definition coveredBy (hs : gmap string (list HashTarget))
    (packs : Obj Pack) (k : string) : bool :=
  existsb (fun kv : string * Pack =>
             packTaken hs (snd kv)
             && bool_decide (is_Some (filesInPackOf (snd kv) hs !! k)))
    packs.

Lemma checkPacksInFragment_hashes (packs : Obj Pack) (fd : FragmentDiff) :
  hashes (checkPacksInFragment packs fd) = hashes fd.
Proof.
  unfold checkPacksInFragment. revert fd.
  induction packs as [|[P pack] packs IH]; intros fd; [done|].
  cbn [foldl]. by rewrite IH, checkPack_hashes.
Qed.

Lemma checkPacksInFragment_files (packs : Obj Pack) (fd : FragmentDiff)
    (k : string) :
  NoDup (keys packs) ->
  (forall Q kv, Q ∈ keys packs -> In kv packs ->
                filesInPackOf (snd kv) (hashes fd) !! Q = None) ->
  files (checkPacksInFragment packs fd) !! k
  = match get k packs with
    | Some pk =>
        if packTaken (hashes fd) pk
        then Some (packEntry k pk (filesInPackOf pk (hashes fd)))
        else files fd !! k
    | None =>
        if coveredBy (hashes fd) packs k
        then setDownloadFalse <$> files fd !! k
        else files fd !! k
    end.
Proof.
  unfold checkPacksInFragment. revert fd.
  induction packs as [|[P pack] packs IH]; intros fd Hnd Hdisj; [done|].
  cbn [keys map fst] in Hnd. apply NoDup_cons in Hnd as [HP Hnd].
  cbn [foldl]. rewrite IH; [|done|].
  2:{ intros Q kv HQ Hkv. rewrite checkPack_hashes.
      apply Hdisj; [by right|by right]. }
  rewrite checkPack_hashes, checkPack_files. cbn [get coveredBy existsb snd].
  fold (coveredBy (hashes fd) packs k).
  destruct (String.eqb_spec P k) as [->|HPk].
  - (* the pack itself *)
    rewrite (bool_decide_eq_true_2 (k = k)) by done.
    assert (Hget : get k packs = None).
    { destruct (get k packs) eqn:Hg; [|done].
      destruct HP. apply list_elem_of_In, get_is_Some. by eexists. }
    rewrite Hget.
    assert (Hcov : coveredBy (hashes fd) packs k = false).
    { unfold coveredBy. apply not_true_iff_false. intros Hex.
      apply existsb_exists in Hex as [kv [Hkv Hb]].
      apply andb_true_iff in Hb as [_ Hb]. apply bool_decide_eq_true in Hb.
      rewrite (Hdisj k kv) in Hb; [by destruct Hb|by left|by right]. }
    rewrite Hcov. by destruct (packTaken _ pack).
  - rewrite (bool_decide_eq_false_2 (k = P)) by congruence.
    destruct (get k packs) as [pk|] eqn:Hg.
    + (* another pack *)
      assert (Hk : filesInPackOf pack (hashes fd) !! k = None).
      { apply (Hdisj k (P, pack)); [|by left].
        right. apply list_elem_of_In, get_is_Some. by eexists. }
      rewrite Hk.
      rewrite (bool_decide_eq_false_2 (is_Some None)) by (by intros [? ?]).
      by destruct (packTaken _ pack).
    + (* not a pack *)
      destruct (packTaken (hashes fd) pack); cbn [andb orb]; [|done].
      case_bool_decide; cbn [orb]; [|done].
      destruct (coveredBy _ _ _); [|done].
      destruct (files fd !! k); [|done]. cbn.
      by rewrite setDownloadFalse_idemp.
Qed.

Lemma checkPacks_lookup (remoteHashes : Manifest) (diff : Diff) (F : string) :
  NoDup (keys remoteHashes) ->
  checkPacks remoteHashes diff !! F
  = match get F remoteHashes with
    | Some rf =>
        match Manifest.packs rf, diff !! F with
        | Some remotePacks, Some fd =>
            Some (checkPacksInFragment remotePacks fd)
        | _, _ => diff !! F
        end
    | None => diff !! F
    end.
Proof.
  unfold checkPacks. revert diff.
  induction remoteHashes as [|[G rg] l IH]; intros diff Hnd; [done|].
  cbn [keys map fst] in Hnd. apply NoDup_cons in Hnd as [HG Hnd].
  cbn [foldl get fst snd]. rewrite IH by done.
  destruct (String.eqb_spec G F) as [->|Hne].
  - assert (Hget : get F l = None).
    { destruct (get F l) eqn:Hg; [|done].
      destruct HG. apply list_elem_of_In, get_is_Some. by eexists. }
    rewrite Hget.
    destruct (Manifest.packs rg); [|done].
    destruct (diff !! F) eqn:HF; [|by rewrite HF].
    by rewrite lookup_insert_eq.
  - destruct (Manifest.packs rg) as [ps|]; [|done].
    destruct (diff !! G) as [fd|]; [|done].
    rewrite lookup_insert_ne by done. done.
Qed.

Lemma isToDownloadInPack_spec (pack : Pack) (e : Entry) :
  isToDownloadInPack pack e = true
  <-> download e = Some true
      /\ exists h, hash e = Some h /\ h ∈ packHashes pack.
Proof.
  unfold isToDownloadInPack. rewrite andb_true_iff, bool_decide_eq_true.
  destruct (hash e) as [h|].
  - rewrite bool_decide_eq_true. split.
    + intros [? ?]. split; [done|]. by exists h.
    + intros [? (h' & [= <-] & ?)]. done.
  - split; [by intros [_ ?]|]. by intros [_ (h & ? & _)].
Qed.

(** The files counted by the claim are among those the code counts. *)
Lemma toDownloadInPack_covered (ks : list string) (pack : Pack)
    (fd : FragmentDiff) (f : string) (e : Entry) :
  firstPassBucket ks fd ->
  files fd !! f = Some e -> isToDownloadInPack pack e = true ->
  is_Some (getFilesInPack pack fd !! f).
Proof.
  intros Hfd Hf Hdl.
  apply isToDownloadInPack_spec in Hdl as [_ (h & Hh & Hin)].
  destruct (fpb_entry ks fd Hfd f e Hf) as [_ (h' & Hh' & ts & t & Hts & Ht & Hn)].
  rewrite getFilesInPack_hashes. apply is_Some_filesInPackOf.
  exists h, ts, t. repeat split; try done. congruence.
Qed.

Lemma toDownloadInPack_size (ks : list string) (pack : Pack)
    (fd : FragmentDiff) :
  firstPassBucket ks fd ->
  base.size (toDownloadInPack pack fd)
  <= base.size (getFilesInPack pack fd).
Proof.
  intros Hfd.
  rewrite <- (size_dom (D := gset string) (toDownloadInPack pack fd)).
  rewrite <- (size_dom (D := gset string) (getFilesInPack pack fd)).
  apply subseteq_size. intros f Hf.
  apply elem_of_dom in Hf as [e He]. apply elem_of_dom.
  unfold toDownloadInPack in He.
  apply map_lookup_filter_Some in He as [He Hdl]. cbn in Hdl.
  by apply (toDownloadInPack_covered ks pack fd f e).
Qed.

(** C2, amended: take a fragment of the remote hashes with a packs table
    none of whose pack hashes is the name of a file of the fragment, and a
    pack [P] of it. If more than half as many files as [P] lists hashes
    are, after the first pass, to be downloaded with a hash listed in [P],
    then the final diff of the fragment has the pack entry of [P] under
    the key [P], no other entry is a pack entry with that hash, and each
    of those files has its entry unchanged but for [download], which is
    [false], and is a member of the entry's [packFiles]. *)
Theorem C2_pack_coalescing (isWin32 : bool) (fragments : list string)
    (localHashes remoteHashes : Manifest) (diff : Diff)
    (F : string) (rf : Fragment) (remotePacks : Obj Pack)
    (P : string) (pack : Pack) :
  let fd1 := bucket F (fst (afterFirstPass isWin32 fragments localHashes
                              remoteHashes)) in
  wfObj remoteHashes ->
  get F remoteHashes = Some rf ->
  Manifest.packs rf = Some remotePacks -> wfObj remotePacks ->
  get P remotePacks = Some pack ->
  (forall Q, Q ∈ keys remotePacks -> Q ∉ keys (Manifest.files rf)) ->
  createPromise isWin32 fragments localHashes remoteHashes = Some diff ->
  length (packHashes pack)
  < PACK_FILE_RATIO_DEN * base.size (toDownloadInPack pack fd1) ->
  entryOf diff F P = Some (packEntry P pack (getFilesInPack pack fd1))
  /\ (forall f e,
        files fd1 !! f = Some e -> isToDownloadInPack pack e = true ->
        entryOf diff F f = Some (setDownloadFalse e)
        /\ is_Some (getFilesInPack pack fd1 !! f))
  /\ (forall k e,
        entryOf diff F k = Some e -> isPack e = Some true ->
        hash e = Some P -> k = P).
Proof.
  intros fd1 Hwf HF Hpacks Hwfp HP Hcoll Hdiff Hcount.
  pose proof (firstPassDiff_afterFirstPass isWin32 fragments localHashes
                remoteHashes Hwf) as Hinv.
  set (D1 := fst (afterFirstPass isWin32 fragments localHashes
                    remoteHashes)) in *.
  set (L1 := snd (afterFirstPass isWin32 fragments localHashes
                    remoteHashes)).
  assert (Hfinal : diff = markRemainingFilesToBeDeleted L1
                            (checkPacks remoteHashes D1)).
  { unfold createPromise in Hdiff.
    destruct (verifyFragmentsList fragments remoteHashes); [|done].
    unfold L1, D1, afterFirstPass.
    destruct (findFilesToDownloadAndFragmentsToDelete _ _ _ _) as [d l].
    cbn [fst snd]. congruence. }
  (* the fragment is in the diff of the first pass *)
  assert (HD1 : D1 !! F = Some fd1).
  { unfold fd1, bucket. destruct (D1 !! F) as [fd|] eqn:HDF; [done|].
    exfalso. unfold fd1, bucket in Hcount. rewrite HDF in Hcount.
    cbn in Hcount. unfold toDownloadInPack in Hcount. cbn in Hcount.
    rewrite map_filter_empty, map_size_empty in Hcount. lia. }
  assert (Hfd1 : firstPassBucket (keys (Manifest.files rf)) fd1).
  { specialize (Hinv F fd1 HD1). unfold remoteNames in Hinv.
    by rewrite HF in Hinv. }
  (* the pack is taken *)
  assert (Htaken : packTaken (hashes fd1) pack = true).
  { unfold packTaken, mustDownloadPack. apply Nat.ltb_lt.
    pose proof (toDownloadInPack_size _ pack fd1 Hfd1) as Hle.
    rewrite getFilesInPack_hashes in Hle. unfold PACK_FILE_RATIO_DEN in *.
    lia. }
  (* no pack hash is the name of a member of a pack *)
  assert (Hdisj : forall Q kv, Q ∈ keys remotePacks -> In kv remotePacks ->
                    filesInPackOf (snd kv) (hashes fd1) !! Q = None).
  { intros Q kv HQ _.
    destruct (filesInPackOf (snd kv) (hashes fd1) !! Q) eqn:HfQ; [|done].
    exfalso. apply (Hcoll Q HQ).
    assert (Hs : is_Some (filesInPackOf (snd kv) (hashes fd1) !! Q))
      by (by rewrite HfQ).
    apply is_Some_filesInPackOf in Hs as (h & ts & t & _ & Hts & Ht & <-).
    by apply (fpb_hashes _ fd1 Hfd1 h ts t). }
  assert (HD2 : checkPacks remoteHashes D1 !! F
                = Some (checkPacksInFragment remotePacks fd1)).
  { rewrite checkPacks_lookup by done. by rewrite HF, Hpacks, HD1. }
  assert (Hfiles := fun k =>
            checkPacksInFragment_files remotePacks fd1 k Hwfp Hdisj).
  assert (Hkeep : forall k e,
             files (checkPacksInFragment remotePacks fd1) !! k = Some e ->
             entryOf diff F k = Some e).
  { intros k e Hk. rewrite Hfinal, markRemaining_marked.
    - unfold entryOf. rewrite HD2. done.
    - apply (isFileMarkedForDownload_entry _ F).
      unfold entryOf. rewrite HD2. cbn. by rewrite Hk. }
  split; [|split].
  - apply Hkeep. rewrite Hfiles, HP, Htaken.
    by rewrite getFilesInPack_hashes.
  - intros f e Hf Hdl.
    pose proof (toDownloadInPack_covered _ pack fd1 f e Hfd1 Hf Hdl) as Hcov.
    split; [|done]. apply Hkeep. rewrite Hfiles.
    assert (Hnp : get f remotePacks = None).
    { destruct (get f remotePacks) eqn:Hg; [|done]. exfalso.
      apply (Hcoll f).
      - apply list_elem_of_In, get_is_Some. by eexists.
      - apply (fpb_files _ fd1 Hfd1). by eexists. }
    rewrite Hnp.
    assert (Hc : coveredBy (hashes fd1) remotePacks f = true).
    { unfold coveredBy. apply existsb_exists. exists (P, pack).
      split; [by apply get_Some_In|]. cbn [snd].
      rewrite Htaken. cbn. apply bool_decide_eq_true.
      by rewrite <- getFilesInPack_hashes. }
    by rewrite Hc, Hf.
  - intros k e Hk Hpack Hhash.
    rewrite Hfinal in Hk.
    destruct (markRemaining_cases L1 (checkPacks remoteHashes D1) F k)
      as [Hsame|(Hdel & _)].
    2:{ rewrite Hdel in Hk. injection Hk as <-. done. }
    rewrite Hsame in Hk. unfold entryOf in Hk. rewrite HD2 in Hk.
    cbn in Hk. rewrite Hfiles in Hk.
    destruct (get k remotePacks) as [pk|] eqn:Hg.
    + destruct (packTaken (hashes fd1) pk).
      * injection Hk as <-. cbn in Hhash. congruence.
      * destruct (fpb_entry _ fd1 Hfd1 k e Hk) as [Hp _]. congruence.
    + assert (exists e0, files fd1 !! k = Some e0 /\ isPack e = isPack e0)
        as (e0 & He0 & Hpe).
      { destruct (coveredBy _ _ _); destruct (files fd1 !! k) as [e0|];
          try done; injection Hk as <-; by exists e0. }
      destruct (fpb_entry _ fd1 Hfd1 k e0 He0) as [Hp _]. congruence.
Qed.

(** Two files to download, both in a pack of three hashes. *)
Definition packedRemote : Manifest :=
  [("main", mkFragment [("a.bin", mkFile "h1" 4 false);
                        ("b.bin", mkFile "h2" 6 true);
                        ("c.bin", mkFile "h9" 1 false)]
              (Some [("pk", mkPack 10 ["h1"; "h2"; "h3"])]) None)].

Lemma C2_pack_coalescing_witness :
  let diff := default ∅ (createPromise false ["main"] [] packedRemote) in
  let pack := mkPack 10 ["h1"; "h2"; "h3"] in
  let fd1 := bucket "main"
               (fst (afterFirstPass false ["main"] [] packedRemote)) in
  entryOf diff "main" "pk"
  = Some (packEntry "pk" pack (getFilesInPack pack fd1))
  /\ (forall f e,
        files fd1 !! f = Some e -> isToDownloadInPack pack e = true ->
        entryOf diff "main" f = Some (setDownloadFalse e)
        /\ is_Some (getFilesInPack pack fd1 !! f))
  /\ (forall k e,
        entryOf diff "main" k = Some e -> isPack e = Some true ->
        hash e = Some "pk" -> k = "pk").
Proof.
  cbn zeta.
  apply (C2_pack_coalescing false ["main"] [] packedRemote
           (default ∅ (createPromise false ["main"] [] packedRemote))
           "main"
           (mkFragment [("a.bin", mkFile "h1" 4 false);
                        ("b.bin", mkFile "h2" 6 true);
                        ("c.bin", mkFile "h9" 1 false)]
              (Some [("pk", mkPack 10 ["h1"; "h2"; "h3"])]) None)
           [("pk", mkPack 10 ["h1"; "h2"; "h3"])] "pk"
           (mkPack 10 ["h1"; "h2"; "h3"])).
  - unfold wfObj. apply (bool_decide_unpack _). vm_compute. exact I.
  - reflexivity.
  - reflexivity.
  - unfold wfObj. apply (bool_decide_unpack _). vm_compute. exact I.
  - reflexivity.
  - intros Q HQ. cbn in HQ. apply list_elem_of_singleton in HQ as ->.
    apply (bool_decide_unpack _). vm_compute. exact I.
  - vm_compute. reflexivity.
  - apply Nat.ltb_lt. vm_compute. reflexivity.
Defined.

Example packedRemote_entries :
  let diff := default ∅ (createPromise false ["main"] [] packedRemote) in
  (download <$> entryOf diff "main" "a.bin") = Some (Some false)
  /\ (download <$> entryOf diff "main" "b.bin") = Some (Some false)
  /\ (download <$> entryOf diff "main" "c.bin") = Some (Some true)
  /\ (download <$> entryOf diff "main" "pk") = Some (Some true)
  /\ (isPack <$> entryOf diff "main" "pk") = Some (Some true).
Proof. cbn zeta. repeat split; vm_compute; reflexivity. Qed.

(** A file whose name is the hash of a pack, and a second pack that
    lists the same content hash. *)
Definition collidingRemote : Manifest :=
  [("main", mkFragment [("p1", mkFile "h" 4 false)]
              (Some [("p1", mkPack 10 ["h"]); ("p2", mkPack 12 ["h"])])
              None)].

(** C2, the claim as stated fails: the only file of the fragment is to be
    downloaded and its hash is the one hash that pack [p1] lists, so the
    threshold is passed for [p1]; yet the final diff holds no pack entry
    of [p1] with [download = true]: the pack pass wrote the entry of [p1]
    under the key [p1], the name of the file, and then, taking [p2],
    turned the [download] of that key to [false]. The diff has exactly the
    two entries shown. *)
Lemma C2_pack_hash_as_file_name :
  let diff := default ∅ (createPromise false ["main"] [] collidingRemote) in
  let p1 := mkPack 10 ["h"] in
  let fd1 := bucket "main"
               (fst (afterFirstPass false ["main"] [] collidingRemote)) in
  createPromise false ["main"] [] collidingRemote = Some diff
  /\ base.size (toDownloadInPack p1 fd1) = 1
  /\ length (packHashes p1)
     < PACK_FILE_RATIO_DEN * base.size (toDownloadInPack p1 fd1)
  /\ map fst (map_to_list (files (bucket "main" diff))) = ["p1"; "p2"]
  /\ (isPack <$> entryOf diff "main" "p1") = Some (Some true)
  /\ (hash <$> entryOf diff "main" "p1") = Some (Some "p1")
  /\ (download <$> entryOf diff "main" "p1") = Some (Some false)
  /\ (hash <$> entryOf diff "main" "p2") = Some (Some "p2").
Proof.
  cbn zeta.
  split; [vm_compute; reflexivity|]. split; [vm_compute; reflexivity|].
  split; [apply Nat.ltb_lt; vm_compute; reflexivity|].
  repeat split; vm_compute; reflexivity.
Qed.


(** *** The first pass, file by file *)

Lemma get_set_eq {V} (k : string) (v : V) (o : Obj V) :
  get k (set k v o) = Some v.
Proof.
  induction o as [|[k' v'] o IH]; cbn.
  - by rewrite String.eqb_refl.
  - destruct (String.eqb_spec k' k) as [->|Hne]; cbn.
    + by rewrite String.eqb_refl.
    + by rewrite (proj2 (String.eqb_neq k' k) Hne).
Qed.

Lemma get_set_ne {V} (k k' : string) (v : V) (o : Obj V) :
  k <> k' -> get k (set k' v o) = get k o.
Proof.
  intros Hne. induction o as [|[k1 v1] o IH]; cbn.
  - by rewrite (proj2 (String.eqb_neq k' k)).
  - destruct (String.eqb_spec k1 k') as [->|Hne1]; cbn.
    + by rewrite !(proj2 (String.eqb_neq k' k)).
    + by rewrite IH.
Qed.

Lemma keys_set {V} (k : string) (v : V) (o : Obj V) :
  is_Some (get k o) -> keys (set k v o) = keys o.
Proof.
  induction o as [|[k1 v1] o IH]; cbn.
  - by intros [? ?].
  - destruct (String.eqb_spec k1 k) as [->|Hne]; cbn; [done|].
    intros H. f_equal. by apply IH.
Qed.

Lemma get_remove_ne {V} (k k' : string) (o : Obj V) :
  k <> k' -> get k (remove k' o) = get k o.
Proof.
  intros Hne. unfold remove. induction o as [|[k1 v1] o IH]; cbn; [done|].
  destruct (String.eqb_spec k1 k') as [->|Hne1]; cbn.
  - by rewrite (proj2 (String.eqb_neq k' k)).
  - by rewrite IH.
Qed.

Lemma keys_remove {V} (k g : string) (o : Obj V) :
  g ∈ keys (remove k o) <-> g ∈ keys o /\ g <> k.
Proof.
  unfold remove, keys. induction o as [|[k1 v1] o IH]; cbn.
  - split; [by intros ?%elem_of_nil|by intros [?%elem_of_nil _]].
  - destruct (String.eqb_spec k1 k) as [->|Hne1]; cbn.
    + rewrite IH, elem_of_cons. naive_solver.
    + rewrite !elem_of_cons, IH. naive_solver.
Qed.

Lemma get_split {V} (k : string) (v : V) (o : Obj V) :
  wfObj o -> get k o = Some v ->
  exists o1 o2, o = o1 ++ (k, v) :: o2 /\ k ∉ keys o1 /\ k ∉ keys o2.
Proof.
  unfold wfObj, keys. induction o as [|[k1 v1] o IH]; cbn; [done|].
  intros Hnd. apply NoDup_cons in Hnd as [Hk1 Hnd].
  destruct (String.eqb_spec k1 k) as [->|Hne].
  - intros [= ->]. exists [], o. split; [done|]. split; [|done].
    apply not_elem_of_nil.
  - intros Hget. destruct (IH Hnd Hget) as (o1 & o2 & -> & H1 & H2).
    exists ((k1, v1) :: o1), o2. split; [done|]. split; [|done].
    cbn. apply not_elem_of_cons. split; [congruence|done].
Qed.

(** The local file of a name, in the local fragment as the loop over the
    files holds it. *)
Lemma member_remove_ne {V} (k k' : string) (o : Obj V) :
  k <> k' -> member k (remove k' o) = member k o.
Proof. intros Hne. unfold member. by rewrite get_remove_ne. Qed.

(** What [localFragment && localFragment.files[f]] reads. *)
Definition localFileOf (localFragment : option Fragment) (f : string)
  : option (Member File) :=
  match localFragment with
  | Some lf => member f (Manifest.files lf)
  | None => None
  end.

(** What the comparison of a remote file with what was read under the
    same name in the local fragment records. For a local file: nothing
    when the hashes are equal and, off Windows, the executable flags are
    equal too; the remote file otherwise, to download when the hash
    differs. Without a local file: the remote file, to download. For a
    name that the local fragment lacks but every object inherits: the
    remote file, to download, and, off Windows, with its permissions to
    update when it is executable. *)
Definition comparison (isWin32 : bool) (localFile : option (Member File))
    (remoteFile : File) : option Entry :=
  match localFile with
  | None =>
      Some (mkEntry (Some false) (Some true) (Some false)
              (Some (Manifest.hash remoteFile)) (Manifest.size remoteFile)
              (Some (Manifest.executable remoteFile)) None)
  | Some Inherited =>
      Some (mkEntry (Some false) (Some true)
              (Some (negb isWin32 && Manifest.executable remoteFile))
              (Some (Manifest.hash remoteFile)) (Manifest.size remoteFile)
              (Some (Manifest.executable remoteFile)) None)
  | Some (Own lf) =>
      let sameHash := String.eqb (Manifest.hash remoteFile) (Manifest.hash lf) in
      let sameExecutable :=
        isWin32 || Bool.eqb (Manifest.executable remoteFile)
                     (Manifest.executable lf) in
      if sameHash && sameExecutable then None
      else Some (mkEntry (Some false) (Some (negb sameHash))
                   (Some (negb sameExecutable))
                   (Some (Manifest.hash remoteFile))
                   (Manifest.size remoteFile)
                   (Some (Manifest.executable remoteFile)) None)
  end.

(** The entry of a file of a remote fragment after the first pass: in a
    fragment outside the selection, none when the fragment is not
    installed, and none when something is read under the name of the
    file in the local fragment. *)
Definition firstPassEntry (isWin32 selected : bool)
    (localFragment : option Fragment) (f : string) (remoteFile : File)
  : option Entry :=
  match localFragment with
  | None => if selected then comparison isWin32 None remoteFile else None
  | Some lf =>
      match member f (Manifest.files lf) with
      | Some localFile =>
          if selected then comparison isWin32 (Some localFile) remoteFile
          else None
      | None => comparison isWin32 None remoteFile
      end
  end.

(** The local fragment no longer lists the file. *)
Definition withoutFile (f : string) (localFragment : option Fragment)
  : Prop :=
  forall lf, localFragment = Some lf -> f ∉ keys (Manifest.files lf).

Section FirstPassFrame.
Variable isWin32 : bool.

Lemma fileStep_other (ignored : bool) (ra : option (Obj Archive))
    (st : FragmentDiff * option Fragment) (kv : string * File)
    (f : string) :
  fst kv <> f ->
  let st' := fileStep isWin32 ignored ra st kv in
  files (fst st') !! f = files (fst st) !! f
  /\ localFileOf (snd st') f = localFileOf (snd st) f
  /\ (is_Some (snd st') <-> is_Some (snd st))
  /\ (withoutFile f (snd st) -> withoutFile f (snd st')).
Proof.
  destruct st as [fd l], kv as [g rfile]. cbn [fst snd]. intros Hne.
  unfold fileStep.
  destruct (bool_decide _ && ignored); [done|]. cbn [fst snd].
  split; [|split; [|split]].
  - destruct (negb _ || negb _); [|done]. cbn [files].
    by rewrite lookup_insert_ne.
  - destruct l as [lf|]; [|done]. cbn [localFileOf Manifest.files].
    by apply member_remove_ne.
  - destruct l; split; intros [? ?]; by eexists.
  - intros Hw lf'. destruct l as [lf|]; [|done]. intros [= <-].
    cbn [Manifest.files]. intros [Hin _]%keys_remove.
    by apply (Hw lf).
Qed.

Lemma files_other (ignored : bool) (ra : option (Obj Archive))
    (rs : Obj File) (st : FragmentDiff * option Fragment) (f : string) :
  f ∉ keys rs ->
  let st' := foldl (fileStep isWin32 ignored ra) st rs in
  files (fst st') !! f = files (fst st) !! f
  /\ localFileOf (snd st') f = localFileOf (snd st) f
  /\ (is_Some (snd st') <-> is_Some (snd st))
  /\ (withoutFile f (snd st) -> withoutFile f (snd st')).
Proof.
  revert st. induction rs as [|kv rs IH]; intros st Hf; [done|].
  cbn [keys map] in Hf. apply not_elem_of_cons in Hf as [Hne Hf].
  cbn [foldl].
  destruct (IH (fileStep isWin32 ignored ra st kv) Hf)
    as (H1 & H2 & H3 & H4).
  destruct (fileStep_other ignored ra st kv f ltac:(congruence))
    as (G1 & G2 & G3 & G4).
  cbv zeta. rewrite H1, H2, H3, G1, G2, G3. tauto.
Qed.

Lemma fileStep_here (ignored : bool) (ra : option (Obj Archive))
    (fd : FragmentDiff) (l : option Fragment) (f : string)
    (remoteFile : File) :
  files fd !! f = None ->
  let st' := fileStep isWin32 ignored ra (fd, l) (f, remoteFile) in
  files (fst st') !! f
  = (if bool_decide (is_Some (localFileOf l f)) && ignored then None
     else comparison isWin32 (localFileOf l f) remoteFile)
  /\ (is_Some (snd st') <-> is_Some l)
  /\ (ignored = false -> withoutFile f (snd st')).
Proof.
  intros Hnone. unfold fileStep.
  change (match l with
          | Some lf => member f (Manifest.files lf)
          | None => None
          end) with (localFileOf l f).
  destruct (bool_decide (is_Some (localFileOf l f)) && ignored) eqn:Hskip.
  - cbn [fst snd]. split; [done|]. split; [done|].
    intros ->. by rewrite andb_false_r in Hskip.
  - cbn [fst snd]. split; [|split].
    + unfold comparison.
      destruct (localFileOf l f) as [[lf|]|]; cbn [negb orb].
      * destruct isWin32; cbn [negb orb];
          destruct (String.eqb (Manifest.hash remoteFile)
                      (Manifest.hash lf)); cbn;
          try destruct (Bool.eqb (Manifest.executable remoteFile)
                          (Manifest.executable lf)); cbn;
          try done; by rewrite lookup_insert_eq.
      * destruct isWin32, (Manifest.executable remoteFile); cbn;
          by rewrite lookup_insert_eq.
      * cbn. by rewrite lookup_insert_eq.
    + destruct l; split; intros [? ?]; by eexists.
    + intros _ lf'. destruct l as [lf|]; [|done]. intros [= <-].
      cbn [Manifest.files]. intros [_ Hne]%keys_remove. done.
Qed.

(** The loop over the files of a remote fragment, seen from one of its
    files. *)
Lemma files_here (ignored : bool) (ra : option (Obj Archive))
    (rs : Obj File) (fd : FragmentDiff) (l : option Fragment)
    (f : string) (remoteFile : File) :
  wfObj rs -> get f rs = Some remoteFile -> files fd !! f = None ->
  let st' := foldl (fileStep isWin32 ignored ra) (fd, l) rs in
  files (fst st') !! f
  = (if bool_decide (is_Some (localFileOf l f)) && ignored then None
     else comparison isWin32 (localFileOf l f) remoteFile)
  /\ (is_Some (snd st') <-> is_Some l)
  /\ (ignored = false -> withoutFile f (snd st')).
Proof.
  intros Hwf Hget Hnone.
  destruct (get_split f remoteFile rs Hwf Hget) as (r1 & r2 & -> & H1 & H2).
  rewrite foldl_app. cbn [foldl].
  destruct (files_other ignored ra r1 (fd, l) f H1) as (A1 & A2 & A3 & _).
  cbn [fst snd] in A1, A2, A3.
  destruct (foldl (fileStep isWin32 ignored ra) (fd, l) r1) as [fd1 l1].
  cbn [fst snd] in A1, A2, A3.
  destruct (fileStep_here ignored ra fd1 l1 f remoteFile
              ltac:(by rewrite A1)) as (B1 & B2 & B3).
  destruct (files_other ignored ra r2
              (fileStep isWin32 ignored ra (fd1, l1) (f, remoteFile)) f H2)
    as (C1 & _ & C3 & C4).
  cbv zeta. rewrite C1, B1, A2, C3, B2, A3. split; [done|].
  split; [done|]. intros Hi. apply C4, B3, Hi.
Qed.

Lemma fileStep_is_Some (ignored : bool) (ra : option (Obj Archive))
    (st : FragmentDiff * option Fragment) (kv : string * File) :
  is_Some (snd (fileStep isWin32 ignored ra st kv)) <-> is_Some (snd st).
Proof.
  destruct st as [fd l], kv as [g rfile]. unfold fileStep.
  destruct (bool_decide _ && ignored); [done|]. cbn [snd].
  destruct l; split; intros [? ?]; by eexists.
Qed.

Lemma files_is_Some (ignored : bool) (ra : option (Obj Archive))
    (rs : Obj File) (st : FragmentDiff * option Fragment) :
  is_Some (snd (foldl (fileStep isWin32 ignored ra) st rs))
  <-> is_Some (snd st).
Proof.
  revert st. induction rs as [|kv rs IH]; intros st; [done|].
  cbn [foldl]. rewrite IH. apply fileStep_is_Some.
Qed.

Lemma fragmentStep_other (fragments : list string) (st : Diff * Manifest)
    (kv : string * Fragment) (F : string) :
  fst kv <> F ->
  let st' := fragmentStep isWin32 fragments st kv in
  fst st' !! F = fst st !! F
  /\ get F (snd st') = get F (snd st)
  /\ keys (snd st') = keys (snd st).
Proof.
  destruct st as [diff loc], kv as [G rg]. cbn [fst snd]. intros Hne.
  unfold fragmentStep.
  destruct (negb (bool_decide (is_Some (get G loc))) && _) eqn:Hskip;
    [done|].
  pose proof (files_is_Some (negb (bool_decide (G ∈ fragments)))
                (Manifest.archives rg) (Manifest.files rg)
                (bucket G (createEmptyFragmentIfNeeded G diff), get G loc))
    as Hsome.
  destruct (foldl _ _ _) as [fd l'] eqn:Hf. cbn [fst snd] in *.
  split; [|split].
  - rewrite lookup_insert_ne by done.
    unfold createEmptyFragmentIfNeeded.
    destruct (diff !! G); [done|]. by rewrite lookup_insert_ne.
  - destruct l'; [|done]. by apply get_set_ne.
  - destruct l' as [lf'|]; [|done]. apply keys_set, Hsome. by eexists.
Qed.

Lemma fragments_other (fragments : list string) (rs : Manifest)
    (st : Diff * Manifest) (F : string) :
  F ∉ keys rs ->
  let st' := foldl (fragmentStep isWin32 fragments) st rs in
  fst st' !! F = fst st !! F
  /\ get F (snd st') = get F (snd st)
  /\ keys (snd st') = keys (snd st).
Proof.
  revert st. induction rs as [|kv rs IH]; intros st HF; [done|].
  cbn [keys map] in HF. apply not_elem_of_cons in HF as [Hne HF].
  cbn [foldl].
  destruct (IH (fragmentStep isWin32 fragments st kv) HF) as (H1 & H2 & H3).
  destruct (fragmentStep_other fragments st kv F ltac:(congruence))
    as (G1 & G2 & G3).
  cbv zeta. by rewrite H1, H2, H3, G1, G2, G3.
Qed.

Lemma fragmentStep_here (fragments : list string) (diff : Diff)
    (loc : Manifest) (F : string) (rf : Fragment) (f : string)
    (remoteFile : File) :
  wfObj (Manifest.files rf) ->
  get f (Manifest.files rf) = Some remoteFile ->
  diff !! F = None ->
  let st' := fragmentStep isWin32 fragments (diff, loc) (F, rf) in
  entryOf (fst st') F f
  = firstPassEntry isWin32 (bool_decide (F ∈ fragments)) (get F loc) f
      remoteFile
  /\ keys (snd st') = keys loc
  /\ (F ∈ fragments -> withoutFile f (get F (snd st'))).
Proof.
  intros Hwf Hget Hnone. unfold fragmentStep.
  destruct (negb (bool_decide (is_Some (get F loc))) && _) eqn:Hskip.
  - cbn [fst snd]. apply andb_true_iff in Hskip as [Hloc Hign].
    apply negb_true_iff in Hloc, Hign.
    apply bool_decide_eq_false in Hloc, Hign.
    split; [|split; [done|done]].
    unfold entryOf. rewrite Hnone. cbn.
    destruct (get F loc) as [lf|]; [by destruct Hloc|].
    cbn. by rewrite (bool_decide_eq_false_2 _ Hign).
  - assert (Hb : files (bucket F (createEmptyFragmentIfNeeded F diff)) !! f
                 = None).
    { unfold bucket, createEmptyFragmentIfNeeded.
      by rewrite Hnone, lookup_insert_eq. }
    destruct (files_here (negb (bool_decide (F ∈ fragments)))
                (Manifest.archives rf) (Manifest.files rf)
                (bucket F (createEmptyFragmentIfNeeded F diff))
                (get F loc) f remoteFile Hwf Hget Hb) as (E1 & E2 & E3).
    destruct (foldl _ _ _) as [fd l'] eqn:Hf. cbn [fst snd] in *.
    split; [|split].
    + unfold entryOf. rewrite lookup_insert_eq.
      cbn [mbind option_bind]. rewrite E1.
      unfold firstPassEntry, localFileOf.
      destruct (get F loc) as [lf|] eqn:Hloc; cbn [mbind option_bind].
      * destruct (member f (Manifest.files lf)) as [localFile|].
        -- rewrite (bool_decide_eq_true_2 (is_Some (Some localFile)))
             by done.
           by destruct (bool_decide (F ∈ fragments)).
        -- by rewrite (bool_decide_eq_false_2 (is_Some None))
             by (by intros [? ?]).
      * rewrite (bool_decide_eq_false_2 (is_Some None))
          by (by intros [? ?]). cbn [andb].
        rewrite (bool_decide_eq_false_2 (is_Some None)) in Hskip
          by (by intros [? ?]). cbn in Hskip.
        apply negb_false_iff in Hskip. by rewrite Hskip.
    + destruct l' as [lf'|]; [|done]. apply keys_set, E2. by eexists.
    + intros Hsel lf'. destruct l' as [lf1|].
      * rewrite get_set_eq. intros [= <-].
        apply (E3 ltac:(by rewrite (bool_decide_eq_true_2 _ Hsel))).
        done.
      * intros Hl. assert (Hn : ~ is_Some (get F loc)).
        { intros Hs. apply E2 in Hs. by destruct Hs. }
        rewrite Hl in Hn. destruct Hn. by eexists.
Qed.

(** The first pass, seen from one file of the remote hashes. *)
Lemma first_pass_file (fragments : list string)
    (localHashes remoteHashes : Manifest) (F : string) (rf : Fragment)
    (f : string) (remoteFile : File) :
  wfManifest remoteHashes ->
  get F remoteHashes = Some rf ->
  get f (Manifest.files rf) = Some remoteFile ->
  let st' := afterFirstPass isWin32 fragments localHashes remoteHashes in
  entryOf (fst st') F f
  = firstPassEntry isWin32 (bool_decide (F ∈ fragments))
      (get F localHashes) f remoteFile
  /\ keys (snd st') = keys localHashes
  /\ (F ∈ fragments -> withoutFile f (get F (snd st'))).
Proof.
  intros [Hwf Hfiles] HF Hf.
  assert (Hrf : wfObj (Manifest.files rf)).
  { rewrite Forall_forall in Hfiles.
    apply (Hfiles (F, rf)). by apply list_elem_of_In, get_Some_In. }
  destruct (get_split F rf remoteHashes Hwf HF) as (r1 & r2 & -> & H1 & H2).
  unfold afterFirstPass, findFilesToDownloadAndFragmentsToDelete.
  rewrite foldl_app. cbn [foldl].
  destruct (fragments_other fragments r1 (∅, localHashes) F H1)
    as (A1 & A2 & A3).
  destruct (foldl (fragmentStep isWin32 fragments) (∅, localHashes) r1)
    as [d1 l1]. cbn [fst snd] in A1, A2, A3.
  rewrite lookup_empty in A1.
  destruct (fragmentStep_here fragments d1 l1 F rf f remoteFile Hrf Hf A1)
    as (B1 & B2 & B3).
  destruct (fragments_other fragments r2
              (fragmentStep isWin32 fragments (d1, l1) (F, rf)) F H2)
    as (C1 & C2 & C3).
  cbv zeta. unfold entryOf in *. rewrite C1, C2, C3, B1, B2, A2, A3.
  done.
Qed.

End FirstPassFrame.

(** X8: after the first pass, a file of a fragment of the remote hashes
    has, in the bucket of its fragment, the entry that the comparison of
    the remote file with the local file of the same name in the same
    fragment gives, as the local hashes had it before the pass: no entry
    when the hashes are equal and (off Windows) so are the executable
    flags, an entry to download when the hash differs or the file is not
    there. In a fragment outside the selection a file that is installed
    gets no entry, and a fragment that is neither selected nor installed
    gets none at all. What the code reads under the name of the file in
    the local fragment is the file or, for a name that the fragment
    lacks and every object inherits, the inherited member: it has no
    hash and no executable flag, and counts as installed. *)
Theorem first_pass_entry (isWin32 : bool) (fragments : list string)
    (localHashes remoteHashes : Manifest) (F : string) (rf : Fragment)
    (f : string) (remoteFile : File) :
  wfManifest remoteHashes ->
  get F remoteHashes = Some rf ->
  get f (Manifest.files rf) = Some remoteFile ->
  entryOf (fst (afterFirstPass isWin32 fragments localHashes remoteHashes))
    F f
  = firstPassEntry isWin32 (bool_decide (F ∈ fragments))
      (get F localHashes) f remoteFile.
Proof.
  intros Hwf HF Hf.
  apply (first_pass_file isWin32 fragments localHashes remoteHashes F rf f
           remoteFile Hwf HF Hf).
Qed.


Lemma first_pass_entry_witness :
  let remote := [("main", mkFragment [("a.bin", mkFile "h1" 4 false);
                                      ("b.bin", mkFile "h2" 6 true)]
                            None None)] in
  let loc := [("main", mkFragment [("a.bin", mkFile "h1" 4 true)]
                         None None)] in
  entryOf (fst (afterFirstPass false ["main"] loc remote)) "main" "a.bin"
  = firstPassEntry false (bool_decide ("main" ∈ ["main"]))
      (get "main" loc) "a.bin" (mkFile "h1" 4 false).
Proof.
  cbn zeta.
  apply (first_pass_entry false ["main"]
           [("main", mkFragment [("a.bin", mkFile "h1" 4 true)] None None)]
           [("main", mkFragment [("a.bin", mkFile "h1" 4 false);
                                 ("b.bin", mkFile "h2" 6 true)] None None)]
           "main"
           (mkFragment [("a.bin", mkFile "h1" 4 false);
                        ("b.bin", mkFile "h2" 6 true)] None None)
           "a.bin" (mkFile "h1" 4 false)).
  - split.
    + unfold wfObj. apply (bool_decide_unpack _). vm_compute. exact I.
    + repeat constructor; unfold wfObj; apply (bool_decide_unpack _);
        vm_compute; exact I.
  - reflexivity.
  - reflexivity.
Defined.

(** A remote file named [valueOf] that the local fragment lacks: outside
    the selection it gets no entry, as what is read under its name is
    truthy; in the selection it is to download and, off Windows, its
    permissions are to update when it is executable. *)
Example first_pass_inherited_name :
  let remote := [("docs", mkFragment [("valueOf", mkFile "vv" 1 true);
                                      ("new.txt", mkFile "nn" 1 true)]
                            None None)] in
  let loc := [("docs", mkFragment [("readme.txt", mkFile "rr" 1 false)]
                         None None)] in
  entryOf (fst (afterFirstPass false [] loc remote)) "docs" "valueOf" = None
  /\ is_Some (entryOf (fst (afterFirstPass false [] loc remote))
                "docs" "new.txt")
  /\ entryOf (fst (afterFirstPass false ["docs"] loc remote))
       "docs" "valueOf"
     = Some (mkEntry (Some false) (Some true) (Some true) (Some "vv") 1
               (Some true) None)
  /\ entryOf (fst (afterFirstPass false ["docs"] loc remote))
       "docs" "new.txt"
     = Some (mkEntry (Some false) (Some true) (Some false) (Some "nn") 1
               (Some true) None).
Proof.
  cbn zeta. split_and!; [vm_compute; reflexivity| |vm_compute; reflexivity..].
  apply (bool_decide_unpack _). vm_compute. exact I.
Qed.

(** *** A file that is up to date *)











(** The other case: the same path is listed by an installed fragment
    outside the selection. The file of the selected fragment is up to
    date and has no entry in its bucket, but the deletion pass records
    the path in the bucket of the other fragment. *)
Example up_to_date_file_of_two_fragments :
  let remote := [("main", mkFragment [("a.bin", mkFile "h1" 4 false)]
                            None None)] in
  let loc := [("main", mkFragment [("a.bin", mkFile "h1" 4 false)]
                         None None);
              ("old", mkFragment [("a.bin", mkFile "h1" 4 false)]
                        None None)] in
  let diff := default ∅ (createPromise false ["main"] loc remote) in
  entryOf diff "main" "a.bin" = None
  /\ entryOf diff "old" "a.bin" = Some createDeletedFile.
Proof. cbn zeta. split; vm_compute; reflexivity. Qed.

(** *** A file that is needed *)

Lemma coveredBy_true (hs : gmap string (list HashTarget))
    (packs : Obj Pack) (k : string) :
  coveredBy hs packs k = true ->
  exists P pk, In (P, pk) packs /\ packTaken hs pk = true
               /\ is_Some (filesInPackOf pk hs !! k).
Proof.
  unfold coveredBy. intros [[P pk] [Hin Hb]]%existsb_exists.
  apply andb_true_iff in Hb as [Ht Hk]. apply bool_decide_eq_true in Hk.
  by exists P, pk.
Qed.

(** The entry of a file that the local hashes lack or have with another
    hash, after the pack pass. *)
Lemma needed_file_after_packs (isWin32 : bool)
    (fragments : list string) (localHashes remoteHashes : Manifest)
    (F : string) (rf : Fragment) (f : string) (remoteFile : File) :
  wfManifest remoteHashes ->
  F ∈ fragments ->
  get F remoteHashes = Some rf ->
  get f (Manifest.files rf) = Some remoteFile ->
  (forall lf localFile,
      get F localHashes = Some lf ->
      get f (Manifest.files lf) = Some localFile ->
      Manifest.hash remoteFile <> Manifest.hash localFile) ->
  (forall packs, Manifest.packs rf = Some packs ->
                 wfObj packs
                 /\ forall Q, Q ∈ keys packs ->
                              Q ∉ keys (Manifest.files rf)) ->
  let d2 := checkPacks remoteHashes
              (fst (afterFirstPass isWin32 fragments localHashes
                      remoteHashes)) in
  exists e,
    entryOf d2 F f = Some e
    /\ isPack e = Some false
    /\ hash e = Some (Manifest.hash remoteFile)
    /\ size e = Manifest.size remoteFile
    /\ (download e = Some true
        \/ (download e = Some false
            /\ exists P pe members,
                 entryOf d2 F P = Some pe
                 /\ isPack pe = Some true /\ download pe = Some true
                 /\ packFiles pe = Some members
                 /\ is_Some (members !! f))).
Proof.
  intros Hwf Hsel HF Hf Hdiffers Hpacks.
  destruct (first_pass_file isWin32 fragments localHashes remoteHashes
              F rf f remoteFile Hwf HF Hf) as (E1 & _ & _).
  pose proof (firstPassDiff_afterFirstPass isWin32 fragments localHashes
                remoteHashes (proj1 Hwf)) as Hinv.
  cbv zeta.
  set (d1 := fst (afterFirstPass isWin32 fragments localHashes
                    remoteHashes)) in *.
  (* the entry of the first pass *)
  set (e0 := mkEntry (Some false) (Some true)
               (Some (match localFileOf (get F localHashes) f with
                      | Some (Own localFile) =>
                          negb (isWin32
                                || Bool.eqb (Manifest.executable remoteFile)
                                     (Manifest.executable localFile))
                      | Some Inherited =>
                          negb isWin32 && Manifest.executable remoteFile
                      | None => false
                      end))
               (Some (Manifest.hash remoteFile)) (Manifest.size remoteFile)
               (Some (Manifest.executable remoteFile)) None).
  assert (Hd1 : entryOf d1 F f = Some e0).
  { rewrite E1. unfold firstPassEntry, e0, localFileOf.
    rewrite (bool_decide_eq_true_2 _ Hsel).
    destruct (get F localHashes) as [lf|] eqn:HlF; [|done].
    destruct (get f (Manifest.files lf)) as [localFile|] eqn:Hlf.
    - rewrite (member_Own f _ localFile Hlf). unfold comparison.
      by rewrite (proj2 (String.eqb_neq _ _)
                    (Hdiffers lf localFile eq_refl Hlf)).
    - by destruct (member f (Manifest.files lf)) as [[localFile|]|] eqn:Hm;
        [rewrite (member_not_own f _ Hlf) in Hm;
         destruct (inherited f)|..]. }
  destruct (d1 !! F) as [fd1|] eqn:HD1;
    [|by unfold entryOf in Hd1; rewrite HD1 in Hd1].
  assert (Hfd1f : files fd1 !! f = Some e0).
  { unfold entryOf in Hd1. by rewrite HD1 in Hd1. }
  assert (Hfd1 : firstPassBucket (keys (Manifest.files rf)) fd1).
  { specialize (Hinv F fd1 HD1). unfold remoteNames in Hinv.
    by rewrite HF in Hinv. }
  unfold entryOf.
  rewrite (checkPacks_lookup remoteHashes d1 F (proj1 Hwf)), HF, HD1.
  destruct (Manifest.packs rf) as [packs|] eqn:Hp.
  2:{ exists e0. cbn. rewrite Hfd1f. split_and!; try done. by left. }
  destruct (Hpacks packs eq_refl) as [Hwfp Hcoll].
  assert (Hdisj : forall Q kv, Q ∈ keys packs -> In kv packs ->
                    filesInPackOf (snd kv) (hashes fd1) !! Q = None).
  { intros Q kv HQ _.
    destruct (filesInPackOf (snd kv) (hashes fd1) !! Q) eqn:HfQ; [|done].
    exfalso. apply (Hcoll Q HQ).
    assert (Hs : is_Some (filesInPackOf (snd kv) (hashes fd1) !! Q))
      by (by rewrite HfQ).
    apply is_Some_filesInPackOf in Hs as (h & ts & t & _ & Hts & Ht & <-).
    by apply (fpb_hashes _ fd1 Hfd1 h ts t). }
  cbn [mbind option_bind].
  assert (Hfp : get f packs = None).
  { destruct (get f packs) eqn:Hg; [|done]. exfalso.
    apply (Hcoll f).
    - apply list_elem_of_In, get_is_Some. by eexists.
    - apply list_elem_of_In, get_is_Some. by eexists. }
  rewrite (checkPacksInFragment_files packs fd1 f Hwfp Hdisj), Hfp, Hfd1f.
  destruct (coveredBy (hashes fd1) packs f) eqn:Hcov.
  - exists (setDownloadFalse e0). split_and!; try done. right.
    split; [done|].
    destruct (coveredBy_true _ _ _ Hcov) as (P & pk & Hin & Htaken & Hmem).
    exists P, (packEntry P pk (filesInPackOf pk (hashes fd1))),
      (filesInPackOf pk (hashes fd1)).
    rewrite (checkPacksInFragment_files packs fd1 P Hwfp Hdisj).
    rewrite (get_In_wf P packs pk Hwfp Hin), Htaken. done.
  - exists e0. split_and!; try done. by left.
Qed.

(** The deletion pass keeps the entries of a file that has one. *)
Lemma markRemaining_kept (localHashes : Manifest) (diff : Diff)
    (F k : string) :
  is_Some (entryOf diff F k) ->
  entryOf (markRemainingFilesToBeDeleted localHashes diff) F k
  = entryOf diff F k.
Proof.
  intros Hk. apply markRemaining_marked.
  by apply (isFileMarkedForDownload_entry _ F).
Qed.

Lemma createPromise_passes (isWin32 : bool) (fragments : list string)
    (localHashes remoteHashes : Manifest) :
  verifyFragmentsList fragments remoteHashes = true ->
  createPromise isWin32 fragments localHashes remoteHashes
  = Some (markRemainingFilesToBeDeleted
            (snd (afterFirstPass isWin32 fragments localHashes
                    remoteHashes))
            (checkPacks remoteHashes
               (fst (afterFirstPass isWin32 fragments localHashes
                       remoteHashes)))).
Proof.
  intros Hver. unfold createPromise, afterFirstPass. rewrite Hver.
  by destruct (findFilesToDownloadAndFragmentsToDelete _ _ _ _).
Qed.



End DiffEngineFacts.

Module UpdateSizeFacts.
Import Manifest ManifestFacts DiffEngine DiffEngineFacts UpdateSize.

(** *** Sums *)

Definition sumN {A} (f : A -> N) (l : list A) : N :=
  foldr (fun x acc => (f x + acc)%N) 0%N l.

Lemma sumN_perm {A} (f : A -> N) (l l' : list A) :
  l ≡ₚ l' -> sumN f l = sumN f l'.
Proof.
  unfold sumN.
  induction 1 as [|x l l' _ IH|x y l|l l' l'' _ IH1 _ IH2]; cbn;
    [done|by rewrite IH|lia|congruence].
Qed.

Definition entrySize (kv : string * Entry) : N :=
  if isDownload (snd kv) then size (snd kv) else 0%N.

Definition entryCount (kv : string * Entry) : N :=
  if isDownload (snd kv) then 1%N else 0%N.

Lemma sumN_cons {A} (f : A -> N) (x : A) (l : list A) :
  sumN f (x :: l) = (f x + sumN f l)%N.
Proof. done. Qed.

Lemma countFile_sum (l : Obj Entry) (fragmentSize totalFiles : N) :
  foldl countFile (fragmentSize, totalFiles) l
  = ((fragmentSize + sumN entrySize l)%N,
     (totalFiles + sumN entryCount l)%N).
Proof.
  revert fragmentSize totalFiles.
  induction l as [|kv l IH]; intros fragmentSize totalFiles.
  - cbn. f_equal; lia.
  - cbn [foldl]. rewrite !sumN_cons.
    unfold countFile at 2, entrySize at 1, entryCount at 1.
    destruct (isDownload (snd kv)); rewrite IH; f_equal; lia.
Qed.

Lemma countFragment_sum (gd : GameData) (totalSize : N)
    (fragmentsSize : list (string * N)) (totalFiles : N) :
  foldl countFragment (totalSize, fragmentsSize, totalFiles) gd
  = ((totalSize + sumN (fun kv => sumN entrySize (snd kv)) gd)%N,
     fragmentsSize ++ map (fun kv => (fst kv, sumN entrySize (snd kv))) gd,
     (totalFiles + sumN (fun kv => sumN entryCount (snd kv)) gd)%N).
Proof.
  revert totalSize fragmentsSize totalFiles.
  induction gd as [|kv gd IH]; intros totalSize fragmentsSize totalFiles.
  - cbn. rewrite app_nil_r.
    apply pair_equal_spec; split; [apply pair_equal_spec; split|];
      first [lia|done].
  - cbn [foldl map]. rewrite !sumN_cons.
    unfold countFragment at 2. rewrite countFile_sum, IH.
    rewrite <- app_assoc. cbn [app]. rewrite !N.add_0_l.
    apply pair_equal_spec; split; [apply pair_equal_spec; split|];
      first [done|by rewrite N.add_assoc].
Qed.

Lemma calculateUpdateSize_sum (gd : GameData) :
  totalSize (calculateUpdateSize gd)
  = sumN (fun kv => sumN entrySize (snd kv)) gd
  /\ totalFiles (calculateUpdateSize gd)
     = sumN (fun kv => sumN entryCount (snd kv)) gd
  /\ fragmentsSize (calculateUpdateSize gd)
     = map (fun kv => (fst kv, sumN entrySize (snd kv))) gd.
Proof.
  unfold calculateUpdateSize. rewrite countFragment_sum. cbn.
  split; [lia|]. split; [lia|done].
Qed.

(** *** Objects and the maps they stand for *)

(** An object, by its enumeration, and a map that relates to it key by
    key. *)
Definition related {A B} (R : A -> B -> Prop) (o : Obj A)
    (m : gmap string B) : Prop :=
  wfObj o
  /\ forall k, match get k o, m !! k with
               | Some a, Some b => R a b
               | None, None => True
               | _, _ => False
               end.

Lemma related_sum {A B} (R : A -> B -> Prop) (g1 : string * A -> N)
    (g2 : string * B -> N) (o : Obj A) (m : gmap string B) :
  (forall k a b, R a b -> g1 (k, a) = g2 (k, b)) ->
  related R o m -> sumN g1 o = sumN g2 (map_to_list m).
Proof.
  intros Hg. revert m. unfold related, wfObj, keys.
  induction o as [|[k a] o IH]; intros m [Hnd Hrel].
  - assert (m = ∅) as ->; [|by rewrite map_to_list_empty].
    apply map_empty. intros k. specialize (Hrel k). cbn in Hrel.
    by destruct (m !! k).
  - cbn [map fst] in Hnd. apply NoDup_cons in Hnd as [Hk Hnd].
    pose proof (Hrel k) as Hkk. cbn [get] in Hkk.
    rewrite String.eqb_refl in Hkk.
    destruct (m !! k) as [b|] eqn:Hmk; [|done].
    rewrite (sumN_perm g2 (map_to_list m)
               ((k, b) :: map_to_list (delete k m))).
    2:{ rewrite <- map_to_list_insert by apply lookup_delete_eq.
        by rewrite insert_delete_id. }
    cbn [sumN foldr]. rewrite (Hg k a b Hkk). f_equal.
    apply IH. split; [done|]. intros k'.
    destruct (decide (k' = k)) as [->|Hne].
    + rewrite lookup_delete_eq.
      destruct (get k o) eqn:Hgo; [|done].
      apply Hk, list_elem_of_In, get_is_Some. by eexists.
    + rewrite lookup_delete_ne by done. specialize (Hrel k').
      cbn [get] in Hrel.
      by rewrite (proj2 (String.eqb_neq k k')) in Hrel.
Qed.

(** The game data is the diff, its fragments and their files enumerated
    in some order. *)
Definition enumerates (gd : GameData) (diff : Diff) : Prop :=
  related (fun l fd => related eq l (files fd)) gd diff.

(** The sizes and the number of the entries to download of a diff. *)
Definition sizeOf (fd : FragmentDiff) : N :=
  sumN entrySize (map_to_list (files fd)).

Definition countOf (fd : FragmentDiff) : N :=
  sumN entryCount (map_to_list (files fd)).

Definition measure (g : FragmentDiff -> N) (diff : Diff) : N :=
  sumN (fun kv : string * FragmentDiff => g (snd kv)) (map_to_list diff).

Lemma enumerates_totals (gd : GameData) (diff : Diff) :
  enumerates gd diff ->
  totalSize (calculateUpdateSize gd) = measure sizeOf diff
  /\ totalFiles (calculateUpdateSize gd) = measure countOf diff.
Proof.
  intros Hen. destruct (calculateUpdateSize_sum gd) as (-> & -> & _).
  unfold enumerates in Hen. split.
  - apply (related_sum (fun l fd => related eq l (files fd))
             (fun kv => sumN entrySize (snd kv))
             (fun kv => sizeOf (snd kv)) gd diff); [|exact Hen].
    intros k l fd Hl. cbn [snd]. unfold sizeOf.
    apply (related_sum eq entrySize entrySize); [|done]. by intros ? ? ? ->.
  - apply (related_sum (fun l fd => related eq l (files fd))
             (fun kv => sumN entryCount (snd kv))
             (fun kv => countOf (snd kv)) gd diff); [|exact Hen].
    intros k l fd Hl. cbn [snd]. unfold countOf.
    apply (related_sum eq entryCount entryCount); [|done].
    by intros ? ? ? ->.
Qed.

(** *** The deletion pass adds nothing to download *)

Lemma measure_insert (g : FragmentDiff -> N) (F : string)
    (fd : FragmentDiff) (diff : Diff) :
  measure g (<[F := fd]> diff) = (g fd + measure g (delete F diff))%N.
Proof.
  unfold measure. rewrite <- (insert_delete_eq diff).
  rewrite (sumN_perm _ _ ((F, fd) :: map_to_list (delete F diff))); [done|].
  apply map_to_list_insert, lookup_delete_eq.
Qed.

Lemma measure_lookup (g : FragmentDiff -> N) (F : string) (diff : Diff) :
  measure g diff
  = (match diff !! F with Some fd => g fd | None => 0 end
     + measure g (delete F diff))%N.
Proof.
  destruct (diff !! F) as [fd|] eqn:HF.
  - rewrite <- (insert_id diff F fd HF) at 1. apply measure_insert.
  - by rewrite delete_id.
Qed.

Section Measure.
Variable g : string * Entry -> N.
Hypothesis g_deleted : forall f, g (f, createDeletedFile) = 0%N.

Definition ofFragment (fd : FragmentDiff) : N :=
  sumN g (map_to_list (files fd)).

Lemma measure_createEmpty (F : string) (diff : Diff) :
  measure ofFragment (createEmptyFragmentIfNeeded F diff)
  = measure ofFragment diff.
Proof.
  unfold createEmptyFragmentIfNeeded.
  destruct (diff !! F) eqn:HF; [done|].
  rewrite measure_insert, (measure_lookup _ F diff), HF.
  unfold ofFragment. cbn. by rewrite map_to_list_empty.
Qed.

Lemma measure_markFile (F : string) (diff : Diff) (f : string) :
  measure ofFragment (markFile F diff f) = measure ofFragment diff.
Proof.
  unfold markFile.
  destruct (isFileMarkedForDownload diff f) eqn:Hm; [done|].
  cbn [negb]. rewrite measure_insert, (measure_lookup _ F diff).
  f_equal. unfold ofFragment at 1. cbn [files].
  assert (Hnone : files (bucket F diff) !! f = None).
  { pose proof (isFileMarkedForDownload_false diff f Hm F) as HF.
    unfold entryOf, bucket in *.
    by destruct (diff !! F) as [fd|]. }
  rewrite (sumN_perm _ _ ((f, createDeletedFile)
                            :: map_to_list (files (bucket F diff))))
    by (by apply map_to_list_insert).
  cbn [sumN foldr]. rewrite g_deleted. unfold bucket.
  destruct (diff !! F) as [fd|]; cbn; [done|].
  by rewrite map_to_list_empty.
Qed.

Lemma measure_markRemaining (localHashes : Manifest) (diff : Diff) :
  measure ofFragment (markRemainingFilesToBeDeleted localHashes diff)
  = measure ofFragment diff.
Proof.
  unfold markRemainingFilesToBeDeleted. revert diff.
  induction localHashes as [|[F lf] rest IH]; intros diff; [done|].
  cbn [foldl]. rewrite IH. unfold markFragment. cbn [fst snd].
  rewrite <- (measure_createEmpty F diff).
  generalize (createEmptyFragmentIfNeeded F diff).
  induction (keys (Manifest.files lf)) as [|f fs IHf]; intros d; [done|].
  cbn [foldl]. by rewrite IHf, measure_markFile.
Qed.

End Measure.

(** X23: the deletion pass changes nothing to the size of an update:
    whatever the order in which the fragments and the files are
    enumerated, [calculateUpdateSize] finds in the diff after the
    deletion pass the total size and the number of files that it finds
    in the diff before it. Entries of files to delete do not count. *)
Theorem deletions_do_not_count (localHashes : Manifest) (diff : Diff)
    (before after : GameData) :
  enumerates before diff ->
  enumerates after (markRemainingFilesToBeDeleted localHashes diff) ->
  totalSize (calculateUpdateSize after)
  = totalSize (calculateUpdateSize before)
  /\ totalFiles (calculateUpdateSize after)
     = totalFiles (calculateUpdateSize before).
Proof.
  intros Hb Ha.
  destruct (enumerates_totals before diff Hb) as [-> ->].
  destruct (enumerates_totals after _ Ha) as [-> ->].
  split.
  - apply (measure_markRemaining entrySize); done.
  - apply (measure_markRemaining entryCount); done.
Qed.


(** *** An enumeration and its diff *)

(** The diff that a game data enumerates. *)
Definition filesOf (l : Obj Entry) : FragmentDiff :=
  mkFragmentDiff (list_to_map l) ∅ ∅.

Definition diffOf (gd : GameData) : Diff :=
  list_to_map (map (fun kv => (fst kv, filesOf (snd kv))) gd).

Lemma lookup_list_to_map_get {A B} (h : A -> B) (o : Obj A) (k : string) :
  (list_to_map (map (fun kv => (fst kv, h (snd kv))) o) : gmap string B) !! k
  = h <$> get k o.
Proof.
  induction o as [|[k1 a] o IH]; cbn [map list_to_map foldr get fst snd].
  - apply lookup_empty.
  - destruct (String.eqb_spec k1 k) as [->|Hne].
    + by rewrite lookup_insert_eq.
    + by rewrite lookup_insert_ne.
Qed.

Lemma related_list_to_map {A B} (R : A -> B -> Prop) (h : A -> B)
    (o : Obj A) :
  wfObj o -> (forall k a, get k o = Some a -> R a (h a)) ->
  related R o (list_to_map (map (fun kv => (fst kv, h (snd kv))) o)).
Proof.
  intros Hwf HR. split; [done|]. intros k.
  rewrite lookup_list_to_map_get.
  destruct (get k o) as [a|] eqn:Hk; cbn; [|done]. by apply (HR k).
Qed.

Lemma enumerates_diffOf (gd : GameData) :
  wfObj gd -> Forall (fun kv => wfObj (snd kv)) gd ->
  enumerates gd (diffOf gd).
Proof.
  intros Hwf Hfiles. apply related_list_to_map; [done|].
  intros F l HF. cbn [filesOf files].
  assert (Hl : wfObj l).
  { rewrite Forall_forall in Hfiles.
    apply (Hfiles (F, l)), list_elem_of_In. by apply get_Some_In. }
  replace (list_to_map l : gmap string Entry)
    with (list_to_map (map (fun kv => (fst kv, id (snd kv))) l)
            : gmap string Entry).
  - apply related_list_to_map; [done|]. by intros.
  - f_equal. rewrite <- (map_id l) at 2. apply map_ext. by intros [? ?].
Qed.

(** A diff with one file to download, and local hashes in which an old
    file remains. *)
Definition oneDownload : GameData :=
  [("main", [("a.bin", mkEntry (Some false) (Some true) (Some false)
                         (Some "a1") 5 (Some false) None)])].

Definition oneDownloadOneDeletion : GameData :=
  [("main", [("a.bin", mkEntry (Some false) (Some true) (Some false)
                         (Some "a1") 5 (Some false) None);
             ("old.bin", createDeletedFile)])].

Definition oldFileRemains : Manifest :=
  [("main", mkFragment [("old.bin", mkFile "o0" 1 false)] None None)].

Lemma deletions_do_not_count_witness :
  totalSize (calculateUpdateSize oneDownloadOneDeletion)
  = totalSize (calculateUpdateSize oneDownload)
  /\ totalFiles (calculateUpdateSize oneDownloadOneDeletion)
     = totalFiles (calculateUpdateSize oneDownload).
Proof.
  apply (deletions_do_not_count oldFileRemains (diffOf oneDownload)).
  - apply enumerates_diffOf.
    + unfold wfObj. apply (bool_decide_unpack _). vm_compute. exact I.
    + repeat constructor; unfold wfObj; apply (bool_decide_unpack _);
        vm_compute; exact I.
  - replace (markRemainingFilesToBeDeleted oldFileRemains
               (diffOf oneDownload))
      with (diffOf oneDownloadOneDeletion) by (vm_compute; reflexivity).
    apply enumerates_diffOf.
    + unfold wfObj. apply (bool_decide_unpack _). vm_compute. exact I.
    + repeat constructor; unfold wfObj; apply (bool_decide_unpack _);
        vm_compute; exact I.
Defined.

End UpdateSizeFacts.

Module SaveHashesFacts.
Import Manifest ManifestFacts SaveHashes.

(** The entry of a file in the local hashes. *)
Definition fileOf (localHashes : Manifest) (fragmentName filePath : string)
  : option File :=
  get fragmentName localHashes ≫= fun fragment => get filePath (files fragment).


(** The file as downloaded in the fragment. *)
Definition downloaded (downloadedHashes : Obj (Obj File))
    (fragmentName filePath : string) : option File :=
  get fragmentName downloadedHashes ≫= get filePath.


Lemma get_set {V} (k k' : string) (v : V) (o : Obj V) :
  get k (DiffEngine.set k' v o)
  = if String.eqb k' k then Some v else get k o.
Proof.
  destruct (String.eqb_spec k' k) as [->|Hne].
  - apply DiffEngineFacts.get_set_eq.
  - apply DiffEngineFacts.get_set_ne. congruence.
Qed.

Lemma fileOf_set (F : string) (fragment : Fragment) (lh : Manifest)
    (G g : string) :
  fileOf (DiffEngine.set F fragment lh) G g
  = if String.eqb F G then get g (files fragment) else fileOf lh G g.
Proof. unfold fileOf. rewrite get_set. by destruct (String.eqb F G). Qed.

Lemma present_set (F : string) (fragment : Fragment) (lh : Manifest)
    (G : string) :
  is_Some (get G (DiffEngine.set F fragment lh))
  <-> G = F \/ is_Some (get G lh).
Proof.
  rewrite get_set. destruct (String.eqb_spec F G) as [->|Hne].
  - split; [by left|by eexists].
  - split; [by right|]. intros [?|?]; [congruence|done].
Qed.

(** *** Additions *)

Lemma createEmpty_spec (F : string) (lh : Manifest) :
  let lh' := createEmptyFragmentIfNeeded F lh in
  is_Some (get F lh')
  /\ (forall G g, fileOf lh' G g = fileOf lh G g)
  /\ (forall G, is_Some (get G lh') <-> G = F \/ is_Some (get G lh)).
Proof.
  cbv zeta. unfold createEmptyFragmentIfNeeded.
  destruct (get F lh) as [fragment|] eqn:HF.
  - rewrite HF. split; [by eexists|]. split; [done|].
    intros G. split; [by right|]. intros [->|?]; [|done].
    rewrite HF. by eexists.
  - split; [|split].
    + apply present_set. by left.
    + intros G g. rewrite fileOf_set.
      destruct (String.eqb_spec F G) as [<-|_]; [|done].
      unfold fileOf. by rewrite HF.
    + intros G. apply present_set.
Qed.

Lemma addFile_spec (F f : string) (file : File) (lh : Manifest) :
  is_Some (get F lh) ->
  exists lh',
    addDownloadedFileToHashes F f file lh = Some lh'
    /\ (forall G g, fileOf lh' G g
                    = if String.eqb F G && String.eqb f g then Some file
                      else fileOf lh G g)
    /\ (forall G, is_Some (get G lh') <-> is_Some (get G lh)).
Proof.
  intros [fragment HF]. unfold addDownloadedFileToHashes. rewrite HF.
  eexists. split; [done|]. split.
  - intros G g. rewrite fileOf_set.
    destruct (String.eqb_spec F G) as [<-|_]; [|done].
    cbn [files andb]. rewrite get_set. unfold fileOf. by rewrite HF.
  - intros G. rewrite present_set. split; [|by right].
    intros [->|?]; [|done]. rewrite HF. by eexists.
Qed.

Lemma addFiles_spec (F : string) (fragmentFiles : Obj File)
    (lh : Manifest) :
  wfObj fragmentFiles -> is_Some (get F lh) ->
  exists lh',
    foldl (fun acc '(filePath, file) =>
             acc ≫= addDownloadedFileToHashes F filePath file)
      (Some lh) fragmentFiles = Some lh'
    /\ (forall G g, fileOf lh' G g
                    = if String.eqb F G
                      then match get g fragmentFiles with
                           | Some file => Some file
                           | None => fileOf lh G g
                           end
                      else fileOf lh G g)
    /\ (forall G, is_Some (get G lh') <-> is_Some (get G lh)).
Proof.
  unfold wfObj, keys. revert lh.
  induction fragmentFiles as [|[f file] rest IH]; intros lh Hnd HF.
  - exists lh. split; [done|]. split; [|done].
    intros G g. cbn. by destruct (String.eqb F G).
  - cbn [map fst] in Hnd. apply NoDup_cons in Hnd as [Hf Hnd].
    destruct (addFile_spec F f file lh HF) as (lh1 & H1 & H2 & H3).
    cbn [foldl mbind option_bind]. rewrite H1.
    destruct (IH lh1 Hnd ltac:(by apply H3)) as (lh' & E1 & E2 & E3).
    exists lh'. split; [done|]. split.
    + intros G g. rewrite E2, H2. cbn [get].
      destruct (String.eqb_spec F G) as [<-|_]; [|done]. cbn [andb].
      destruct (String.eqb_spec f g) as [<-|_]; [|done].
      replace (get f rest) with (@None File); [done|].
      symmetry. apply eq_None_not_Some. intros Hs.
      apply get_is_Some in Hs. by apply Hf, list_elem_of_In.
    + intros G. by rewrite E3, H3.
Qed.

Lemma addFragment_spec (F : string) (fragmentFiles : Obj File)
    (lh : Manifest) :
  wfObj fragmentFiles ->
  exists lh',
    addDownloadedFragmentToHashes F fragmentFiles lh = Some lh'
    /\ (forall G g, fileOf lh' G g
                    = if String.eqb F G
                      then match get g fragmentFiles with
                           | Some file => Some file
                           | None => fileOf lh G g
                           end
                      else fileOf lh G g)
    /\ (forall G, is_Some (get G lh') <-> G = F \/ is_Some (get G lh)).
Proof.
  intros Hwf. destruct (createEmpty_spec F lh) as (C1 & C2 & C3).
  destruct (addFiles_spec F fragmentFiles
              (createEmptyFragmentIfNeeded F lh) Hwf C1)
    as (lh' & E1 & E2 & E3).
  exists lh'. split; [done|]. split.
  - intros G g. rewrite E2, !C2. done.
  - intros G. by rewrite E3, C3.
Qed.

Lemma addDownloadedHashes_spec (dh : Obj (Obj File)) (lh : Manifest) :
  wfObj dh -> Forall (fun kv => wfObj (snd kv)) dh ->
  exists lh',
    addDownloadedHashes dh lh = Some lh'
    /\ (forall G g, fileOf lh' G g
                    = match downloaded dh G g with
                      | Some file => Some file
                      | None => fileOf lh G g
                      end)
    /\ (forall G, is_Some (get G lh')
                  <-> is_Some (get G lh) \/ G ∈ keys dh).
Proof.
  unfold addDownloadedHashes, wfObj, keys, downloaded. revert lh.
  induction dh as [|[F fragmentFiles] rest IH]; intros lh Hnd Hwf.
  - exists lh. split; [done|]. split; [done|].
    intros G. cbn. rewrite elem_of_nil. tauto.
  - cbn [map fst] in Hnd. apply NoDup_cons in Hnd as [HF Hnd].
    apply Forall_cons in Hwf as [HwfF Hwf]. cbn [snd] in HwfF.
    destruct (addFragment_spec F fragmentFiles lh HwfF)
      as (lh1 & H1 & H2 & H3).
    cbn [foldl mbind option_bind]. rewrite H1.
    destruct (IH lh1 Hnd Hwf) as (lh' & E1 & E2 & E3).
    exists lh'. split; [done|]. split.
    + intros G g. rewrite E2, H2. cbn [get].
      destruct (String.eqb_spec F G) as [<-|_]; [|done].
      replace (get F rest) with (@None (Obj File)); [done|].
      symmetry. apply eq_None_not_Some. intros Hs.
      apply get_is_Some in Hs. by apply HF, list_elem_of_In.
    + intros G. rewrite E3, H3. cbn [map fst]. rewrite elem_of_cons.
      tauto.
Qed.


(** *** Deletions *)





(** *** The hashes that are saved *)


(** A release with one installed fragment; the update downloads two files
    and deletes two, one of which it has just downloaded. *)
Definition installedHashes : Manifest :=
  [("main", mkFragment [("a.bin", mkFile "a0" 4 false);
                        ("old.bin", mkFile "o0" 1 false)] None None)].

Definition downloadedFiles : Obj (Obj File) :=
  [("main", [("a.bin", mkFile "a1" 5 false);
             ("tmp.bin", mkFile "t1" 2 false)])].

Definition removedFiles : Obj (list string) :=
  [("main", ["old.bin"; "tmp.bin"])].


Example saved_files_example :
  dataToWrite downloadedFiles None removedFiles installedHashes
  = Some [("main", mkFragment [("a.bin", mkFile "a1" 5 false)] None None)].
Proof. reflexivity. Qed.

(** *** A deletion in a fragment that is not there *)

Lemma removeFiles_None (F : string) (filePaths : list string) :
  foldl (fun acc filePath =>
           acc ≫= removeDeletedFileFromHashes F filePath) None filePaths
  = None.
Proof. by induction filePaths. Qed.

Lemma removeFragments_None (df : Obj (list string)) :
  foldl (fun acc '(fragmentName, filePaths) =>
           acc ≫= removeDeletedFragmentFromHashes fragmentName filePaths)
    None df = None.
Proof. by induction df as [|[F filePaths] rest IH]. Qed.

Lemma removeFiles_present (F : string) (filePaths : list string)
    (lh lh' : Manifest) (G : string) :
  removeDeletedFragmentFromHashes F filePaths lh = Some lh' ->
  is_Some (get G lh') <-> is_Some (get G lh).
Proof.
  unfold removeDeletedFragmentFromHashes. revert lh.
  induction filePaths as [|f rest IH]; intros lh.
  - by intros [= <-].
  - cbn [foldl mbind option_bind].
    destruct (removeDeletedFileFromHashes F f lh) as [lh1|] eqn:H1.
    + intros Hrest. rewrite (IH lh1 Hrest).
      unfold removeDeletedFileFromHashes in H1.
      destruct (get F lh) as [fragment|] eqn:HF; [|done].
      injection H1 as <-. rewrite present_set. split; [|by right].
      intros [->|?]; [|done]. rewrite HF. by eexists.
    + by rewrite removeFiles_None.
Qed.

Lemma removeDeletedFragments_absent (df : Obj (list string))
    (lh : Manifest) (F : string) (filePaths : list string) :
  In (F, filePaths) df -> filePaths <> [] -> get F lh = None ->
  removeDeletedFragments df lh = None.
Proof.
  unfold removeDeletedFragments. revert lh.
  induction df as [|[G paths] rest IH]; intros lh Hin Hne HF; [done|].
  cbn [foldl mbind option_bind].
  destruct (removeDeletedFragmentFromHashes G paths lh) as [lh1|] eqn:H1;
    [|apply removeFragments_None].
  destruct Hin as [[= -> ->]|Hin].
  - exfalso. destruct filePaths as [|f more]; [done|].
    unfold removeDeletedFragmentFromHashes in H1.
    cbn [foldl mbind option_bind] in H1.
    unfold removeDeletedFileFromHashes at 2 in H1. rewrite HF in H1.
    by rewrite removeFiles_None in H1.
  - apply (IH lh1 Hin Hne).
    apply eq_None_not_Some. rewrite (removeFiles_present G paths lh lh1 F H1).
    rewrite HF. by intros [? ?].
Qed.


Lemma addArchives_None (da : Obj (Obj Archive)) :
  foldl (fun acc '(fragmentName, fragmentArchives) =>
           acc ≫= addArchivesOfFragment fragmentName fragmentArchives)
    None da = None.
Proof. by induction da as [|[F fragmentArchives] rest IH]. Qed.

Lemma addDownloadedArchives_present (da : option (Obj (Obj Archive)))
    (lh lh' : Manifest) (G : string) :
  addDownloadedArchives da lh = Some lh' ->
  is_Some (get G lh') <-> is_Some (get G lh).
Proof.
  unfold addDownloadedArchives. destruct da as [da|]; [|by intros [= <-]].
  revert lh. induction da as [|[F fragmentArchives] rest IH]; intros lh.
  - by intros [= <-].
  - cbn [foldl mbind option_bind].
    destruct (addArchivesOfFragment F fragmentArchives lh) as [lh1|] eqn:H1.
    + intros Hrest. rewrite (IH lh1 Hrest).
      unfold addArchivesOfFragment in H1.
      destruct (get F lh) as [fragment|] eqn:HF; [|done].
      injection H1 as <-. rewrite present_set. split; [|by right].
      intros [->|?]; [|done]. rewrite HF. by eexists.
    + by rewrite addArchives_None.
Qed.

(** X22: when the deleted files list a file in a fragment that is
    neither in the local hashes nor among the downloaded fragments, the
    action fails on reading the fragment and computes nothing to
    save. *)
Theorem deletion_in_unknown_fragment (downloadedHashes : Obj (Obj File))
    (downloadedArchives : option (Obj (Obj Archive)))
    (deletedFiles : Obj (list string)) (localHashes : Manifest)
    (F : string) (filePaths : list string) :
  wfObj downloadedHashes ->
  Forall (fun kv => wfObj (snd kv)) downloadedHashes ->
  In (F, filePaths) deletedFiles -> filePaths <> [] ->
  get F localHashes = None -> F ∉ keys downloadedHashes ->
  dataToWrite downloadedHashes downloadedArchives deletedFiles localHashes
  = None.
Proof.
  intros Hwf Hfiles Hin Hne HF Hdh. unfold dataToWrite.
  destruct (addDownloadedHashes_spec downloadedHashes localHashes Hwf Hfiles)
    as (lh1 & A1 & _ & A3).
  rewrite A1. cbn [mbind option_bind].
  destruct (addDownloadedArchives downloadedArchives lh1) as [lh2|] eqn:B1;
    [|done].
  cbn [mbind option_bind].
  apply (removeDeletedFragments_absent deletedFiles lh2 F filePaths Hin Hne).
  apply eq_None_not_Some.
  rewrite (addDownloadedArchives_present downloadedArchives lh1 lh2 F B1).
  rewrite A3, HF. intros [[? ?]|?]; done.
Qed.

Lemma deletion_in_unknown_fragment_witness :
  dataToWrite downloadedFiles None [("fr", ["fr.txt"])] installedHashes
  = None.
Proof.
  apply (deletion_in_unknown_fragment downloadedFiles None
           [("fr", ["fr.txt"])] installedHashes "fr" ["fr.txt"]).
  - unfold wfObj. apply (bool_decide_unpack _). vm_compute. exact I.
  - repeat constructor; unfold wfObj; apply (bool_decide_unpack _);
      vm_compute; exact I.
  - by left.
  - discriminate.
  - reflexivity.
  - apply (bool_decide_unpack _). vm_compute. exact I.
Defined.

End SaveHashesFacts.

Module DeleteFilesFacts.
Import Manifest ManifestFacts DiffEngine DiffEngineFacts.
Import SaveHashes SaveHashesFacts DeleteFiles.

Lemma findFileInOtherFragments_false (diff : DiffObject) (F f : string) :
  wfObj diff ->
  findFileInOtherFragments diff F f = false
  <-> forall G fragmentFiles e,
        In (G, fragmentFiles) diff -> G <> F ->
        get f fragmentFiles = Some e -> size e = 0%N.
Proof.
  intros Hwf. unfold findFileInOtherFragments.
  rewrite <- not_true_iff_false, existsb_exists. split.
  - intros Hno G fragmentFiles e Hin HG He.
    destruct (N.eq_dec (size e) 0%N) as [|Hpos]; [done|].
    exfalso. apply Hno. exists (G, fragmentFiles). split; [done|].
    cbn [fst]. rewrite (proj2 (String.eqb_neq G F) HG). cbn [negb andb].
    unfold findFileInFragment.
    rewrite (get_In_wf G diff fragmentFiles Hwf Hin), He.
    apply N.ltb_lt. lia.
  - intros Hall [[G fragmentFiles] [Hin Hb]]. cbn [fst] in Hb.
    apply andb_true_iff in Hb as [HG Hfound].
    apply negb_true_iff, String.eqb_neq in HG.
    unfold findFileInFragment in Hfound.
    rewrite (get_In_wf G diff fragmentFiles Hwf Hin) in Hfound.
    destruct (get f fragmentFiles) as [e|] eqn:He; [|done].
    apply N.ltb_lt in Hfound.
    specialize (Hall G fragmentFiles e Hin HG He). lia.
Qed.

Lemma generatePromises_In (diff : DiffObject) (F f : string) :
  In (F, f) (generatePromises diff)
  <-> exists fragmentFiles e,
        In (F, fragmentFiles) diff /\ In (f, e) fragmentFiles
        /\ size e = 0%N /\ findFileInOtherFragments diff F f = false.
Proof.
  unfold generatePromises. rewrite in_flat_map. split.
  - intros [[G fragmentFiles] [Hin Hfile]]. cbn [fst snd] in Hfile.
    apply in_flat_map in Hfile as [[g e] [Hg Hyield]]. cbn [fst snd] in Hyield.
    destruct (size e =? 0)%N eqn:Hsize; [|done].
    destruct (findFileInOtherFragments diff G g) eqn:Hother; [done|].
    cbn in Hyield. destruct Hyield as [[= -> ->]|[]].
    exists fragmentFiles, e. apply N.eqb_eq in Hsize. done.
  - intros (fragmentFiles & e & Hin & Hf & Hsize & Hother).
    exists (F, fragmentFiles). split; [done|]. cbn [fst snd].
    apply in_flat_map. exists (f, e). split; [done|]. cbn [fst snd].
    rewrite Hother, (proj2 (N.eqb_eq _ _) Hsize). by left.
Qed.

(** X25: the action unlinks exactly the files that have, in some fragment
    of the diff, an entry of size 0 and that have in no other fragment
    an entry of a size above 0; whether the entry of size 0 is a deletion
    entry or the entry of a file to download makes no difference. *)
Theorem unlinked_files (diff : DiffObject) (F f : string) :
  wfObj diff ->
  In (F, f) (generatePromises diff)
  <-> (exists fragmentFiles e,
         In (F, fragmentFiles) diff /\ In (f, e) fragmentFiles
         /\ size e = 0%N)
      /\ forall G fragmentFiles e,
           In (G, fragmentFiles) diff -> G <> F ->
           get f fragmentFiles = Some e -> size e = 0%N.
Proof.
  intros Hwf. rewrite generatePromises_In.
  rewrite <- (findFileInOtherFragments_false diff F f Hwf).
  split.
  - intros (fragmentFiles & e & ? & ? & ? & ?).
    split; [by exists fragmentFiles, e|done].
  - intros [(fragmentFiles & e & ? & ? & ?) ?]. by exists fragmentFiles, e.
Qed.

Lemma unlinked_files_witness :
  In ("main", "old.bin")
    (generatePromises UpdateSizeFacts.oneDownloadOneDeletion)
  <-> (exists fragmentFiles e,
         In ("main", fragmentFiles) UpdateSizeFacts.oneDownloadOneDeletion
         /\ In ("old.bin", e) fragmentFiles /\ size e = 0%N)
      /\ forall G fragmentFiles e,
           In (G, fragmentFiles) UpdateSizeFacts.oneDownloadOneDeletion ->
           G <> "main" ->
           get "old.bin" fragmentFiles = Some e -> size e = 0%N.
Proof.
  apply (unlinked_files UpdateSizeFacts.oneDownloadOneDeletion "main"
           "old.bin").
  unfold wfObj. apply (bool_decide_unpack _). vm_compute. exact I.
Defined.

(** *** An empty file that is to be downloaded *)

(** An entry of the diff, in an enumeration of the diff. *)
Lemma enumerates_entry (gd : DiffObject) (diff : Diff) (F f : string)
    (e : Entry) :
  UpdateSizeFacts.enumerates gd diff -> entryOf diff F f = Some e ->
  exists fragmentFiles,
    get F gd = Some fragmentFiles /\ get f fragmentFiles = Some e.
Proof.
  intros [_ Hrel] He. specialize (Hrel F). unfold entryOf in He.
  destruct (diff !! F) as [fd|]; [|done]. cbn in He.
  destruct (get F gd) as [fragmentFiles|]; [|done].
  exists fragmentFiles. split; [done|].
  destruct Hrel as [_ Hfiles]. specialize (Hfiles f). rewrite He in Hfiles.
  destruct (get f fragmentFiles) as [e'|]; [by subst|done].
Qed.

Lemma enumerates_entry_inv (gd : DiffObject) (diff : Diff) (F f : string)
    (fragmentFiles : Obj Entry) (e : Entry) :
  UpdateSizeFacts.enumerates gd diff ->
  In (F, fragmentFiles) gd -> get f fragmentFiles = Some e ->
  entryOf diff F f = Some e.
Proof.
  intros [Hwf Hrel] Hin He. specialize (Hrel F).
  rewrite (get_In_wf F gd fragmentFiles Hwf Hin) in Hrel.
  unfold entryOf. destruct (diff !! F) as [fd|]; [|done]. cbn.
  destruct Hrel as [_ Hfiles]. specialize (Hfiles f). rewrite He in Hfiles.
  destruct (files fd !! f) as [e'|]; [by subst|done].
Qed.

Lemma enumerates_files (gd : DiffObject) (diff diff' : Diff) :
  (files <$> diff' : gmap string (gmap string Entry)) = files <$> diff ->
  UpdateSizeFacts.enumerates gd diff -> UpdateSizeFacts.enumerates gd diff'.
Proof.
  intros Heq [Hwf Hrel]. split; [done|]. intros k. specialize (Hrel k).
  assert (Hk : files <$> diff' !! k = files <$> diff !! k)
    by (by rewrite <- !lookup_fmap, Heq).
  destruct (diff' !! k) as [fd'|], (diff !! k) as [fd|], (get k gd);
    cbn in Hk; try done.
  injection Hk as Hk. by rewrite Hk.
Qed.

(** X26: an empty file is unlinked after it was downloaded. A file of a
    selected fragment that the remote hashes list with size 0, that the
    local hashes lack or have with another hash, and that has in the diff
    no entry of a size above 0 in another fragment, has in the diff the
    entry of the remote file, not a deletion entry, and is among the
    files that the DeleteFiles action unlinks, in whatever order the diff
    is enumerated. *)
Theorem empty_file_is_unlinked (isWin32 : bool) (fragments : list string)
    (localHashes remoteHashes : Manifest) (F : string) (rf : Fragment)
    (f : string) (remoteFile : File) (diff : Diff) (gd : DiffObject) :
  wfManifest remoteHashes ->
  verifyFragmentsList fragments remoteHashes = true ->
  F ∈ fragments ->
  get F remoteHashes = Some rf ->
  get f (Manifest.files rf) = Some remoteFile ->
  Manifest.size remoteFile = 0%N ->
  (forall lf localFile,
      get F localHashes = Some lf ->
      get f (Manifest.files lf) = Some localFile ->
      Manifest.hash remoteFile <> Manifest.hash localFile) ->
  (forall packs, Manifest.packs rf = Some packs ->
                 wfObj packs
                 /\ forall Q, Q ∈ keys packs ->
                              Q ∉ keys (Manifest.files rf)) ->
  DiffEngine.createPromise isWin32 fragments localHashes remoteHashes = Some diff ->
  UpdateSizeFacts.enumerates gd diff ->
  (forall G e, G <> F -> entryOf diff G f = Some e -> size e = 0%N) ->
  (exists e, entryOf diff F f = Some e
             /\ hash e = Some (Manifest.hash remoteFile)
             /\ isPack e = Some false)
  /\ In (F, f) (generatePromises gd).
Proof.
  intros Hwf Hver Hsel HF Hf Hsize Hdiffers Hpacks Hdiff Hen Hother.
  destruct (needed_file_after_packs isWin32 fragments localHashes
              remoteHashes F rf f remoteFile Hwf Hsel HF Hf Hdiffers Hpacks)
    as (e & He & H1 & H2 & H3 & _).
  rewrite (createPromise_passes isWin32 fragments localHashes remoteHashes
             Hver) in Hdiff.
  injection Hdiff as <-.
  rewrite <- (markRemaining_kept
                (snd (afterFirstPass isWin32 fragments localHashes
                        remoteHashes)) _ F f) in He by (by rewrite He).
  split; [by exists e|].
  destruct (enumerates_entry gd _ F f e Hen He) as (fragmentFiles & HgF & Hgf).
  apply generatePromises_In. exists fragmentFiles, e.
  split; [by apply get_Some_In|]. split; [by apply get_Some_In|].
  split; [congruence|].
  apply (findFileInOtherFragments_false gd F f (proj1 Hen)).
  intros G filesG e' Hin HG He'. apply (Hother G e' HG).
  by apply (enumerates_entry_inv gd _ G f filesG e' Hen).
Qed.


(** A release with an empty file, and the diff of its installation. *)
Definition emptyFileRemote : Manifest :=
  [("main", mkFragment [("a.bin", mkFile "a1" 5 false);
                        ("empty.txt", mkFile "e0" 0 false)] None None)].

Definition emptyFileDiff : DiffObject :=
  [("main", [("a.bin", mkEntry (Some false) (Some true) (Some false)
                         (Some "a1") 5 (Some false) None);
             ("empty.txt", mkEntry (Some false) (Some true) (Some false)
                             (Some "e0") 0 (Some false) None)])].

Definition emptyFileInstall : Diff :=
  default ∅ (DiffEngine.createPromise false ["main"] [] emptyFileRemote).

Lemma emptyFileDiff_enumerates :
  UpdateSizeFacts.enumerates emptyFileDiff emptyFileInstall.
Proof.
  apply (enumerates_files emptyFileDiff
           (UpdateSizeFacts.diffOf emptyFileDiff)).
  - vm_compute. reflexivity.
  - apply UpdateSizeFacts.enumerates_diffOf.
    + unfold wfObj. apply (bool_decide_unpack _). vm_compute. exact I.
    + repeat constructor; unfold wfObj; apply (bool_decide_unpack _);
        vm_compute; exact I.
Qed.

Lemma empty_file_is_unlinked_witness :
  (exists e, entryOf emptyFileInstall "main" "empty.txt" = Some e
             /\ hash e = Some "e0" /\ isPack e = Some false)
  /\ In ("main", "empty.txt") (generatePromises emptyFileDiff).
Proof.
  apply (empty_file_is_unlinked false ["main"] [] emptyFileRemote "main"
           (mkFragment [("a.bin", mkFile "a1" 5 false);
                        ("empty.txt", mkFile "e0" 0 false)] None None)
           "empty.txt" (mkFile "e0" 0 false)
           emptyFileInstall emptyFileDiff).
  - split.
    + unfold wfObj. apply (bool_decide_unpack _). vm_compute. exact I.
    + repeat constructor; unfold wfObj; apply (bool_decide_unpack _);
        vm_compute; exact I.
  - vm_compute. reflexivity.
  - apply (bool_decide_unpack _). vm_compute. exact I.
  - reflexivity.
  - reflexivity.
  - reflexivity.
  - intros lf localFile [=].
  - intros packs [=].
  - vm_compute. reflexivity.
  - exact emptyFileDiff_enumerates.
  - intros G e HG He. exfalso.
    destruct (enumerates_entry emptyFileDiff emptyFileInstall G "empty.txt"
                e emptyFileDiff_enumerates He) as (l & Hl & _).
    unfold emptyFileDiff in Hl. cbn [get] in Hl.
    by destruct (String.eqb_spec "main" G).
Defined.

(** *** The deleted files and the hashes that are saved *)






End DeleteFilesFacts.

Module CtlPromiseFacts.
Import CtlPromise.

(** Reduces the operations of the promise on a state given by its
    fields. *)
Ltac red_ops :=
  cbv beta iota zeta delta
    [step resolve reject pause resume cancel resolveTimeout runMicrotask
     fulfillMain callResolvePause callRejectPause callResolveCancel
     callRejectCancel enqueue isSettled isPaused isResumed isCanceled
     isRejected isFulfilled setLock setState setFns setResolveMain
     setPromise setStored setHanded setMicrotasks setTimers
     lock state pauseFn resumeFn cancelFn resolveMain promise
     resolvePause resolveCancel pauseHanded resumeHanded cancelHanded
     microtasks timers PState_eqb settle negb andb orb].

Ltac split_ifs :=
  repeat match goal with
    | |- context [if ?b then _ else _] => destruct b
    | |- context [match ?x with _ => _ end] => destruct x
    end.

(** A pause with a pause handler and a resume handler, as the fetcher
    registers them: the promise is paused, the executor calls
    [resolve(42)] and the timer runs; then [resume()] is called, its
    handler answers and its continuation runs. *)
Definition pausedWithHandlers : list Label :=
  [OnPause; OnResume; CallPause; PauseFnResolve; RunMicrotask].

Definition resolveWhilePaused : list Label := [ExecResolve 42; TimerFire].

Definition resumeWithHandler : list Label :=
  [CallResume; ResumeFnResolve; RunMicrotask].

(** C6, the input at which the code loses the fulfilment: with a resume
    handler registered, a [resolve(42)] requested while paused is
    deferred, the fulfilment is stored in [resolveMain] for the next
    [resume()], as the comment of the resolve closure says, but the
    branch of [resume()] that runs the handler never calls it: after the
    resume has completed the promise is still pending, in the resumed
    state, with nothing left to run. *)
Lemma C6_resume_handler_never_fulfils :
  let c1 := default new (run pausedWithHandlers new) in
  let c2 := default new (run resolveWhilePaused c1) in
  let c3 := default new (run resumeWithHandler c2) in
  run pausedWithHandlers new = Some c1
  /\ state c1 = STATE_PAUSED /\ promise c1 = Pending
  /\ run resolveWhilePaused c1 = Some c2
  /\ state c2 = STATE_PAUSED /\ promise c2 = Pending
  /\ resolveMain c2 = Some 42
  /\ run resumeWithHandler c2 = Some c3
  /\ state c3 = STATE_RESUMED /\ lock c3 = false
  /\ promise c3 = Pending /\ quiescent c3 = true.
Proof. vm_compute. repeat split; reflexivity. Qed.

Lemma settle_fulfilled (p s : Settlement) (v : Value) :
  p = Pending -> settle p s = FulfilledWith v -> s = FulfilledWith v.
Proof. by intros ->. Qed.

(** The only steps that fulfil the promise. *)
Lemma fulfilling_steps (l : Label) (c c' : CP) (v : Value) :
  step l c = Some c' ->
  promise c = Pending -> promise c' = FulfilledWith v ->
  (l = TimerFire /\ isPaused c = false /\ isCanceled c = false
   /\ microtasks c = [] /\ exists rest, timers c = v :: rest)
  \/ (l = CallResume /\ isPaused c = true /\ lock c = false
      /\ resumeFn c = false /\ resolveMain c = Some v).
Proof.
  destruct c as [lk st pf rf cf rm pr rp rc ph rh ch ms ts].
  intros Hstep Hpend. cbn in Hpend. subst pr. revert Hstep.
  destruct l; red_ops.
  all: try (split_ifs; try discriminate; intros [= <-]; red_ops;
            split_ifs; red_ops; congruence).
  - (* CallResume *)
    intros [= <-]. red_ops.
    destruct lk; [congruence|].
    destruct st; try congruence.
    destruct rf; [congruence|].
    destruct rp; destruct rm; try congruence; intros [= ->]; by right.
  - (* TimerFire *)
    destruct ms; [|done]. destruct ts as [|w rest]; [done|].
    intros [= <-]. red_ops.
    destruct st; try congruence; intros [= ->]; left; repeat split;
      by exists rest.
Qed.

(** While no [resume()] is called and none is in progress, a pending
    promise stays paused and is not fulfilled. *)
Definition heldBack (c : CP) : Prop :=
  resumeHanded c = 0
  /\ ~ In ResumeThen (microtasks c)
  /\ (promise c = Pending -> state c = STATE_PAUSED)
  /\ (forall w, promise c <> FulfilledWith w).

Lemma heldBack_intro lk st pf rf cf rm pr rp rc ph ch ms ts :
  ~ In ResumeThen ms ->
  (pr = Pending /\ st = STATE_PAUSED \/ exists r, pr = RejectedWith r) ->
  heldBack (mkCP lk st pf rf cf rm pr rp rc ph 0 ch ms ts).
Proof.
  intros Hms Hpr. unfold heldBack. cbn. repeat split; [done| |].
  - intros ->. destruct Hpr as [[_ ->]|[r [=]]]. done.
  - intros w ->. destruct Hpr as [[[=] _]|[r [=]]].
Qed.

Lemma not_in_snoc (m : Microtask) (ms : list Microtask) :
  m <> ResumeThen -> ~ In ResumeThen ms -> ~ In ResumeThen (ms ++ [m]).
Proof.
  intros Hm Hms Hin. apply in_app_iff in Hin as [Hin|[Hin|[]]]; auto.
Qed.

Lemma heldBack_step (l : Label) (c c' : CP) :
  l <> CallResume -> step l c = Some c' -> heldBack c -> heldBack c'.
Proof.
  intros Hl Hstep (Hrh & Hmt & Hst & Hnf).
  assert (Hcases : promise c = Pending /\ state c = STATE_PAUSED
                   \/ exists r, promise c = RejectedWith r).
  { destruct (promise c) as [|w|r] eqn:Hp; [left; auto| |right; eauto].
    by destruct (Hnf w). }
  clear Hst Hnf.
  destruct c as [lk st pf rf cf rm pr rp rc ph rh ch ms ts].
  cbn in Hrh, Hmt, Hcases. subst rh. revert Hstep.
  assert (Hsnoc := fun m H => not_in_snoc m ms H Hmt).
  assert (Hsnoc2 : forall m1 m2, m1 <> ResumeThen -> m2 <> ResumeThen ->
                     ~ In ResumeThen ((ms ++ [m1]) ++ [m2])).
  { intros. apply not_in_snoc; auto. }
  destruct l; try done; red_ops.
  all: try (intros [= <-]).
  all: try (destruct Hcases as [[-> ->]|[r ->]]; split_ifs;
            apply heldBack_intro;
            first [ done | by apply Hsnoc | by apply Hsnoc2
                  | by left | by right; eexists ]).
  - (* PauseFnResolve *)
    destruct ph; [done|]. intros [= <-]. apply heldBack_intro; [|done].
    by apply Hsnoc.
  - destruct ph; [done|]. intros [= <-]. apply heldBack_intro; [|done].
    by apply Hsnoc.
  - destruct ch; [done|]. intros [= <-]. apply heldBack_intro; [|done].
    by apply Hsnoc.
  - destruct ch; [done|]. intros [= <-]. apply heldBack_intro; [|done].
    by apply Hsnoc.
  - (* RunMicrotask *)
    destruct ms as [|m rest]; [done|]. intros [= <-].
    assert (Hrest : ~ In ResumeThen rest) by (cbn in Hmt; tauto).
    assert (Hm : m <> ResumeThen) by (cbn in Hmt; intros ->; tauto).
    destruct m; try done; red_ops;
      destruct Hcases as [[-> ->]|[r ->]]; split_ifs;
      apply heldBack_intro;
      first [ done | by left | by right; eexists ].
  - (* TimerFire *)
    destruct ms; [|done]. destruct ts as [|w rest]; [done|].
    intros [= <-]. red_ops.
    destruct Hcases as [[-> ->]|[r ->]]; split_ifs;
      apply heldBack_intro;
      first [ done | by left | by right; eexists ].
Qed.

Lemma heldBack_run (trace : list Label) (c c' : CP) :
  ~ In CallResume trace -> run trace c = Some c' ->
  heldBack c -> heldBack c'.
Proof.
  revert c. induction trace as [|l trace IH]; intros c Hno Hrun Hc.
  - by injection Hrun as <-.
  - cbn in Hrun. destruct (step l c) as [c1|] eqn:Hstep; [|done].
    apply (IH c1); [cbn in Hno; tauto|done|].
    apply (heldBack_step l c); [cbn in Hno; intuition congruence|done|done].
Qed.

(** X29: for a paused ControllablePromise, a [resolve(v)] of the
    executor does not fulfil the promise: when its timer runs the
    fulfilment is stored, and as long as [resume()] is not called the
    promise is never fulfilled, whatever else happens; when no resume
    handler is registered, the next [resume()] fulfils the promise with
    [v]. *)
Theorem deferred_until_resume (c : CP) (v : Value) :
  isPaused c = true -> promise c = Pending ->
  microtasks c = [] -> timers c = [] ->
  resolvePause c = false -> resolveCancel c = false ->
  resumeHanded c = 0 ->
  exists c1 c2,
    step (ExecResolve v) c = Some c1
    /\ step TimerFire c1 = Some c2
    /\ promise c1 = Pending
    /\ promise c2 = Pending /\ isPaused c2 = true
    /\ resolveMain c2 = Some v
    /\ (forall trace c',
          ~ In CallResume trace -> run trace c2 = Some c' ->
          forall w, promise c' <> FulfilledWith w)
    /\ (lock c = false -> resumeFn c = false ->
        exists c3, step CallResume c2 = Some c3
                   /\ promise c3 = FulfilledWith v
                   /\ state c3 = STATE_FULFILLED).
Proof.
  intros Hp Hpend Hmt Hts Hrp Hrc Hrh.
  destruct c as [lk st pf rf cf rm pr rp rc ph rh ch ms ts].
  cbn in *. subst.
  destruct st; try discriminate Hp.
  eexists _, _. split; [reflexivity|]. split; [reflexivity|].
  repeat split.
  - intros trace c' Hno Hrun.
    eapply (heldBack_run trace _ c' Hno Hrun).
    unfold heldBack. cbn. repeat split; auto; congruence.
  - intros -> ->. eexists. repeat split.
Qed.

Definition pausedByHandler : list Label :=
  [OnPause; CallPause; PauseFnResolve; RunMicrotask].

Definition pausedPromise : CP :=
  default new (run pausedByHandler new).

Lemma deferred_until_resume_witness :
  exists c1 c2,
    step (ExecResolve 42) pausedPromise = Some c1
    /\ step TimerFire c1 = Some c2
    /\ promise c1 = Pending
    /\ promise c2 = Pending /\ isPaused c2 = true
    /\ resolveMain c2 = Some 42
    /\ (forall trace c',
          ~ In CallResume trace -> run trace c2 = Some c' ->
          forall w, promise c' <> FulfilledWith w)
    /\ (lock pausedPromise = false -> resumeFn pausedPromise = false ->
        exists c3, step CallResume c2 = Some c3
                   /\ promise c3 = FulfilledWith 42
                   /\ state c3 = STATE_FULFILLED).
Proof.
  apply (deferred_until_resume pausedPromise 42); reflexivity.
Defined.

Example resume_without_handler_fulfils :
  (promise <$> run (pausedByHandler ++ resolveWhilePaused ++ [CallResume])
                 new) = Some (FulfilledWith 42).
Proof. reflexivity. Qed.


(** *** Promises without handlers ("atomic" promises) *)

(** X13: a pause of a pending promise whose executor registered no pause
    handler stays in progress, the lock held, until the executor calls
    [resolve(v)]; the promise is then paused, unlocked and still pending;
    the next [resume()] (no resume handler either) fulfils it with [v],
    and once its continuation has run the state is back to resumed, so
    that [isFulfilled] and [isSettled] are false for a fulfilled
    promise. *)
Theorem atomic_pause (c : CP) (v : Value) :
  state c = STATE_RESUMED -> lock c = false ->
  pauseFn c = false -> resumeFn c = false ->
  promise c = Pending -> microtasks c = [] -> timers c = [] ->
  resolveCancel c = false ->
  exists c1 c2 c3,
    step CallPause c = Some c1
    /\ lock c1 = true /\ state c1 = STATE_RESUMED
    /\ microtasks c1 = [] /\ timers c1 = []
    /\ run [ExecResolve v; RunMicrotask; TimerFire] c1 = Some c2
    /\ state c2 = STATE_PAUSED /\ lock c2 = false /\ promise c2 = Pending
    /\ run [CallResume; RunMicrotask] c2 = Some c3
    /\ promise c3 = FulfilledWith v
    /\ state c3 = STATE_RESUMED /\ isSettled c3 = false /\ lock c3 = false.
Proof.
  destruct c as [lk st pf rf cf rm pr rp rc ph rh ch ms ts]. cbn.
  intros -> -> -> -> -> -> -> ->.
  eexists _, _, _. split; [reflexivity|]. vm_compute. repeat split.
Qed.

Lemma atomic_pause_witness :
  exists c1 c2 c3,
    step CallPause new = Some c1
    /\ lock c1 = true /\ state c1 = STATE_RESUMED
    /\ microtasks c1 = [] /\ timers c1 = []
    /\ run [ExecResolve 42; RunMicrotask; TimerFire] c1 = Some c2
    /\ state c2 = STATE_PAUSED /\ lock c2 = false /\ promise c2 = Pending
    /\ run [CallResume; RunMicrotask] c2 = Some c3
    /\ promise c3 = FulfilledWith 42
    /\ state c3 = STATE_RESUMED /\ isSettled c3 = false /\ lock c3 = false.
Proof. apply (atomic_pause new 42); reflexivity. Defined.

(** X14: a cancel of a pending promise whose executor registered no
    cancel handler stays in progress, the lock held, until the executor
    settles: when it calls [resolve(v)] the promise is canceled and
    rejected with the cancel error, never fulfilled with [v]; when it
    calls [reject(e)] the promise is rejected with [e] and the state is
    rejected, not canceled. Either way the lock is released. *)
Theorem atomic_cancel (c : CP) (v : Value) (e : nat) :
  isSettled c = false -> lock c = false -> cancelFn c = false ->
  promise c = Pending -> microtasks c = [] -> timers c = [] ->
  resolvePause c = false ->
  exists c1 c2 c3,
    step CallCancel c = Some c1
    /\ lock c1 = true /\ state c1 = state c /\ promise c1 = Pending
    /\ microtasks c1 = [] /\ timers c1 = []
    /\ run [ExecResolve v; RunMicrotask; TimerFire] c1 = Some c2
    /\ state c2 = STATE_CANCELED /\ promise c2 = RejectedWith CancelError
    /\ lock c2 = false
    /\ run [ExecReject e; RunMicrotask] c1 = Some c3
    /\ state c3 = STATE_REJECTED
    /\ promise c3 = RejectedWith (ExecutorError e)
    /\ lock c3 = false.
Proof.
  destruct c as [lk st pf rf cf rm pr rp rc ph rh ch ms ts]. cbn.
  intros Hst -> -> -> -> -> ->.
  destruct st; try discriminate Hst.
  all: eexists _, _, _; split; [reflexivity|]; vm_compute; repeat split.
Qed.

Lemma atomic_cancel_witness :
  exists c1 c2 c3,
    step CallCancel new = Some c1
    /\ lock c1 = true /\ state c1 = state new /\ promise c1 = Pending
    /\ microtasks c1 = [] /\ timers c1 = []
    /\ run [ExecResolve 42; RunMicrotask; TimerFire] c1 = Some c2
    /\ state c2 = STATE_CANCELED /\ promise c2 = RejectedWith CancelError
    /\ lock c2 = false
    /\ run [ExecReject 7; RunMicrotask] c1 = Some c3
    /\ state c3 = STATE_REJECTED
    /\ promise c3 = RejectedWith (ExecutorError 7)
    /\ lock c3 = false.
Proof. apply (atomic_cancel new 42 7); reflexivity. Defined.

(** *** Settled states *)

(** Case analysis on the fields that a reduced operation tests. *)
Ltac split_fields :=
  repeat (match goal with
          | |- context [if ?b then _ else _] => is_var b; destruct b
          | |- context [match ?x with _ => _ end] => is_var x; destruct x
          end; red_ops).

Lemma settled_step (l : Label) (c c' : CP) :
  step l c = Some c' ->
  (promise c = Pending -> isSettled c = false) ->
  promise c' = Pending -> isSettled c' = false.
Proof.
  intros Hstep.
  assert (Hall : match step l c with
                 | Some c1 =>
                     (promise c = Pending -> isSettled c = false) ->
                     promise c1 = Pending -> isSettled c1 = false
                 | None => True
                 end); [|by rewrite Hstep in Hall].
  clear Hstep c'.
  destruct c as [lk st pf rf cf rm pr rp rc ph rh ch ms ts].
  destruct l; red_ops; split_fields; try exact I;
    intros Hinv; try specialize (Hinv eq_refl); intros;
    first [congruence | auto].
Qed.

Lemma settled_run (trace : list Label) (c0 c : CP) :
  (promise c0 = Pending -> isSettled c0 = false) ->
  run trace c0 = Some c ->
  promise c = Pending -> isSettled c = false.
Proof.
  revert c0. induction trace as [|l trace IH]; intros c0 H0 Hrun.
  - by injection Hrun as <-.
  - cbn in Hrun. destruct (step l c0) as [c1|] eqn:Hstep; [|done].
    apply (IH c1); [|done]. by apply (settled_step l c0).
Qed.

(** X15: whatever the executor, its handlers and the callers do, a
    promise that is still pending never reports itself settled
    (fulfilled, rejected or canceled): [pause()], [resume()] and
    [cancel()] refuse an operation with 'Promise was settled' or 'Promise
    was canceled' only when the promise has been settled. *)
Theorem pending_is_not_settled (trace : list Label) (c : CP) :
  run trace new = Some c -> promise c = Pending -> isSettled c = false.
Proof.
  intros Hrun Hpend.
  exact (settled_run trace new c (fun _ => eq_refl) Hrun Hpend).
Qed.

(** A paused promise on which [cancel()] was called. *)
Definition pausedThenCancel : CP :=
  default new (run (pausedByHandler ++ [CallCancel]) new).

Lemma pending_is_not_settled_witness : isSettled pausedThenCancel = false.
Proof.
  apply (pending_is_not_settled (pausedByHandler ++ [CallCancel])
           pausedThenCancel); vm_compute; reflexivity.
Defined.

End CtlPromiseFacts.

Module D2PFacts.
Import D2P.

Local Open Scope Z_scope.

(** *** Bytes and integers *)

Lemma zOfByte_byteOfZ (z : Z) : zOfByte (byteOfZ z) = z mod 256.
Proof.
  unfold zOfByte, byteOfZ.
  assert (Hr : 0 <= z mod 256 < 256) by (apply Z.mod_pos_bound; lia).
  destruct (Byte.of_N (Z.to_N (z mod 256))) as [b|] eqn:Hb.
  - cbn. apply Byte.to_of_N in Hb. rewrite Hb. lia.
  - apply Byte.of_N_None_iff in Hb. lia.
Qed.

Lemma lengthZ_app {A} (l1 l2 : list A) :
  lengthZ (l1 ++ l2) = lengthZ l1 + lengthZ l2.
Proof. unfold lengthZ. rewrite length_app. lia. Qed.

Lemma lengthZ_nonneg {A} (l : list A) : 0 <= lengthZ l.
Proof. unfold lengthZ. lia. Qed.

Lemma lengthZ_bytesOfInt (w : nat) (v : Z) :
  lengthZ (bytesOfInt w v) = Z.of_nat w.
Proof.
  unfold lengthZ, bytesOfInt.
  by rewrite length_map, length_reverse, length_seq.
Qed.

Lemma bigEndian_bytesOfInt1 (v : Z) :
  0 <= v < 2 ^ 7 -> signed 8 (bigEndian (bytesOfInt 1 v)) = v.
Proof.
  intros Hv. unfold bytesOfInt, bigEndian. cbn [seq reverse rev_append map foldl].
  rewrite !zOfByte_byteOfZ. unfold signed.
  change (2 ^ (8 - 1)) with 128. change (2 ^ 8) with 256.
  change (256 ^ Z.of_nat 0) with 1. change (2 ^ 7) with 128 in Hv.
  rewrite Z.div_1_r.
  rewrite (Z.mod_small v 256) by lia.
  destruct (Z.ltb_spec (0 * 256 + v) 128); lia.
Qed.

Lemma bigEndian_bytesOfInt2 (v : Z) :
  0 <= v < 2 ^ 15 -> signed 16 (bigEndian (bytesOfInt 2 v)) = v.
Proof.
  intros Hv. unfold bytesOfInt, bigEndian. cbn [seq reverse rev_append map foldl].
  rewrite !zOfByte_byteOfZ. unfold signed.
  change (8 * 2) with 16.
  change (2 ^ (16 - 1)) with 32768. change (2 ^ 16) with 65536.
  change (256 ^ Z.of_nat 0) with 1. change (256 ^ Z.of_nat 1) with 256.
  change (2 ^ 15) with 32768 in Hv.
  rewrite Z.div_1_r.
  assert (E : (0 * 256 + (v / 256) mod 256) * 256 + v mod 256 = v).
  { rewrite (Z.mod_small (v / 256) 256).
    - pose proof (Z.div_mod v 256). lia.
    - split; [apply Z.div_pos; lia|]. apply Z.div_lt_upper_bound; lia. }
  rewrite E. destruct (Z.ltb_spec v 32768); lia.
Qed.

Lemma bigEndian_bytesOfInt4 (v : Z) :
  0 <= v < 2 ^ 31 -> signed 32 (bigEndian (bytesOfInt 4 v)) = v.
Proof.
  intros Hv. unfold bytesOfInt, bigEndian. cbn [seq reverse rev_append map foldl].
  rewrite !zOfByte_byteOfZ. unfold signed.
  change (2 ^ (32 - 1)) with 2147483648. change (2 ^ 32) with 4294967296.
  change (256 ^ Z.of_nat 0) with 1. change (256 ^ Z.of_nat 1) with 256.
  change (256 ^ Z.of_nat 2) with 65536.
  change (256 ^ Z.of_nat 3) with 16777216.
  change (2 ^ 31) with 2147483648 in Hv.
  rewrite Z.div_1_r.
  assert (E : (((0 * 256 + (v / 16777216) mod 256) * 256
                + (v / 65536) mod 256) * 256
               + (v / 256) mod 256) * 256 + v mod 256 = v).
  { assert (H3 : v / 16777216 = v / 65536 / 256)
      by (rewrite Z.div_div by lia; reflexivity).
    assert (H2 : v / 65536 = v / 256 / 256)
      by (rewrite Z.div_div by lia; reflexivity).
    rewrite (Z.mod_small (v / 16777216) 256).
    - pose proof (Z.div_mod v 256).
      pose proof (Z.div_mod (v / 256) 256).
      pose proof (Z.div_mod (v / 65536) 256).
      rewrite H3, H2 in *. lia.
    - split; [apply Z.div_pos; lia|]. apply Z.div_lt_upper_bound; lia. }
  rewrite E. destruct (Z.ltb_spec v 2147483648); lia.
Qed.

Lemma writeInt_Some (w : nat) (v : Z) :
  0 <= v < 2 ^ (8 * Z.of_nat w - 1) ->
  writeInt w v = Some (bytesOfInt w v).
Proof.
  intros Hv. unfold writeInt.
  destruct (Z.leb_spec (- 2 ^ (8 * Z.of_nat w - 1)) v) as [_|Hlt].
  - destruct (Z.ltb_spec v (2 ^ (8 * Z.of_nat w - 1))); [done|lia].
  - assert (0 <= 2 ^ (8 * Z.of_nat w - 1)) by (apply Z.pow_nonneg; lia).
    lia.
Qed.

(** *** Reading inside a buffer *)

Lemma sliceTo_frame (pre bs post : Buffer) :
  sliceTo (pre ++ bs ++ post) (lengthZ pre) (lengthZ pre + lengthZ bs) = bs.
Proof.
  unfold sliceTo.
  rewrite !lengthZ_app.
  rewrite Z.min_l by (pose proof (lengthZ_nonneg post); lia).
  replace (lengthZ pre + lengthZ bs - lengthZ pre) with (lengthZ bs) by lia.
  unfold lengthZ. rewrite !Nat2Z.id.
  rewrite drop_app_length. by rewrite take_app_length.
Qed.

Lemma bytesAt_frame (pre bs post : Buffer) :
  bytesAt (pre ++ bs ++ post) (lengthZ pre) (lengthZ bs) = Some bs.
Proof.
  unfold bytesAt. rewrite sliceTo_frame.
  rewrite !lengthZ_app.
  pose proof (lengthZ_nonneg pre). pose proof (lengthZ_nonneg post).
  destruct (Z.leb_spec 0 (lengthZ pre)); [|lia].
  destruct (Z.leb_spec (lengthZ pre + lengthZ bs)
              (lengthZ pre + (lengthZ bs + lengthZ post))); [done|lia].
Qed.

Lemma setReadOffset_ok (buffer : Buffer) (offset : Z) :
  0 <= offset <= lengthZ buffer -> setReadOffset buffer offset = Some offset.
Proof.
  intros H. unfold setReadOffset.
  destruct (Z.leb_spec 0 offset); [|lia].
  destruct (Z.leb_spec offset (lengthZ buffer)); [done|lia].
Qed.

Lemma readInt32BE_frame (pre post : Buffer) (v : Z) :
  0 <= v < 2 ^ 31 ->
  readInt32BE (pre ++ bytesOfInt 4 v ++ post) (lengthZ pre)
  = Some (v, lengthZ pre + 4).
Proof.
  intros Hv. unfold readInt32BE, readInt.
  pose proof (bytesAt_frame pre (bytesOfInt 4 v) post) as H.
  rewrite (lengthZ_bytesOfInt 4) in H. change (Z.of_nat 4) with 4 in H.
  rewrite H. cbv [mbind option_bind]. change (8 * 4) with 32.
  by rewrite bigEndian_bytesOfInt4.
Qed.

Lemma readInt16BE_frame (pre post : Buffer) (v : Z) :
  0 <= v < 2 ^ 15 ->
  readInt16BE (pre ++ bytesOfInt 2 v ++ post) (lengthZ pre)
  = Some (v, lengthZ pre + 2).
Proof.
  intros Hv. unfold readInt16BE, readInt.
  pose proof (bytesAt_frame pre (bytesOfInt 2 v) post) as H.
  rewrite (lengthZ_bytesOfInt 2) in H. change (Z.of_nat 2) with 2 in H.
  rewrite H. cbv [mbind option_bind]. change (8 * 2) with 16.
  by rewrite bigEndian_bytesOfInt2.
Qed.

Section Codec.
Variable utf8Decode : Buffer -> JsString.
Variable utf8Encode : JsString -> Buffer.

Local Abbreviation readUTF := (readUTF utf8Decode).
Local Abbreviation readProperties := (readProperties utf8Decode).
Local Abbreviation readIndexes := (readIndexes utf8Decode).
Local Abbreviation writeUTF := (writeUTF utf8Encode).

Lemma lengthZ_utfBytes (s : Buffer) : lengthZ (utfBytes s) = 2 + lengthZ s.
Proof.
  unfold utfBytes. rewrite lengthZ_app, (lengthZ_bytesOfInt 2). lia.
Qed.

Lemma readUTF_frame (pre post s : Buffer) :
  lengthZ s < 2 ^ 15 ->
  readUTF (pre ++ utfBytes s ++ post) (lengthZ pre)
  = Some (utf8Decode s, lengthZ pre + lengthZ (utfBytes s)).
Proof.
  intros Hs. unfold D2P.readUTF, utfBytes.
  rewrite <- (app_assoc (bytesOfInt 2 (lengthZ s))).
  rewrite readInt16BE_frame by (pose proof (lengthZ_nonneg s); lia).
  cbv [mbind option_bind].
  assert (Hbuf : pre ++ bytesOfInt 2 (lengthZ s) ++ s ++ post
                 = (pre ++ bytesOfInt 2 (lengthZ s)) ++ s ++ post)
    by (by rewrite <- app_assoc).
  assert (Hoff : lengthZ pre + 2
                 = lengthZ (pre ++ bytesOfInt 2 (lengthZ s)))
    by (rewrite lengthZ_app, (lengthZ_bytesOfInt 2); lia).
  rewrite Hbuf, Hoff, sliceTo_frame.
  rewrite setReadOffset_ok.
  - do 2 f_equal. rewrite !lengthZ_app, (lengthZ_bytesOfInt 2). lia.
  - rewrite !lengthZ_app.
    pose proof (lengthZ_nonneg pre). pose proof (lengthZ_nonneg s).
    pose proof (lengthZ_nonneg post).
    pose proof (lengthZ_nonneg (bytesOfInt 2 (lengthZ s))). lia.
Qed.

(** Reading at the end of a known prefix. *)
Lemma readUTF_at (buffer pre post s : Buffer) (offset : Z) :
  buffer = pre ++ utfBytes s ++ post -> offset = lengthZ pre ->
  lengthZ s < 2 ^ 15 ->
  readUTF buffer offset
  = Some (utf8Decode s, lengthZ (pre ++ utfBytes s)).
Proof.
  intros -> -> Hs. rewrite readUTF_frame by done.
  by rewrite lengthZ_app.
Qed.

Lemma readInt32BE_at (buffer pre post : Buffer) (offset v : Z) :
  buffer = pre ++ bytesOfInt 4 v ++ post -> offset = lengthZ pre ->
  0 <= v < 2 ^ 31 ->
  readInt32BE buffer offset = Some (v, lengthZ (pre ++ bytesOfInt 4 v)).
Proof.
  intros -> -> Hv. rewrite readInt32BE_frame by done.
  by rewrite lengthZ_app, (lengthZ_bytesOfInt 4).
Qed.

Definition decodeProperty (kv : Buffer * Buffer) : Property :=
  mkProperty (utf8Decode (fst kv)) (utf8Decode (snd kv)).

Definition shortStrings (kv : Buffer * Buffer) : Prop :=
  lengthZ (fst kv) < 2 ^ 15 /\ lengthZ (snd kv) < 2 ^ 15.

Lemma readProperties_frame (ps : list (Buffer * Buffer))
    (pre post : Buffer) :
  Forall shortStrings ps ->
  readProperties (length ps) (pre ++ propertyRecords ps ++ post)
    (lengthZ pre)
  = Some (map decodeProperty ps, lengthZ (pre ++ propertyRecords ps)).
Proof.
  revert pre. induction ps as [|[k v] ps IH]; intros pre Hps.
  - cbn. by rewrite app_nil_r.
  - apply Forall_cons in Hps as [[Hk Hv] Hps]. cbn [fst snd] in Hk, Hv.
    cbn [length D2P.readProperties].
    unfold propertyRecords. cbn [map concat fst snd].
    fold (propertyRecords ps).
    rewrite (readUTF_at _ pre
               (utfBytes v ++ propertyRecords ps ++ post) k);
      [|by rewrite <- !app_assoc|done|done].
    cbv [mbind option_bind].
    rewrite (readUTF_at _ (pre ++ utfBytes k)
               (propertyRecords ps ++ post) v);
      [|by rewrite <- !app_assoc|done|done].
    cbv [mbind option_bind].
    specialize (IH ((pre ++ utfBytes k) ++ utfBytes v) Hps).
    replace (pre ++ ((utfBytes k ++ utfBytes v) ++ propertyRecords ps)
               ++ post)
      with (((pre ++ utfBytes k) ++ utfBytes v)
              ++ propertyRecords ps ++ post)
      by (by rewrite <- !app_assoc).
    rewrite IH. do 3 f_equal. by rewrite <- !app_assoc.
Qed.

(** The index records as [extract] reads them. *)
Fixpoint indexList (dataOffset offset : Z) (fs : list (Buffer * Buffer))
  : list (JsString * FileInfo) :=
  match fs with
  | [] => []
  | (name, body) :: rest =>
      (utf8Decode name, mkFileInfo (offset + dataOffset) (lengthZ body))
        :: indexList dataOffset (offset + lengthZ body) rest
  end.

Lemma lengthZ_dataOf_cons (name body : Buffer) (fs : list (Buffer * Buffer)) :
  lengthZ (dataOf ((name, body) :: fs)) = lengthZ body + lengthZ (dataOf fs).
Proof. unfold dataOf. cbn. by rewrite lengthZ_app. Qed.

Lemma readIndexes_frame (fs : list (Buffer * Buffer)) (dataOffset offset : Z)
    (pre post : Buffer) :
  Forall (fun f : Buffer * Buffer => lengthZ (fst f) < 2 ^ 15) fs ->
  0 <= offset -> offset + lengthZ (dataOf fs) < 2 ^ 31 ->
  readIndexes (length fs) dataOffset
    (pre ++ indexRecords offset fs ++ post) (lengthZ pre)
  = Some (indexList dataOffset offset fs,
          lengthZ (pre ++ indexRecords offset fs)).
Proof.
  revert offset pre.
  induction fs as [|[name body] fs IH]; intros offset pre Hfs Hoff Hmax.
  - cbn. by rewrite app_nil_r.
  - apply Forall_cons in Hfs as [Hname Hfs]. cbn [fst] in Hname.
    rewrite lengthZ_dataOf_cons in Hmax.
    pose proof (lengthZ_nonneg body) as Hb.
    pose proof (lengthZ_nonneg (dataOf fs)) as Hd.
    cbn [length D2P.readIndexes indexRecords indexList].
    rewrite (readUTF_at _ pre
               (bytesOfInt 4 offset ++ bytesOfInt 4 (lengthZ body)
                  ++ indexRecords (offset + lengthZ body) fs ++ post)
               name); [|by rewrite <- !app_assoc|done|done].
    cbv [mbind option_bind].
    rewrite (readInt32BE_at _ (pre ++ utfBytes name)
               (bytesOfInt 4 (lengthZ body)
                  ++ indexRecords (offset + lengthZ body) fs ++ post)
               _ offset); [|by rewrite <- !app_assoc|done|lia].
    cbv [mbind option_bind].
    rewrite (readInt32BE_at _ ((pre ++ utfBytes name) ++ bytesOfInt 4 offset)
               (indexRecords (offset + lengthZ body) fs ++ post)
               _ (lengthZ body)); [|by rewrite <- !app_assoc|done|lia].
    cbv [mbind option_bind].
    specialize (IH (offset + lengthZ body)
                  (((pre ++ utfBytes name) ++ bytesOfInt 4 offset)
                     ++ bytesOfInt 4 (lengthZ body))
                  Hfs ltac:(lia) ltac:(lia)).
    replace (pre ++ (utfBytes name ++ bytesOfInt 4 offset
                       ++ bytesOfInt 4 (lengthZ body)
                       ++ indexRecords (offset + lengthZ body) fs)
               ++ post)
      with ((((pre ++ utfBytes name) ++ bytesOfInt 4 offset)
               ++ bytesOfInt 4 (lengthZ body))
              ++ indexRecords (offset + lengthZ body) fs ++ post)
      by (by rewrite <- !app_assoc).
    rewrite IH. do 3 f_equal. by rewrite <- !app_assoc.
Qed.

(** *** The index map and the file bodies *)

Lemma mapSet_fresh {V} (k : JsString) (v : V) (m : list (JsString * V)) :
  k ∉ map fst m -> mapSet k v m = m ++ [(k, v)].
Proof.
  induction m as [|[k' v'] m IH]; cbn; [done|].
  intros Hk. apply not_elem_of_cons in Hk as [Hne Hk].
  rewrite bool_decide_eq_false_2 by congruence. by rewrite IH.
Qed.

Lemma foldl_mapSet {V} (records acc : list (JsString * V)) :
  NoDup (map fst (acc ++ records)) ->
  foldl (fun m '(filename, info) => mapSet filename info m) acc records
  = acc ++ records.
Proof.
  revert acc. induction records as [|[k v] records IH]; intros acc Hnd.
  - by rewrite app_nil_r.
  - cbn [foldl]. rewrite mapSet_fresh.
    + rewrite IH; [by rewrite <- app_assoc|].
      by rewrite <- app_assoc.
    + rewrite map_app in Hnd. apply NoDup_app in Hnd as (_ & Hdisj & _).
      intros Hin. apply (Hdisj k Hin). by left.
Qed.

Definition decodedNames (fs : list (Buffer * Buffer)) : list JsString :=
  map (fun f => utf8Decode (fst f)) fs.

Lemma indexList_names (dataOffset offset : Z) (fs : list (Buffer * Buffer)) :
  map fst (indexList dataOffset offset fs) = decodedNames fs.
Proof.
  revert offset. induction fs as [|[name body] fs IH]; intros offset; [done|].
  cbn. by rewrite IH.
Qed.

Definition insertBody (m : gmap JsString Buffer) (f : Buffer * Buffer)
  : gmap JsString Buffer :=
  <[utf8Decode (fst f) := snd f]> m.

Lemma readFiles_frame (fs : list (Buffer * Buffer)) (dataOffset offset : Z)
    (pre post : Buffer) (acc : gmap JsString Buffer) :
  lengthZ pre = offset + dataOffset ->
  readFiles (pre ++ dataOf fs ++ post) (indexList dataOffset offset fs) acc
  = Some (foldl insertBody acc fs).
Proof.
  revert offset pre acc.
  induction fs as [|[name body] fs IH]; intros offset pre acc Hpre; [done|].
  cbn [indexList readFiles fileOffset fileSize].
  pose proof (lengthZ_nonneg pre). pose proof (lengthZ_nonneg body).
  pose proof (lengthZ_nonneg (dataOf fs)). pose proof (lengthZ_nonneg post).
  assert (Hbuf : pre ++ dataOf ((name, body) :: fs) ++ post
                 = pre ++ body ++ dataOf fs ++ post).
  { unfold dataOf. cbn. by rewrite <- app_assoc. }
  rewrite Hbuf.
  rewrite setReadOffset_ok by (rewrite !lengthZ_app; lia).
  cbv [mbind option_bind].
  rewrite <- Hpre, sliceTo_frame.
  specialize (IH (offset + lengthZ body) (pre ++ body)
                (<[utf8Decode name := body]> acc)).
  replace (pre ++ body ++ dataOf fs ++ post)
    with ((pre ++ body) ++ dataOf fs ++ post) by (by rewrite <- app_assoc).
  rewrite IH; [done|]. rewrite lengthZ_app. lia.
Qed.

Lemma insertBody_notin (fs : list (Buffer * Buffer))
    (acc : gmap JsString Buffer) (k : JsString) :
  k ∉ decodedNames fs -> foldl insertBody acc fs !! k = acc !! k.
Proof.
  revert acc. induction fs as [|f fs IH]; intros acc Hk; [done|].
  cbn in Hk. apply not_elem_of_cons in Hk as [Hne Hk].
  cbn [foldl]. rewrite IH by done. unfold insertBody.
  by rewrite lookup_insert_ne.
Qed.

Lemma insertBody_lookup (fs : list (Buffer * Buffer))
    (acc : gmap JsString Buffer) (name body : Buffer) :
  NoDup (decodedNames fs) -> In (name, body) fs ->
  foldl insertBody acc fs !! utf8Decode name = Some body.
Proof.
  revert acc. induction fs as [|f fs IH]; intros acc Hnd Hin; [done|].
  cbn in Hnd. apply NoDup_cons in Hnd as [Hf Hnd].
  cbn [foldl]. destruct Hin as [->|Hin].
  - rewrite insertBody_notin by done. unfold insertBody. cbn.
    by rewrite lookup_insert_eq.
  - by apply IH.
Qed.

Definition notReserved (f : Buffer * Buffer) : Prop :=
  utf8Decode (fst f) <> str_meta /\ utf8Decode (fst f) <> str_indexes.

Lemma entriesOf_layout (fs : list (Buffer * Buffer)) (m : Meta)
    (ix : list (JsString * FileInfo)) :
  NoDup (decodedNames fs) -> Forall notReserved fs ->
  files m = decodedNames fs ->
  entriesOf (mkArchives (foldl insertBody ∅ fs) m ix)
  = map (fun f => (utf8Decode (fst f), BufferValue (snd f))) fs.
Proof.
  intros Hnd Hres Hfiles. unfold entriesOf. cbn [meta].
  rewrite Hfiles. unfold decodedNames. rewrite map_map.
  apply map_ext_in. intros [name body] Hin. cbn [fst snd].
  unfold getProperty. cbn [fileBuffers].
  rewrite Forall_forall in Hres.
  destruct (Hres (name, body)) as [Hm Hi]; [by apply list_elem_of_In|].
  cbn [fst] in Hm, Hi.
  rewrite !bool_decide_eq_false_2 by done.
  by rewrite (insertBody_lookup fs ∅ name body Hnd Hin).
Qed.

(** *** Building *)

Definition nameRoundTrips (f : Buffer * Buffer) : Prop :=
  lengthZ (fst f) < 2 ^ 15
  /\ utf8Encode (replaceBackslashes (utf8Decode (fst f))) = fst f.

Definition propertyRoundTrips (kv : Buffer * Buffer) : Prop :=
  shortStrings kv
  /\ utf8Encode (utf8Decode (fst kv)) = fst kv
  /\ utf8Encode (utf8Decode (snd kv)) = snd kv.

Lemma writeUTF_encoded (str : JsString) (s : Buffer) :
  utf8Encode str = s -> lengthZ s < 2 ^ 15 ->
  writeUTF str = Some (utfBytes s).
Proof.
  intros Hs Hlen. unfold D2P.writeUTF, writeInt16BE. rewrite Hs.
  rewrite writeInt_Some; [done|].
  pose proof (lengthZ_nonneg s). change (2 ^ (8 * Z.of_nat 2 - 1)) with (2 ^ 15).
  lia.
Qed.

Lemma writeInt32BE_Some (v : Z) :
  0 <= v < 2 ^ 31 -> writeInt32BE v = Some (bytesOfInt 4 v).
Proof. intros Hv. by apply writeInt_Some. Qed.

Definition builtEntries (fs : list (Buffer * Buffer))
  : list (JsString * ArchValue) :=
  map (fun f => (utf8Decode (fst f), BufferValue (snd f))) fs.

Lemma build_fold (fs : list (Buffer * Buffer)) (ib fb : Buffer)
    (off c : Z) :
  Forall nameRoundTrips fs ->
  0 <= off -> off + lengthZ (dataOf fs) < 2 ^ 31 ->
  foldl (fun st current => st ≫= fun st => buildStep utf8Encode st current)
    (Some (ib, 2 + off, c, fb)) (builtEntries fs)
  = Some (ib ++ indexRecords off fs, 2 + off + lengthZ (dataOf fs),
          c + lengthZ fs, fb ++ dataOf fs).
Proof.
  revert ib fb off c.
  induction fs as [|[name body] fs IH]; intros ib fb off c Hfs Hoff Hmax.
  - cbn. rewrite !app_nil_r. change (lengthZ []) with 0.
    by rewrite !Z.add_0_r.
  - apply Forall_cons in Hfs as [[Hlen Hname] Hfs]. cbn [fst] in Hlen, Hname.
    rewrite lengthZ_dataOf_cons in Hmax.
    pose proof (lengthZ_nonneg body). pose proof (lengthZ_nonneg (dataOf fs)).
    cbn [builtEntries map foldl fst snd]. fold (builtEntries fs).
    cbn [mbind option_bind]. unfold buildStep at 2. cbn [fst snd].
    rewrite (writeUTF_encoded _ name Hname Hlen).
    cbv [mbind option_bind].
    replace (2 + off - 2) with off by lia.
    rewrite !writeInt32BE_Some by lia.
    replace (2 + off + lengthZ body) with (2 + (off + lengthZ body)) by lia.
    rewrite IH by (done || lia).
    rewrite lengthZ_dataOf_cons. cbn [indexRecords].
    rewrite <- !app_assoc.
    replace (dataOf ((name, body) :: fs)) with (body ++ dataOf fs) by done.
    replace (lengthZ ((name, body) :: fs)) with (1 + lengthZ fs)
      by (unfold lengthZ; cbn [length]; lia).
    do 2 f_equal. f_equal; [f_equal|]; lia.
Qed.

Lemma writeProperty_decoded (kv : Buffer * Buffer) :
  propertyRoundTrips kv ->
  writeProperty utf8Encode (decodeProperty kv)
  = Some (utfBytes (fst kv) ++ utfBytes (snd kv)).
Proof.
  destruct kv as [k v]. intros [[Hk Hv] [Hek Hev]]. cbn [fst snd] in *.
  unfold writeProperty, decodeProperty. cbn [key value fst snd].
  by rewrite (writeUTF_encoded _ k Hek Hk), (writeUTF_encoded _ v Hev Hv).
Qed.

Lemma writeProperties (ps : list (Buffer * Buffer)) :
  Forall propertyRoundTrips ps ->
  mapM (writeProperty utf8Encode) (map decodeProperty ps)
  = Some (map (fun kv => utfBytes (fst kv) ++ utfBytes (snd kv)) ps).
Proof.
  induction ps as [|[k v] ps IH]; intros Hps; [done|].
  apply Forall_cons in Hps as [Hkv Hps].
  cbn [map mapM]. rewrite (writeProperty_decoded _ Hkv).
  cbn [mbind option_bind]. rewrite IH by done. done.
Qed.

(** *** Extracting a laid out archive *)

Lemma lengthZ_le_indexRecords (offset : Z) (fs : list (Buffer * Buffer)) :
  lengthZ fs <= lengthZ (indexRecords offset fs).
Proof.
  revert offset. induction fs as [|[name body] fs IH]; intros offset.
  - done.
  - cbn [indexRecords]. rewrite !lengthZ_app, lengthZ_utfBytes,
      !(lengthZ_bytesOfInt 4).
    specialize (IH (offset + lengthZ body)).
    pose proof (lengthZ_nonneg name).
    unfold lengthZ in *. cbn [length]. lia.
Qed.

Lemma lengthZ_le_propertyRecords (ps : list (Buffer * Buffer)) :
  lengthZ ps <= lengthZ (propertyRecords ps).
Proof.
  induction ps as [|[k v] ps IH]; [done|].
  unfold propertyRecords. cbn [map concat fst snd]. fold (propertyRecords ps).
  rewrite !lengthZ_app, !lengthZ_utfBytes.
  pose proof (lengthZ_nonneg k). pose proof (lengthZ_nonneg v).
  unfold lengthZ in *. cbn [length]. lia.
Qed.

Lemma lengthZ_trailer (fs ps : list (Buffer * Buffer)) :
  lengthZ (trailer fs ps) = 24.
Proof.
  unfold trailer. by rewrite !lengthZ_app, !(lengthZ_bytesOfInt 4).
Qed.

Lemma lengthZ_layout (fs ps : list (Buffer * Buffer)) :
  lengthZ (layout fs ps)
  = 2 + lengthZ (dataOf fs) + lengthZ (indexRecords 0 fs)
    + lengthZ (propertyRecords ps) + 24.
Proof.
  unfold layout. rewrite !lengthZ_app, lengthZ_trailer.
  change (lengthZ [Byte.x02; Byte.x01]) with 2. lia.
Qed.

Lemma parse_layout (fs ps : list (Buffer * Buffer)) :
  lengthZ (layout fs ps) < 2 ^ 31 ->
  Forall (fun f : Buffer * Buffer => lengthZ (fst f) < 2 ^ 15) fs ->
  Forall shortStrings ps ->
  NoDup (decodedNames fs) ->
  parse utf8Decode (layout fs ps)
  = Some (mkArchives (foldl insertBody ∅ fs)
            (mkMeta (map decodeProperty ps) (decodedNames fs))
            (indexList 2 0 fs)).
Proof.
  intros Hlen Hfs Hps Hnd.
  pose proof (lengthZ_layout fs ps) as Hl. rewrite Hl in Hlen.
  pose proof (lengthZ_nonneg (dataOf fs)) as Hd.
  pose proof (lengthZ_nonneg (indexRecords 0 fs)) as Hi.
  pose proof (lengthZ_nonneg (propertyRecords ps)) as Hp.
  pose proof (lengthZ_le_indexRecords 0 fs) as Hfi.
  pose proof (lengthZ_le_propertyRecords ps) as Hpp.
  pose proof (lengthZ_nonneg fs) as Hf0.
  pose proof (lengthZ_nonneg ps) as Hp0.
  set (hdr := [Byte.x02; Byte.x01]).
  set (data := dataOf fs) in *. set (idx := indexRecords 0 fs) in *.
  set (prp := propertyRecords ps) in *.
  set (t1 := bytesOfInt 4 2). set (t2 := bytesOfInt 4 (lengthZ data)).
  set (t3 := bytesOfInt 4 (2 + lengthZ data)).
  set (t4 := bytesOfInt 4 (lengthZ fs)).
  set (t5 := bytesOfInt 4 (2 + lengthZ data + lengthZ idx)).
  set (t6 := bytesOfInt 4 (lengthZ ps)).
  assert (Hx : layout fs ps
               = hdr ++ data ++ idx ++ prp ++ t1 ++ t2 ++ t3 ++ t4 ++ t5 ++ t6).
  { unfold layout, trailer. by rewrite <- ?app_assoc. }
  set (body := hdr ++ data ++ idx ++ prp).
  assert (Hbody : lengthZ body
                  = 2 + lengthZ data + lengthZ idx + lengthZ prp).
  { unfold body. rewrite !lengthZ_app. change (lengthZ hdr) with 2. lia. }
  unfold parse. rewrite Hl.
  fold data idx prp.
  replace (2 + lengthZ data + lengthZ idx + lengthZ prp + 24 - 24)
    with (lengthZ body) by lia.
  rewrite setReadOffset_ok.
  2:{ rewrite Hx. fold body. replace (hdr ++ data ++ idx ++ prp ++ t1 ++ t2 ++ t3 ++ t4 ++ t5 ++ t6) with (body ++ t1 ++ t2 ++ t3 ++ t4 ++ t5 ++ t6) by (unfold body; by rewrite <- ?app_assoc).
      rewrite lengthZ_app. pose proof (lengthZ_nonneg body).
      pose proof (lengthZ_nonneg (t1 ++ t2 ++ t3 ++ t4 ++ t5 ++ t6)). lia. }
  cbv [mbind option_bind].
  rewrite (readInt32BE_at (layout fs ps) body
             (t2 ++ t3 ++ t4 ++ t5 ++ t6) _ 2);
    [|rewrite Hx; unfold body; by rewrite <- ?app_assoc|done|lia].
  rewrite (readInt32BE_at (layout fs ps) (body ++ t1)
             (t3 ++ t4 ++ t5 ++ t6) _ (lengthZ data));
    [|rewrite Hx; unfold body; by rewrite <- ?app_assoc|done|lia].
  rewrite (readInt32BE_at (layout fs ps) ((body ++ t1) ++ t2)
             (t4 ++ t5 ++ t6) _ (2 + lengthZ data));
    [|rewrite Hx; unfold body; by rewrite <- ?app_assoc|done|lia].
  rewrite (readInt32BE_at (layout fs ps) (((body ++ t1) ++ t2) ++ t3)
             (t5 ++ t6) _ (lengthZ fs));
    [|rewrite Hx; unfold body; by rewrite <- ?app_assoc|done|lia].
  rewrite (readInt32BE_at (layout fs ps)
             ((((body ++ t1) ++ t2) ++ t3) ++ t4)
             t6 _ (2 + lengthZ data + lengthZ idx));
    [|rewrite Hx; unfold body; by rewrite <- ?app_assoc|done|lia].
  rewrite (readInt32BE_at (layout fs ps)
             (((((body ++ t1) ++ t2) ++ t3) ++ t4) ++ t5)
             [] _ (lengthZ ps));
    [|rewrite Hx; unfold body; rewrite app_nil_r; by rewrite <- ?app_assoc
     |done|lia].
  (* the properties *)
  rewrite setReadOffset_ok by (rewrite Hl; fold data idx prp; lia).
  unfold lengthZ at 1. rewrite Nat2Z.id.
  replace (2 + lengthZ data + lengthZ idx)
    with (lengthZ (hdr ++ data ++ idx))
    by (rewrite !lengthZ_app; change (lengthZ hdr) with 2; lia).
  replace (layout fs ps)
    with ((hdr ++ data ++ idx) ++ propertyRecords ps
            ++ t1 ++ t2 ++ t3 ++ t4 ++ t5 ++ t6) at 1
    by (rewrite Hx; unfold prp; by rewrite <- ?app_assoc).
  rewrite readProperties_frame by done.
  (* the index *)
  rewrite setReadOffset_ok by (rewrite Hl; fold data idx prp; lia).
  unfold lengthZ at 1. rewrite Nat2Z.id.
  replace (2 + lengthZ data) with (lengthZ (hdr ++ data))
    by (rewrite !lengthZ_app; change (lengthZ hdr) with 2; lia).
  replace (layout fs ps)
    with ((hdr ++ data) ++ indexRecords 0 fs
            ++ prp ++ t1 ++ t2 ++ t3 ++ t4 ++ t5 ++ t6) at 1
    by (rewrite Hx; unfold idx; by rewrite <- ?app_assoc).
  rewrite readIndexes_frame; [|done|lia|fold data; lia].
  rewrite (foldl_mapSet (indexList _ 0 fs) [])
    by (cbn [app]; by rewrite indexList_names).
  cbn [app].
  replace (layout fs ps)
    with (hdr ++ dataOf fs ++ idx ++ prp ++ t1 ++ t2 ++ t3 ++ t4 ++ t5 ++ t6)
    by (rewrite Hx; by unfold data).
  rewrite readFiles_frame by done.
  by rewrite indexList_names.
Qed.

Lemma version_read (rest : Buffer) :
  readInt8 (Byte.x02 :: Byte.x01 :: rest) 0 = Some (2, 1)
  /\ readInt8 (Byte.x02 :: Byte.x01 :: rest) 1 = Some (1, 2).
Proof.
  assert (H0 : bytesAt (Byte.x02 :: Byte.x01 :: rest) 0 1
               = Some [Byte.x02])
    by exact (bytesAt_frame [] [Byte.x02] (Byte.x01 :: rest)).
  assert (H1 : bytesAt (Byte.x02 :: Byte.x01 :: rest) 1 1
               = Some [Byte.x01])
    by exact (bytesAt_frame [Byte.x02] [Byte.x01] rest).
  unfold readInt8, readInt. by rewrite H0, H1.
Qed.

Lemma extract_layout (fs ps : list (Buffer * Buffer)) :
  lengthZ (layout fs ps) < 2 ^ 31 ->
  Forall (fun f : Buffer * Buffer => lengthZ (fst f) < 2 ^ 15) fs ->
  Forall shortStrings ps ->
  NoDup (decodedNames fs) ->
  extract utf8Decode (Some (layout fs ps))
  = inr (mkArchives (foldl insertBody ∅ fs)
           (mkMeta (map decodeProperty ps) (decodedNames fs))
           (indexList 2 0 fs)).
Proof.
  intros Hlen Hfs Hps Hnd. unfold extract.
  rewrite parse_layout by done.
  destruct (version_read (dataOf fs ++ indexRecords 0 fs
                            ++ propertyRecords ps ++ trailer fs ps))
    as [H0 H1].
  change (Byte.x02 :: Byte.x01 :: ?r) with (layout fs ps) in H0, H1.
  by rewrite H0, H1.
Qed.

Lemma build_layout (fs ps : list (Buffer * Buffer)) :
  lengthZ (layout fs ps) < 2 ^ 31 ->
  Forall nameRoundTrips fs ->
  Forall propertyRoundTrips ps ->
  build utf8Encode (builtEntries fs)
    (mkMeta (map decodeProperty ps) (decodedNames fs))
  = Some (layout fs ps).
Proof.
  intros Hlen Hfs Hps.
  rewrite lengthZ_layout in Hlen.
  pose proof (lengthZ_nonneg (dataOf fs)) as Hd.
  pose proof (lengthZ_nonneg (indexRecords 0 fs)) as Hi.
  pose proof (lengthZ_nonneg (propertyRecords ps)) as Hp.
  pose proof (lengthZ_le_indexRecords 0 fs) as Hfi.
  pose proof (lengthZ_le_propertyRecords ps) as Hpp.
  pose proof (lengthZ_nonneg fs) as Hf0.
  pose proof (lengthZ_nonneg ps) as Hp0.
  unfold build. cbn [properties].
  change (writeInt8 2) with (Some [Byte.x02]).
  change (writeInt8 1) with (Some [Byte.x01]).
  change (Some ([], 2, 0, [])) with (Some (@nil byte, 2 + 0, 0, @nil byte)).
  rewrite build_fold by (done || lia).
  rewrite writeProperties by done.
  cbn [mbind option_bind app]. cbv beta iota zeta.
  rewrite Z.add_0_l.
  assert (Hmap : lengthZ (map decodeProperty ps) = lengthZ ps)
    by (unfold lengthZ; by rewrite length_map).
  rewrite Hmap.
  rewrite !writeInt32BE_Some by lia.
  done.
Qed.

End Codec.

(** ** C8: building after extracting *)

(** The archive with the single file [a\b], of one byte. *)
Definition backslashArchive : Buffer :=
  layout [([Byte.x61; Byte.x5c; Byte.x62], [Byte.x2a])] [].

(** C8, a valid archive that is not rebuilt: the archive with the single
    file [a\b] of one byte, read with the ASCII codec, is extracted, and
    building from the extracted entries writes the name [a/b], so the
    bytes differ from the archive. *)
Lemma C8_backslash_name_not_rebuilt :
  (exists arch,
      extract asciiDecode (Some backslashArchive) = inr arch
      /\ files (meta arch) = [[97; 92; 98]%N]
      /\ fileBuffers arch !! [97; 92; 98]%N = Some [Byte.x2a])
  /\ rebuild asciiDecode asciiEncode (Some backslashArchive)
     = Some (layout [([Byte.x61; Byte.x2f; Byte.x62], [Byte.x2a])] [])
  /\ rebuild asciiDecode asciiEncode (Some backslashArchive)
     <> Some backslashArchive.
Proof.
  split; [|split].
  - eexists. split; [vm_compute; reflexivity|]. split; vm_compute; reflexivity.
  - vm_compute. reflexivity.
  - vm_compute. discriminate.
Qed.

(** C8: an archive laid out as the format describes (header 2.1, the file
    bodies in the order of the index records, the index, the properties,
    the trailer), shorter than 2^31 bytes, whose strings are shorter than
    2^15 bytes and are encoded back to their own bytes (for a file name:
    after the replacement of its backslashes), and whose file names are
    distinct and are not [meta] or [indexes], is extracted, and building
    from the extracted entries and meta gives the same bytes. *)
Theorem C8_build_after_extract
    (utf8Decode : Buffer -> JsString) (utf8Encode : JsString -> Buffer)
    (fs ps : list (Buffer * Buffer)) :
  lengthZ (layout fs ps) < 2 ^ 31 ->
  Forall (nameRoundTrips utf8Decode utf8Encode) fs ->
  Forall (propertyRoundTrips utf8Decode utf8Encode) ps ->
  NoDup (decodedNames utf8Decode fs) ->
  Forall (notReserved utf8Decode) fs ->
  rebuild utf8Decode utf8Encode (Some (layout fs ps))
  = Some (layout fs ps).
Proof.
  intros Hlen Hfs Hps Hnd Hres. unfold rebuild.
  rewrite extract_layout; [|done| | |done].
  - rewrite entriesOf_layout by done. cbn [meta].
    by apply build_layout.
  - eapply Forall_impl; [exact Hfs|]. by intros f [H _].
  - eapply Forall_impl; [exact Hps|]. by intros kv [H _].
Qed.

Definition exampleFiles : list (Buffer * Buffer) :=
  [([Byte.x61; Byte.x2f; Byte.x62], [Byte.x2a; Byte.x2b]);
   ([Byte.x63], [])].

Definition exampleProperties : list (Buffer * Buffer) :=
  [([Byte.x6b], [Byte.x76; Byte.x31])].

Lemma C8_build_after_extract_witness :
  rebuild asciiDecode asciiEncode
    (Some (layout exampleFiles exampleProperties))
  = Some (layout exampleFiles exampleProperties).
Proof.
  apply (C8_build_after_extract asciiDecode asciiEncode
           exampleFiles exampleProperties).
  - vm_compute. reflexivity.
  - repeat constructor; vm_compute; reflexivity.
  - repeat constructor; vm_compute; reflexivity.
  - apply (bool_decide_unpack _). vm_compute. exact I.
  - repeat constructor; vm_compute; discriminate.
Defined.

(** ** Further properties of the adapter *)

(** *** What [extract] rejects *)

Lemma readInt8_two (a b : Byte.byte) (rest : Buffer) :
  readInt8 (a :: b :: rest) 0 = Some (signed 8 (bigEndian [a]), 1)
  /\ readInt8 (a :: b :: rest) 1 = Some (signed 8 (bigEndian [b]), 2).
Proof.
  assert (H0 : bytesAt (a :: b :: rest) 0 1 = Some [a])
    by exact (bytesAt_frame [] [a] (b :: rest)).
  assert (H1 : bytesAt (a :: b :: rest) 1 1 = Some [b])
    by exact (bytesAt_frame [a] [b] rest).
  unfold readInt8, readInt. by rewrite H0, H1.
Qed.

Lemma int8_is (a : Byte.byte) (z : Z) (x : Byte.byte) :
  signed 8 (bigEndian [x]) = z ->
  (signed 8 (bigEndian [a]) =? z) = true -> a = x.
Proof.
  intros <- H. apply Z.eqb_eq in H.
  assert (Hinj : zOfByte a = zOfByte x).
  { unfold signed, bigEndian in H. cbn [foldl] in H.
    assert (0 <= zOfByte a < 256 /\ 0 <= zOfByte x < 256) as [Ha Hx].
    { unfold zOfByte. pose proof (Byte.to_N_bounded a).
      pose proof (Byte.to_N_bounded x). lia. }
    change (2 ^ (8 - 1)) with 128 in H. change (2 ^ 8) with 256 in H.
    destruct (Z.ltb_spec (0 * 256 + zOfByte a) 128),
      (Z.ltb_spec (0 * 256 + zOfByte x) 128); lia. }
  unfold zOfByte in Hinj. apply (f_equal Z.to_N) in Hinj.
  rewrite !N2Z.id in Hinj.
  apply (f_equal Byte.of_N) in Hinj. rewrite !Byte.of_to_N in Hinj.
  congruence.
Qed.

(** X6: what [extract] rejects. A file that cannot be read, or holds
    less than two bytes, is reported as not existing; a file whose first
    two bytes are not 2 and 1 is reported as of the wrong version; and a
    file with the header 2.1 but less than 24 bytes, too short for the
    trailer, is reported as not existing. *)
Theorem extract_rejects (utf8Decode : Buffer -> JsString) (buffer : Buffer) :
  extract utf8Decode None = inl D2P_DOES_NOT_EXISTS_ERROR
  /\ ((length buffer < 2)%nat ->
      extract utf8Decode (Some buffer) = inl D2P_DOES_NOT_EXISTS_ERROR)
  /\ (forall a b rest,
        buffer = a :: b :: rest -> (a, b) <> (Byte.x02, Byte.x01) ->
        extract utf8Decode (Some buffer) = inl WRONG_D2P_VERSION_ERROR)
  /\ (forall rest,
        buffer = Byte.x02 :: Byte.x01 :: rest -> (length buffer < 24)%nat ->
        extract utf8Decode (Some buffer) = inl D2P_DOES_NOT_EXISTS_ERROR).
Proof.
  split; [done|]. split; [|split].
  - intros Hlen. destruct buffer as [|a [|b rest]]; [done| |cbn in Hlen; lia].
    unfold extract.
    assert (H0 : readInt8 [a] 0 = Some (signed 8 (bigEndian [a]), 1)).
    { assert (H : bytesAt [a] 0 1 = Some [a])
        by exact (bytesAt_frame [] [a] []).
      unfold readInt8, readInt. by rewrite H. }
    rewrite H0. done.
  - intros a b rest -> Hne. unfold extract.
    destruct (readInt8_two a b rest) as [-> ->].
    destruct (signed 8 (bigEndian [a]) =? 2) eqn:Ha; [|done].
    destruct (signed 8 (bigEndian [b]) =? 1) eqn:Hb; [|done].
    apply (int8_is a 2 Byte.x02 eq_refl) in Ha.
    apply (int8_is b 1 Byte.x01 eq_refl) in Hb.
    destruct Hne. congruence.
  - intros rest -> Hlen. unfold extract.
    destruct (version_read rest) as [-> ->]. cbn [negb orb Z.eqb].
    unfold parse, setReadOffset.
    destruct (Z.leb_spec 0 (lengthZ (Byte.x02 :: Byte.x01 :: rest) - 24))
      as [Hle|_]; [|done].
    unfold lengthZ in Hle. lia.
Qed.

(** *** Extracting what was built *)

Section BuildThenExtract.
Variable utf8Decode : Buffer -> JsString.
Variable utf8Encode : JsString -> Buffer.

Lemma replaceBackslashes_idemp (s : JsString) :
  replaceBackslashes (replaceBackslashes s) = replaceBackslashes s.
Proof.
  unfold replaceBackslashes. rewrite map_map. apply map_ext.
  intros c. destruct (N.eqb_spec c 92%N) as [->|Hne]; [done|].
  by destruct (N.eqb_spec c 92%N).
Qed.

(** The bytes that [build] writes for the entries and the properties:
    each name with its backslashes replaced. *)
Definition encodedFiles (entries : list (JsString * Buffer))
  : list (Buffer * Buffer) :=
  map (fun e => (utf8Encode (replaceBackslashes (fst e)), snd e)) entries.

Definition encodedProperties (props : list Property)
  : list (Buffer * Buffer) :=
  map (fun p => (utf8Encode (key p), utf8Encode (value p))) props.

Definition storedNames (entries : list (JsString * Buffer))
  : list JsString :=
  map (fun e => replaceBackslashes (fst e)) entries.

Definition archiveEntries (entries : list (JsString * Buffer))
  : list (JsString * ArchValue) :=
  map (fun e => (fst e, BufferValue (snd e))) entries.

(** A string that the codec gives back, short enough for its length
    prefix. *)
Definition storable (s : JsString) : Prop :=
  utf8Decode (utf8Encode s) = s /\ lengthZ (utf8Encode s) < 2 ^ 15.

Lemma buildStep_name (st : Buffer * Z * Z * Buffer) (name : JsString)
    (v : ArchValue) :
  buildStep utf8Encode st (name, v)
  = buildStep utf8Encode st (replaceBackslashes name, v).
Proof.
  unfold buildStep. destruct st as [[[ib off] c] fb]. cbn [fst snd].
  by rewrite replaceBackslashes_idemp.
Qed.

Lemma build_fold_names (entries : list (JsString * Buffer))
    (st : option (Buffer * Z * Z * Buffer)) :
  Forall (fun n => utf8Decode (utf8Encode n) = n) (storedNames entries) ->
  foldl (fun st current => st ≫= fun st => buildStep utf8Encode st current)
    st (archiveEntries entries)
  = foldl (fun st current => st ≫= fun st => buildStep utf8Encode st current)
      st (builtEntries utf8Decode (encodedFiles entries)).
Proof.
  revert st. induction entries as [|[name body] entries IH];
    intros st Hdec; [done|].
  apply Forall_cons in Hdec as [Hname Hdec]. cbn [fst] in Hname.
  cbn [archiveEntries encodedFiles builtEntries map foldl fst snd].
  rewrite Hname.
  fold (archiveEntries entries). fold (encodedFiles entries).
  fold (builtEntries utf8Decode (encodedFiles entries)).
  rewrite <- IH by done. f_equal.
  destruct st as [st|]; [|done]. cbn [mbind option_bind].
  apply buildStep_name.
Qed.

Lemma decodedNames_encodedFiles (entries : list (JsString * Buffer)) :
  Forall (fun n => utf8Decode (utf8Encode n) = n) (storedNames entries) ->
  decodedNames utf8Decode (encodedFiles entries) = storedNames entries.
Proof.
  induction entries as [|[name body] entries IH]; intros Hdec; [done|].
  apply Forall_cons in Hdec as [Hname Hdec]. cbn [fst] in Hname.
  cbn [decodedNames encodedFiles storedNames map fst snd].
  rewrite Hname. f_equal. by apply IH.
Qed.

Lemma decodeProperty_encodedProperties (props : list Property) :
  Forall (fun p => storable (key p) /\ storable (value p)) props ->
  map (decodeProperty utf8Decode) (encodedProperties props) = props.
Proof.
  induction props as [|[k v] props IH]; intros Hp; [done|].
  apply Forall_cons in Hp as [[[Hk _] [Hv _]] Hp]. cbn [key value] in *.
  cbn [encodedProperties map key value].
  unfold decodeProperty at 1. cbn [fst snd]. rewrite Hk, Hv.
  f_equal. by apply IH.
Qed.

End BuildThenExtract.

(** X7: what [build] writes, [extract] reads back. For entries whose
    names, once their backslashes are replaced, are distinct, are not
    [meta] or [indexes] and are given back by the codec, as are the
    property strings, all of them shorter than 2^15 bytes, and an archive
    shorter than 2^31 bytes: [build] writes the layout of the format, and
    [extract] of these bytes gives every body under its name with the
    backslashes replaced, the names in the order of the entries, and the
    properties. *)
Theorem extract_after_build
    (utf8Decode : Buffer -> JsString) (utf8Encode : JsString -> Buffer)
    (entries : list (JsString * Buffer)) (props : list Property)
    (metaFiles : list JsString) :
  Forall (storable utf8Decode utf8Encode) (storedNames entries) ->
  Forall (fun n => n <> str_meta /\ n <> str_indexes) (storedNames entries) ->
  NoDup (storedNames entries) ->
  Forall (fun p => storable utf8Decode utf8Encode (key p)
                   /\ storable utf8Decode utf8Encode (value p)) props ->
  lengthZ (layout (encodedFiles utf8Encode entries)
             (encodedProperties utf8Encode props)) < 2 ^ 31 ->
  build utf8Encode (archiveEntries entries) (mkMeta props metaFiles)
  = Some (layout (encodedFiles utf8Encode entries)
            (encodedProperties utf8Encode props))
  /\ exists arch,
       extract utf8Decode
         (Some (layout (encodedFiles utf8Encode entries)
                  (encodedProperties utf8Encode props)))
       = inr arch
       /\ files (meta arch) = storedNames entries
       /\ properties (meta arch) = props
       /\ forall name body,
            In (name, body) entries ->
            getProperty arch (replaceBackslashes name) = BufferValue body.
Proof.
  intros Hnames Hres Hnd Hprops Hlen.
  set (fs := encodedFiles utf8Encode entries) in *.
  set (ps := encodedProperties utf8Encode props) in *.
  assert (Hdec : Forall (fun n => utf8Decode (utf8Encode n) = n)
                   (storedNames entries)).
  { eapply Forall_impl; [exact Hnames|]. by intros n [H _]. }
  pose proof (decodedNames_encodedFiles utf8Decode utf8Encode entries Hdec)
    as Hdn. fold fs in Hdn.
  pose proof (decodeProperty_encodedProperties utf8Decode utf8Encode props
                Hprops) as Hdp. fold ps in Hdp.
  assert (Hfs : Forall (nameRoundTrips utf8Decode utf8Encode) fs).
  { apply Forall_forall. intros f Hf. apply list_elem_of_In in Hf.
    unfold fs, encodedFiles in Hf.
    apply in_map_iff in Hf as [[name body] [<- Hin]]. cbn [fst snd].
    rewrite Forall_forall in Hnames.
    destruct (Hnames (replaceBackslashes name)) as [Hd Hl].
    { apply list_elem_of_In. unfold storedNames. apply in_map_iff.
      by exists (name, body). }
    split; [exact Hl|]. cbn [fst].
    by rewrite Hd, replaceBackslashes_idemp. }
  assert (Hps : Forall (propertyRoundTrips utf8Decode utf8Encode) ps).
  { apply Forall_forall. intros kv Hkv. apply list_elem_of_In in Hkv.
    unfold ps, encodedProperties in Hkv.
    apply in_map_iff in Hkv as [[k v] [<- Hin]].
    rewrite Forall_forall in Hprops.
    destruct (Hprops (mkProperty k v)) as [[Hk Hkl] [Hv Hvl]];
      [by apply list_elem_of_In|].
    cbn [key value fst snd] in *. split; [by split|].
    cbn [fst snd]. by rewrite Hk, Hv. }
  split.
  - rewrite <- (build_layout utf8Decode utf8Encode fs ps Hlen Hfs Hps).
    unfold build. cbn [properties]. rewrite Hdp.
    by rewrite (build_fold_names utf8Decode utf8Encode entries _ Hdec).
  - eexists. split.
    + apply extract_layout; [done| | |by rewrite Hdn].
      * eapply Forall_impl; [exact Hfs|]. by intros f [H _].
      * eapply Forall_impl; [exact Hps|]. by intros kv [H _].
    + cbn [meta files properties]. split; [done|]. split; [done|].
      intros name body Hin. unfold getProperty. cbn [fileBuffers].
      assert (Hn : In (replaceBackslashes name) (storedNames entries)).
      { unfold storedNames. apply in_map_iff. by exists (name, body). }
      rewrite Forall_forall in Hres.
      destruct (Hres (replaceBackslashes name)) as [Hm Hi];
        [by apply list_elem_of_In|].
      rewrite !bool_decide_eq_false_2 by done.
      rewrite Forall_forall in Hdec.
      rewrite <- (Hdec (replaceBackslashes name))
        by (by apply list_elem_of_In).
      rewrite (insertBody_lookup utf8Decode fs ∅
                 (utf8Encode (replaceBackslashes name)) body);
        [done|by rewrite Hdn|].
      unfold fs, encodedFiles. apply in_map_iff. by exists (name, body).
Qed.

Lemma extract_after_build_witness :
  build asciiEncode
    (archiveEntries [([97; 92; 98]%N, [Byte.x2a]); ([99]%N, [])])
    (mkMeta [mkProperty [107]%N [118]%N] [])
  = Some (layout
            (encodedFiles asciiEncode
               [([97; 92; 98]%N, [Byte.x2a]); ([99]%N, [])])
            (encodedProperties asciiEncode [mkProperty [107]%N [118]%N]))
  /\ exists arch,
       extract asciiDecode
         (Some (layout
                  (encodedFiles asciiEncode
                     [([97; 92; 98]%N, [Byte.x2a]); ([99]%N, [])])
                  (encodedProperties asciiEncode
                     [mkProperty [107]%N [118]%N])))
       = inr arch
       /\ files (meta arch)
          = storedNames [([97; 92; 98]%N, [Byte.x2a]); ([99]%N, [])]
       /\ properties (meta arch) = [mkProperty [107]%N [118]%N]
       /\ forall name body,
            In (name, body) [([97; 92; 98]%N, [Byte.x2a]); ([99]%N, [])] ->
            getProperty arch (replaceBackslashes name) = BufferValue body.
Proof.
  apply (extract_after_build asciiDecode asciiEncode
           [([97; 92; 98]%N, [Byte.x2a]); ([99]%N, [])]
           [mkProperty [107]%N [118]%N] []).
  - repeat constructor; vm_compute; reflexivity.
  - repeat constructor; vm_compute; discriminate.
  - apply (bool_decide_unpack _). vm_compute. exact I.
  - repeat constructor; vm_compute; reflexivity.
  - vm_compute. reflexivity.
Defined.

End D2PFacts.

Module UpdateQueueFacts.
Import UpdateQueue.

(** *** The list of the queue *)

Lemma indexOf_split (u : Id) (l : list Id) (i : nat) :
  indexOf u l = Some i ->
  exists l1 l2, l = l1 ++ u :: l2 /\ length l1 = i /\ u ∉ l1.
Proof.
  revert i. induction l as [|x l IH]; intros i; [done|]. cbn.
  destruct (Nat.eqb_spec x u) as [->|Hne].
  - intros [= <-]. exists [], l. split; [done|]. split; [done|].
    apply not_elem_of_nil.
  - destruct (indexOf u l) as [j|] eqn:Hj; [|done]. cbn. intros [= <-].
    destruct (IH j eq_refl) as (l1 & l2 & -> & Hlen & Hnot).
    exists (x :: l1), l2. split; [done|]. split; [cbn; by rewrite Hlen|].
    intros [?|?]%elem_of_cons; [congruence|done].
Qed.

Lemma indexOf_None (u : Id) (l : list Id) :
  indexOf u l = None -> u ∉ l.
Proof.
  induction l as [|x l IH]; cbn; [intros _; apply not_elem_of_nil|].
  destruct (Nat.eqb_spec x u) as [->|Hne]; [done|].
  destruct (indexOf u l); [done|]. intros _.
  intros [?|?]%elem_of_cons; [congruence|by apply IH].
Qed.

Lemma indexOf_elem (u : Id) (l : list Id) :
  u ∈ l -> is_Some (indexOf u l).
Proof.
  intros Hin. destruct (indexOf u l) eqn:E; [done|].
  by apply indexOf_None in E.
Qed.

Lemma spliceOut_split (l1 l2 : list Id) (u : Id) :
  spliceOut (length l1) (l1 ++ u :: l2) = l1 ++ l2.
Proof.
  unfold spliceOut. rewrite take_app_length. f_equal.
  induction l1 as [|x l1 IH]; [done|exact IH].
Qed.

Lemma spliceIn_take_drop (i : nat) (u : Id) (l : list Id) :
  spliceIn i u l ≡ₚ u :: l.
Proof.
  unfold spliceIn. rewrite <- Permutation_middle.
  by rewrite take_drop.
Qed.

(** Moving a queued update keeps the members of the queue. *)
Lemma moved_perm (u : Id) (l : list Id) (i j : nat) :
  indexOf u l = Some i -> spliceIn j u (spliceOut i l) ≡ₚ l.
Proof.
  intros (l1 & l2 & -> & <- & _)%indexOf_split.
  rewrite spliceIn_take_drop, spliceOut_split.
  by rewrite <- Permutation_middle.
Qed.

Lemma removed_perm (u : Id) (l : list Id) (i : nat) :
  indexOf u l = Some i -> u :: spliceOut i l ≡ₚ l.
Proof.
  intros (l1 & l2 & -> & <- & _)%indexOf_split.
  rewrite spliceOut_split. by rewrite <- Permutation_middle.
Qed.

Lemma moved_head (u : Id) (l : list Id) :
  head (spliceIn 0 u l) = Some u.
Proof. done. Qed.

Lemma indexOf_head (u : Id) (l : list Id) :
  indexOf u l = Some 0 -> head l = Some u.
Proof.
  intros (l1 & l2 & -> & Hlen & _)%indexOf_split.
  by destruct l1.
Qed.

Lemma spliceOut_facts (u : Id) (l : list Id) (i : nat) :
  NoDup l -> indexOf u l = Some i ->
  NoDup (spliceOut i l) /\ (u ∉ spliceOut i l)
  /\ forall v, v ∈ spliceOut i l -> v ∈ l.
Proof.
  intros Hnd Hidx. pose proof (removed_perm u l i Hidx) as Hp.
  rewrite <- Hp in Hnd. apply NoDup_cons in Hnd as [Hu Hnd].
  repeat split; try done.
  intros v Hv. rewrite <- Hp. by apply elem_of_cons; right.
Qed.

(** *** The bound of the recursion is not reached *)

Definition total (a : Action) : Prop :=
  forall s, (a s).2 <> OutOfFuel.

Lemma total_andThen (a b : Action) :
  total a -> total b -> total (a >> b).
Proof.
  intros Ha Hb s. unfold andThen. specialize (Ha s).
  destruct (a s) as [s' o]. destruct o; [apply Hb|done..].
Qed.

Lemma total_when (c : State -> bool) (a : Action) :
  total a -> total (when c a).
Proof. intros Ha s. unfold when. destruct (c s); [apply Ha|done]. Qed.

Lemma total_ifThenElse (c : State -> bool) (a b : Action) :
  total a -> total b -> total (ifThenElse c a b).
Proof.
  intros Ha Hb s. unfold ifThenElse. destruct (c s); [apply Ha|apply Hb].
Qed.

Lemma total_modify (f : State -> State) : total (modify f).
Proof. done. Qed.

Lemma total_start (this : Id) : total (start this).
Proof.
  intros s. unfold start.
  by destruct (_isRunning (heap s this)), (_isStopped (heap s this)).
Qed.

Lemma total_pause (this : Id) (pausedByUser : bool) :
  total (pause this pausedByUser).
Proof.
  intros s. unfold pause. by destruct (negb (isPauseAllowed (heap s this))).
Qed.

Lemma total_resume (this : Id) : total (resume this).
Proof.
  intros s. unfold resume.
  by destruct (negb (isResumeAllowed (heap s this))).
Qed.

Lemma total_clearCurrentUpdateCallbacks : total clearCurrentUpdateCallbacks.
Proof.
  intros s. unfold clearCurrentUpdateCallbacks.
  by destruct (currentUpdate s).
Qed.

Lemma total_clearCurrentUpdate (pausedByUser : bool) :
  total (clearCurrentUpdate pausedByUser).
Proof.
  intros s. unfold clearCurrentUpdate.
  destruct (currentUpdate s) as [c|] eqn:Hc; [|done].
  revert s Hc.
  cut (total (clearCurrentUpdateCallbacks >>
              setIsQueued c true >>
              when (fun s => negb (_isPaused (heap s c)))
                (pause c pausedByUser) >>
              modify (setCurrentUpdate None))).
  { intros H s _. apply H. }
  repeat first [apply total_pause
               | apply total_clearCurrentUpdateCallbacks
               | apply total_modify | apply total_andThen
               | apply total_when].
Qed.

(** [clearCurrentUpdate] does not touch the queue nor the flag
    [_isPausedByUser]. *)
Lemma clearCurrentUpdate_frame (pausedByUser : bool) (s : State) :
  updates (clearCurrentUpdate pausedByUser s).1 = updates s
  /\ isPaused (clearCurrentUpdate pausedByUser s).1 = isPaused s
  /\ forall v, _isPausedByUser (heap (clearCurrentUpdate pausedByUser s).1 v)
               = _isPausedByUser (heap s v).
Proof.
  unfold clearCurrentUpdate.
  destruct (currentUpdate s) as [c|] eqn:Hc; [|done].
  unfold andThen, clearCurrentUpdateCallbacks, setIsQueued, when, pause,
    modify.
  rewrite Hc. cbn [heap onUpdate].
  destruct (negb _); [destruct (negb _)|]; cbn; repeat split;
    intros v; by destruct (Nat.eqb v c).
Qed.

(** The first update is started when it is not paused by the user. *)
Lemma startFirst_first (fuel : nat) (resumedByUser : bool) (s : State)
    (update : Id) :
  head (updates s) = Some update ->
  _isPausedByUser (heap s update) = false ->
  (startFirstUpdateInQueue (S fuel) resumedByUser s).2 <> OutOfFuel.
Proof.
  intros Hhead Hpbu. cbn [startFirstUpdateInQueue].
  destruct (updates s) as [|u rest]; [done|]. injection Hhead as ->.
  rewrite Hpbu, andb_false_r.
  revert s Hpbu.
  cut (total (modify (setCurrentUpdate (Some update)) >>
              setIsQueued update false >>
              ifThenElse
                (fun s => _isRunning (heap s update)
                          && _isPaused (heap s update))
                (resume update) (start update))).
  { intros H s _. apply H. }
  repeat first [apply total_resume | apply total_start
               | apply total_modify | apply total_andThen
               | apply total_ifThenElse].
Qed.

Lemma setIndex_first (fuel : nat) (update : Id)
    (pausedByUser resumedByUser : bool) (s : State) :
  _isPausedByUser (heap s update) = false ->
  (setIndex (S (S fuel)) update 0 pausedByUser resumedByUser s).2
  <> OutOfFuel.
Proof.
  intros Hpbu. cbn [setIndex].
  destruct (indexOf update (updates s)) as [currentIndex|] eqn:Hidx;
    [|done].
  destruct ((0 <? 0) || (Z.of_nat (length (updates s)) <=? 0))%Z; [done|].
  unfold andThen at 1. unfold when at 1. unfold modify.
  change (Z.to_nat 0) with 0%nat. change (0 =? 0)%Z with true.
  assert (Hmoved : forall s1,
    (head (updates s1) = Some update
     /\ _isPausedByUser (heap s1 update) = false) ->
    (when (fun _ => true || (currentIndex =? 0))
       (when (fun s => bool_decide (is_Some (currentUpdate s)))
          (clearCurrentUpdate pausedByUser) >>
        when (fun s => negb (isPaused s))
          (startFirstUpdateInQueue (S fuel) resumedByUser)) s1).2
    <> OutOfFuel).
  { intros s1 [Hhead Hp]. unfold when at 1. cbn [orb].
    unfold andThen, when.
    pose proof (clearCurrentUpdate_frame pausedByUser s1) as (Hu & _ & Hf).
    pose proof (total_clearCurrentUpdate pausedByUser s1) as Ht.
    destruct (bool_decide (is_Some (currentUpdate s1))).
    - destruct (clearCurrentUpdate pausedByUser s1) as [s2 o].
      cbn [fst snd] in *. destruct o; [|done..].
      destruct (negb (isPaused s2)); [|done].
      apply (startFirst_first _ _ _ update); [by rewrite Hu|].
      by rewrite Hf.
    - destruct (negb (isPaused s1)); [|done].
      by apply (startFirst_first _ _ _ update). }
  destruct (Nat.eqb_spec currentIndex 0) as [->|Hne]; cbn [negb].
  - apply Hmoved. split; [by apply indexOf_head|done].
  - apply Hmoved. split; [done|done].
Qed.

Lemma total_startFirst (fuel : nat) (resumedByUser : bool) :
  total (startFirstUpdateInQueue (S (S (S fuel))) resumedByUser).
Proof.
  intros s. cbn [startFirstUpdateInQueue].
  destruct (updates s) as [|update rest] eqn:Hupd;
    [by destruct resumedByUser|].
  destruct (negb resumedByUser && _isPausedByUser (heap s update)) eqn:Hc.
  - destruct (find (canBeStarted s) (update :: rest)) as [next|] eqn:Hfind;
      [|done].
    apply find_some in Hfind as [_ Hnext].
    apply andb_prop in Hnext as [Hnext _].
    apply setIndex_first. by destruct (_isPausedByUser (heap s next)).
  - revert s Hupd Hc.
    cut (total (modify (setCurrentUpdate (Some update)) >>
                setIsQueued update false >>
                ifThenElse
                  (fun s => _isRunning (heap s update)
                            && _isPaused (heap s update))
                  (resume update) (start update))).
    { intros H s _ _. apply H. }
    repeat first [apply total_resume | apply total_start
                 | apply total_modify | apply total_andThen
                 | apply total_ifThenElse].
Qed.

Lemma total_setIndex (fuel : nat) (update : Id) (newIndex : Z)
    (pausedByUser resumedByUser : bool) :
  total (setIndex (S (S (S (S fuel)))) update newIndex
           pausedByUser resumedByUser).
Proof.
  intros s. cbn [setIndex].
  destruct (indexOf update (updates s)) as [currentIndex|]; [|done].
  destruct ((newIndex <? 0)
            || (Z.of_nat (length (updates s)) <=? newIndex))%Z; [done|].
  revert s.
  repeat first [apply total_clearCurrentUpdate | apply total_startFirst
               | apply total_modify | apply total_andThen
               | apply total_when].
Qed.

Lemma total_FUEL :
  (forall resumedByUser, total (startFirstUpdateInQueue FUEL resumedByUser))
  /\ (forall update newIndex pausedByUser resumedByUser,
         total (setIndex FUEL update newIndex pausedByUser resumedByUser)).
Proof. split; intros; [apply total_startFirst|apply total_setIndex]. Qed.

Ltac total_rules :=
  repeat first [ apply total_clearCurrentUpdate
               | apply (proj1 total_FUEL) | apply (proj2 total_FUEL)
               | apply total_pause | apply total_resume | apply total_start
               | apply total_clearCurrentUpdateCallbacks
               | apply total_modify | apply total_andThen
               | apply total_when ].

Ltac total_at :=
  match goal with
  | |- (?a ?s).2 <> OutOfFuel =>
      let H := fresh in
      assert (H : total a) by total_rules; apply H
  end.

Lemma total_add (update : Id) : total (add update).
Proof. unfold add. total_rules. Qed.

Lemma total_remove (update : Id) : total (remove update).
Proof.
  intros s. unfold remove.
  destruct (isCurrentUpdate update s && _isRunning (heap s update));
    [done|].
  destruct (indexOf update (updates s)); [|done]. total_at.
Qed.

Lemma total_stop (update : Id) : total (stop update).
Proof.
  unfold stop. apply total_andThen; [apply total_modify|].
  apply total_when, total_remove.
Qed.

Lemma total_end (update : Id) : total (end_ update).
Proof. apply total_when, total_stop. Qed.

Lemma total_pauseQueue : total pauseQueue.
Proof.
  intros s. unfold pauseQueue. destruct (isPaused s); [done|].
  unfold andThen, modify. destruct (currentUpdate _); [|done]. total_at.
Qed.

Lemma total_resumeQueue (target : option Id) (resumedByUser : bool) :
  total (resumeQueue target resumedByUser).
Proof.
  intros s. unfold resumeQueue. destruct (negb (isPaused s)); [done|].
  match goal with
  | |- ((?a >> ?b >> ?c) ?s).2 <> _ =>
      cut (total (a >> b >> c)); [intros H; apply H|]
  end.
  apply total_andThen; [apply total_modify|].
  apply total_andThen; [destruct target; [apply total_FUEL|done]|].
  intros s'. destruct (currentUpdate s'); total_at.
Qed.

Lemma total_pauseCurrentUpdate (pausedByUser : bool) :
  total (pauseCurrentUpdate pausedByUser).
Proof.
  intros s. unfold pauseCurrentUpdate. destruct (bool_decide _).
  - destruct (currentUpdate s); [apply total_FUEL|done].
  - apply total_clearCurrentUpdate.
Qed.

Lemma total_onUpdateCompleted : total onUpdateCompleted.
Proof.
  intros s. unfold onUpdateCompleted.
  match goal with
  | |- ((?a >> ?b) ?s).2 <> _ =>
      cut (total (a >> b)); [intros H; apply H|]
  end.
  apply total_andThen; [apply total_clearCurrentUpdateCallbacks|].
  intros s'. destruct (currentUpdate s'); [|done].
  match goal with
  | |- ((?a >> ?b >> ?c) ?s).2 <> _ =>
      cut (total (a >> b >> c)); [intros H; apply H|]
  end.
  apply total_andThen; [apply total_modify|].
  apply total_andThen; [apply total_remove|].
  apply total_when, total_FUEL.
Qed.

(** No event exceeds the bound of the recursion: [run] stops only at an
    event that cannot happen. *)
Lemma exec_fuel (e : Event) : total (exec e).
Proof.
  destruct e; cbn [exec].
  - intros s. apply total_add.
  - apply total_remove.
  - apply total_FUEL.
  - apply total_pauseQueue.
  - apply total_resumeQueue.
  - apply total_pauseCurrentUpdate.
  - apply total_FUEL.
  - apply total_onUpdateCompleted.
  - apply total_FUEL.
  - apply total_modify.
  - apply total_end.
  - apply total_modify.
  - apply total_end.
  - apply total_stop.
  - apply total_modify.
Qed.

Lemma run_enabled (e : Event) (s : State) :
  enabled e s = true -> run [e] s = Some (exec e s).1.
Proof.
  intros He. cbn. rewrite He. pose proof (exec_fuel e s) as Ht.
  destruct (exec e s) as [s' o]. by destruct o.
Qed.

(** ** C1: the updates of the queue that are active *)

Definition reached (events : list Event) : State :=
  default (emptyQueue false) (run events (emptyQueue false)).

(** The events can happen in this order. *)
Definition happen (events : list Event) : bool :=
  match run events (emptyQueue false) with
  | Some _ => true
  | None => false
  end.

Lemma run_reached (events : list Event) :
  happen events = true ->
  run events (emptyQueue false) = Some (reached events).
Proof.
  unfold happen, reached. by destruct (run events (emptyQueue false)).
Qed.

(** Two updates are created and the second is moved to the head of the
    queue. *)
Definition secondPromoted : list Event :=
  [NewUpdate false; NewUpdate false; SetIndex 2 0 false false].

(** The pause of an update takes time: after the second update is moved
    to the head of the queue, the first one is pausing and the second
    one is started, so both are running and not paused. After the pause
    of the first one is done, it is paused, not current, still queued,
    and still running. *)
Lemma C1_paused_update_still_running :
  (happen secondPromoted = true
   /\ updates (reached secondPromoted) = [2; 1]
   /\ active (reached secondPromoted) 1 = true
   /\ active (reached secondPromoted) 2 = true)
  /\ (happen (secondPromoted ++ [PauseThen 1 false]) = true
      /\ updates (reached (secondPromoted ++ [PauseThen 1 false])) = [2; 1]
      /\ currentUpdate (reached (secondPromoted ++ [PauseThen 1 false]))
         = Some 2
      /\ _isRunning
           (heap (reached (secondPromoted ++ [PauseThen 1 false])) 1)
         = true
      /\ active (reached (secondPromoted ++ [PauseThen 1 false])) 2 = true).
Proof.
  split.
  - split; [vm_compute; reflexivity|].
    repeat split; vm_compute; reflexivity.
  - split; [vm_compute; reflexivity|].
    repeat split; vm_compute; reflexivity.
Qed.

(** The queue is paused and resumed while the first of two updates is
    current, and the second one is moved to the head of the queue
    before the resume of the first one is done. *)
Definition resumeInFlight : list Event :=
  [NewUpdate false; NewUpdate false; Pause; PauseThen 1 false;
   Resume None false; SetIndex 2 0 false false; ResumeThen 1].

(** An update is created paused by the user, the user resumes it, and a
    second update is created. *)
Definition resumedByUserThenAdd : list Event :=
  [NewUpdate true; ResumeUpdate 1 true; NewUpdate false].

(** C1, two inputs at which the queue ends with two updates at work.
    In the first, [clearCurrentUpdate] finds the first update still
    flagged as paused, because its resume is in flight, and does not
    pause it; once the resume is done both updates are running, not
    paused and not pausing. In the second, the first update was started
    with the flag [_isPaused] that its constructor copied from
    [isPausedByUser], which [start()] leaves as it is: while the update
    runs its actions, [add] and [clearCurrentUpdate] read it as paused by
    the user, take it away from the head of the queue without any call
    of its [pause] (no pause is in flight, and none was ever done: the
    input has no continuation of a pause), and start the second
    update. *)
Lemma C1_two_updates_at_work :
  (let s := reached resumeInFlight in
   happen resumeInFlight = true
   /\ updates s = [2; 1] /\ currentUpdate s = Some 2
   /\ _isRunning (heap s 1) = true /\ _isPaused (heap s 1) = false
   /\ _isPausing (heap s 1) = false
   /\ _isRunning (heap s 2) = true /\ _isPaused (heap s 2) = false
   /\ _isPausing (heap s 2) = false
   /\ active s 1 = true /\ active s 2 = true)
  /\ (let s := reached resumedByUserThenAdd in
      happen resumedByUserThenAdd = true
      /\ updates s = [2; 1] /\ currentUpdate s = Some 2
      /\ _isRunning (heap s 1) = true /\ _isPausing (heap s 1) = false
      /\ _isPaused (heap s 1) = true /\ isQueued (heap s 1) = true
      /\ _isPaused (heap (reached [NewUpdate true]) 1) = true
      /\ _isRunning (heap s 2) = true /\ active s 2 = true).
Proof.
  cbv zeta. split.
  - split; [vm_compute; reflexivity|].
    repeat split; vm_compute; reflexivity.
  - split; [vm_compute; reflexivity|].
    repeat split; vm_compute; reflexivity.
Qed.

(** ** Further properties of the queue *)

(** X1: every call of the queue and every event of an update ends: it
    returns or throws. The calls between [startFirstUpdateInQueue] and
    [setIndex] nest at most four deep before one of them starts an
    update, returns or throws. *)
Theorem queue_calls_end (e : Event) (s : State) :
  (exec e s).2 = Returned \/ exists message, (exec e s).2 = Thrown message.
Proof.
  pose proof (exec_fuel e s) as Ht.
  destruct ((exec e s).2) as [|message|]; [by left|right; by exists message|].
  done.
Qed.

(** *** The members of the queue *)

(** The state after the events, whatever they are. *)
Definition execAll (events : list Event) (s : State) : State :=
  foldl (fun s e => (exec e s).1) s events.

(** No update is queued twice, the queued ids were issued by the
    constructor, and the current update is queued. *)
Definition queued (s : State) : Prop :=
  NoDup (updates s)
  /\ (forall u, u ∈ updates s -> 1 <= u <= updateId s)
  /\ (forall c, currentUpdate s = Some c -> c ∈ updates s).

Definition keeps (I : State -> Prop) (a : Action) : Prop :=
  forall s, I s -> I (a s).1.

Lemma keeps_andThen (I : State -> Prop) (a b : Action) :
  keeps I a -> keeps I b -> keeps I (a >> b).
Proof.
  intros Ha Hb s Hs. unfold andThen. specialize (Ha s Hs).
  destruct (a s) as [s' o]. destruct o; [by apply Hb|done..].
Qed.

Lemma keeps_when (I : State -> Prop) (c : State -> bool) (a : Action) :
  keeps I a -> keeps I (when c a).
Proof. intros Ha s Hs. unfold when. destruct (c s); [by apply Ha|done]. Qed.

Lemma keeps_ifThenElse (I : State -> Prop) (c : State -> bool)
    (a b : Action) :
  keeps I a -> keeps I b -> keeps I (ifThenElse c a b).
Proof.
  intros Ha Hb s Hs. unfold ifThenElse.
  destruct (c s); [by apply Ha|by apply Hb].
Qed.

Lemma queued_onUpdate (this : Id) (f : Update -> Update) :
  keeps queued (modify (onUpdate this f)).
Proof. intros s Hs. exact Hs. Qed.

Lemma queued_start (this : Id) : keeps queued (start this).
Proof.
  intros s Hs. unfold start.
  by destruct (_isRunning (heap s this)), (_isStopped (heap s this)).
Qed.

Lemma queued_pause (this : Id) (pausedByUser : bool) :
  keeps queued (pause this pausedByUser).
Proof.
  intros s Hs. unfold pause.
  by destruct (negb (isPauseAllowed (heap s this))).
Qed.

Lemma queued_resume (this : Id) : keeps queued (resume this).
Proof.
  intros s Hs. unfold resume.
  by destruct (negb (isResumeAllowed (heap s this))).
Qed.

Lemma queued_noCurrent : keeps queued (modify (setCurrentUpdate None)).
Proof.
  intros s (Hnd & Hid & Hc). split; [done|]. split; [done|].
  cbn. by intros c [=].
Qed.

Lemma queued_clearCurrentUpdate (pausedByUser : bool) :
  keeps queued (clearCurrentUpdate pausedByUser).
Proof.
  intros s Hs. unfold clearCurrentUpdate.
  destruct (currentUpdate s) as [c|] eqn:Hc; [|done].
  revert s Hs Hc.
  cut (keeps queued
         (clearCurrentUpdateCallbacks >>
          setIsQueued c true >>
          when (fun s => negb (_isPaused (heap s c)))
            (pause c pausedByUser) >>
          modify (setCurrentUpdate None))).
  { intros H s Hs _. by apply H. }
  apply keeps_andThen.
  { intros s Hs. unfold clearCurrentUpdateCallbacks.
    by destruct (currentUpdate s). }
  apply keeps_andThen; [apply queued_onUpdate|].
  apply keeps_andThen; [apply keeps_when, queued_pause|].
  apply queued_noCurrent.
Qed.

Lemma queued_first (update : Id) :
  keeps (fun s => queued s /\ update ∈ updates s)
    (modify (setCurrentUpdate (Some update)) >>
     setIsQueued update false >>
     ifThenElse
       (fun s => _isRunning (heap s update) && _isPaused (heap s update))
       (resume update) (start update)).
Proof.
  apply keeps_andThen.
  { intros s [(Hnd & Hid & Hc) Hu]. split; [|done].
    split; [done|]. split; [done|]. cbn. by intros c [= <-]. }
  apply keeps_andThen; [by intros s Hs|].
  apply keeps_ifThenElse; intros s [Hs Hu].
  - split; [by apply queued_resume|].
    unfold resume. by destruct (negb (isResumeAllowed (heap s update))).
  - split; [by apply queued_start|].
    unfold start.
    by destruct (_isRunning (heap s update)), (_isStopped (heap s update)).
Qed.

Lemma queued_moved (s : State) (l : list Id) :
  l ≡ₚ updates s -> queued s -> queued (setUpdates l s).
Proof.
  intros Hp (Hnd & Hid & Hc). unfold queued. cbn. rewrite Hp.
  split; [done|]. split.
  - intros u. rewrite Hp. apply Hid.
  - intros c. rewrite Hp. apply Hc.
Qed.

Lemma queued_startFirst_setIndex (fuel : nat) :
  (forall resumedByUser,
      keeps queued (startFirstUpdateInQueue fuel resumedByUser))
  /\ (forall update newIndex pausedByUser resumedByUser,
         keeps queued
           (setIndex fuel update newIndex pausedByUser resumedByUser)).
Proof.
  induction fuel as [|fuel [IHstart IHset]]; [by split; intros; intros s Hs|].
  split.
  - intros resumedByUser s Hs. cbn [startFirstUpdateInQueue].
    destruct (updates s) as [|update rest] eqn:Hupd.
    { destruct resumedByUser; [|done].
      by apply (queued_noCurrent s). }
    destruct (negb resumedByUser && _isPausedByUser (heap s update)).
    + destruct (find (canBeStarted s) (update :: rest)); [|done].
      by apply IHset.
    + apply (queued_first update). split; [done|].
      rewrite Hupd. by left.
  - intros update newIndex pausedByUser resumedByUser s Hs.
    cbn [setIndex].
    destruct (indexOf update (updates s)) as [currentIndex|] eqn:Hidx;
      [|done].
    destruct ((newIndex <? 0)
              || (Z.of_nat (length (updates s)) <=? newIndex))%Z; [done|].
    assert (Hrest : keeps queued
              (when (fun _ => (newIndex =? 0)%Z || (currentIndex =? 0))
                 (when (fun s => bool_decide (is_Some (currentUpdate s)))
                    (clearCurrentUpdate pausedByUser) >>
                  when (fun s => negb (isPaused s))
                    (startFirstUpdateInQueue fuel resumedByUser)))).
    { apply keeps_when, keeps_andThen.
      - apply keeps_when, queued_clearCurrentUpdate.
      - apply keeps_when, IHstart. }
    unfold andThen at 1. unfold when at 1. unfold modify.
    destruct (negb (currentIndex =? Z.to_nat newIndex)).
    + apply Hrest. apply queued_moved; [|done]. by apply moved_perm.
    + by apply Hrest.
Qed.


Lemma queued_FUEL :
  (forall resumedByUser,
      keeps queued (startFirstUpdateInQueue FUEL resumedByUser))
  /\ (forall update newIndex pausedByUser resumedByUser,
         keeps queued
           (setIndex FUEL update newIndex pausedByUser resumedByUser)).
Proof. apply queued_startFirst_setIndex. Qed.

Lemma queued_remove (update : Id) : keeps queued (remove update).
Proof.
  intros s Hs. unfold remove.
  destruct (isCurrentUpdate update s && _isRunning (heap s update));
    [done|].
  destruct (indexOf update (updates s)) as [index|] eqn:Hidx; [|done].
  destruct Hs as (Hnd & Hid & Hc).
  destruct (spliceOut_facts update _ index Hnd Hidx) as (Hnd' & Hu & Hsub).
  pose proof (removed_perm update _ index Hidx) as Hp.
  unfold andThen, when, clearCurrentUpdateCallbacks, modify,
    isCurrentUpdate.
  cbn [currentUpdate setUpdates setCurrentUpdate updates isPaused].
  destruct (bool_decide_reflect (currentUpdate s = Some update)) as [Hcur|Hcur].
  - rewrite Hcur.
    assert (Hq : queued (setCurrentUpdate None
                           (setUpdates (spliceOut index (updates s)) s))).
    { split; [done|]. split; [|by intros c [=]].
      intros u Hin. by apply Hid, Hsub. }
    match goal with |- context [if ?b then _ else _] => destruct b end;
      [|done].
    by apply queued_FUEL.
  - cbn. split; [done|]. split.
    + intros u Hin. by apply Hid, Hsub.
    + intros c Hcc. specialize (Hc c Hcc). rewrite <- Hp in Hc.
      apply elem_of_cons in Hc as [->|Hc]; [|done]. by destruct Hcur.
Qed.

Lemma queued_construct (isPausedByUser : bool) :
  keeps queued (construct isPausedByUser).
Proof.
  intros s (Hnd & Hid & Hc). unfold construct, add, andThen, modify, when.
  cbn [updates currentUpdate isPaused heap updateId setUpdates].
  set (id := updateId s + 1).
  assert (Hnew : id ∉ updates s).
  { intros Hin. specialize (Hid id Hin). unfold id in Hid. lia. }
  match goal with
  | |- context [if ?b then startFirstUpdateInQueue _ _ ?s1 else _] =>
      assert (Hq : queued s1); [|destruct b; [by apply queued_FUEL|done]]
  end.
  split; [|split]; cbn.
  - apply NoDup_app. split; [done|]. split; [|apply NoDup_singleton].
    intros v Hv ->%list_elem_of_singleton. done.
  - intros u [Hu| ->%list_elem_of_singleton]%elem_of_app.
    + specialize (Hid u Hu). unfold id. lia.
    + unfold id. lia.
  - intros c Hcc. apply elem_of_app. left. by apply Hc.
Qed.

Lemma queued_stop (update : Id) : keeps queued (stop update).
Proof.
  apply keeps_andThen; [apply queued_onUpdate|].
  apply keeps_when, queued_remove.
Qed.

Lemma queued_end (update : Id) : keeps queued (end_ update).
Proof. apply keeps_when, queued_stop. Qed.

Lemma queued_exec (e : Event) : keeps queued (exec e).
Proof.
  destruct e; cbn [exec].
  - apply queued_construct.
  - apply queued_remove.
  - apply queued_FUEL.
  - intros s Hs. unfold pauseQueue. destruct (isPaused s); [done|].
    unfold andThen, modify. cbn [currentUpdate setIsPaused].
    destruct (currentUpdate s); [|done].
    by apply (keeps_when queued _ _ (queued_pause i false)).
  - intros s Hs. unfold resumeQueue. destruct (negb (isPaused s)); [done|].
    match goal with
    | |- queued ((?a >> ?b >> ?c) s).1 =>
        cut (keeps queued (a >> b >> c)); [intros H; by apply H|]
    end.
    apply keeps_andThen; [by intros s' Hs'|].
    apply keeps_andThen;
      [destruct target; [apply queued_FUEL|by intros s' Hs']|].
    intros s' Hs'. destruct (currentUpdate s').
    + by apply (keeps_when queued _ _ (queued_resume i)).
    + by apply (keeps_when queued _ _ (proj1 queued_FUEL resumedByUser)).
  - intros s Hs. unfold pauseCurrentUpdate. destruct (bool_decide _).
    + destruct (currentUpdate s); [by apply queued_FUEL|done].
    + by apply queued_clearCurrentUpdate.
  - apply queued_FUEL.
  - intros s Hs. unfold onUpdateCompleted.
    match goal with
    | |- queued ((?a >> ?b) s).1 =>
        cut (keeps queued (a >> b)); [intros H; by apply H|]
    end.
    apply keeps_andThen.
    { intros s' Hs'. unfold clearCurrentUpdateCallbacks.
      by destruct (currentUpdate s'). }
    intros s' Hs'. destruct (currentUpdate s') as [update|]; [|done].
    match goal with
    | |- queued ((?a >> ?b >> ?c) s').1 =>
        cut (keeps queued (a >> b >> c)); [intros H; by apply H|]
    end.
    apply keeps_andThen; [apply queued_noCurrent|].
    apply keeps_andThen; [apply queued_remove|].
    apply keeps_when, queued_FUEL.
  - apply queued_FUEL.
  - apply queued_onUpdate.
  - apply queued_end.
  - apply queued_onUpdate.
  - apply queued_end.
  - apply queued_stop.
  - apply queued_onUpdate.
Qed.

(** X2: whatever the calls of the queue and the events of its updates,
    in any order and from an empty queue, no update is queued twice,
    every queued id is one that the constructor issued, and the current
    update, when there is one, is in the queue. *)
Theorem queue_members (isPaused0 : bool) (events : list Event) :
  queued (execAll events (emptyQueue isPaused0)).
Proof.
  assert (H : forall s, queued s -> queued (execAll events s)).
  { induction events as [|e events IH]; intros s Hs; [done|].
    cbn. apply IH. by apply queued_exec. }
  apply H. split; [apply NoDup_nil; done|]. split.
  - intros u Hu. by apply elem_of_nil in Hu.
  - by intros c [=].
Qed.


(** *** A paused queue *)

(** From [s] to [s'] the queue stays as paused as it was and no update
    is started or has its resume requested. *)
Definition nothingStarted (s s' : State) : Prop :=
  isPaused s' = isPaused s
  /\ (forall u, _isRunning (heap s' u) = true ->
                _isRunning (heap s u) = true)
  /\ (forall u, _isResuming (heap s' u) = true ->
                _isResuming (heap s u) = true).

Definition whilePaused (a : Action) : Prop :=
  forall s, isPaused s = true -> nothingStarted s (a s).1.

Lemma nothingStarted_refl (s : State) : nothingStarted s s.
Proof. done. Qed.

Lemma nothingStarted_trans (s1 s2 s3 : State) :
  nothingStarted s1 s2 -> nothingStarted s2 s3 -> nothingStarted s1 s3.
Proof.
  intros (Hp & Hr & Hres) (Hp' & Hr' & Hres'). split; [congruence|].
  split; intros u H; [by apply Hr, Hr'|by apply Hres, Hres'].
Qed.

Lemma whilePaused_andThen (a b : Action) :
  whilePaused a -> whilePaused b -> whilePaused (a >> b).
Proof.
  intros Ha Hb s Hs. unfold andThen. specialize (Ha s Hs).
  destruct (a s) as [s' o]. cbn [fst] in Ha.
  destruct o; [|done..].
  apply (nothingStarted_trans _ s'); [done|]. apply Hb.
  destruct Ha as [-> _]. done.
Qed.

Lemma whilePaused_when (c : State -> bool) (a : Action) :
  whilePaused a -> whilePaused (when c a).
Proof. intros Ha s Hs. unfold when. destruct (c s); [by apply Ha|done]. Qed.

(** What is done only when the queue is not paused is not done. *)
Lemma whilePaused_unlessPaused (c : State -> bool) (a : Action) :
  (forall s, isPaused s = true -> c s = false) -> whilePaused (when c a).
Proof. intros Hc s Hs. unfold when. by rewrite (Hc s Hs). Qed.

Lemma whilePaused_modify (f : State -> State) :
  (forall s, nothingStarted s (f s)) -> whilePaused (modify f).
Proof. intros Hf s _. apply Hf. Qed.

Lemma whilePaused_pause (this : Id) (pausedByUser : bool) :
  whilePaused (pause this pausedByUser).
Proof.
  intros s _. unfold pause.
  destruct (negb (isPauseAllowed (heap s this))); [done|].
  split; [done|]. split; intros u; cbn; by destruct (Nat.eqb u this).
Qed.

Lemma whilePaused_setIsQueued (this : Id) (value : bool) :
  whilePaused (setIsQueued this value).
Proof.
  apply whilePaused_modify. intros s.
  split; [done|]. split; intros u; cbn; by destruct (Nat.eqb u this).
Qed.

Lemma whilePaused_clearCurrentUpdate (pausedByUser : bool) :
  whilePaused (clearCurrentUpdate pausedByUser).
Proof.
  intros s Hs. unfold clearCurrentUpdate.
  destruct (currentUpdate s) as [c|] eqn:Hc; [|done].
  revert s Hs Hc.
  cut (whilePaused
         (clearCurrentUpdateCallbacks >>
          setIsQueued c true >>
          when (fun s => negb (_isPaused (heap s c)))
            (pause c pausedByUser) >>
          modify (setCurrentUpdate None))).
  { intros H s Hs _. by apply H. }
  apply whilePaused_andThen.
  { intros s _. unfold clearCurrentUpdateCallbacks.
    by destruct (currentUpdate s). }
  apply whilePaused_andThen; [apply whilePaused_setIsQueued|].
  apply whilePaused_andThen; [apply whilePaused_when, whilePaused_pause|].
  by apply whilePaused_modify.
Qed.

Lemma whilePaused_setIndex (fuel : nat) (update : Id) (newIndex : Z)
    (pausedByUser resumedByUser : bool) :
  whilePaused (setIndex fuel update newIndex pausedByUser resumedByUser).
Proof.
  intros s Hs. destruct fuel as [|fuel]; [done|]. cbn [setIndex].
  destruct (indexOf update (updates s)) as [currentIndex|]; [|done].
  destruct ((newIndex <? 0)
            || (Z.of_nat (length (updates s)) <=? newIndex))%Z; [done|].
  revert s Hs.
  apply whilePaused_andThen.
  { apply whilePaused_when. by apply whilePaused_modify. }
  apply whilePaused_when, whilePaused_andThen.
  - apply whilePaused_when, whilePaused_clearCurrentUpdate.
  - apply whilePaused_unlessPaused. by intros s ->.
Qed.

Lemma whilePaused_remove (update : Id) : whilePaused (remove update).
Proof.
  intros s Hs. unfold remove.
  destruct (isCurrentUpdate update s && _isRunning (heap s update));
    [done|].
  destruct (indexOf update (updates s)) as [index|]; [|done].
  revert s Hs.
  apply whilePaused_andThen; [by apply whilePaused_modify|].
  apply whilePaused_when, whilePaused_andThen.
  { intros s _. unfold clearCurrentUpdateCallbacks.
    by destruct (currentUpdate s). }
  apply whilePaused_andThen; [by apply whilePaused_modify|].
  apply whilePaused_unlessPaused. by intros s ->.
Qed.

Lemma whilePaused_construct (isPausedByUser : bool) :
  whilePaused (construct isPausedByUser).
Proof.
  intros s Hs. unfold construct, add, andThen, modify, when.
  cbn [updates currentUpdate isPaused heap updateId setUpdates].
  rewrite Hs, andb_false_r. cbn.
  split; [done|].
  split; intros u; cbn; destruct (Nat.eqb u (updateId s + 1)); done.
Qed.

(** The calls of the queue that add, remove or move an update or pause
    the queue. *)
Definition changesTheQueue (e : Event) : bool :=
  match e with
  | NewUpdate _ | Remove _ | SetIndex _ _ _ _ | Pause
  | PauseCurrentUpdate _ | ResumeUpdate _ _ | OnUpdateSetQueueIndex _ _ =>
      true
  | _ => false
  end.

(** X3: while the queue is paused, no call that adds, removes or moves
    an update starts one or requests the resume of one: the queue stays
    paused and no flag [_isRunning] or [_isResuming] is raised. *)
Theorem paused_queue_starts_nothing (e : Event) (s : State) :
  isPaused s = true -> changesTheQueue e = true ->
  nothingStarted s (exec e s).1.
Proof.
  intros Hs He. destruct e; try discriminate He; cbn [exec].
  - by apply whilePaused_construct.
  - by apply whilePaused_remove.
  - by apply whilePaused_setIndex.
  - unfold pauseQueue. by rewrite Hs.
  - unfold pauseCurrentUpdate. destruct (bool_decide _).
    + destruct (currentUpdate s); [by apply whilePaused_setIndex|done].
    + by apply whilePaused_clearCurrentUpdate.
  - by apply whilePaused_setIndex.
  - by apply whilePaused_setIndex.
Qed.

(** A queue with a running update, paused. *)
Definition pausedQueue : State := reached [NewUpdate false; Pause].

Lemma paused_queue_starts_nothing_witness :
  nothingStarted pausedQueue (exec (NewUpdate false) pausedQueue).1.
Proof.
  apply (paused_queue_starts_nothing (NewUpdate false) pausedQueue).
  - vm_compute. reflexivity.
  - reflexivity.
Defined.

(** *** Moving updates *)

Definition reorders (a : Action) : Prop :=
  forall s, updates (a s).1 ≡ₚ updates s.

Lemma reorders_andThen (a b : Action) :
  reorders a -> reorders b -> reorders (a >> b).
Proof.
  intros Ha Hb s. unfold andThen. specialize (Ha s).
  destruct (a s) as [s' o]. cbn [fst] in Ha.
  destruct o; [|done..]. by rewrite (Hb s').
Qed.

Lemma reorders_when (c : State -> bool) (a : Action) :
  reorders a -> reorders (when c a).
Proof. intros Ha s. unfold when. destruct (c s); [apply Ha|done]. Qed.

Lemma reorders_ifThenElse (c : State -> bool) (a b : Action) :
  reorders a -> reorders b -> reorders (ifThenElse c a b).
Proof.
  intros Ha Hb s. unfold ifThenElse. destruct (c s); [apply Ha|apply Hb].
Qed.

Lemma reorders_start (this : Id) : reorders (start this).
Proof.
  intros s. unfold start.
  by destruct (_isRunning (heap s this)), (_isStopped (heap s this)).
Qed.

Lemma reorders_pause (this : Id) (pausedByUser : bool) :
  reorders (pause this pausedByUser).
Proof.
  intros s. unfold pause. by destruct (negb (isPauseAllowed (heap s this))).
Qed.

Lemma reorders_resume (this : Id) : reorders (resume this).
Proof.
  intros s. unfold resume.
  by destruct (negb (isResumeAllowed (heap s this))).
Qed.

Lemma reorders_clearCurrentUpdate (pausedByUser : bool) :
  reorders (clearCurrentUpdate pausedByUser).
Proof.
  intros s.
  by destruct (clearCurrentUpdate_frame pausedByUser s) as [-> _].
Qed.

Lemma reorders_startFirst_setIndex (fuel : nat) :
  (forall resumedByUser,
      reorders (startFirstUpdateInQueue fuel resumedByUser))
  /\ (forall update newIndex pausedByUser resumedByUser,
         reorders (setIndex fuel update newIndex pausedByUser resumedByUser)).
Proof.
  induction fuel as [|fuel [IHstart IHset]]; [by split; intros; intros s|].
  split.
  - intros resumedByUser s. cbn [startFirstUpdateInQueue].
    destruct (updates s) as [|update rest] eqn:Hupd.
    { destruct resumedByUser; cbn; by rewrite Hupd. }
    rewrite <- Hupd.
    destruct (negb resumedByUser && _isPausedByUser (heap s update)).
    + destruct (find (canBeStarted s) (updates s)); [|done]. apply IHset.
    + revert s Hupd.
      cut (reorders
             (modify (setCurrentUpdate (Some update)) >>
              setIsQueued update false >>
              ifThenElse
                (fun s => _isRunning (heap s update)
                          && _isPaused (heap s update))
                (resume update) (start update))).
      { intros H s _. apply H. }
      apply reorders_andThen; [by intros s|].
      apply reorders_andThen; [by intros s|].
      apply reorders_ifThenElse; [apply reorders_resume|apply reorders_start].
  - intros update newIndex pausedByUser resumedByUser s. cbn [setIndex].
    destruct (indexOf update (updates s)) as [currentIndex|] eqn:Hidx;
      [|done].
    destruct ((newIndex <? 0)
              || (Z.of_nat (length (updates s)) <=? newIndex))%Z; [done|].
    assert (Hrest : reorders
              (when (fun _ => (newIndex =? 0)%Z || (currentIndex =? 0))
                 (when (fun s => bool_decide (is_Some (currentUpdate s)))
                    (clearCurrentUpdate pausedByUser) >>
                  when (fun s => negb (isPaused s))
                    (startFirstUpdateInQueue fuel resumedByUser)))).
    { apply reorders_when, reorders_andThen.
      - apply reorders_when, reorders_clearCurrentUpdate.
      - apply reorders_when, IHstart. }
    unfold andThen at 1. unfold when at 1. unfold modify.
    destruct (negb (currentIndex =? Z.to_nat newIndex)).
    + rewrite Hrest. cbn. by apply moved_perm.
    + apply Hrest.
Qed.

(** The calls that neither add nor remove an update, and the ends of a
    pause and of a resume. *)
Definition movesOnly (e : Event) : bool :=
  match e with
  | SetIndex _ _ _ _ | Pause | Resume _ _ | PauseCurrentUpdate _
  | ResumeUpdate _ _ | OnUpdateSetQueueIndex _ _ | PauseThen _ _
  | ResumeThen _ | LastActionDone _ => true
  | _ => false
  end.

(** X4: [setIndex], [resumeUpdate], [pauseCurrentUpdate], the ipc
    callback, [pause] and [resume] only reorder the queue, whether they
    return or throw: the queue holds the same updates afterwards, each
    as many times as before. *)
Theorem queue_is_only_reordered (e : Event) (s : State) :
  movesOnly e = true -> updates (exec e s).1 ≡ₚ updates s.
Proof.
  intros He. destruct e; try discriminate He; cbn [exec].
  - apply reorders_startFirst_setIndex.
  - unfold pauseQueue. destruct (isPaused s); [done|].
    unfold andThen, modify. cbn [currentUpdate setIsPaused].
    destruct (currentUpdate s); [|done].
    exact (reorders_when _ _ (reorders_pause i false) (setIsPaused true s)).
  - unfold resumeQueue. destruct (negb (isPaused s)); [done|].
    match goal with
    | |- updates ((?a >> ?b >> ?c) s).1 ≡ₚ _ =>
        cut (reorders (a >> b >> c)); [intros H; by apply H|]
    end.
    apply reorders_andThen; [by intros s'|].
    apply reorders_andThen;
      [destruct target; [apply reorders_startFirst_setIndex|by intros s']|].
    intros s'. destruct (currentUpdate s').
    + apply (reorders_when _ _ (reorders_resume i)).
    + apply reorders_when, reorders_startFirst_setIndex.
  - unfold pauseCurrentUpdate. destruct (bool_decide _).
    + destruct (currentUpdate s); [apply reorders_startFirst_setIndex|done].
    + apply reorders_clearCurrentUpdate.
  - apply reorders_startFirst_setIndex.
  - apply reorders_startFirst_setIndex.
  - done.
  - done.
  - done.
Qed.

Lemma queue_is_only_reordered_witness :
  updates (exec (SetIndex 2 0 false false)
             (reached [NewUpdate false; NewUpdate false])).1
  ≡ₚ updates (reached [NewUpdate false; NewUpdate false]).
Proof.
  apply (queue_is_only_reordered (SetIndex 2 0 false false)
           (reached [NewUpdate false; NewUpdate false])).
  reflexivity.
Defined.

(** *** Resuming an update *)

Lemma clearCurrentUpdate_flags (pausedByUser : bool) (s : State) :
  let r := clearCurrentUpdate pausedByUser s in
  (is_Some (currentUpdate s) -> r.2 = Returned)
  /\ (forall v, _isRunning (heap r.1 v) = _isRunning (heap s v))
  /\ (forall v, _isStopped (heap r.1 v) = _isStopped (heap s v))
  /\ (forall v, _isPaused (heap r.1 v) = _isPaused (heap s v))
  /\ (forall v, _isPausing (heap s v) = true ->
                _isPausing (heap r.1 v) = true)
  /\ (forall c, currentUpdate s = Some c ->
                _isRunning (heap s c) = true ->
                _isPaused (heap s c) = false ->
                _isPausing (heap r.1 c) = true).
Proof.
  unfold clearCurrentUpdate.
  destruct (currentUpdate s) as [c|] eqn:Hc.
  2:{ cbn. repeat split; try done; by intros [x [=]]. }
  unfold andThen, clearCurrentUpdateCallbacks, setIsQueued, when, pause,
    modify, isPauseAllowed, getPauseForbiddenReason.
  rewrite Hc. cbn [heap onUpdate]. rewrite !Nat.eqb_refl.
  cbn [_isRunning _isPaused _isPausing setQueued].
  destruct (_isRunning (heap s c)) eqn:Hr, (_isPaused (heap s c)) eqn:Hp,
    (_isPausing (heap s c)) eqn:Hg; cbn;
    (split; [done|]);
    (split; [intros v; destruct (Nat.eqb_spec v c) as [->|]; by cbn|]);
    (split; [intros v; destruct (Nat.eqb_spec v c) as [->|]; by cbn|]);
    (split; [intros v; destruct (Nat.eqb_spec v c) as [->|]; by cbn|]);
    (split; [intros v; destruct (Nat.eqb_spec v c) as [->|]; cbn;
             by rewrite ?Hg|]);
    intros c' [= <-]; rewrite ?Nat.eqb_refl; cbn; congruence.
Qed.

Lemma startFirst_byUser (fuel : nat) (s : State) (update : Id) :
  head (updates s) = Some update ->
  _isStopped (heap s update) = false ->
  let r := startFirstUpdateInQueue (S fuel) true s in
  r.2 = Returned
  /\ currentUpdate r.1 = Some update
  /\ updates r.1 = updates s
  /\ _isRunning (heap r.1 update) = true
  /\ isQueued (heap r.1 update) = false
  /\ (forall v, _isPausing (heap r.1 v) = _isPausing (heap s v)).
Proof.
  intros Hhead Hstopped. cbn [startFirstUpdateInQueue].
  destruct (updates s) as [|u rest] eqn:Hupd; [done|].
  injection Hhead as ->. cbn [negb andb].
  unfold andThen, modify, setIsQueued, ifThenElse, resume, start,
    isResumeAllowed, getResumeForbiddenReason, modify.
  cbn [heap onUpdate setCurrentUpdate]. rewrite !Nat.eqb_refl.
  cbn [_isRunning _isPaused _isResuming _isStopped setQueued].
  rewrite Hstopped.
  destruct (_isRunning (heap s update)) eqn:Hr,
    (_isPaused (heap s update)) eqn:Hp,
    (_isResuming (heap s update)) eqn:Hres; cbn;
    rewrite ?Nat.eqb_refl; cbn; rewrite ?Hr;
    (repeat split; try done);
    intros v; destruct (Nat.eqb_spec v update) as [->|]; by cbn.
Qed.

(** X5: [resumeUpdate] of a queued update that was not stopped, on a
    queue that is not paused, returns with this update at the head of
    the queue and current, not flagged as queued and running (started,
    or its resume requested). When the update was already the current
    one, running and not paused, the call requests its pause. *)
Theorem resumeUpdate_makes_current (update : Id) (s : State) :
  isPaused s = false ->
  update ∈ updates s ->
  _isStopped (heap s update) = false ->
  (resumeUpdate update true s).2 = Returned
  /\ currentUpdate (resumeUpdate update true s).1 = Some update
  /\ head (updates (resumeUpdate update true s).1) = Some update
  /\ _isRunning (heap (resumeUpdate update true s).1 update) = true
  /\ isQueued (heap (resumeUpdate update true s).1 update) = false
  /\ (currentUpdate s = Some update ->
      _isRunning (heap s update) = true ->
      _isPaused (heap s update) = false ->
      _isPausing (heap (resumeUpdate update true s).1 update) = true).
Proof.
  intros Hpaused Hin Hstopped.
  assert (Heq : exists s2,
    resumeUpdate update true s = startFirstUpdateInQueue 3 true s2
    /\ head (updates s2) = Some update
    /\ _isStopped (heap s2 update) = false
    /\ (currentUpdate s = Some update ->
        _isRunning (heap s update) = true ->
        _isPaused (heap s update) = false ->
        _isPausing (heap s2 update) = true)).
  { unfold resumeUpdate, FUEL. cbn [setIndex].
    destruct (indexOf_elem update _ Hin) as [currentIndex Hidx].
    rewrite Hidx.
    assert (Hlen : (Z.of_nat (length (updates s)) <=? 0)%Z = false).
    { apply Z.leb_gt. destruct (updates s); [by apply elem_of_nil in Hin|].
      cbn [length]. lia. }
    rewrite Hlen. cbn [Z.ltb Z.compare orb].
    change (Z.to_nat 0) with 0%nat. change (0 =? 0)%Z with true.
    cbn [orb].
    (* the state once the update is at the head of the queue *)
    assert (Hmoved : exists s1,
      (when (fun _ => negb (currentIndex =? 0))
         (modify (fun s => setUpdates
                    (spliceIn 0 update (spliceOut currentIndex (updates s)))
                    s)) s) = (s1, Returned)
      /\ head (updates s1) = Some update
      /\ heap s1 = heap s /\ isPaused s1 = false
      /\ currentUpdate s1 = currentUpdate s).
    { unfold when, modify. destruct (Nat.eqb_spec currentIndex 0) as [->|Hne].
      - exists s. repeat split; try done. by apply indexOf_head.
      - eexists. split; [reflexivity|]. by repeat split. }
    destruct Hmoved as (s1 & Hs1 & Hhead & Hheap & Hp1 & Hc1).
    unfold andThen at 1. rewrite Hs1. unfold when at 1.
    unfold andThen, when.
    pose proof (clearCurrentUpdate_flags false s1)
      as (Hret & Hrun & Hstop & Hpsd & Hpsg & Hreq).
    pose proof (clearCurrentUpdate_frame false s1) as (Hupd & Hpq & _).
    destruct (bool_decide_reflect (is_Some (currentUpdate s1)))
      as [Hsome|Hnone].
    - specialize (Hret Hsome).
      destruct (clearCurrentUpdate false s1) as [s2 o]. cbn [fst snd] in *.
      subst o. rewrite Hpq, Hp1. cbn [negb].
      exists s2. split; [done|]. split; [by rewrite Hupd|].
      split; [by rewrite Hstop, Hheap|].
      intros Hcur Hr Hp. apply Hreq.
      + by rewrite Hc1.
      + by rewrite Hheap.
      + by rewrite Hheap.
    - rewrite Hp1. cbn [negb].
      exists s1. split; [done|]. split; [done|].
      split; [by rewrite Hheap|].
      intros Hcur. destruct Hnone. rewrite Hc1, Hcur. by eexists. }
  destruct Heq as (s2 & -> & Hhead & Hstop & Hreq).
  destruct (startFirst_byUser 2 s2 update Hhead Hstop)
    as (H1 & H2 & H3 & H4 & H5 & H6).
  split; [done|]. split; [done|]. split; [by rewrite H3|].
  split; [done|]. split; [done|].
  intros Hcur Hr Hp. rewrite H6. by apply Hreq.
Qed.

Lemma resumeUpdate_makes_current_witness :
  (resumeUpdate 1 true (reached secondPromoted)).2 = Returned
  /\ currentUpdate (resumeUpdate 1 true (reached secondPromoted)).1 = Some 1
  /\ head (updates (resumeUpdate 1 true (reached secondPromoted)).1) = Some 1
  /\ _isRunning (heap (resumeUpdate 1 true (reached secondPromoted)).1 1)
     = true
  /\ isQueued (heap (resumeUpdate 1 true (reached secondPromoted)).1 1)
     = false
  /\ (currentUpdate (reached secondPromoted) = Some 1 ->
      _isRunning (heap (reached secondPromoted) 1) = true ->
      _isPaused (heap (reached secondPromoted) 1) = false ->
      _isPausing (heap (resumeUpdate 1 true (reached secondPromoted)).1 1)
      = true).
Proof.
  apply (resumeUpdate_makes_current 1 (reached secondPromoted)).
  - vm_compute. reflexivity.
  - assert (H : updates (reached secondPromoted) = [2; 1])
      by (vm_compute; reflexivity).
    rewrite H. set_solver.
  - vm_compute. reflexivity.
Defined.

End UpdateQueueFacts.
